(** * Selection evaluation (src/gromacs/selection/evaluate.cpp)

    A shallow embedding of the selection-tree evaluator: index groups,
    selection values and elements, the scoped memory guards, the frame
    lifecycle and the evaluation functions, followed by the properties
    established about them. *)

From Stdlib Require Import ZArith List Lia Bool.
From stdpp Require Import base option list sorting gmap strings.

Local Open Scope Z_scope.

(** ** Index groups

    [gmx_ana_index_t]: [isize] is the live length (the code also stores 0 to
    empty a group in place and uses a negative length for "all atoms"),
    [index] the atom indices, [name] the optional group name. *)

Record gmx_ana_index_t := {
  isize : Z;
  index : list Z;
  name : option string
}.

(** The live part of a group: the first [isize] entries of [index]. *)
Definition atoms (g : gmx_ana_index_t) : list Z :=
  take (Z.to_nat (isize g)) (index g).

(** [g->index[i]]; reads outside [0, isize) are not defined. *)
Definition index_at (g : gmx_ana_index_t) (i : Z) : option Z :=
  if bool_decide (0 <= i < isize g) then index g !! Z.to_nat i else None.

(** Data-model invariant of an index group: the stored length is the
    length of the index array and the indices are strictly increasing. *)
Definition index_wf (g : gmx_ana_index_t) : Prop :=
  isize g = Z.of_nat (length (index g)) /\ Sorted Z.lt (index g).

Definition group_of (nm : option string) (l : list Z) : gmx_ana_index_t :=
  {| isize := Z.of_nat (length l); index := l; name := nm |}.

(** Modelled from the spec: the index-group routines of indexutil.h
    (set, copy, intersection, difference, merge, partition, sort) are called
    by the evaluator but are not part of the sources. They follow section
    4.1 of the specification; every routine writes its destination and the
    model returns the destination's new contents. Only [copy] (which
    duplicates the source, name included) and [set] (which installs the
    given name) touch the destination's name. *)
Definition gmx_ana_index_set (n : Z) (idx : list Z) (nm : option string)
  : gmx_ana_index_t :=
  {| isize := n; index := idx; name := nm |}.

(** Modelled from the spec: [copy(dst, src)]. *)
Definition gmx_ana_index_copy (src : gmx_ana_index_t) : gmx_ana_index_t :=
  group_of (name src) (atoms src).

(** Modelled from the spec: [intersect(dst, a, b)]. *)
Definition gmx_ana_index_intersection (dest a b : gmx_ana_index_t)
  : gmx_ana_index_t :=
  group_of (name dest) (filter (λ x, x ∈ atoms b) (atoms a)).

(** Modelled from the spec: [difference(dst, a, b)], the part of [a] that
    is absent from [b]. *)
Definition gmx_ana_index_difference (dest a b : gmx_ana_index_t)
  : gmx_ana_index_t :=
  group_of (name dest) (filter (λ x, x ∉ atoms b) (atoms a)).

(** Modelled from the spec: [merge(dst, a, b)], the sorted union of two
    sorted groups (two-finger merge; the inputs are meant to be disjoint). *)
Definition gmx_ana_index_merge (dest a b : gmx_ana_index_t)
  : gmx_ana_index_t :=
  group_of (name dest) (list_merge Z.le (atoms a) (atoms b)).

(** Modelled from the spec: [partition(inside, outside, full, probe)]
    splits [full] into the part present in [probe] and the part absent
    from it. The routine lays [outside] out directly behind [inside] in the
    same array, which is what lets the OR evaluator extend its result by
    adding to [isize]. *)
Definition gmx_ana_index_partition (dest1 dest2 src g : gmx_ana_index_t)
  : gmx_ana_index_t * gmx_ana_index_t :=
  (group_of (name dest1) (filter (λ x, x ∈ atoms g) (atoms src)),
   group_of (name dest2) (filter (λ x, x ∉ atoms g) (atoms src))).

(** Modelled from the spec: [sort(g)]. *)
Definition gmx_ana_index_sort (g : gmx_ana_index_t) : gmx_ana_index_t :=
  group_of (name g) (merge_sort Z.le (atoms g)).

(** The set of atoms of a group. *)
Definition atomset (g : gmx_ana_index_t) : gset Z := list_to_set (atoms g).

(** ** Basic facts about the group algebra *)

Lemma atoms_group_of nm l : atoms (group_of nm l) = l.
Proof.
  unfold atoms, group_of; simpl. rewrite Nat2Z.id. apply firstn_all.
Qed.

Lemma isize_group_of nm l : isize (group_of nm l) = Z.of_nat (length l).
Proof. reflexivity. Qed.

Lemma atoms_wf g : index_wf g -> atoms g = index g.
Proof.
  intros [Hn _]. unfold atoms. rewrite Hn, Nat2Z.id. apply firstn_all.
Qed.

Lemma atoms_nil_of_isize g : isize g <= 0 -> atoms g = [].
Proof.
  intros H. unfold atoms. replace (Z.to_nat (isize g)) with 0%nat by lia.
  reflexivity.
Qed.

Lemma atomset_group_of nm l : atomset (group_of nm l) = list_to_set l.
Proof. unfold atomset. by rewrite atoms_group_of. Qed.

Lemma atomset_intersection d a b :
  atomset (gmx_ana_index_intersection d a b) = atomset a ∩ atomset b.
Proof.
  unfold gmx_ana_index_intersection. rewrite atomset_group_of.
  unfold atomset. apply set_eq. intros x.
  rewrite elem_of_list_to_set, list_elem_of_filter, elem_of_intersection,
    !elem_of_list_to_set. tauto.
Qed.

Lemma atomset_difference d a b :
  atomset (gmx_ana_index_difference d a b) = atomset a ∖ atomset b.
Proof.
  unfold gmx_ana_index_difference. rewrite atomset_group_of.
  unfold atomset. apply set_eq. intros x.
  rewrite elem_of_list_to_set, list_elem_of_filter, elem_of_difference,
    !elem_of_list_to_set. tauto.
Qed.

Lemma atomset_merge d a b :
  atomset (gmx_ana_index_merge d a b) = atomset a ∪ atomset b.
Proof.
  unfold gmx_ana_index_merge. rewrite atomset_group_of.
  unfold atomset. apply set_eq. intros x.
  rewrite elem_of_list_to_set, elem_of_union, !elem_of_list_to_set.
  rewrite (merge_Permutation Z.le (atoms a) (atoms b)), elem_of_app. tauto.
Qed.

Lemma atomset_copy g : atomset (gmx_ana_index_copy g) = atomset g.
Proof. unfold gmx_ana_index_copy. by rewrite atomset_group_of. Qed.

(** ** Value kinds, element kinds and flags *)

Inductive e_selvalue_t :=
  NO_VALUE | INT_VALUE | REAL_VALUE | STR_VALUE | POS_VALUE | GROUP_VALUE.

Inductive e_selelem_t :=
  SEL_CONST | SEL_EXPRESSION | SEL_BOOLEAN | SEL_ARITHMETIC
| SEL_ROOT | SEL_SUBEXPR | SEL_SUBEXPRREF | SEL_MODIFIER.

Inductive e_boolean_t := BOOL_NOT | BOOL_AND | BOOL_OR.

Inductive e_arithmetic_t :=
  ARITH_PLUS | ARITH_MINUS | ARITH_NEG | ARITH_MULT | ARITH_DIV | ARITH_EXP.

(** The evaluation functions a [t_selelem::evaluate] slot can point to. *)
Inductive sel_evalfunc :=
  EVAL_root | EVAL_static | EVAL_subexpr_simple | EVAL_subexpr_staticeval
| EVAL_subexpr | EVAL_subexprref_simple | EVAL_subexprref | EVAL_method
| EVAL_modifier | EVAL_not | EVAL_and | EVAL_or | EVAL_arithmetic.

#[global] Instance e_selvalue_t_eq_dec : EqDecision e_selvalue_t.
Proof. solve_decision. Defined.
#[global] Instance e_selelem_t_eq_dec : EqDecision e_selelem_t.
Proof. solve_decision. Defined.
#[global] Instance e_arithmetic_t_eq_dec : EqDecision e_arithmetic_t.
Proof. solve_decision. Defined.

(** Modelled from the spec: the flag constants are declared in selelem.h,
    which is not part of the sources. The flags field is a bitset with one
    bit per flag (section 3 of the specification); the bit positions chosen
    here only need to be distinct. *)
Definition SEL_SINGLEVAL : Z := 2.
Definition SEL_ATOMVAL : Z := 4.
Definition SEL_INITFRAME : Z := 1024.
Definition SEL_EVALFRAME : Z := 2048.

(** [flags & FLAG] used as a condition. *)
Definition has_flag (flags flag : Z) : bool := negb (Z.land flags flag =? 0).

(** Selection elements and value stores are referred to by address. *)
Definition selid := nat.
Definition loc := nat.

(** Exceptions and aborts of the evaluator. [InvalidMemoryAccess] stands for
    behaviour the C++ code leaves undefined (null dereference, a read
    outside an array or of a cell that was never written, a call through a
    null function pointer); [OutOfFuel] belongs to the model only. *)
Inductive gmx_exception :=
  NotImplementedError (msg : string)
| InternalError (msg : string)
| AssertionFailed (msg : string)
| InvalidMemoryAccess
| OutOfFuel.

(** ** External collaborators

    The floating-point type [real] with its arithmetic, the position
    containers, the topology, frame and periodic-boundary types, the opaque
    method data and the position-calculation engine are used by name only. *)
Class externals := {
  real : Type;
  real_zero : real;
  real_plus : real -> real -> real;
  real_minus : real -> real -> real;
  real_mult : real -> real -> real;
  real_div : real -> real -> real;
  real_pow : real -> real -> real;
  real_neg : real -> real;
  gmx_ana_pos_t : Type;
  t_topology : Type;
  t_trxframe : Type;
  t_pbc : Type;
  method_data : Type;
  gmx_ana_poscalc_t : Type;
  gmx_ana_poscalc_update :
    gmx_ana_poscalc_t -> gmx_ana_pos_t -> option gmx_ana_index_t ->
    t_trxframe -> option t_pbc -> gmx_ana_pos_t;
  gmx_ana_pos_reserve : Z -> gmx_ana_pos_t
}.

Section Evaluator.
Context {ext : externals}.

(** ** Values and elements *)

(** One cell of an [int], [real] or [char *] value array. *)
Inductive scalar := IntV (i : Z) | RealV (r : real) | StrV (s : string).

(** What a value pointer [v.u.ptr] points to: a value array (indexed
    cells; a cell that was never written is absent), an index group, or a
    position container. *)
Inductive storage :=
  SVec (cells : gmap Z scalar)
| SGroup (g : gmx_ana_index_t)
| SPos (p : gmx_ana_pos_t).

(** [gmx_ana_selvalue_t]: [vtype] is the field [type], [ptr] the union
    member [u.ptr] (its typed views [u.i], [u.r], [u.s], [u.p], [u.g] are
    the same pointer). *)
Record gmx_ana_selvalue_t := {
  vtype : e_selvalue_t;
  nr : Z;
  nalloc : Z;
  ptr : option loc
}.

(** What a method callback writes through its [out] value. *)
Inductive selvalue_out :=
  OutVec (vals : list scalar)
| OutGroup (l : list Z)
| OutPos (p : gmx_ana_pos_t).

(** [gmx_ana_selmethod_t]: the callbacks used by the evaluator. *)
Record gmx_ana_selmethod_t := {
  init_frame :
    option (t_topology -> t_trxframe -> option t_pbc ->
            method_data -> method_data);
  update :
    option (t_topology -> t_trxframe -> option t_pbc ->
            option gmx_ana_index_t -> method_data ->
            selvalue_out * method_data);
  pupdate :
    option (t_topology -> t_trxframe -> option t_pbc ->
            gmx_ana_pos_t -> method_data -> selvalue_out * method_data)
}.

(** [gmx_ana_selparam_t], as far as the evaluator touches it: [val.nr] and
    the target of [nvalptr] when that pointer is set. *)
Record gmx_ana_selparam_t := {
  val_nr : Z;
  nvalptr : option Z
}.

(** The [u.expr] payload. *)
Record selelem_expr := {
  method : option gmx_ana_selmethod_t;
  mdata : method_data;
  pc : option gmx_ana_poscalc_t;
  pos : gmx_ana_pos_t
}.

(** The union [t_selelem::u]. *)
Inductive selelem_u :=
  U_cgrp (cgrp : gmx_ana_index_t)
| U_expr (expr : selelem_expr)
| U_boolt (boolt : e_boolean_t)
| U_arith (arith : e_arithmetic_t)
| U_param (param : option gmx_ana_selparam_t).

Record t_selelem := {
  type : e_selelem_t;
  v : gmx_ana_selvalue_t;
  flags : Z;
  child : option selid;
  next : option selid;
  evaluate : option sel_evalfunc;
  mempool : bool;
  u : selelem_u
}.

Definition set_v (e : t_selelem) (x : gmx_ana_selvalue_t) : t_selelem :=
  {| type := type e; v := x; flags := flags e; child := child e;
     next := next e; evaluate := evaluate e; mempool := mempool e; u := u e |}.

Definition set_flags (e : t_selelem) (f : Z) : t_selelem :=
  {| type := type e; v := v e; flags := f; child := child e;
     next := next e; evaluate := evaluate e; mempool := mempool e; u := u e |}.

Definition set_u (e : t_selelem) (x : selelem_u) : t_selelem :=
  {| type := type e; v := v e; flags := flags e; child := child e;
     next := next e; evaluate := evaluate e; mempool := mempool e; u := x |}.

Definition set_nr (x : gmx_ana_selvalue_t) (n : Z) : gmx_ana_selvalue_t :=
  {| vtype := vtype x; nr := n; nalloc := nalloc x; ptr := ptr x |}.

Definition set_store (x : gmx_ana_selvalue_t) (p : option loc) (na : Z)
  : gmx_ana_selvalue_t :=
  {| vtype := vtype x; nr := nr x; nalloc := na; ptr := p |}.

Definition set_name (g : gmx_ana_index_t) (nm : option string)
  : gmx_ana_index_t :=
  {| isize := isize g; index := index g; name := nm |}.

Definition set_isize (g : gmx_ana_index_t) (n : Z) : gmx_ana_index_t :=
  {| isize := n; index := index g; name := name g |}.

(** [gmx_sel_evaluate_t], the per-frame context (the memory pool is the
    [heap] of the evaluation state). *)
Record gmx_sel_evaluate_t := {
  gall : gmx_ana_index_t;
  top : t_topology;
  fr : t_trxframe;
  pbc : option t_pbc
}.

(** Calls made into method plugins, in order. *)
Inductive callback :=
  CallInitFrame (sel : selid)
| CallUpdate (sel : selid) (g : option gmx_ana_index_t)
| CallPUpdate (sel : selid).

(** The memory the evaluator works on: the selection elements, the value
    stores they point to, and the record of plugin calls made so far. *)
Record evalstate := {
  elems : gmap selid t_selelem;
  heap : gmap loc storage;
  calls : list callback
}.

(** ** The evaluation monad: state with exceptions *)

Inductive outcome (A : Type) :=
  Ok (a : A) (st : evalstate)
| Throw (e : gmx_exception).
Arguments Ok {A} a st.
Arguments Throw {A} e.

Definition M (A : Type) : Type := evalstate -> outcome A.

Definition ret {A} (a : A) : M A := fun st => Ok a st.
Definition throw {A} (e : gmx_exception) : M A := fun _ => Throw e.
Definition bind {A B} (m : M A) (k : A -> M B) : M B :=
  fun st => match m st with Ok a st' => k a st' | Throw e => Throw e end.

Notation "'do' x <- m ; k" := (bind m (fun x => k))
  (at level 10, x name, m at level 100, k at level 200).
Notation "'exec' m ; k" := (bind m (fun _ => k))
  (at level 10, m at level 100, k at level 200).

(** Dereferencing a pointer that may be null. *)
Definition deref {A} (p : option A) : M A :=
  match p with Some a => ret a | None => throw InvalidMemoryAccess end.

Definition get_elem (sel : selid) : M t_selelem :=
  fun st => match elems st !! sel with
            | Some e => Ok e st
            | None => Throw InvalidMemoryAccess
            end.

Definition put_elem (sel : selid) (e : t_selelem) : M unit :=
  fun st => Ok tt {| elems := <[sel := e]> (elems st); heap := heap st;
                     calls := calls st |}.

Definition load (l : loc) : M storage :=
  fun st => match heap st !! l with
            | Some s => Ok s st
            | None => Throw InvalidMemoryAccess
            end.

Definition store (l : loc) (s : storage) : M unit :=
  fun st => Ok tt {| elems := elems st; heap := <[l := s]> (heap st);
                     calls := calls st |}.

(** A fresh store from the pool. *)
Definition alloc (s : storage) : M loc :=
  fun st => let l := fresh (dom (heap st)) in
            Ok l {| elems := elems st; heap := <[l := s]> (heap st);
                    calls := calls st |}.

Definition free (l : loc) : M unit :=
  fun st => Ok tt {| elems := elems st; heap := delete l (heap st);
                     calls := calls st |}.

Definition emit (c : callback) : M unit :=
  fun st => Ok tt {| elems := elems st; heap := heap st;
                     calls := calls st ++ [c] |}.

(** Field accessors in the style of the source. *)
Definition sel_child (sel : selid) : M selid :=
  do e <- get_elem sel; deref (child e).

Definition sel_v (sel : selid) : M gmx_ana_selvalue_t :=
  do e <- get_elem sel; ret (v e).

Definition sel_flags (sel : selid) : M Z :=
  do e <- get_elem sel; ret (flags e).

Definition set_sel_v (sel : selid) (x : gmx_ana_selvalue_t) : M unit :=
  do e <- get_elem sel; put_elem sel (set_v e x).

(** [sel->v.nr = n] *)
Definition set_sel_nr (sel : selid) (n : Z) : M unit :=
  do e <- get_elem sel; put_elem sel (set_v e (set_nr (v e) n)).

Definition set_sel_flags (sel : selid) (f : Z) : M unit :=
  do e <- get_elem sel; put_elem sel (set_flags e f).

(** [sel->u.cgrp]; the union must hold a group. *)
Definition sel_cgrp (sel : selid) : M gmx_ana_index_t :=
  do e <- get_elem sel;
  match u e with U_cgrp g => ret g | _ => throw InvalidMemoryAccess end.

(** Writing [sel->u.cgrp]; like a read, a write goes through the member the
    union holds. *)
Definition set_sel_cgrp (sel : selid) (g : gmx_ana_index_t) : M unit :=
  do e <- get_elem sel;
  match u e with
  | U_cgrp _ => put_elem sel (set_u e (U_cgrp g))
  | _ => throw InvalidMemoryAccess
  end.

(** [sel->u.expr] *)
Definition sel_expr (sel : selid) : M selelem_expr :=
  do e <- get_elem sel;
  match u e with U_expr x => ret x | _ => throw InvalidMemoryAccess end.

Definition set_sel_expr (sel : selid) (x : selelem_expr) : M unit :=
  do e <- get_elem sel;
  match u e with
  | U_expr _ => put_elem sel (set_u e (U_expr x))
  | _ => throw InvalidMemoryAccess
  end.

(** [sel->u.arith.type] *)
Definition sel_arith (sel : selid) : M e_arithmetic_t :=
  do e <- get_elem sel;
  match u e with U_arith a => ret a | _ => throw InvalidMemoryAccess end.

(** [*sel->v.u.g] *)
Definition sel_vgroup (sel : selid) : M gmx_ana_index_t :=
  do x <- sel_v sel;
  do l <- deref (ptr x);
  do s <- load l;
  match s with SGroup g => ret g | _ => throw InvalidMemoryAccess end.

Definition set_sel_vgroup (sel : selid) (g : gmx_ana_index_t) : M unit :=
  do x <- sel_v sel;
  do l <- deref (ptr x);
  do s <- load l;
  match s with
  | SGroup _ => store l (SGroup g)
  | _ => throw InvalidMemoryAccess
  end.

(** [sel->v.u.i[k]], [sel->v.u.r[k]], [sel->v.u.s[k]] as a read. *)
Definition vec_get (sel : selid) (k : Z) : M scalar :=
  do x <- sel_v sel;
  do l <- deref (ptr x);
  do s <- load l;
  match s with
  | SVec cells => deref (cells !! k)
  | _ => throw InvalidMemoryAccess
  end.

(** ... and as an assignment. *)
Definition vec_set (sel : selid) (k : Z) (x : scalar) : M unit :=
  do xv <- sel_v sel;
  do l <- deref (ptr xv);
  do s <- load l;
  match s with
  | SVec cells => store l (SVec (<[k := x]> cells))
  | _ => throw InvalidMemoryAccess
  end.

(** [g->index[i]] *)
Definition index_read (g : gmx_ana_index_t) (i : Z) : M Z :=
  deref (index_at g i).


(** ** Value stores and scoped guards

    Modelled from the spec: [_gmx_selvalue_setstore],
    [_gmx_selvalue_setstore_alloc], [_gmx_selelem_mempool_reserve] and
    [_gmx_selelem_mempool_release] live in selvalue.h, selelem.h and
    mempool.h, which are not part of the sources. They follow section 4.2 of
    the specification and the documentation of the guard classes in
    evaluate.cpp: a reservation sizes fresh storage of the element's value
    kind for [count] values, a release returns it. *)

(** Modelled from the spec: point the value at [p]; the capacity of a store
    that is not owned is unknown (-1), that of a null store is 0. *)
Definition _gmx_selvalue_setstore (sel : selid) (p : option loc) : M unit :=
  do x <- sel_v sel;
  set_sel_v sel (set_store x p (if p is Some _ then -1 else 0)).

(** Modelled from the spec: point the value at [p] with capacity [na]. *)
Definition _gmx_selvalue_setstore_alloc (sel : selid) (p : option loc)
    (na : Z) : M unit :=
  do x <- sel_v sel;
  set_sel_v sel (set_store x p na).

(** Modelled from the spec: reserve storage for [count] values of the
    element's kind. Value arrays and position containers get a fresh store;
    an index group keeps its structure and gets a fresh, empty index
    array. *)
Definition _gmx_selelem_mempool_reserve (sel : selid) (count : Z) : M unit :=
  do x <- sel_v sel;
  match vtype x with
  | INT_VALUE | REAL_VALUE | STR_VALUE =>
      do l <- alloc (SVec ∅);
      set_sel_v sel (set_store x (Some l) (nalloc x))
  | POS_VALUE =>
      do l <- alloc (SPos (gmx_ana_pos_reserve count));
      set_sel_v sel (set_store x (Some l) (nalloc x))
  | GROUP_VALUE =>
      do g <- sel_vgroup sel;
      set_sel_vgroup sel {| isize := isize g; index := []; name := name g |}
  | NO_VALUE => ret tt
  end.

(** Modelled from the spec: return the reserved storage. *)
Definition _gmx_selelem_mempool_release (sel : selid) : M unit :=
  do x <- sel_v sel;
  match vtype x with
  | INT_VALUE | REAL_VALUE | STR_VALUE | POS_VALUE =>
      do l <- deref (ptr x);
      exec free l;
      _gmx_selvalue_setstore sel None
  | GROUP_VALUE =>
      do g <- sel_vgroup sel;
      set_sel_vgroup sel {| isize := isize g; index := []; name := name g |}
  | NO_VALUE => ret tt
  end.

(** [MempoolSelelemReserver reserver(sel, count); body]: the reservation
    lives for the enclosing block. An exception leaves the block through
    [Throw]; the state of a failed evaluation is not kept. *)
Definition MempoolSelelemReserver {A} (sel : selid) (count : Z)
    (body : M A) : M A :=
  exec _gmx_selelem_mempool_reserve sel count;
  do r <- body;
  exec _gmx_selelem_mempool_release sel;
  ret r.

(** [SelelemTemporaryValueAssigner::assign]: returns what the destructor
    needs ([old_ptr_], [old_nalloc_]). *)
Definition assigner_assign (sel vsource : selid)
  : M (option loc * Z) :=
  do x <- sel_v sel;
  do xs <- sel_v vsource;
  if decide (vtype x = vtype xs) then
    exec _gmx_selvalue_setstore sel (ptr xs);
    ret (ptr x, nalloc x)
  else throw (AssertionFailed "Mismatching selection value types").

(** [~SelelemTemporaryValueAssigner] *)
Definition assigner_restore (sel : selid) (old : option loc * Z) : M unit :=
  _gmx_selvalue_setstore_alloc sel (fst old) (snd old).

(** [SelelemTemporaryValueAssigner assigner(sel, vsource); body] *)
Definition SelelemTemporaryValueAssigner {A} (sel vsource : selid)
    (body : M A) : M A :=
  do old <- assigner_assign sel vsource;
  do r <- body;
  exec assigner_restore sel old;
  ret r.

(** Storing the number of values into the parameter of a reference
    (the tail of both [_gmx_sel_evaluate_subexprref] functions). *)
Definition store_param_nr (sel : selid) : M unit :=
  do e <- get_elem sel;
  match u e with
  | U_param (Some p) =>
      let n := nr (v e) in
      put_elem sel (set_u e (U_param (Some
        {| val_nr := n;
           nvalptr := match nvalptr p with Some _ => Some n | None => None end
        |})))
  | U_param None => ret tt
  | _ => throw InvalidMemoryAccess
  end.

(** ** Evaluation functions

    Every function takes [ev], the call through a [t_selelem::evaluate]
    pointer, and [data], the frame context. Functions that walk a sibling
    list take the number of steps they may make as [fuel]. *)

Section Functions.
Variable ev : selid -> option gmx_ana_index_t -> M unit.
Variable data : gmx_sel_evaluate_t.

(** [_gmx_sel_evaluate_children] *)
Fixpoint evaluate_children_from (fuel : nat) (child : option selid)
    (g : option gmx_ana_index_t) : M unit :=
  match child with
  | None => ret tt
  | Some c =>
      match fuel with
      | O => throw OutOfFuel
      | S fuel' =>
          do ce <- get_elem c;
          exec (if evaluate ce is Some _ then ev c g else ret tt);
          do ce' <- get_elem c;
          evaluate_children_from fuel' (next ce') g
      end
  end.

Definition _gmx_sel_evaluate_children (fuel : nat) (sel : selid)
    (g : option gmx_ana_index_t) : M unit :=
  do e <- get_elem sel;
  evaluate_children_from fuel (child e) g.

(** [_gmx_sel_evaluate_root] *)
Definition _gmx_sel_evaluate_root (sel : selid)
    (g : option gmx_ana_index_t) : M unit :=
  do cgrp <- sel_cgrp sel;
  if isize cgrp =? 0 then ret tt
  else
    do c <- sel_child sel;
    do ce <- get_elem c;
    if evaluate ce is Some _ then
      ev c (if isize cgrp <? 0 then None else Some cgrp)
    else ret tt.

(** [_gmx_sel_evaluate_static] *)
Definition _gmx_sel_evaluate_static (sel : selid)
    (g : option gmx_ana_index_t) : M unit :=
  do vg <- sel_vgroup sel;
  do cgrp <- sel_cgrp sel;
  do g' <- deref g;
  set_sel_vgroup sel (gmx_ana_index_intersection vg cgrp g').

(** [_gmx_sel_evaluate_subexpr_simple] *)
Definition _gmx_sel_evaluate_subexpr_simple (sel : selid)
    (g : option gmx_ana_index_t) : M unit :=
  do c <- sel_child sel;
  do ce <- get_elem c;
  exec (if evaluate ce is Some _ then ev c g else ret tt);
  do cv <- sel_v c;
  set_sel_nr sel (nr cv).

(** [_gmx_sel_evaluate_subexpr_staticeval] *)
Definition _gmx_sel_evaluate_subexpr_staticeval (sel : selid)
    (g : option gmx_ana_index_t) : M unit :=
  do cgrp <- sel_cgrp sel;
  if isize cgrp =? 0 then
    do c <- sel_child sel;
    exec ev c g;
    do cv <- sel_v c;
    exec set_sel_nr sel (nr cv);
    do g' <- deref g;
    do cgrp' <- sel_cgrp sel;
    set_sel_cgrp sel (gmx_ana_index_set (isize g') (index g') (name cgrp'))
  else ret tt.

(** The merge loop of [_gmx_sel_evaluate_subexpr], shared by the
    [INT_VALUE], [REAL_VALUE] and [STR_VALUE] cases of its switch: [n] is
    the number of iterations left ([k + 1]). *)
Fixpoint subexpr_merge_values (n : nat) (sel : selid)
    (gmiss : gmx_ana_index_t) (i j k : Z) : M unit :=
  match n with
  | O => ret tt
  | S n' =>
      do cgrp <- sel_cgrp sel;
      do from_j <-
        (if i <? 0 then ret true
         else if 0 <=? j then
           do a <- index_read cgrp i;
           do b <- index_read gmiss j;
           ret (a <? b)
         else ret false);
      if from_j : bool then
        do x <- vec_get sel j;
        exec vec_set sel k x;
        subexpr_merge_values n' sel gmiss i (j - 1) (k - 1)
      else
        do c <- sel_child sel;
        do x <- vec_get c i;
        exec vec_set sel k x;
        subexpr_merge_values n' sel gmiss (i - 1) j (k - 1)
  end.

(** [_gmx_sel_evaluate_subexpr] *)
Definition _gmx_sel_evaluate_subexpr (sel : selid)
    (g : option gmx_ana_index_t) : M unit :=
  let gmiss0 := {| isize := 0; index := []; name := None |} in
  do cgrp <- sel_cgrp sel;
  do gmiss <-
    (if isize cgrp =? 0 then
       do c <- sel_child sel;
       exec SelelemTemporaryValueAssigner c sel (ev c g);
       do cgrp1 <- sel_cgrp sel;
       let name1 := name cgrp1 in
       do g' <- deref g;
       exec set_sel_cgrp sel (gmx_ana_index_copy g');
       do cgrp2 <- sel_cgrp sel;
       exec set_sel_cgrp sel (set_name cgrp2 name1);
       ret (set_isize gmiss0 0)
     else
       do g' <- deref g;
       ret (gmx_ana_index_difference gmiss0 g' cgrp));
  if 0 <? isize gmiss then
    do c <- sel_child sel;
    MempoolSelelemReserver c (isize gmiss) (
      exec ev c (Some gmiss);
      do x <- sel_v sel;
      exec (if decide (vtype x = GROUP_VALUE) then
              do cg <- sel_vgroup c;
              do sg <- sel_vgroup sel;
              set_sel_vgroup sel (gmx_ana_index_merge sg cg sg)
            else
              do cgrp' <- sel_cgrp sel;
              let i := isize cgrp' - 1 in
              let j := isize gmiss - 1 in
              let k := isize cgrp' + isize gmiss - 1 in
              match vtype x with
              | INT_VALUE | REAL_VALUE | STR_VALUE =>
                  subexpr_merge_values (Z.to_nat (k + 1)) sel gmiss i j k
              | POS_VALUE =>
                  throw (NotImplementedError
                    "position subexpressions not implemented properly")
              | NO_VALUE | GROUP_VALUE =>
                  throw (InternalError "Invalid subexpression type")
              end);
      do cgrp' <- sel_cgrp sel;
      set_sel_cgrp sel (gmx_ana_index_merge cgrp' cgrp' gmiss))
  else ret tt.

(** [_gmx_sel_evaluate_subexprref_simple] *)
Definition _gmx_sel_evaluate_subexprref_simple (sel : selid)
    (g : option gmx_ana_index_t) : M unit :=
  exec (if g is Some _ then
          do x <- sel_v sel;
          do c <- sel_child sel;
          exec _gmx_selvalue_setstore c (ptr x);
          do cc <- sel_child c;
          do ccv <- sel_v cc;
          exec _gmx_selvalue_setstore_alloc cc (ptr x) (nalloc ccv);
          ev c g
        else ret tt);
  do c <- sel_child sel;
  do cv <- sel_v c;
  exec set_sel_nr sel (nr cv);
  store_param_nr sel.

(** The inner [while] of the extraction loops of
    [_gmx_sel_evaluate_subexprref]: advance [j] while
    [sel->child->u.cgrp.index[j] < x]. A read past the end of the cached
    group stops the model, so [isize cgrp] steps always suffice. *)
Fixpoint subexprref_skip (fuel : nat) (sel : selid) (x j : Z) : M Z :=
  do c <- sel_child sel;
  do cgrp <- sel_cgrp c;
  do a <- index_read cgrp j;
  if a <? x then
    match fuel with
    | O => throw OutOfFuel
    | S fuel' => subexprref_skip fuel' sel x (j + 1)
    end
  else ret j.

(** The extraction loop, shared by the three array-valued cases: [n] is
    the number of iterations left ([g->isize - i]). *)
Fixpoint subexprref_extract (n : nat) (sel expr : selid)
    (g : gmx_ana_index_t) (i j : Z) : M unit :=
  match n with
  | O => ret tt
  | S n' =>
      do x <- index_read g i;
      do c <- sel_child sel;
      do cgrp <- sel_cgrp c;
      do j' <- subexprref_skip (Z.to_nat (isize cgrp)) sel x j;
      do y <- vec_get expr j';
      exec vec_set sel i y;
      subexprref_extract n' sel expr g (i + 1) (j' + 1)
  end.

(** [memcpy(sel->v.u.i, expr->v.u.i, n * sizeof(...))] *)
Fixpoint vec_memcpy (n : nat) (sel expr : selid) (i : Z) : M unit :=
  match n with
  | O => ret tt
  | S n' =>
      do y <- vec_get expr i;
      exec vec_set sel i y;
      vec_memcpy n' sel expr (i + 1)
  end.

(** Modelled from the spec: [gmx_ana_pos_copy] is a straight copy of the
    position container (poscalc.h is not part of the sources). *)
Definition gmx_ana_pos_copy (sel expr : selid) : M unit :=
  do x <- sel_v sel;
  do l <- deref (ptr x);
  do s <- load l;
  do xe <- sel_v expr;
  do le <- deref (ptr xe);
  do se <- load le;
  match s, se with
  | SPos _, SPos p => store l (SPos p)
  | _, _ => throw InvalidMemoryAccess
  end.

(** [_gmx_sel_evaluate_subexprref] *)
Definition _gmx_sel_evaluate_subexprref (sel : selid)
    (g : option gmx_ana_index_t) : M unit :=
  exec (if g is Some _ then do c <- sel_child sel; ev c g else ret tt);
  do expr <- sel_child sel;
  do x <- sel_v sel;
  exec match vtype x with
       | INT_VALUE | REAL_VALUE | STR_VALUE =>
           match g with
           | None =>
               do xe <- sel_v expr;
               exec set_sel_nr sel (nr xe);
               vec_memcpy (Z.to_nat (nr xe)) sel expr 0
           | Some g' =>
               exec set_sel_nr sel (isize g');
               subexprref_extract (Z.to_nat (isize g')) sel expr g' 0 0
           end
       | POS_VALUE => gmx_ana_pos_copy sel expr
       | GROUP_VALUE =>
           do vg <- sel_vgroup sel;
           do eg <- sel_vgroup expr;
           match g with
           | None => set_sel_vgroup sel (gmx_ana_index_copy eg)
           | Some g' =>
               set_sel_vgroup sel (gmx_ana_index_intersection vg eg g')
           end
       | NO_VALUE =>
           throw (InternalError "Invalid subexpression reference type")
       end;
  store_param_nr sel.

(** [_gmx_sel_evaluate_method_params] *)
Fixpoint method_params_from (fuel : nat) (child : option selid)
    (g : option gmx_ana_index_t) : M unit :=
  match child with
  | None => ret tt
  | Some c =>
      match fuel with
      | O => throw OutOfFuel
      | S fuel' =>
          do ce <- get_elem c;
          exec (if evaluate ce is Some _ then
                  if has_flag (flags ce) SEL_EVALFRAME then ret tt
                  else if has_flag (flags ce) SEL_ATOMVAL then ev c g
                  else
                    exec set_sel_flags c (Z.lor (flags ce) SEL_EVALFRAME);
                    ev c None
                else ret tt);
          do ce' <- get_elem c;
          method_params_from fuel' (next ce') g
      end
  end.

Definition _gmx_sel_evaluate_method_params (fuel : nat) (sel : selid)
    (g : option gmx_ana_index_t) : M unit :=
  do e <- get_elem sel;
  method_params_from fuel (child e) g.

(** What a method callback leaves in [out] (the element's value): the
    values of an array with their count, the atoms of a group, or a
    position container. The store itself is not reallocated. *)
Definition write_out (sel : selid) (out : selvalue_out) : M unit :=
  do x <- sel_v sel;
  do l <- deref (ptr x);
  do s <- load l;
  match out, s with
  | OutVec vals, SVec cells =>
      exec store l (SVec (foldr (λ '(k, y) m, <[k := y]> m) cells
                           (zip (seqZ 0 (Z.of_nat (length vals))) vals)));
      set_sel_nr sel (Z.of_nat (length vals))
  | OutGroup atoms', SGroup g0 => store l (SGroup (group_of (name g0) atoms'))
  | OutPos p, SPos _ => store l (SPos p)
  | _, _ => throw InvalidMemoryAccess
  end.

(** [sel->u.expr.mdata] and [*sel->u.expr.pos] are updated in place. *)
Definition set_sel_mdata (sel : selid) (md : method_data) : M unit :=
  do x <- sel_expr sel;
  set_sel_expr sel
    {| method := method x; mdata := md; pc := pc x; pos := pos x |}.

Definition set_sel_pos (sel : selid) (p : gmx_ana_pos_t) : M unit :=
  do x <- sel_expr sel;
  set_sel_expr sel
    {| method := method x; mdata := mdata x; pc := pc x; pos := p |}.

(** The block shared by [_gmx_sel_evaluate_method] and
    [_gmx_sel_evaluate_modifier]: first-touch initialisation. *)
Definition method_init_frame (sel : selid) : M unit :=
  do f <- sel_flags sel;
  if has_flag f SEL_INITFRAME then
    exec set_sel_flags sel (Z.land f (Z.lnot SEL_INITFRAME));
    do x <- sel_expr sel;
    do m <- deref (method x);
    do cb <- deref (init_frame m);
    exec emit (CallInitFrame sel);
    set_sel_mdata sel (cb (top data) (fr data) (pbc data) (mdata x))
  else ret tt.

(** [_gmx_sel_evaluate_method] *)
Definition _gmx_sel_evaluate_method (fuel : nat) (sel : selid)
    (g : option gmx_ana_index_t) : M unit :=
  exec _gmx_sel_evaluate_method_params fuel sel g;
  exec method_init_frame sel;
  do x <- sel_expr sel;
  match pc x with
  | Some calc =>
      let p := gmx_ana_poscalc_update calc (pos x) g (fr data) (pbc data) in
      exec set_sel_pos sel p;
      do m <- deref (method x);
      do cb <- deref (pupdate m);
      exec emit (CallPUpdate sel);
      let '(out, md) := cb (top data) (fr data) (pbc data) p (mdata x) in
      exec write_out sel out;
      set_sel_mdata sel md
  | None =>
      do m <- deref (method x);
      do cb <- deref (update m);
      exec emit (CallUpdate sel g);
      let '(out, md) := cb (top data) (fr data) (pbc data) g (mdata x) in
      exec write_out sel out;
      set_sel_mdata sel md
  end.

(** [sel->child->v.u.p] *)
Definition sel_vpos (sel : selid) : M gmx_ana_pos_t :=
  do x <- sel_v sel;
  do l <- deref (ptr x);
  do s <- load l;
  match s with SPos p => ret p | _ => throw InvalidMemoryAccess end.

(** [_gmx_sel_evaluate_modifier] *)
Definition _gmx_sel_evaluate_modifier (fuel : nat) (sel : selid)
    (g : option gmx_ana_index_t) : M unit :=
  exec _gmx_sel_evaluate_method_params fuel sel g;
  exec method_init_frame sel;
  do e <- get_elem sel;
  match child e with
  | None =>
      throw (AssertionFailed "Modifier element with a value must have a child")
  | Some c =>
      do cv <- sel_v c;
      if decide (vtype cv = POS_VALUE) then
        do x <- sel_expr sel;
        do m <- deref (method x);
        do cb <- deref (pupdate m);
        do p <- sel_vpos c;
        exec emit (CallPUpdate sel);
        let '(out, md) := cb (top data) (fr data) (pbc data) p (mdata x) in
        exec write_out sel out;
        set_sel_mdata sel md
      else
        throw (NotImplementedError
          "Non-position valued modifiers not implemented")
  end.

(** [_gmx_sel_evaluate_not] *)
Definition _gmx_sel_evaluate_not (sel : selid)
    (g : option gmx_ana_index_t) : M unit :=
  do c <- sel_child sel;
  do g' <- deref g;
  MempoolSelelemReserver c (isize g') (
    exec ev c g;
    do vg <- sel_vgroup sel;
    do cg <- sel_vgroup c;
    set_sel_vgroup sel (gmx_ana_index_difference vg g' cg)).

(** The [while] loop of [_gmx_sel_evaluate_and]. *)
Fixpoint and_loop (fuel : nat) (sel : selid) (child : option selid)
  : M unit :=
  match child with
  | None => ret tt
  | Some c =>
      do vg <- sel_vgroup sel;
      if 0 <? isize vg then
        match fuel with
        | O => throw OutOfFuel
        | S fuel' =>
            exec MempoolSelelemReserver c (isize vg) (
              exec ev c (Some vg);
              do vg' <- sel_vgroup sel;
              do cg <- sel_vgroup c;
              set_sel_vgroup sel (gmx_ana_index_intersection vg' vg' cg));
            do ce <- get_elem c;
            and_loop fuel' sel (next ce)
        end
      else ret tt
  end.

(** [_gmx_sel_evaluate_and] *)
Definition _gmx_sel_evaluate_and (fuel : nat) (sel : selid)
    (g : option gmx_ana_index_t) : M unit :=
  do c0 <- sel_child sel;
  do ce0 <- get_elem c0;
  do c <- (if evaluate ce0 is Some _ then ret c0 else deref (next ce0));
  do g' <- deref g;
  exec MempoolSelelemReserver c (isize g') (
    exec ev c g;
    do cg <- sel_vgroup c;
    set_sel_vgroup sel (gmx_ana_index_copy cg));
  do ce <- get_elem c;
  and_loop fuel sel (next ce).

(** The [while] loop of [_gmx_sel_evaluate_or]; [tmp] is the part of the
    group not yet covered. The partition leaves the covered part in [tmp],
    directly behind the element's value group, and [isize += tmp.isize]
    takes it in. *)
Fixpoint or_loop (fuel : nat) (sel : selid) (child : option selid)
    (tmp : gmx_ana_index_t) : M unit :=
  match child with
  | None => ret tt
  | Some c =>
      if 0 <? isize tmp then
        match fuel with
        | O => throw OutOfFuel
        | S fuel' =>
            let tmp0 := set_name tmp None in
            do parts <- MempoolSelelemReserver c (isize tmp0) (
              exec ev c (Some tmp0);
              do cg <- sel_vgroup c;
              ret (gmx_ana_index_partition tmp0 tmp0 tmp0 cg));
            let '(tmp1, tmp2) := parts in
            do vg <- sel_vgroup sel;
            exec set_sel_vgroup sel
              (group_of (name vg) (atoms vg ++ atoms tmp1));
            let tmp' :=
              {| isize := isize tmp2; index := index tmp2;
                 name := name tmp1 |} in
            do ce <- get_elem c;
            or_loop fuel' sel (next ce) tmp'
        end
      else ret tt
  end.

(** [_gmx_sel_evaluate_or] *)
Definition _gmx_sel_evaluate_or (fuel : nat) (sel : selid)
    (g : option gmx_ana_index_t) : M unit :=
  let tmp_init := {| isize := 0; index := []; name := None |} in
  do c <- sel_child sel;
  do ce <- get_elem c;
  do tmp <-
    (if evaluate ce is Some _ then
       do g' <- deref g;
       MempoolSelelemReserver c (isize g') (
         exec ev c g;
         do vg <- sel_vgroup sel;
         do cg <- sel_vgroup c;
         let '(inside, outside) :=
           gmx_ana_index_partition vg tmp_init g' cg in
         exec set_sel_vgroup sel inside;
         ret outside)
     else
       do vg <- sel_vgroup sel;
       do g' <- deref g;
       do cg <- sel_vgroup c;
       let '(inside, outside) :=
         gmx_ana_index_partition vg tmp_init g' cg in
       exec set_sel_vgroup sel inside;
       ret outside);
  do ce' <- get_elem c;
  exec or_loop fuel sel (next ce') tmp;
  do vg <- sel_vgroup sel;
  set_sel_vgroup sel (gmx_ana_index_sort vg).

(** [sel->v.u.r[i]] as a read and as an assignment. *)
Definition real_get (sel : selid) (i : Z) : M real :=
  do x <- vec_get sel i;
  match x with RealV r => ret r | _ => throw InvalidMemoryAccess end.

Definition real_set (sel : selid) (i : Z) (r : real) : M unit :=
  vec_set sel i (RealV r).

(** The [switch] on [sel->u.arith.type]. *)
Definition arith_apply (op : e_arithmetic_t) (lval rval : real) : real :=
  match op with
  | ARITH_PLUS => real_plus lval rval
  | ARITH_MINUS => real_minus lval rval
  | ARITH_NEG => real_neg lval
  | ARITH_MULT => real_mult lval rval
  | ARITH_DIV => real_div lval rval
  | ARITH_EXP => real_pow lval rval
  end.

(** The [for] loop of [_gmx_sel_evaluate_arithmetic]; [n] is the number of
    iterations left ([n - i] in the source). *)
Fixpoint arith_loop (n : nat) (sel left : selid) (right : option selid)
    (bArithNeg : bool) (rval0 : real) (i i1 i2 : Z) : M unit :=
  match n with
  | O => ret tt
  | S n' =>
      do lval <- real_get left i1;
      do rval <- (if bArithNeg then ret rval0
                  else do r <- deref right; real_get r i2);
      do op <- sel_arith sel;
      exec real_set sel i (arith_apply op lval rval);
      do lf <- sel_flags left;
      let i1' := if has_flag lf SEL_SINGLEVAL then i1 else i1 + 1 in
      do i2' <- (if bArithNeg then ret i2
                 else
                   do r <- deref right;
                   do rf <- sel_flags r;
                   ret (if has_flag rf SEL_SINGLEVAL then i2 else i2 + 1));
      arith_loop n' sel left right bArithNeg rval (i + 1) i1' i2'
  end.

(** The two guards at the head of [_gmx_sel_evaluate_arithmetic],
    declared empty and armed conditionally. The result is what their
    destructors need: the element whose value was redirected with its old
    pointer and capacity, and the element holding a reservation. *)
Definition arith_guards (sel left : selid) (le : t_selelem)
    (g : option gmx_ana_index_t)
  : M (option (selid * (option loc * Z)) * option selid) :=
  let right := next le in
  if mempool le then
    do old <- assigner_assign left sel;
    do res <- match right with
              | Some r =>
                  do g' <- deref g;
                  exec _gmx_selelem_mempool_reserve r (isize g');
                  ret (Some r)
              | None => ret None
              end;
    ret (Some (left, old), res)
  else
    match right with
    | Some r =>
        do re <- get_elem r;
        if mempool re then
          do old <- assigner_assign r sel;
          ret (Some (r, old), None)
        else ret (None, None)
    | None => ret (None, None)
    end.

(** [_gmx_sel_evaluate_arithmetic]. The destructors of the guards run at
    the end of the function, the reserver first. *)
Definition _gmx_sel_evaluate_arithmetic (fuel : nat) (sel : selid)
    (g : option gmx_ana_index_t) : M unit :=
  do left <- sel_child sel;
  do le <- get_elem left;
  let right := next le in
  do guards <- arith_guards sel left le g;
  exec _gmx_sel_evaluate_children fuel sel g;
  do f <- sel_flags sel;
  do n <- (if has_flag f SEL_SINGLEVAL then ret 1
           else do g' <- deref g; ret (isize g'));
  exec set_sel_nr sel n;
  do op <- sel_arith sel;
  let bArithNeg := bool_decide (op = ARITH_NEG) in
  exec arith_loop (Z.to_nat n) sel left right bArithNeg real_zero 0 0 0;
  exec match snd guards with
       | Some r => _gmx_selelem_mempool_release r
       | None => ret tt
       end;
  match fst guards with
  | Some (s, old) => assigner_restore s old
  | None => ret tt
  end.

End Functions.

(** ** Dispatch and frame lifecycle *)

(** A call through [sel->evaluate]: the slot selects the function; the
    recursion is bounded by [fuel]. *)
Fixpoint sel_evaluate (data : gmx_sel_evaluate_t) (fuel : nat)
    (sel : selid) (g : option gmx_ana_index_t) : M unit :=
  match fuel with
  | O => throw OutOfFuel
  | S fuel' =>
      let ev := sel_evaluate data fuel' in
      do e <- get_elem sel;
      match evaluate e with
      | None => throw InvalidMemoryAccess
      | Some EVAL_root => _gmx_sel_evaluate_root ev sel g
      | Some EVAL_static => _gmx_sel_evaluate_static sel g
      | Some EVAL_subexpr_simple => _gmx_sel_evaluate_subexpr_simple ev sel g
      | Some EVAL_subexpr_staticeval =>
          _gmx_sel_evaluate_subexpr_staticeval ev sel g
      | Some EVAL_subexpr => _gmx_sel_evaluate_subexpr ev sel g
      | Some EVAL_subexprref_simple =>
          _gmx_sel_evaluate_subexprref_simple ev sel g
      | Some EVAL_subexprref => _gmx_sel_evaluate_subexprref ev sel g
      | Some EVAL_method => _gmx_sel_evaluate_method ev data fuel' sel g
      | Some EVAL_modifier => _gmx_sel_evaluate_modifier ev data fuel' sel g
      | Some EVAL_not => _gmx_sel_evaluate_not ev sel g
      | Some EVAL_and => _gmx_sel_evaluate_and ev fuel' sel g
      | Some EVAL_or => _gmx_sel_evaluate_or ev fuel' sel g
      | Some EVAL_arithmetic => _gmx_sel_evaluate_arithmetic ev fuel' sel g
      end
  end.

(** [init_frame_eval] *)
Fixpoint init_frame_eval (fuel : nat) (sel : option selid) : M unit :=
  match sel with
  | None => ret tt
  | Some s =>
      match fuel with
      | O => throw OutOfFuel
      | S fuel' =>
          do e <- get_elem s;
          let f := Z.land (flags e)
                     (Z.lnot (Z.lor SEL_INITFRAME SEL_EVALFRAME)) in
          exec set_sel_flags s f;
          exec (if decide (type e = SEL_EXPRESSION) then
                  do x <- sel_expr s;
                  match method x with
                  | Some m =>
                      if init_frame m is Some _
                      then set_sel_flags s (Z.lor f SEL_INITFRAME)
                      else ret tt
                  | None => ret tt
                  end
                else ret tt);
          exec (if child e is Some _ then
                  if decide (type e = SEL_SUBEXPRREF) then ret tt
                  else init_frame_eval fuel' (child e)
                else ret tt);
          init_frame_eval fuel' (next e)
      end
  end.

(** [gmx_ana_selcollection_t], as far as evaluation uses it. *)
Record gmx_ana_selcollection_t := {
  root : option selid;
  sc_gall : gmx_ana_index_t;
  sc_top : t_topology
}.

(** [_gmx_sel_evaluate_init] *)
Definition _gmx_sel_evaluate_init (sc : gmx_ana_selcollection_t)
    (frame : t_trxframe) (box : option t_pbc) : gmx_sel_evaluate_t :=
  {| gall := sc_gall sc; top := sc_top sc; fr := frame; pbc := box |}.

(** The loop over the root elements in [SelectionEvaluator::evaluate]. *)
Fixpoint evaluate_roots (data : gmx_sel_evaluate_t) (fuel : nat)
    (sel : option selid) : M unit :=
  match sel with
  | None => ret tt
  | Some s =>
      match fuel with
      | O => throw OutOfFuel
      | S fuel' =>
          do e <- get_elem s;
          exec match child e with
               | Some c =>
                   do ce <- get_elem c;
                   if decide (type ce = SEL_SUBEXPR) then
                     do cgrp <- sel_cgrp c;
                     exec set_sel_cgrp c (set_isize cgrp 0);
                     if decide (vtype (v ce) = GROUP_VALUE) then
                       do vg <- sel_vgroup c;
                       set_sel_vgroup c (set_isize vg 0)
                     else ret tt
                   else ret tt
               | None => ret tt
               end;
          exec (if evaluate e is Some _
                then sel_evaluate data fuel' s None
                else ret tt);
          do e' <- get_elem s;
          evaluate_roots data fuel' (next e')
      end
  end.

(** [SelectionEvaluator::evaluate]. The closing pass over the exported
    selections (masses, charges, covered fraction) works on the selection
    objects, not on the element tree, and makes no plugin call. *)
Definition SelectionEvaluator_evaluate (fuel : nat)
    (sc : gmx_ana_selcollection_t) (frame : t_trxframe)
    (box : option t_pbc) : M unit :=
  let data := _gmx_sel_evaluate_init sc frame box in
  exec init_frame_eval fuel (root sc);
  evaluate_roots data fuel (root sc).

(** Evaluating a trajectory: one call per frame. *)
Fixpoint evaluate_frames (fuel : nat) (sc : gmx_ana_selcollection_t)
    (frames : list (t_trxframe * option t_pbc)) : M unit :=
  match frames with
  | [] => ret tt
  | (frame, box) :: rest =>
      exec SelectionEvaluator_evaluate fuel sc frame box;
      evaluate_frames fuel sc rest
  end.

(** ** Reading the state *)

Definition sel_ptr (st : evalstate) (sel : selid) : option loc :=
  e ← elems st !! sel; ptr (v e).

(** The value group of an element in a state. *)
Definition value_group (st : evalstate) (sel : selid)
  : option gmx_ana_index_t :=
  l ← sel_ptr st sel;
  s ← heap st !! l;
  match s with SGroup g => Some g | _ => None end.

(** The cell [k] of the value array of an element in a state. *)
Definition value_cell (st : evalstate) (sel : selid) (k : Z)
  : option scalar :=
  l ← sel_ptr st sel;
  s ← heap st !! l;
  match s with SVec cells => cells !! k | _ => None end.

(** The cached evaluation group of an element in a state. *)
Definition cached_group (st : evalstate) (sel : selid)
  : option gmx_ana_index_t :=
  e ← elems st !! sel;
  match u e with U_cgrp g => Some g | _ => None end.

Definition value_nr (st : evalstate) (sel : selid) : option Z :=
  e ← elems st !! sel; Some (nr (v e)).

Definition elem_flags (st : evalstate) (sel : selid) : option Z :=
  e ← elems st !! sel; Some (flags e).

(** ** Reasoning about the evaluation monad *)

Lemma bind_Ok {A B} (m : M A) (k : A -> M B) st b st' :
  bind m k st = Ok b st' <->
  exists a st1, m st = Ok a st1 /\ k a st1 = Ok b st'.
Proof.
  unfold bind. split.
  - destruct (m st) as [a st1|e]; [eauto | discriminate].
  - intros (a & st1 & -> & H). exact H.
Qed.

Lemma bind_eq {A B} (m : M A) (k : A -> M B) st a st1 :
  m st = Ok a st1 -> bind m k st = k a st1.
Proof. unfold bind. by intros ->. Qed.

Lemma bind_Throw {A B} (m : M A) (k : A -> M B) st e :
  m st = Throw e -> bind m k st = Throw e.
Proof. unfold bind. by intros ->. Qed.

Lemma bind_ret {A B} (a : A) (k : A -> M B) st :
  bind (ret a) k st = k a st.
Proof. reflexivity. Qed.

Lemma bind_assoc {A B C} (m : M A) (f : A -> M B) (k : B -> M C) st :
  bind (bind m f) k st = bind m (fun x => bind (f x) k) st.
Proof. unfold bind. by destruct (m st). Qed.

Lemma ret_Ok {A} (a b : A) st st' :
  ret a st = Ok b st' <-> a = b /\ st = st'.
Proof. unfold ret. split; [by inversion 1 | by intros [-> ->]]. Qed.

Lemma deref_Ok {A} (p : option A) a st st' :
  deref p st = Ok a st' <-> p = Some a /\ st = st'.
Proof.
  destruct p; simpl; unfold ret, throw; split;
    (try by inversion 1); intros [? ?]; by simplify_eq.
Qed.

Lemma get_elem_Ok sel e st st' :
  get_elem sel st = Ok e st' <-> elems st !! sel = Some e /\ st = st'.
Proof.
  unfold get_elem. destruct (elems st !! sel); split;
    (try by inversion 1); intros [? ?]; by simplify_eq.
Qed.

Lemma load_Ok l s st st' :
  load l st = Ok s st' <-> heap st !! l = Some s /\ st = st'.
Proof.
  unfold load. destruct (heap st !! l); split;
    (try by inversion 1); intros [? ?]; by simplify_eq.
Qed.

(** States after the elementary updates. *)
Definition with_elem (st : evalstate) (sel : selid) (e : t_selelem)
  : evalstate :=
  {| elems := <[sel := e]> (elems st); heap := heap st; calls := calls st |}.

Definition with_store (st : evalstate) (l : loc) (s : storage)
  : evalstate :=
  {| elems := elems st; heap := <[l := s]> (heap st); calls := calls st |}.

Lemma put_elem_Ok sel e st st' :
  put_elem sel e st = Ok tt st' <-> st' = with_elem st sel e.
Proof. unfold put_elem, with_elem. split; [by inversion 1 | by intros ->]. Qed.

Lemma store_Ok l s st st' :
  store l s st = Ok tt st' <-> st' = with_store st l s.
Proof. unfold store, with_store. split; [by inversion 1 | by intros ->]. Qed.

(** Decomposing a successful run: [mbind H x s H1] splits a bind that
    returned into its first step [H1] (result [x], state [s]) and the
    rest, which stays in [H]. *)
Tactic Notation "mbind" hyp(H) ident(x) ident(s) ident(H1) :=
  apply bind_Ok in H; destruct H as (x & s & H1 & H).

Ltac munfold :=
  unfold sel_child, sel_v, sel_flags, sel_cgrp, sel_expr, sel_arith,
    sel_vgroup, set_sel_vgroup, set_sel_cgrp, set_sel_v, set_sel_nr,
    set_sel_flags, set_sel_expr, vec_get, vec_set, index_read,
    value_group, value_cell, cached_group, value_nr, elem_flags, sel_ptr,
    bind, ret, throw, deref, get_elem, put_elem, load, store,
    with_elem, with_store in *.

Ltac mstep :=
  first [ progress (munfold; simpl in * )
        | progress simplify_eq/=
        | case_match ].

Ltac msolve :=
  repeat mstep;
  try (split; intros);
  repeat match goal with
         | H : _ /\ _ |- _ => destruct H
         | H : exists _, _ |- _ => destruct H
         end;
  repeat mstep; eauto 8.

(** Field accessors. *)
Lemma sel_child_Ok sel c st st' :
  sel_child sel st = Ok c st' <->
  (exists e, elems st !! sel = Some e /\ child e = Some c) /\ st = st'.
Proof. msolve. Qed.

Lemma sel_v_Ok sel x st st' :
  sel_v sel st = Ok x st' <->
  (exists e, elems st !! sel = Some e /\ v e = x) /\ st = st'.
Proof. msolve. Qed.

Lemma sel_flags_Ok sel f st st' :
  sel_flags sel st = Ok f st' <-> elem_flags st sel = Some f /\ st = st'.
Proof. msolve. Qed.

Lemma sel_cgrp_Ok sel g st st' :
  sel_cgrp sel st = Ok g st' <-> cached_group st sel = Some g /\ st = st'.
Proof. msolve. Qed.

Lemma sel_vgroup_Ok sel g st st' :
  sel_vgroup sel st = Ok g st' <-> value_group st sel = Some g /\ st = st'.
Proof. msolve. Qed.

Lemma set_sel_vgroup_Ok sel g st st' :
  set_sel_vgroup sel g st = Ok tt st' <->
  exists l g0, sel_ptr st sel = Some l /\ heap st !! l = Some (SGroup g0) /\
               st' = with_store st l (SGroup g).
Proof. msolve. Qed.

Lemma set_sel_cgrp_Ok sel g st st' :
  set_sel_cgrp sel g st = Ok tt st' <->
  exists e g0, elems st !! sel = Some e /\ u e = U_cgrp g0 /\
               st' = with_elem st sel (set_u e (U_cgrp g)).
Proof.
  unfold set_sel_cgrp. split.
  - intros H. mbind H e s He. apply get_elem_Ok in He as [He <-].
    destruct (u e) eqn:Hu; try discriminate.
    apply put_elem_Ok in H. eauto.
  - intros (e & g0 & He & Hu & ->).
    erewrite bind_eq by (apply get_elem_Ok; eauto). rewrite Hu.
    by apply put_elem_Ok.
Qed.

Lemma set_sel_expr_Ok sel x st st' :
  set_sel_expr sel x st = Ok tt st' <->
  exists e x0, elems st !! sel = Some e /\ u e = U_expr x0 /\
               st' = with_elem st sel (set_u e (U_expr x)).
Proof.
  unfold set_sel_expr. split.
  - intros H. mbind H e s He. apply get_elem_Ok in He as [He <-].
    destruct (u e) eqn:Hu; try discriminate.
    apply put_elem_Ok in H. eauto.
  - intros (e & x0 & He & Hu & ->).
    erewrite bind_eq by (apply get_elem_Ok; eauto). rewrite Hu.
    by apply put_elem_Ok.
Qed.

Lemma sel_expr_Ok sel x st st' :
  sel_expr sel st = Ok x st' <->
  (exists e, elems st !! sel = Some e /\ u e = U_expr x) /\ st = st'.
Proof.
  unfold sel_expr. split.
  - intros H. mbind H e s He. apply get_elem_Ok in He as [He <-].
    destruct (u e) eqn:Hu; try discriminate.
    apply ret_Ok in H as [<- <-]. eauto.
  - intros [(e & He & Hu) <-].
    erewrite bind_eq by (apply get_elem_Ok; eauto). by rewrite Hu.
Qed.

Lemma set_sel_v_Ok sel x st st' :
  set_sel_v sel x st = Ok tt st' <->
  exists e, elems st !! sel = Some e /\ st' = with_elem st sel (set_v e x).
Proof. msolve. Qed.

Lemma set_sel_nr_Ok sel n st st' :
  set_sel_nr sel n st = Ok tt st' <->
  exists e, elems st !! sel = Some e /\
            st' = with_elem st sel (set_v e (set_nr (v e) n)).
Proof. msolve. Qed.

Lemma set_sel_flags_Ok sel f st st' :
  set_sel_flags sel f st = Ok tt st' <->
  exists e, elems st !! sel = Some e /\
            st' = with_elem st sel (set_flags e f).
Proof. msolve. Qed.

Lemma vec_get_Ok sel k x st st' :
  vec_get sel k st = Ok x st' <-> value_cell st sel k = Some x /\ st = st'.
Proof. msolve. Qed.

Lemma vec_set_Ok sel k x st st' :
  vec_set sel k x st = Ok tt st' <->
  exists l cells, sel_ptr st sel = Some l /\
                  heap st !! l = Some (SVec cells) /\
                  st' = with_store st l (SVec (<[k := x]> cells)).
Proof. msolve. Qed.

Lemma index_read_Ok g i x st st' :
  index_read g i st = Ok x st' <-> index_at g i = Some x /\ st = st'.
Proof. apply deref_Ok. Qed.

(** ** Subexpressions: the cached evaluation group *)

Lemma filter_notin_nil (l m : list Z) :
  (forall x, x ∈ l -> x ∈ m) -> filter (λ x, x ∉ m) l = [].
Proof.
  intros H. induction l as [|a l IH]; [done|].
  rewrite filter_cons. destruct (decide (a ∉ m)) as [Hn|_].
  - destruct Hn. apply H. by left.
  - apply IH. intros x Hx. apply H. by right.
Qed.

Lemma cached_group_with_store st l s sel :
  cached_group (with_store st l s) sel = cached_group st sel.
Proof. reflexivity. Qed.

Lemma cached_group_with_elem_set_v st c e x sel :
  elems st !! c = Some e ->
  cached_group (with_elem st c (set_v e x)) sel = cached_group st sel.
Proof.
  intros He. unfold cached_group, with_elem; simpl.
  destruct (decide (c = sel)) as [->|Hne].
  - rewrite lookup_insert_eq, He. done.
  - by rewrite lookup_insert_ne.
Qed.

Lemma cached_group_set_cgrp st sel e g :
  cached_group (with_elem st sel (set_u e (U_cgrp g))) sel = Some g.
Proof. unfold cached_group, with_elem; simpl. by rewrite lookup_insert_eq. Qed.

(** The guards of the first call leave every cached group alone. *)
Lemma assigner_assign_cached c vs old st st' sel :
  assigner_assign c vs st = Ok old st' ->
  cached_group st' sel = cached_group st sel.
Proof.
  unfold assigner_assign, _gmx_selvalue_setstore. intros H.
  mbind H x s Hx. apply sel_v_Ok in Hx as [_ <-].
  mbind H xs s' Hxs. apply sel_v_Ok in Hxs as [_ <-].
  case_decide; [|discriminate].
  mbind H t s1 H1. mbind H1 y s2 Hy. apply sel_v_Ok in Hy as [_ <-].
  destruct t. apply set_sel_v_Ok in H1 as (e & He & ->).
  apply ret_Ok in H as [_ <-]. by apply cached_group_with_elem_set_v.
Qed.

Lemma assigner_restore_cached c old st st' sel :
  assigner_restore c old st = Ok tt st' ->
  cached_group st' sel = cached_group st sel.
Proof.
  unfold assigner_restore, _gmx_selvalue_setstore_alloc. intros H.
  mbind H x s Hx. apply sel_v_Ok in Hx as [_ <-].
  apply set_sel_v_Ok in H as (e & He & ->).
  by apply cached_group_with_elem_set_v.
Qed.

(** A general subexpression called over a group within its non-empty
    cached evaluation group has nothing to evaluate. *)
Lemma subexpr_covered_returns
    (ev : selid -> option gmx_ana_index_t -> M unit)
    (sel : selid) (g cgrp : gmx_ana_index_t) (st : evalstate) :
  cached_group st sel = Some cgrp ->
  isize cgrp <> 0 ->
  (forall x, x ∈ atoms g -> x ∈ atoms cgrp) ->
  _gmx_sel_evaluate_subexpr ev sel (Some g) st = Ok tt st.
Proof.
  intros Hc Hne Hsub. unfold _gmx_sel_evaluate_subexpr.
  erewrite bind_eq by (apply sel_cgrp_Ok; eauto).
  apply Z.eqb_neq in Hne. rewrite Hne. simpl.
  unfold gmx_ana_index_difference.
  rewrite bind_assoc, bind_ret, bind_ret.
  rewrite (filter_notin_nil _ _ Hsub). reflexivity.
Qed.

(** C7: re-evaluating a general subexpression over a group whose indices
    are all in the cached evaluation group (so that nothing is missing)
    returns at once and leaves the whole state, hence the cached group and
    the stored values, as it was. *)
Theorem subexpr_reevaluation_is_identity
    (ev : selid -> option gmx_ana_index_t -> M unit)
    (sel : selid) (g cgrp : gmx_ana_index_t) (st : evalstate) :
  cached_group st sel = Some cgrp ->
  isize cgrp <> 0 ->
  (forall x, x ∈ atoms g -> x ∈ atoms cgrp) ->
  _gmx_sel_evaluate_subexpr ev sel (Some g) st = Ok tt st.
Proof. exact (subexpr_covered_returns ev sel g cgrp st). Qed.

(** C9: on the first call of a frame (empty cached group) both
    [_gmx_sel_evaluate_subexpr] and [_gmx_sel_evaluate_subexpr_staticeval]
    record the atoms of the passed group in the cached group and keep the
    name the cached group had; the name of the passed group plays no role.
    The child evaluation is assumed not to touch the element's cached
    group. *)
Theorem subexpr_cgrp_keeps_its_name
    (ev : selid -> option gmx_ana_index_t -> M unit)
    (sel : selid) (g cgrp : gmx_ana_index_t) (st st' : evalstate) :
  (forall c h s s', ev c h s = Ok tt s' ->
                    cached_group s' sel = cached_group s sel) ->
  cached_group st sel = Some cgrp ->
  isize cgrp = 0 ->
  _gmx_sel_evaluate_subexpr ev sel (Some g) st = Ok tt st' \/
  _gmx_sel_evaluate_subexpr_staticeval ev sel (Some g) st = Ok tt st' ->
  exists cgrp', cached_group st' sel = Some cgrp' /\
                name cgrp' = name cgrp /\
                atoms cgrp' = atoms g.
Proof.
  intros Hev Hc Hz [H|H].
  - unfold _gmx_sel_evaluate_subexpr in H.
    erewrite bind_eq in H by (apply sel_cgrp_Ok; eauto).
    rewrite Hz in H. simpl in H.
    mbind H gmiss s1 H1.
    mbind H1 c s2 Hch. apply sel_child_Ok in Hch as [_ <-].
    mbind H1 t s3 Has. destruct t.
    unfold SelelemTemporaryValueAssigner in Has.
    mbind Has old s4 Ha. mbind Has t s5 Hr. destruct t.
    mbind Has t s6 Hre. destruct t. apply ret_Ok in Has as [_ <-].
    assert (Hc3 : cached_group s6 sel = Some cgrp).
    { rewrite (assigner_restore_cached _ _ _ _ _ Hre), (Hev _ _ _ _ Hr),
        (assigner_assign_cached _ _ _ _ _ _ Ha). done. }
    mbind H1 cgrp1 s7 Hc1. apply sel_cgrp_Ok in Hc1 as [Hc1 <-].
    rewrite Hc3 in Hc1. simplify_eq.
    mbind H1 g' s8 Hg. apply ret_Ok in Hg as [<- <-].
    mbind H1 t s9 Hs1. destruct t.
    apply set_sel_cgrp_Ok in Hs1 as (e & g1 & He & Hu1 & ->).
    mbind H1 cgrp2 s10 Hc2. apply sel_cgrp_Ok in Hc2 as [Hc2 <-].
    rewrite cached_group_set_cgrp in Hc2. simplify_eq.
    mbind H1 t s11 Hs2. destruct t.
    apply set_sel_cgrp_Ok in Hs2 as (e2 & g2 & He2 & Hu2 & ->).
    apply ret_Ok in H1 as [<- <-]. simpl in H. apply ret_Ok in H as [_ <-].
    eexists. split; [apply cached_group_set_cgrp|]. split; [done|].
    unfold set_name, gmx_ana_index_copy; simpl.
    unfold atoms at 1; simpl. rewrite Nat2Z.id. apply firstn_all.
  - unfold _gmx_sel_evaluate_subexpr_staticeval in H.
    erewrite bind_eq in H by (apply sel_cgrp_Ok; eauto).
    rewrite Hz in H. simpl in H.
    mbind H c s1 Hch. apply sel_child_Ok in Hch as [_ <-].
    mbind H t s2 Hr. destruct t.
    mbind H cv s3 Hcv. apply sel_v_Ok in Hcv as [_ <-].
    mbind H t s4 Hnr. destruct t.
    apply set_sel_nr_Ok in Hnr as (e & He & ->).
    mbind H g' s5 Hg. apply ret_Ok in Hg as [<- <-].
    mbind H cgrp' s6 Hc'. apply sel_cgrp_Ok in Hc' as [Hc' <-].
    rewrite (cached_group_with_elem_set_v _ _ _ _ _ He), (Hev _ _ _ _ Hr),
      Hc in Hc'. simplify_eq.
    apply set_sel_cgrp_Ok in H as (e2 & g2 & He2 & Hu2 & ->).
    eexists. split; [apply cached_group_set_cgrp|]. done.
Qed.

(** ** Footprints of the memory guards *)

Lemma sel_ptr_frame st st' sel :
  elems st' !! sel = elems st !! sel -> sel_ptr st' sel = sel_ptr st sel.
Proof. unfold sel_ptr. by intros ->. Qed.

Lemma value_group_frame st st' sel :
  sel_ptr st' sel = sel_ptr st sel ->
  (forall l, sel_ptr st sel = Some l -> heap st' !! l = heap st !! l) ->
  value_group st' sel = value_group st sel.
Proof.
  intros He Hh. unfold value_group. rewrite He.
  destruct (sel_ptr st sel) as [l|]; [|done]. simpl. by rewrite Hh.
Qed.

Lemma value_cell_frame st st' sel k :
  sel_ptr st' sel = sel_ptr st sel ->
  (forall l, sel_ptr st sel = Some l -> heap st' !! l = heap st !! l) ->
  value_cell st' sel k = value_cell st sel k.
Proof.
  intros He Hh. unfold value_cell. rewrite He.
  destruct (sel_ptr st sel) as [l|]; [|done]. simpl. by rewrite Hh.
Qed.

Lemma fresh_loc_unused (h : gmap loc storage) : h !! fresh (dom h) = None.
Proof. apply not_elem_of_dom. apply is_fresh. Qed.

Lemma alloc_Ok s l st st' :
  alloc s st = Ok l st' <->
  l = fresh (dom (heap st)) /\ st' = with_store st l s.
Proof.
  unfold alloc, with_store. split; [by inversion 1 | by intros [-> ->]].
Qed.

Lemma free_Ok l st st' :
  free l st = Ok tt st' <->
  st' = {| elems := elems st; heap := delete l (heap st);
           calls := calls st |}.
Proof. unfold free. split; [by inversion 1 | by intros ->]. Qed.

(** A reservation on [c] changes the element [c] and the store it points
    to, nothing else that exists. *)
Lemma reserve_frame c n st st' :
  _gmx_selelem_mempool_reserve c n st = Ok tt st' ->
  (forall x, x <> c -> elems st' !! x = elems st !! x) /\
  (forall l, is_Some (heap st !! l) -> sel_ptr st c <> Some l ->
             heap st' !! l = heap st !! l) /\
  calls st' = calls st /\
  (forall e, elems st !! c = Some e ->
     exists e', elems st' !! c = Some e' /\ next e' = next e /\
                child e' = child e /\ flags e' = flags e /\ u e' = u e /\
                evaluate e' = evaluate e /\ vtype (v e') = vtype (v e)).
Proof.
  unfold _gmx_selelem_mempool_reserve. intros H.
  mbind H x s Hx. apply sel_v_Ok in Hx as [(e & He & <-) <-].
  assert (Hvec : forall s0,
    (do l <- alloc s0; set_sel_v c (set_store (v e) (Some l) (nalloc (v e))))
      st = Ok tt st' ->
    (forall x, x <> c -> elems st' !! x = elems st !! x) /\
    (forall l, is_Some (heap st !! l) -> sel_ptr st c <> Some l ->
               heap st' !! l = heap st !! l) /\
    calls st' = calls st /\
    (forall e0, elems st !! c = Some e0 ->
       exists e', elems st' !! c = Some e' /\ next e' = next e0 /\
                  child e' = child e0 /\ flags e' = flags e0 /\
                  u e' = u e0 /\ evaluate e' = evaluate e0 /\
                  vtype (v e') = vtype (v e0))).
  { intros s0 H0. mbind H0 l s1 Ha. apply alloc_Ok in Ha as [-> ->].
    apply set_sel_v_Ok in H0 as (e1 & He1 & ->). simpl in *.
    split; [|split; [|split]].
    - intros x Hx. by rewrite lookup_insert_ne.
    - intros l [y Hy] _. rewrite lookup_insert_ne; [done|].
      intros <-. by rewrite fresh_loc_unused in Hy.
    - done.
    - intros e0 He0. simplify_eq. rewrite lookup_insert_eq.
      eexists; split; [done|]. done. }
  destruct (vtype (v e)) eqn:Ety; eauto.
  - apply ret_Ok in H as [_ <-]. repeat split; eauto. intros e0 He0.
    simplify_eq. eexists; split; [done|]. done.
  - mbind H g s1 Hg. apply sel_vgroup_Ok in Hg as [Hg <-].
    apply set_sel_vgroup_Ok in H as (l & g0 & Hl & Hh & ->). simpl.
    split; [done|]. split; [|split; [done|]].
    + intros l' _ Hne. rewrite lookup_insert_ne; [done|]. congruence.
    + intros e0 He0. simplify_eq. eexists; split; [done|]. done.
Qed.

(** A release on [c] changes the element [c] and the store it points to,
    nothing else. *)
Lemma release_frame c st st' :
  _gmx_selelem_mempool_release c st = Ok tt st' ->
  (forall x, x <> c -> elems st' !! x = elems st !! x) /\
  (forall l, sel_ptr st c <> Some l -> heap st' !! l = heap st !! l) /\
  calls st' = calls st /\
  (forall e, elems st !! c = Some e ->
     exists e', elems st' !! c = Some e' /\ next e' = next e /\
                child e' = child e /\ flags e' = flags e /\ u e' = u e /\
                evaluate e' = evaluate e /\ vtype (v e') = vtype (v e)).
Proof.
  unfold _gmx_selelem_mempool_release. intros H.
  mbind H x s Hx. apply sel_v_Ok in Hx as [(e & He & <-) <-].
  assert (Hvec :
    (do l <- deref (ptr (v e)); exec free l; _gmx_selvalue_setstore c None)
      st = Ok tt st' ->
    (forall x, x <> c -> elems st' !! x = elems st !! x) /\
    (forall l, sel_ptr st c <> Some l -> heap st' !! l = heap st !! l) /\
    calls st' = calls st /\
    (forall e0, elems st !! c = Some e0 ->
       exists e', elems st' !! c = Some e' /\ next e' = next e0 /\
                  child e' = child e0 /\ flags e' = flags e0 /\
                  u e' = u e0 /\ evaluate e' = evaluate e0 /\
                  vtype (v e') = vtype (v e0))).
  { intros H0. mbind H0 l s1 Hd. apply deref_Ok in Hd as [Hd <-].
    mbind H0 t s2 Hf. destruct t. apply free_Ok in Hf as ->.
    unfold _gmx_selvalue_setstore in H0.
    mbind H0 x s3 Hx. apply sel_v_Ok in Hx as [(e2 & He2 & <-) <-].
    apply set_sel_v_Ok in H0 as (e1 & He1 & ->). simpl in *.
    split; [|split; [|split]].
    - intros y Hy. by rewrite lookup_insert_ne.
    - intros l' Hne. rewrite lookup_delete_ne; [done|].
      unfold sel_ptr in Hne. rewrite He in Hne. simpl in Hne. congruence.
    - done.
    - intros e0 He0. simplify_eq. rewrite lookup_insert_eq.
      eexists; split; [done|]. done. }
  destruct (vtype (v e)) eqn:Ety; eauto.
  - apply ret_Ok in H as [_ <-]. repeat split; eauto. intros e0 He0.
    simplify_eq. eexists; split; [done|]. done.
  - mbind H g s1 Hg. apply sel_vgroup_Ok in Hg as [Hg <-].
    apply set_sel_vgroup_Ok in H as (l & g0 & Hl & Hh & ->). simpl.
    split; [done|]. split; [|split; [done|]].
    + intros l' Hne. rewrite lookup_insert_ne; [done|]. congruence.
    + intros e0 He0. simplify_eq. eexists; split; [done|]. done.
Qed.

Lemma value_group_with_store_eq st sel l g0 g :
  sel_ptr st sel = Some l -> heap st !! l = Some (SGroup g0) ->
  value_group (with_store st l (SGroup g)) sel = Some g.
Proof.
  intros Hl Hh. unfold value_group, sel_ptr in *. simpl.
  destruct (elems st !! sel) as [e|]; [|done]. simpl in *. rewrite Hl. simpl.
  by rewrite lookup_insert_eq.
Qed.

Lemma value_group_with_store_ne st sel l s :
  sel_ptr st sel <> Some l ->
  value_group (with_store st l s) sel = value_group st sel.
Proof.
  intros Hl. apply value_group_frame; [done|]. intros l' Hl'. simpl.
  rewrite lookup_insert_ne; [done|]. congruence.
Qed.

(** Releasing [c] leaves the value group of an element with another store
    untouched. *)
Lemma release_value_group c sel st st' :
  _gmx_selelem_mempool_release c st = Ok tt st' ->
  sel_ptr st sel <> sel_ptr st c ->
  value_group st' sel = value_group st sel.
Proof.
  intros H Hne. apply release_frame in H as (He & Hh & _).
  apply value_group_frame.
  - apply sel_ptr_frame, He. intros ->. done.
  - intros l Hl. apply Hh. congruence.
Qed.

(** ** Boolean NOT *)

(** C4: a successful evaluation of a NOT element over [g] reserves [|g|]
    values on the child, evaluates the child over [g], and leaves in the
    element's value group the atoms of [g] that are not in the child's
    resulting value group (the element and its child having separate value
    stores). *)
Theorem not_evaluates_to_difference
    (ev : selid -> option gmx_ana_index_t -> M unit)
    (sel : selid) (g : gmx_ana_index_t) (st st' : evalstate) :
  _gmx_sel_evaluate_not ev sel (Some g) st = Ok tt st' ->
  exists c st1 st2 cg,
    (exists e, elems st !! sel = Some e /\ child e = Some c) /\
    _gmx_selelem_mempool_reserve c (isize g) st = Ok tt st1 /\
    ev c (Some g) st1 = Ok tt st2 /\
    value_group st2 c = Some cg /\
    (sel_ptr st2 sel <> sel_ptr st2 c ->
     exists vg, value_group st' sel = Some vg /\
                atoms vg = filter (λ x, x ∉ atoms cg) (atoms g) /\
                atomset vg = atomset g ∖ atomset cg).
Proof.
  unfold _gmx_sel_evaluate_not, MempoolSelelemReserver. intros H.
  mbind H c s0 Hc. apply sel_child_Ok in Hc as [Hc <-].
  mbind H g' s1 Hg. apply ret_Ok in Hg as [<- <-].
  mbind H t st1 Hres. destruct t.
  mbind H r s3 Hbody. destruct r.
  mbind Hbody t st2 Hev. destruct t.
  mbind Hbody vg0 s4 Hvg. apply sel_vgroup_Ok in Hvg as [Hvg <-].
  mbind Hbody cg s5 Hcg. apply sel_vgroup_Ok in Hcg as [Hcg <-].
  apply set_sel_vgroup_Ok in Hbody as (l & g0 & Hl & Hh & ->).
  mbind H t s6 Hrel. destruct t. apply ret_Ok in H as [_ <-].
  exists c, st1, st2, cg. repeat split; try done.
  intros Hne. eexists. split.
  - rewrite (release_value_group _ sel _ _ Hrel); [|done].
    by eapply value_group_with_store_eq.
  - split.
    + unfold gmx_ana_index_difference. by rewrite atoms_group_of.
    + apply atomset_difference.
Qed.

(** ** Position-valued general subexpressions *)

(** A computation that never signals "not implemented". *)
Definition quiet {A} (m : M A) : Prop :=
  forall st msg, m st <> Throw (NotImplementedError msg).

Lemma quiet_ret {A} (a : A) : quiet (ret a).
Proof. by intros st msg. Qed.

Lemma quiet_bind {A B} (m : M A) (k : A -> M B) :
  quiet m -> (forall a, quiet (k a)) -> quiet (bind m k).
Proof.
  intros Hm Hk st msg. unfold bind.
  destruct (m st) as [a s|e] eqn:E.
  - apply Hk.
  - intros [= ->]. by apply (Hm st msg).
Qed.

Lemma quiet_deref {A} (p : option A) : quiet (deref p).
Proof. by destruct p; intros st msg. Qed.

Lemma quiet_get_elem sel : quiet (get_elem sel).
Proof. intros st msg. unfold get_elem. by destruct (elems st !! sel). Qed.

Lemma quiet_put_elem sel e : quiet (put_elem sel e).
Proof. by intros st msg. Qed.

Ltac quiet_step :=
  first [ apply quiet_ret | apply quiet_deref | apply quiet_get_elem
        | apply quiet_put_elem
        | apply quiet_bind; [|intros ?]
        | (intros ? ?; discriminate)
        | case_match ].

Lemma quiet_sel_child sel : quiet (sel_child sel).
Proof. unfold sel_child. repeat quiet_step. Qed.

Lemma quiet_sel_v sel : quiet (sel_v sel).
Proof. unfold sel_v. repeat quiet_step. Qed.

Lemma quiet_sel_cgrp sel : quiet (sel_cgrp sel).
Proof. unfold sel_cgrp, throw. repeat quiet_step. Qed.

Lemma quiet_set_sel_cgrp sel g : quiet (set_sel_cgrp sel g).
Proof. unfold set_sel_cgrp. repeat quiet_step. Qed.

Lemma quiet_set_sel_v sel x : quiet (set_sel_v sel x).
Proof. unfold set_sel_v. repeat quiet_step. Qed.

Lemma quiet_assigner_assign c vs : quiet (assigner_assign c vs).
Proof.
  unfold assigner_assign, _gmx_selvalue_setstore, throw.
  repeat first [ apply quiet_sel_v | apply quiet_set_sel_v | quiet_step ].
Qed.

Lemma quiet_assigner_restore c old : quiet (assigner_restore c old).
Proof.
  unfold assigner_restore, _gmx_selvalue_setstore_alloc.
  repeat first [ apply quiet_sel_v | apply quiet_set_sel_v | quiet_step ].
Qed.

(** C5 (as the code has it): a general subexpression does not signal
    "not implemented" on the first call of a frame (empty cached group),
    nor on a call whose group is covered by the cached group, which returns
    at once. A position-valued one signals it exactly on a later call whose
    group has atoms missing from the cached group, after the child has been
    evaluated over the missing part. Children are assumed not to signal
    "not implemented" themselves. *)
Theorem subexpr_pos_not_implemented_only_on_merge
    (ev : selid -> option gmx_ana_index_t -> M unit)
    (sel : selid) (g cgrp : gmx_ana_index_t) (st : evalstate) :
  (forall c h, quiet (ev c h)) ->
  cached_group st sel = Some cgrp ->
  (isize cgrp = 0 ->
   forall msg, _gmx_sel_evaluate_subexpr ev sel (Some g) st
               <> Throw (NotImplementedError msg)) /\
  (isize cgrp <> 0 -> (forall x, x ∈ atoms g -> x ∈ atoms cgrp) ->
   _gmx_sel_evaluate_subexpr ev sel (Some g) st = Ok tt st) /\
  (isize cgrp <> 0 ->
   forall gmiss c st1 st2 e cgrp',
     gmiss = gmx_ana_index_difference
               {| isize := 0; index := []; name := None |} g cgrp ->
     atoms gmiss <> [] ->
     sel_child sel st = Ok c st ->
     _gmx_selelem_mempool_reserve c (isize gmiss) st = Ok tt st1 ->
     ev c (Some gmiss) st1 = Ok tt st2 ->
     elems st2 !! sel = Some e ->
     vtype (v e) = POS_VALUE ->
     u e = U_cgrp cgrp' ->
     _gmx_sel_evaluate_subexpr ev sel (Some g) st
     = Throw (NotImplementedError
                "position subexpressions not implemented properly")).
Proof.
  intros Hev Hc. split; [|split].
  - intros Hz msg. unfold _gmx_sel_evaluate_subexpr.
    erewrite bind_eq by (apply sel_cgrp_Ok; eauto).
    rewrite Hz. simpl. clear Hc. revert st msg.
    change (quiet (
      do gmiss <-
        (do c <- sel_child sel;
         exec SelelemTemporaryValueAssigner c sel (ev c (Some g));
         do cgrp1 <- sel_cgrp sel;
         do g' <- ret g;
         exec set_sel_cgrp sel (gmx_ana_index_copy g');
         do cgrp2 <- sel_cgrp sel;
         exec set_sel_cgrp sel (set_name cgrp2 (name cgrp1));
         ret (set_isize {| isize := 0; index := []; name := None |} 0));
      if 0 <? isize gmiss then
        do c <- sel_child sel;
        MempoolSelelemReserver c (isize gmiss) (
          exec ev c (Some gmiss);
          do x <- sel_v sel;
          exec (if decide (vtype x = GROUP_VALUE) then
                  do cg <- sel_vgroup c;
                  do sg <- sel_vgroup sel;
                  set_sel_vgroup sel (gmx_ana_index_merge sg cg sg)
                else
                  do cgrp' <- sel_cgrp sel;
                  let i := isize cgrp' - 1 in
                  let j := isize gmiss - 1 in
                  let k := isize cgrp' + isize gmiss - 1 in
                  match vtype x with
                  | INT_VALUE | REAL_VALUE | STR_VALUE =>
                      subexpr_merge_values (Z.to_nat (k + 1)) sel gmiss i j k
                  | POS_VALUE =>
                      throw (NotImplementedError
                        "position subexpressions not implemented properly")
                  | NO_VALUE | GROUP_VALUE =>
                      throw (InternalError "Invalid subexpression type")
                  end);
          do cgrp' <- sel_cgrp sel;
          set_sel_cgrp sel (gmx_ana_index_merge cgrp' cgrp' gmiss))
      else ret tt)).
    intros st msg. rewrite bind_assoc. revert st msg.
    apply quiet_bind; [apply quiet_sel_child|]. intros c st msg.
    rewrite bind_assoc. revert st msg.
    unfold SelelemTemporaryValueAssigner.
    apply quiet_bind.
    { repeat first [ apply quiet_assigner_assign | apply quiet_assigner_restore
                   | apply Hev | quiet_step ]. }
    intros _ st msg. rewrite bind_assoc. revert st msg.
    apply quiet_bind; [apply quiet_sel_cgrp|]. intros cgrp1 st msg.
    rewrite bind_assoc, bind_ret, bind_assoc. revert st msg.
    apply quiet_bind; [apply quiet_set_sel_cgrp|]. intros _ st msg.
    rewrite bind_assoc. revert st msg.
    apply quiet_bind; [apply quiet_sel_cgrp|]. intros cgrp2 st msg.
    rewrite bind_assoc. revert st msg.
    apply quiet_bind; [apply quiet_set_sel_cgrp|]. intros _ st msg.
    rewrite bind_ret. simpl. done.
  - intros Hne Hsub. by eapply subexpr_covered_returns.
  - intros Hne gmiss c st1 st2 e cgrp' -> Hmiss Hch Hres Hrun He Hty Hu.
    unfold _gmx_sel_evaluate_subexpr.
    erewrite bind_eq by (apply sel_cgrp_Ok; eauto).
    apply Z.eqb_neq in Hne. rewrite Hne. simpl.
    rewrite bind_assoc, bind_ret, bind_ret.
    set (gmiss := gmx_ana_index_difference _ g cgrp) in *.
    assert (Hpos : (0 <? isize gmiss) = true).
    { apply Z.ltb_lt. unfold gmiss, gmx_ana_index_difference in *.
      rewrite atoms_group_of in Hmiss. rewrite isize_group_of.
      destruct (filter _ _); [done|]. simpl. lia. }
    rewrite Hpos. erewrite bind_eq by exact Hch.
    unfold MempoolSelelemReserver.
    erewrite bind_eq by exact Hres.
    apply bind_Throw.
    erewrite bind_eq by exact Hrun.
    erewrite bind_eq by (apply sel_v_Ok; eauto).
    rewrite Hty. simpl. apply bind_Throw.
    erewrite bind_eq by (apply sel_cgrp_Ok; split; [|done];
                         unfold cached_group; rewrite He; simpl;
                         by rewrite Hu).
    reflexivity.
Qed.

(** ** Subexpression references: extracting the values of a group *)

Lemma sorted_lookup_lt (l : list Z) :
  Sorted Z.lt l ->
  forall (a b : nat) x y,
    l !! a = Some x -> l !! b = Some y -> (a < b)%nat -> x < y.
Proof.
  intros Hs. apply Sorted_StronglySorted in Hs; [|apply _].
  induction Hs as [|z l Hs IH Hall]; intros a b x y Ha Hb Hab.
  - done.
  - destruct b as [|b]; [lia|]. simpl in Hb. destruct a as [|a].
    + simpl in Ha. simplify_eq. rewrite Forall_forall in Hall.
      apply Hall. by eapply list_elem_of_lookup_2.
    + simpl in Ha. eapply IH; eauto. lia.
Qed.

Lemma index_at_wf g i x :
  index_wf g ->
  index_at g i = Some x <-> 0 <= i /\ index g !! Z.to_nat i = Some x.
Proof.
  intros [Hn _]. unfold index_at. case_bool_decide as Hb.
  - split; [intros; split; [lia|done] | by intros [_ ?]].
  - split; [done|]. intros [Hi Hl]. apply lookup_lt_Some in Hl. lia.
Qed.

Lemma index_at_lt g a b x y :
  index_wf g -> index_at g a = Some x -> index_at g b = Some y ->
  a < b -> x < y.
Proof.
  intros Hwf Ha Hb Hab.
  apply index_at_wf in Ha as [Ha0 Ha]; [|done].
  apply index_at_wf in Hb as [Hb0 Hb]; [|done].
  destruct Hwf as [_ Hs]. eapply sorted_lookup_lt; eauto. lia.
Qed.

Lemma index_at_inj g a b x :
  index_wf g -> index_at g a = Some x -> index_at g b = Some x -> a = b.
Proof.
  intros Hwf Ha Hb. destruct (Z.lt_trichotomy a b) as [H|[H|H]]; [|done|].
  - pose proof (index_at_lt _ _ _ _ _ Hwf Ha Hb H). lia.
  - pose proof (index_at_lt _ _ _ _ _ Hwf Hb Ha H). lia.
Qed.

Lemma index_at_is_Some g i :
  index_wf g -> 0 <= i < isize g -> is_Some (index_at g i).
Proof.
  intros [Hn _] Hi. unfold index_at. rewrite bool_decide_eq_true_2 by done.
  apply lookup_lt_is_Some. lia.
Qed.

Lemma index_at_range g i x : index_at g i = Some x -> 0 <= i < isize g.
Proof. unfold index_at. by case_bool_decide. Qed.

Lemma index_at_elem_of g i x :
  index_wf g -> index_at g i = Some x -> x ∈ atoms g.
Proof.
  intros Hwf Hi. rewrite atoms_wf by done.
  apply index_at_wf in Hi as [_ Hi]; [|done].
  by eapply list_elem_of_lookup_2.
Qed.

Lemma elem_of_index_at g x :
  index_wf g -> x ∈ atoms g -> exists i, index_at g i = Some x.
Proof.
  intros Hwf Hx. rewrite atoms_wf in Hx by done.
  apply list_elem_of_lookup_1 in Hx as [n Hn]. exists (Z.of_nat n).
  apply index_at_wf; [done|]. split; [lia|]. by rewrite Nat2Z.id.
Qed.

(** An element whose value pointer leads to a value array. *)
Definition has_vec (st : evalstate) (sel : selid) : Prop :=
  exists l cells, sel_ptr st sel = Some l /\ heap st !! l = Some (SVec cells).

Lemma vec_set_elems sel k x st st' :
  vec_set sel k x st = Ok tt st' ->
  elems st' = elems st /\ calls st' = calls st.
Proof. intros H. apply vec_set_Ok in H as (l & cells & _ & _ & ->). done. Qed.

Lemma vec_set_value_cell_same sel k x st st' :
  vec_set sel k x st = Ok tt st' -> value_cell st' sel k = Some x.
Proof.
  intros H. apply vec_set_Ok in H as (l & cells & Hl & Hh & ->).
  unfold value_cell, sel_ptr in *. simpl.
  destruct (elems st !! sel) as [e|]; [|done]. simpl in *. rewrite Hl. simpl.
  rewrite lookup_insert_eq. simpl. by rewrite lookup_insert_eq.
Qed.

Lemma vec_set_value_cell_other sel k x st st' c m :
  vec_set sel k x st = Ok tt st' -> m <> k ->
  value_cell st' c m = value_cell st c m.
Proof.
  intros H Hm. apply vec_set_Ok in H as (l & cells & Hl & Hh & ->).
  unfold value_cell, sel_ptr in *. simpl.
  destruct (elems st !! c) as [e|]; [|done]. simpl in *.
  destruct (ptr (v e)) as [l'|]; [|done]. simpl.
  destruct (decide (l = l')) as [<-|Hne].
  - rewrite lookup_insert_eq, Hh. simpl. by rewrite lookup_insert_ne.
  - by rewrite lookup_insert_ne.
Qed.

Lemma vec_set_has_vec sel k x st :
  has_vec st sel ->
  exists st', vec_set sel k x st = Ok tt st' /\ has_vec st' sel.
Proof.
  intros (l & cells & Hl & Hh). eexists. split.
  - apply vec_set_Ok. eauto.
  - exists l, (<[k := x]> cells). split; [done|]. simpl.
    by rewrite lookup_insert_eq.
Qed.

Lemma vec_set_has_vec_other sel k x st st' c :
  vec_set sel k x st = Ok tt st' -> has_vec st c -> has_vec st' c.
Proof.
  intros H (l' & cells' & Hl' & Hh').
  apply vec_set_Ok in H as (l & cells & Hl & Hh & ->).
  destruct (decide (l = l')) as [<-|Hne].
  - exists l, (<[k := x]> cells). split; [done|]. simpl.
    by rewrite lookup_insert_eq.
  - exists l', cells'. split; [done|]. simpl. by rewrite lookup_insert_ne.
Qed.

(** The inner search stops at the position of [x] in the cached group. *)
Lemma subexprref_skip_finds sel expr cgrp x j' st :
  index_wf cgrp ->
  sel_child sel st = Ok expr st ->
  cached_group st expr = Some cgrp ->
  index_at cgrp j' = Some x ->
  forall fuel j, 0 <= j <= j' -> (Z.to_nat (j' - j) <= fuel)%nat ->
    subexprref_skip fuel sel x j st = Ok j' st.
Proof.
  intros Hwf Hch Hcg Hj'. induction fuel as [|fuel IH]; intros j Hj Hf.
  - assert (j = j') as -> by lia. simpl.
    erewrite bind_eq by exact Hch.
    erewrite bind_eq by (apply sel_cgrp_Ok; eauto).
    erewrite bind_eq by (apply index_read_Ok; eauto).
    by rewrite Z.ltb_irrefl.
  - simpl. erewrite bind_eq by exact Hch.
    erewrite bind_eq by (apply sel_cgrp_Ok; eauto).
    destruct (decide (j = j')) as [->|Hne].
    + erewrite bind_eq by (apply index_read_Ok; eauto).
      by rewrite Z.ltb_irrefl.
    + destruct (index_at_is_Some cgrp j Hwf) as [a Ha].
      { apply index_at_range in Hj'. lia. }
      erewrite bind_eq by (apply index_read_Ok; eauto).
      assert (a < x) by (eapply index_at_lt; eauto; lia).
      replace (a <? x) with true by (symmetry; by apply Z.ltb_lt).
      apply IH; lia.
Qed.

Lemma subexprref_extract_spec sel expr g cgrp (orig : Z -> option scalar) :
  index_wf g -> index_wf cgrp ->
  (forall j, 0 <= j < isize cgrp -> is_Some (orig j)) ->
  forall n i j st,
    n = Z.to_nat (isize g - i) -> 0 <= i <= j ->
    sel_child sel st = Ok expr st ->
    cached_group st expr = Some cgrp ->
    has_vec st sel ->
    (forall m, j <= m -> value_cell st expr m = orig m) ->
    (forall i' x, i <= i' -> index_at g i' = Some x ->
                  exists j', j <= j' /\ index_at cgrp j' = Some x) ->
    exists st',
      subexprref_extract n sel expr g i j st = Ok tt st' /\
      elems st' = elems st /\ calls st' = calls st /\ has_vec st' sel /\
      (forall i', i' < i -> value_cell st' sel i' = value_cell st sel i') /\
      (forall i' x, i <= i' -> index_at g i' = Some x ->
                    exists j', index_at cgrp j' = Some x /\
                               value_cell st' sel i' = orig j').
Proof.
  intros Hg Hcg Horig. induction n as [|n IH];
    intros i j st Hn Hij Hch Hc Hvec Hexpr Hfind.
  - exists st. simpl. repeat split; try done.
    intros i' x Hi' Hx. apply index_at_range in Hx. lia.
  - assert (Hi : 0 <= i < isize g) by lia.
    destruct (index_at_is_Some g i Hg Hi) as [x Hx].
    destruct (Hfind i x ltac:(lia) Hx) as (j' & Hj' & Hcx).
    destruct (Horig j') as [y Hy]; [by eapply index_at_range|].
    destruct (vec_set_has_vec sel i y st Hvec) as (st1 & Hset & Hvec1).
    destruct (vec_set_elems _ _ _ _ _ Hset) as [Hel Hcl].
    destruct (IH (i + 1) (j' + 1) st1) as (st' & Hrun & He & Hcalls & Hv & Hlo & Hhi).
    + lia.
    + lia.
    + apply sel_child_Ok in Hch as [Hch _]. apply sel_child_Ok.
      by rewrite Hel.
    + unfold cached_group in *. by rewrite Hel.
    + done.
    + intros m Hm. rewrite (vec_set_value_cell_other _ _ _ _ _ _ _ Hset)
        by lia. apply Hexpr. lia.
    + intros i' x' Hi' Hx'.
      destruct (Hfind i' x' ltac:(lia) Hx') as (j'' & Hj'' & Hcx').
      exists j''. split; [|done].
      assert (x < x') by (eapply (index_at_lt g i i'); eauto; lia).
      destruct (decide (j'' <= j')) as [Hle|]; [|lia].
      destruct (decide (j'' = j')) as [->|Hne]; [simplify_eq; lia|].
      assert (x' < x) by (eapply (index_at_lt cgrp j'' j'); eauto; lia).
      lia.
    + exists st'. split.
      { simpl. erewrite bind_eq by (apply index_read_Ok; eauto).
        erewrite bind_eq by exact Hch.
        erewrite bind_eq by (apply sel_cgrp_Ok; eauto).
        erewrite bind_eq.
        2:{ eapply subexprref_skip_finds; eauto; [lia|].
            apply index_at_range in Hcx. lia. }
        erewrite bind_eq.
        2:{ apply vec_get_Ok. split; [|done]. rewrite Hexpr by lia. done. }
        erewrite bind_eq by exact Hset. exact Hrun. }
      split; [congruence|]. split; [congruence|]. split; [done|]. split.
      * intros i' Hi'. rewrite Hlo by lia.
        apply (vec_set_value_cell_other _ _ _ _ _ _ _ Hset). lia.
      * intros i' x' Hi' Hx'. destruct (decide (i' = i)) as [->|Hne].
        -- simplify_eq. exists j'. split; [done|]. rewrite Hlo by lia.
           rewrite (vec_set_value_cell_same _ _ _ _ _ Hset). done.
        -- apply Hhi; [lia|done].
Qed.

(** C10: for an array-valued reference evaluated over a group [g], once the
    target has been evaluated over [g], if [g] and the target's cached group
    are well-formed index groups, every atom of [g] is in the cached group
    and the target stores a value at each cached position, then the
    extraction returns (it terminates and reads the cached group within
    bounds), the reference holds [|g|] values, and its [i]-th value is the
    target's value at the position of [g.index[i]] in the cached group. *)
Theorem subexprref_extracts_values_of_group
    (ev : selid -> option gmx_ana_index_t -> M unit)
    (sel expr : selid) (g cgrp : gmx_ana_index_t)
    (st st1 : evalstate) (e0 e : t_selelem)
    (p : option gmx_ana_selparam_t) :
  elems st !! sel = Some e0 -> child e0 = Some expr ->
  ev expr (Some g) st = Ok tt st1 ->
  elems st1 !! sel = Some e -> child e = Some expr ->
  vtype (v e) = INT_VALUE \/ vtype (v e) = REAL_VALUE \/
    vtype (v e) = STR_VALUE ->
  u e = U_param p ->
  has_vec st1 sel ->
  cached_group st1 expr = Some cgrp ->
  index_wf g -> index_wf cgrp ->
  (forall x, x ∈ atoms g -> x ∈ atoms cgrp) ->
  (forall j, 0 <= j < isize cgrp -> is_Some (value_cell st1 expr j)) ->
  exists st',
    _gmx_sel_evaluate_subexprref ev sel (Some g) st = Ok tt st' /\
    value_nr st' sel = Some (isize g) /\
    forall i x, index_at g i = Some x ->
      exists j, index_at cgrp j = Some x /\
                value_cell st' sel i = value_cell st1 expr j.
Proof.
  intros He0 Hc0 Hev He Hc Hty Hu Hvec Hcg Hg Hcgrp Hsub Hvals.
  assert (Hne : sel <> expr).
  { intros <-. unfold cached_group in Hcg. rewrite He in Hcg. simpl in Hcg.
    by rewrite Hu in Hcg. }
  set (e1 := set_v e (set_nr (v e) (isize g))).
  set (st2 := with_elem st1 sel e1).
  assert (Hexpr2 : elems st2 !! expr = elems st1 !! expr).
  { unfold st2, with_elem; simpl. by rewrite lookup_insert_ne. }
  assert (Hsel2 : elems st2 !! sel = Some e1).
  { unfold st2, with_elem; simpl. by rewrite lookup_insert_eq. }
  destruct (subexprref_extract_spec sel expr g cgrp
              (value_cell st1 expr) Hg Hcgrp Hvals
              (Z.to_nat (isize g)) 0 0 st2)
    as (st3 & Hrun & Hel & Hcl & Hv3 & _ & Hres).
  - f_equal. lia.
  - lia.
  - apply sel_child_Ok. split; [|done]. exists e1. done.
  - unfold cached_group in *. by rewrite Hexpr2.
  - destruct Hvec as (l & cells & Hl & Hh). exists l, cells.
    split; [|done]. unfold sel_ptr in *. rewrite Hsel2. rewrite He in Hl.
    done.
  - intros m _. apply value_cell_frame; [by apply sel_ptr_frame|]. done.
  - intros i' x _ Hx.
    destruct (elem_of_index_at cgrp x Hcgrp) as [j' Hj'].
    { apply Hsub. by eapply index_at_elem_of. }
    exists j'. split; [|done]. apply index_at_range in Hj'. lia.
  - assert (He3 : elems st3 !! sel = Some e1) by (by rewrite Hel).
    exists (with_elem st3 sel
              (match p with
               | Some q => set_u e1 (U_param (Some
                   {| val_nr := nr (v e1);
                      nvalptr := match nvalptr q with
                                 | Some _ => Some (nr (v e1))
                                 | None => None
                                 end |}))
               | None => e1
               end)).
    split; [|split].
    + unfold _gmx_sel_evaluate_subexprref. simpl.
      erewrite bind_eq.
      2:{ erewrite bind_eq by (apply sel_child_Ok; eauto). exact Hev. }
      erewrite bind_eq by (apply sel_child_Ok; eauto).
      erewrite bind_eq by (apply sel_v_Ok; eauto).
      assert (Hbody :
        (exec set_sel_nr sel (isize g);
         subexprref_extract (Z.to_nat (isize g)) sel expr g 0 0) st1
        = Ok tt st3).
      { erewrite bind_eq by (apply set_sel_nr_Ok; eauto). exact Hrun. }
      erewrite bind_eq.
      2:{ destruct Hty as [-> | [-> | ->]]; exact Hbody. }
      unfold store_param_nr.
      erewrite bind_eq by (apply get_elem_Ok; eauto).
      simpl. rewrite Hu. destruct p as [q|]; simpl.
      * reflexivity.
      * unfold ret. f_equal. unfold with_elem. destruct st3; simpl in *.
        f_equal. symmetry. by apply insert_id.
    + unfold value_nr, with_elem; simpl. rewrite lookup_insert_eq.
      by destruct p.
    + intros i x Hx.
      destruct (Hres i x) as (j & Hj & Hval); [by eapply index_at_range|done|].
      exists j. split; [done|]. rewrite <- Hval.
      apply value_cell_frame; [|done].
      unfold sel_ptr, with_elem; simpl. rewrite lookup_insert_eq, He3.
      by destruct p.
Qed.

(** ** Arithmetic *)

Lemma vec_set_value_cell_ne_ptr sel k x st st' c m :
  vec_set sel k x st = Ok tt st' ->
  sel_ptr st c <> sel_ptr st sel ->
  value_cell st' c m = value_cell st c m.
Proof.
  intros H Hne. apply vec_set_Ok in H as (l & cells & Hl & Hh & ->).
  apply value_cell_frame; [done|]. intros l' Hl'. simpl.
  rewrite lookup_insert_ne; [done|]. congruence.
Qed.

Lemma real_get_Ok sel i r st st' :
  real_get sel i st = Ok r st' <->
  value_cell st sel i = Some (RealV r) /\ st = st'.
Proof.
  unfold real_get. split.
  - intros H. mbind H x s Hx. apply vec_get_Ok in Hx as [Hx <-].
    destruct x; try discriminate. apply ret_Ok in H as [<- <-]. done.
  - intros [Hx <-]. erewrite bind_eq by (apply vec_get_Ok; eauto). done.
Qed.

Lemma sel_arith_Ok sel op st st' :
  sel_arith sel st = Ok op st' <->
  (exists e, elems st !! sel = Some e /\ u e = U_arith op) /\ st = st'.
Proof.
  unfold sel_arith. split.
  - intros H. mbind H e s He. apply get_elem_Ok in He as [He <-].
    destruct (u e) eqn:Hu; try discriminate.
    apply ret_Ok in H as [<- <-]. eauto.
  - intros [(e & He & Hu) <-].
    erewrite bind_eq by (apply get_elem_Ok; eauto). by rewrite Hu.
Qed.

(** The count and the flags of every element survive a release and the
    undoing of a temporary assignment. *)
Lemma release_keeps_nr_flags c st st' x :
  _gmx_selelem_mempool_release c st = Ok tt st' ->
  value_nr st' x = value_nr st x /\ elem_flags st' x = elem_flags st x.
Proof.
  unfold _gmx_selelem_mempool_release, _gmx_selvalue_setstore. intros H.
  mbind H y s Hy. apply sel_v_Ok in Hy as [(e & He & <-) <-].
  assert (Hvec :
    (do l <- deref (ptr (v e)); exec free l;
     do x0 <- sel_v c; set_sel_v c (set_store x0 None 0)) st = Ok tt st' ->
    value_nr st' x = value_nr st x /\ elem_flags st' x = elem_flags st x).
  { intros H0. mbind H0 l s1 Hd. apply deref_Ok in Hd as [Hd <-].
    mbind H0 t s2 Hf. destruct t. apply free_Ok in Hf as ->.
    mbind H0 x0 s3 Hx. apply sel_v_Ok in Hx as [(e2 & He2 & <-) <-].
    apply set_sel_v_Ok in H0 as (e1 & He1 & ->). simpl in *. simplify_eq.
    unfold value_nr, elem_flags; simpl.
    destruct (decide (c = x)) as [->|Hne].
    - rewrite lookup_insert_eq, He. done.
    - by rewrite lookup_insert_ne. }
  destruct (vtype (v e)); eauto.
  - by apply ret_Ok in H as [_ <-].
  - mbind H g s1 Hg. apply sel_vgroup_Ok in Hg as [Hg <-].
    by apply set_sel_vgroup_Ok in H as (l & g0 & Hl & Hh & ->).
Qed.

Lemma restore_keeps_nr_flags c old st st' x :
  assigner_restore c old st = Ok tt st' ->
  value_nr st' x = value_nr st x /\ elem_flags st' x = elem_flags st x.
Proof.
  unfold assigner_restore, _gmx_selvalue_setstore_alloc. intros H.
  mbind H y s Hy. apply sel_v_Ok in Hy as [(e & He & <-) <-].
  apply set_sel_v_Ok in H as (e1 & He1 & ->). simplify_eq.
  unfold value_nr, elem_flags; simpl.
  destruct (decide (c = x)) as [->|Hne].
  - rewrite lookup_insert_eq, He. done.
  - by rewrite lookup_insert_ne.
Qed.

Lemma restore_value_cell c old st st' x k :
  assigner_restore c old st = Ok tt st' -> x <> c ->
  value_cell st' x k = value_cell st x k.
Proof.
  unfold assigner_restore, _gmx_selvalue_setstore_alloc. intros H Hne.
  mbind H y s Hy. apply sel_v_Ok in Hy as [(e & He & <-) <-].
  apply set_sel_v_Ok in H as (e1 & He1 & ->).
  apply value_cell_frame; [|done].
  unfold sel_ptr; simpl. by rewrite lookup_insert_ne.
Qed.

(** The loop keeps the elements and only writes cells of the element's
    own value array. *)
Lemma arith_loop_elems n : forall sel left right neg r0 i i1 i2 st st',
  arith_loop n sel left right neg r0 i i1 i2 st = Ok tt st' ->
  elems st' = elems st.
Proof.
  induction n as [|n IH]; intros sel left right neg r0 i i1 i2 st st' H.
  - by apply ret_Ok in H as [_ <-].
  - simpl in H.
    mbind H lval s1 Hl. apply real_get_Ok in Hl as [_ <-].
    mbind H rval s2 Hr.
    assert (s2 = st) as ->.
    { destruct neg.
      - by apply ret_Ok in Hr as [_ <-].
      - mbind Hr r s3 Hd. apply deref_Ok in Hd as [_ <-].
        by apply real_get_Ok in Hr as [_ <-]. }
    mbind H op s3 Hop. apply sel_arith_Ok in Hop as [_ <-].
    mbind H t s4 Hset. destruct t.
    apply vec_set_elems in Hset as [Hset _].
    mbind H lf s5 Hlf. apply sel_flags_Ok in Hlf as [_ <-].
    mbind H i2' s6 Hi2.
    assert (s6 = s4) as ->.
    { destruct neg.
      - by apply ret_Ok in Hi2 as [_ <-].
      - mbind Hi2 r s7 Hd. apply deref_Ok in Hd as [_ <-].
        mbind Hi2 rf s8 Hrf. apply sel_flags_Ok in Hrf as [_ <-].
        by apply ret_Ok in Hi2 as [_ <-]. }
    apply IH in H. congruence.
Qed.

(** Broadcast of a single-valued left operand whose store is not the
    element's own: iteration [m] combines [left[0]] with [right[m]]. *)
Lemma arith_loop_broadcast sel left right op lv (stc : evalstate) :
  (exists e, elems stc !! sel = Some e /\ u e = U_arith op) ->
  (exists lf, elem_flags stc left = Some lf /\
              has_flag lf SEL_SINGLEVAL = true) ->
  (exists rf, elem_flags stc right = Some rf /\
              has_flag rf SEL_SINGLEVAL = false) ->
  sel_ptr stc left <> sel_ptr stc sel ->
  forall n r0 i st st',
    arith_loop n sel left (Some right) false r0 i 0 i st = Ok tt st' ->
    elems st = elems stc ->
    value_cell st left 0 = Some (RealV lv) ->
    (forall m, i <= m -> value_cell st right m = value_cell stc right m) ->
    (forall m, m < i -> value_cell st' sel m = value_cell st sel m) /\
    (forall m rv, i <= m < i + Z.of_nat n ->
       value_cell stc right m = Some (RealV rv) ->
       value_cell st' sel m = Some (RealV (arith_apply op lv rv))).
Proof.
  intros (e & He & Hu) (lf & Hlf & Hls) (rf & Hrf & Hrs) Hptr.
  induction n as [|n IH]; intros r0 i st st' H Hel Hleft Hright.
  - apply ret_Ok in H as [_ <-]. split; [done|]. intros; lia.
  - simpl in H.
    mbind H lval s1 Hl. apply real_get_Ok in Hl as [Hl <-].
    rewrite Hleft in Hl. simplify_eq.
    mbind H rval s2 Hr. simpl in Hr. rewrite bind_ret in Hr.
    apply real_get_Ok in Hr as [Hr <-].
    mbind H op' s3 Hop. apply sel_arith_Ok in Hop as [(e' & He' & Hu') <-].
    rewrite Hel, He in He'. simplify_eq. rewrite Hu in Hu'. simplify_eq.
    mbind H t s4 Hset. destruct t. unfold real_set in Hset.
    destruct (vec_set_elems _ _ _ _ _ Hset) as [Hel4 _].
    mbind H lf' s5 Hlf'. apply sel_flags_Ok in Hlf' as [Hlf' <-].
    unfold elem_flags in Hlf', Hlf. rewrite Hel4, Hel, Hlf in Hlf'.
    simplify_eq. rewrite Hls in H.
    mbind H i2' s6 Hi2. simpl in Hi2. rewrite bind_ret in Hi2.
    mbind Hi2 rf' s7 Hrf'. apply sel_flags_Ok in Hrf' as [Hrf' <-].
    unfold elem_flags in Hrf', Hrf. rewrite Hel4, Hel, Hrf in Hrf'.
    simplify_eq. rewrite Hrs in Hi2. apply ret_Ok in Hi2 as [<- <-].
    assert (Hptr4 : sel_ptr st left <> sel_ptr st sel).
    { unfold sel_ptr in *. by rewrite Hel. }
    destruct (IH rval (i + 1) s4 st' H) as [Hlo Hhi].
    + congruence.
    + rewrite (vec_set_value_cell_ne_ptr _ _ _ _ _ _ _ Hset); done.
    + intros m Hm.
      rewrite (vec_set_value_cell_other _ _ _ _ _ _ _ Hset) by lia.
      apply Hright. lia.
    + split.
      * intros m Hm. rewrite Hlo by lia.
        apply (vec_set_value_cell_other _ _ _ _ _ _ _ Hset). lia.
      * intros m rv Hm Hrv. destruct (decide (m = i)) as [->|Hne].
        -- rewrite Hlo by lia.
           rewrite (vec_set_value_cell_same _ _ _ _ _ Hset).
           rewrite Hright in Hr by lia. rewrite Hrv in Hr. by simplify_eq.
        -- apply Hhi; [lia|done].
Qed.

Lemma value_cell_set_nr st sel e n x k :
  elems st !! sel = Some e ->
  value_cell (with_elem st sel (set_v e (set_nr (v e) n))) x k
  = value_cell st x k.
Proof.
  intros He. apply value_cell_frame; [|done]. unfold sel_ptr; simpl.
  destruct (decide (sel = x)) as [->|Hne].
  - rewrite lookup_insert_eq, He. done.
  - by rewrite lookup_insert_ne.
Qed.

Lemma sel_ptr_set_nr st sel e n x :
  elems st !! sel = Some e ->
  sel_ptr (with_elem st sel (set_v e (set_nr (v e) n))) x = sel_ptr st x.
Proof.
  intros He. unfold sel_ptr; simpl.
  destruct (decide (sel = x)) as [->|Hne].
  - rewrite lookup_insert_eq, He. done.
  - by rewrite lookup_insert_ne.
Qed.

Lemma elem_flags_set_nr st sel e n x :
  elems st !! sel = Some e ->
  elem_flags (with_elem st sel (set_v e (set_nr (v e) n))) x
  = elem_flags st x.
Proof.
  intros He. unfold elem_flags; simpl.
  destruct (decide (sel = x)) as [->|Hne].
  - rewrite lookup_insert_eq, He. done.
  - by rewrite lookup_insert_ne.
Qed.

(** Releasing a reservation leaves the values of an element with another
    store alone. *)
Lemma release_value_cell c sel st st' k :
  _gmx_selelem_mempool_release c st = Ok tt st' ->
  c <> sel -> sel_ptr st sel <> sel_ptr st c ->
  value_cell st' sel k = value_cell st sel k.
Proof.
  intros H Hne Hptr. apply release_frame in H as (Hoth & Hheap & _ & _).
  apply value_cell_frame.
  - apply sel_ptr_frame, Hoth. done.
  - intros l Hl. apply Hheap. congruence.
Qed.

(** The steps of a successful arithmetic evaluation: the guards armed on
    the operands, the evaluation of the operands, the loop over the
    element's array, and the release of the guards. *)
Lemma arithmetic_run
    (ev : selid -> option gmx_ana_index_t -> M unit) (fuel : nat)
    (sel : selid) (g : gmx_ana_index_t) (st st' : evalstate) :
  _gmx_sel_evaluate_arithmetic ev fuel sel (Some g) st = Ok tt st' ->
  exists left le guards st_a st_c e n op s_l s_r,
    sel_child sel st = Ok left st /\
    elems st !! left = Some le /\
    arith_guards sel left le (Some g) st = Ok guards st_a /\
    (forall r, snd guards = Some r -> mempool le = true /\ next le = Some r) /\
    (forall s old, fst guards = Some (s, old) ->
                   s = left \/ next le = Some s) /\
    _gmx_sel_evaluate_children ev fuel sel (Some g) st_a = Ok tt st_c /\
    elems st_c !! sel = Some e /\
    n = (if has_flag (flags e) SEL_SINGLEVAL then 1 else isize g) /\
    u e = U_arith op /\
    arith_loop (Z.to_nat n) sel left (next le) (bool_decide (op = ARITH_NEG))
      real_zero 0 0 0 (with_elem st_c sel (set_v e (set_nr (v e) n)))
      = Ok tt s_l /\
    match snd guards with
    | Some r => _gmx_selelem_mempool_release r
    | None => ret tt
    end s_l = Ok tt s_r /\
    match fst guards with
    | Some (s, old) => assigner_restore s old
    | None => ret tt
    end s_r = Ok tt st'.
Proof.
  unfold _gmx_sel_evaluate_arithmetic. intros H.
  mbind H lft s0 Hleft. pose proof Hleft as Hleft'.
  apply sel_child_Ok in Hleft' as [_ <-].
  mbind H le s1 Hle. apply get_elem_Ok in Hle as [Hle <-].
  mbind H guards st_a Hguards.
  mbind H t st_c Hchildren. destruct t.
  mbind H f s2 Hf. apply sel_flags_Ok in Hf as [Hf <-].
  unfold elem_flags in Hf.
  destruct (elems st_c !! sel) as [e|] eqn:He; [|done].
  simpl in Hf. apply (inj Some) in Hf. subst f.
  mbind H n s3 Hn.
  assert (n = (if has_flag (flags e) SEL_SINGLEVAL then 1 else isize g)
          /\ s3 = st_c) as [Hnval ->].
  { destruct (has_flag (flags e) SEL_SINGLEVAL).
    - by apply ret_Ok in Hn as [<- <-].
    - simpl in Hn. rewrite bind_ret in Hn. by apply ret_Ok in Hn as [<- <-]. }
  mbind H t s4 Hnr. destruct t.
  apply set_sel_nr_Ok in Hnr as (e0 & He0 & ->).
  assert (e0 = e) as -> by congruence. clear He0.
  mbind H op s5 Hop.
  apply sel_arith_Ok in Hop as [(e' & He' & Hu') <-].
  simpl in He'. rewrite lookup_insert_eq in He'.
  apply (inj Some) in He'. subst e'. simpl in Hu'.
  mbind H t s_l Hloop. destruct t.
  mbind H t s_r Hrel. destruct t.
  exists lft, le, guards, st_a, st_c, e, n, op, s_l, s_r.
  split; [done|]. split; [done|]. split; [exact Hguards|].
  unfold arith_guards in Hguards.
  assert (Hg : (forall r, snd guards = Some r ->
                  mempool le = true /\ next le = Some r) /\
               (forall s old, fst guards = Some (s, old) ->
                  s = lft \/ next le = Some s)).
  { destruct (mempool le).
    - mbind Hguards old s6 Hold. mbind Hguards res s7 Hres.
      apply ret_Ok in Hguards as [<- _]. simpl.
      split; [|intros s o Hs; left; congruence].
      intros r Hr. split; [done|]. subst res.
      destruct (next le) as [r'|]; [|by apply ret_Ok in Hres as [? _]].
      mbind Hres g' s8 Hg'. mbind Hres t s9 Hrv.
      apply ret_Ok in Hres as [? _]. congruence.
    - destruct (next le) as [r'|]; [|apply ret_Ok in Hguards as [<- _];
                                     by split].
      mbind Hguards re s6 Hre. destruct (mempool re).
      + mbind Hguards old s7 Hold. apply ret_Ok in Hguards as [<- _]. simpl.
        split; [done|]. intros s o Hs. right. congruence.
      + apply ret_Ok in Hguards as [<- _]. by split. }
  destruct Hg as [Hg1 Hg2].
  split; [exact Hg1|]. split; [exact Hg2|]. repeat split; done.
Qed.

(** What the release of the guards leaves of the element's values. *)
Lemma arithmetic_guards_keep_cells
    (guards : option (selid * (option loc * Z)) * option selid)
    (sel : selid) (s_l s_r st' : evalstate) (k : Z) :
  match snd guards with
  | Some r => _gmx_selelem_mempool_release r
  | None => ret tt
  end s_l = Ok tt s_r ->
  match fst guards with
  | Some (s, old) => assigner_restore s old
  | None => ret tt
  end s_r = Ok tt st' ->
  (forall r, snd guards = Some r ->
             r <> sel /\ sel_ptr s_l sel <> sel_ptr s_l r) ->
  (forall s old, fst guards = Some (s, old) -> s <> sel) ->
  value_cell st' sel k = value_cell s_l sel k.
Proof.
  destruct guards as [a b]; simpl. intros Hrel Hres Hb Ha.
  transitivity (value_cell s_r sel k).
  - destruct a as [[s old]|]; [|by apply ret_Ok in Hres as [_ <-]].
    apply (restore_value_cell _ _ _ _ _ _ Hres). intros ->.
    by eapply Ha.
  - destruct b as [r|]; [|by apply ret_Ok in Hrel as [_ <-]].
    destruct (Hb r eq_refl) as [Hne Hptr].
    by apply (release_value_cell _ _ _ _ _ Hrel).
Qed.


(** The count of an arithmetic element, and the broadcast of a
    single-valued left operand that keeps its own store: a successful
    evaluation over [g] leaves [nr] = 1 when the element is single-valued
    and [|g|] otherwise; and when the left operand is single-valued, does
    not come from the pool and has its values apart from the element's
    array, and the right operand is not single-valued, the element's value
    [i] is [op(left[0], right[i])] for every [i] below that count. The
    operand values are those in the state [st_c] the evaluation of the
    children returns, which is fixed by the run: the guards are armed on
    the start state and the children are evaluated next. *)
Lemma arithmetic_count_and_broadcast
    (ev : selid -> option gmx_ana_index_t -> M unit) (fuel : nat)
    (sel : selid) (g : gmx_ana_index_t) (st st' : evalstate) :
  _gmx_sel_evaluate_arithmetic ev fuel sel (Some g) st = Ok tt st' ->
  exists f n left le guards st_a st_c op,
    elem_flags st' sel = Some f /\
    n = (if has_flag f SEL_SINGLEVAL then 1 else isize g) /\
    value_nr st' sel = Some n /\
    sel_child sel st = Ok left st /\
    elems st !! left = Some le /\
    arith_guards sel left le (Some g) st = Ok guards st_a /\
    _gmx_sel_evaluate_children ev fuel sel (Some g) st_a = Ok tt st_c /\
    sel_arith sel st_c = Ok op st_c /\
    (mempool le = false ->
     forall right lf rf lv,
       next le = Some right -> right <> sel -> op <> ARITH_NEG ->
       elem_flags st_c left = Some lf -> has_flag lf SEL_SINGLEVAL = true ->
       elem_flags st_c right = Some rf -> has_flag rf SEL_SINGLEVAL = false ->
       sel_ptr st_c left <> sel_ptr st_c sel ->
       value_cell st_c left 0 = Some (RealV lv) ->
       forall i rv, 0 <= i < n ->
         value_cell st_c right i = Some (RealV rv) ->
         value_cell st' sel i = Some (RealV (arith_apply op lv rv))).
Proof.
  intros H. apply arithmetic_run in H
    as (lft & le & guards & st_a & st_c & e & n & op & s_l & s_r & Hleft
        & Hle & Hguards & Hg1 & Hg2 & Hch & He & Hn & Hu & Hloop & Hrel
        & Hres).
  set (st_n := with_elem st_c sel (set_v e (set_nr (v e) n))) in *.
  pose proof (arith_loop_elems _ _ _ _ _ _ _ _ _ _ _ Hloop) as Hel_l.
  assert (Hnf_l : value_nr s_l sel = Some n /\
                  elem_flags s_l sel = Some (flags e)).
  { unfold value_nr, elem_flags. rewrite Hel_l. unfold st_n; simpl.
    by rewrite lookup_insert_eq. }
  assert (Hnf_r : value_nr s_r sel = Some n /\
                  elem_flags s_r sel = Some (flags e)).
  { destruct (snd guards) as [r|].
    - destruct (release_keeps_nr_flags _ _ _ sel Hrel) as [-> ->]. done.
    - by apply ret_Ok in Hrel as [_ <-]. }
  assert (Hnf' : value_nr st' sel = Some n /\
                 elem_flags st' sel = Some (flags e)).
  { destruct (fst guards) as [[s old]|].
    - destruct (restore_keeps_nr_flags _ _ _ _ sel Hres) as [-> ->]. done.
    - by apply ret_Ok in Hres as [_ <-]. }
  destruct Hnf' as [Hn' Hf'].
  exists (flags e), n, lft, le, guards, st_a, st_c, op.
  split; [done|]. split; [done|]. split; [done|]. split; [done|].
  split; [done|]. split; [done|]. split; [done|]. split.
  { apply sel_arith_Ok. eauto. }
  intros Hpool rgt lf rf lv Hright Hrsel Hneg Hlf Hls Hrf Hrs Hptr Hlv
    i rv Hi Hrv.
  rewrite (arithmetic_guards_keep_cells guards sel s_l s_r st' i Hrel Hres).
  - rewrite Hright in Hloop.
    replace (bool_decide (op = ARITH_NEG)) with false in Hloop
      by (symmetry; by apply bool_decide_eq_false).
    edestruct (arith_loop_broadcast sel lft rgt op lv st_n) as [_ Hres'];
      [| | | |exact Hloop| | | |].
    + exists (set_v e (set_nr (v e) n)). split; [|exact Hu].
      unfold st_n, with_elem; simpl. by rewrite lookup_insert_eq.
    + exists lf. unfold st_n. by rewrite elem_flags_set_nr.
    + exists rf. unfold st_n. by rewrite elem_flags_set_nr.
    + unfold st_n. by rewrite !sel_ptr_set_nr.
    + done.
    + unfold st_n. by rewrite value_cell_set_nr.
    + done.
    + apply Hres'; [lia|]. unfold st_n. by rewrite value_cell_set_nr.
  - intros r Hr. destruct (Hg1 r Hr) as [Hp _]. congruence.
  - intros s old Hs. destruct (Hg2 s old Hs) as [->|Hnext].
    + unfold arith_guards in Hguards. rewrite Hpool, Hright in Hguards.
      mbind Hguards re s6 Hre. destruct (mempool re).
      * mbind Hguards o s7 Hold. apply ret_Ok in Hguards as [<- _].
        simpl in Hs. intros ->. congruence.
      * apply ret_Ok in Hguards as [<- _]. done.
    + congruence.
Qed.

(** ** Boolean AND and OR: short-circuit evaluation *)

(** The running intersection of a group with a series of value groups. *)
Definition inter_all (a : list Z) (outs : list gmx_ana_index_t) : list Z :=
  foldl (fun acc o => filter (λ x, x ∈ atoms o) acc) a outs.

(** What is left of a group after a series of value groups. *)
Definition remainder (a : list Z) (outs : list gmx_ana_index_t) : list Z :=
  foldl (fun acc o => filter (λ x, x ∉ atoms o) acc) a outs.

Lemma elem_of_inter_all x a outs :
  x ∈ inter_all a outs <-> x ∈ a /\ forall o, o ∈ outs -> x ∈ atoms o.
Proof.
  unfold inter_all. revert a. induction outs as [|o outs IH]; intros a; simpl.
  - split; [intros H; split; [done|]; intros o Ho; by apply elem_of_nil in Ho
           | by intros [H _]].
  - rewrite IH, list_elem_of_filter. split.
    + intros [[Hx Ha] Hall]. split; [done|]. intros o' Ho'.
      apply elem_of_cons in Ho' as [->|Ho']; auto.
    + intros [Ha Hall]. split; [split; [|done]|].
      * apply Hall. by left.
      * intros o' Ho'. apply Hall. by right.
Qed.

Lemma elem_of_remainder x a outs :
  x ∈ remainder a outs <-> x ∈ a /\ forall o, o ∈ outs -> x ∉ atoms o.
Proof.
  unfold remainder. revert a. induction outs as [|o outs IH]; intros a; simpl.
  - split; [intros H; split; [done|]; intros o Ho; by apply elem_of_nil in Ho
           | by intros [H _]].
  - rewrite IH, list_elem_of_filter. split.
    + intros [[Hx Ha] Hall]. split; [done|]. intros o' Ho'.
      apply elem_of_cons in Ho' as [->|Ho']; auto.
    + intros [Ha Hall]. split; [split; [|done]|].
      * apply Hall. by left.
      * intros o' Ho'. apply Hall. by right.
Qed.

Lemma inter_all_snoc a outs o :
  inter_all a (outs ++ [o]) = filter (λ x, x ∈ atoms o) (inter_all a outs).
Proof. unfold inter_all. by rewrite foldl_app. Qed.

Lemma remainder_snoc a outs o :
  remainder a (outs ++ [o]) = filter (λ x, x ∉ atoms o) (remainder a outs).
Proof. unfold remainder. by rewrite foldl_app. Qed.

(** The parts of a group covered by a series of value groups, each taken
    from what the earlier ones left. *)
Fixpoint gathered (a : list Z) (outs : list gmx_ana_index_t) : list Z :=
  match outs with
  | [] => []
  | o :: outs' =>
      filter (λ x, x ∈ atoms o) a
      ++ gathered (filter (λ x, x ∉ atoms o) a) outs'
  end.

Lemma elem_of_gathered x a outs :
  x ∈ gathered a outs <-> x ∈ a /\ exists o, o ∈ outs /\ x ∈ atoms o.
Proof.
  revert a. induction outs as [|o outs IH]; intros a; simpl.
  - split; [by intros H%elem_of_nil|].
    intros [_ (o & Ho & _)]. by apply elem_of_nil in Ho.
  - rewrite elem_of_app, IH, !list_elem_of_filter. split.
    + intros [[Hx Ha]|[[Hx Ha] (o' & Ho' & Hxo')]].
      * split; [done|]. exists o. split; [by left|done].
      * split; [done|]. exists o'. split; [by right|done].
    + intros [Ha (o' & Ho' & Hxo')].
      destruct (decide (x ∈ atoms o)) as [Hin|Hnin]; [by left|].
      right. split; [done|]. apply elem_of_cons in Ho' as [->|Ho']; [done|].
      eauto.
Qed.

Lemma remainder_cons a o outs :
  remainder a (o :: outs) = remainder (filter (λ x, x ∉ atoms o) a) outs.
Proof. reflexivity. Qed.

Section Boolean.
Variable sel : selid.
Variable l : loc.

(** The element's value group lives in the store [l], which no other
    element points to. *)
Definition private (st : evalstate) : Prop :=
  sel_ptr st sel = Some l /\
  (exists g0, heap st !! l = Some (SGroup g0)) /\
  (forall c, sel_ptr st c = Some l -> c = sel).

Lemma private_value_group st :
  private st -> exists g0, value_group st sel = Some g0.
Proof.
  intros (Hp & (g0 & Hh) & _). exists g0. unfold value_group.
  rewrite Hp. simpl. by rewrite Hh.
Qed.

Lemma private_frame st st' :
  private st ->
  (forall x, sel_ptr st' x = sel_ptr st x) ->
  heap st' !! l = heap st !! l ->
  private st'.
Proof.
  intros (Hp & Hh & Hex) Hptr Hheap. split; [by rewrite Hptr|].
  split; [by rewrite Hheap|]. intros c Hc. apply Hex. by rewrite <- Hptr.
Qed.

Lemma reserve_private c n st st' :
  private st -> c <> sel ->
  _gmx_selelem_mempool_reserve c n st = Ok tt st' ->
  private st' /\ heap st' !! l = heap st !! l.
Proof.
  intros (Hp & (g0 & Hh) & Hex) Hne H.
  assert (Hcl : sel_ptr st c <> Some l) by (intros Hc; by apply Hex in Hc).
  unfold _gmx_selelem_mempool_reserve in H.
  mbind H x s Hx. apply sel_v_Ok in Hx as [(e & He & <-) <-].
  assert (Hvec : forall s0,
    (do l0 <- alloc s0;
     set_sel_v c (set_store (v e) (Some l0) (nalloc (v e)))) st = Ok tt st' ->
    private st' /\ heap st' !! l = heap st !! l).
  { intros s0 H0. mbind H0 l0 s1 Ha. apply alloc_Ok in Ha as [-> ->].
    apply set_sel_v_Ok in H0 as (e1 & He1 & ->). simpl in *.
    assert (Hfresh : fresh (dom (heap st)) <> l).
    { intros Heq. pose proof (fresh_loc_unused (heap st)) as Hf.
      rewrite Heq, Hh in Hf. done. }
    split; [|by rewrite lookup_insert_ne].
    split; [|split].
    - unfold sel_ptr in *; simpl. by rewrite lookup_insert_ne.
    - exists g0. simpl. by rewrite lookup_insert_ne.
    - intros y Hy. unfold sel_ptr in Hy; simpl in Hy.
      destruct (decide (c = y)) as [<-|Hcy].
      + rewrite lookup_insert_eq in Hy. simpl in Hy. congruence.
      + rewrite lookup_insert_ne in Hy by done. by apply Hex. }
  destruct (vtype (v e)); eauto.
  - apply ret_Ok in H as [_ <-]. split; [|done]. repeat split; eauto.
  - mbind H g s1 Hg. apply sel_vgroup_Ok in Hg as [Hg <-].
    apply set_sel_vgroup_Ok in H as (l' & g1 & Hl' & Hh' & ->). simpl.
    assert (l' <> l) by congruence.
    split; [|by rewrite lookup_insert_ne].
    split; [done|]. split; [|done]. exists g0. simpl.
    by rewrite lookup_insert_ne.
Qed.

Lemma release_private c st st' :
  private st -> c <> sel ->
  _gmx_selelem_mempool_release c st = Ok tt st' ->
  private st' /\ heap st' !! l = heap st !! l /\
  (forall e, elems st !! c = Some e ->
     exists e', elems st' !! c = Some e' /\ next e' = next e).
Proof.
  intros Hpriv Hne H. pose proof Hpriv as (Hp & (g0 & Hh) & Hex).
  assert (Hcl : sel_ptr st c <> Some l) by (intros Hc; by apply Hex in Hc).
  pose proof (release_frame _ _ _ H) as (Hel & Hheap & _ & Hc).
  split; [|split].
  - split; [|split].
    + rewrite (sel_ptr_frame st st' sel); [done|]. by apply Hel.
    + exists g0. by rewrite Hheap.
    + intros y Hy. destruct (decide (y = c)) as [->|Hyc].
      * exfalso. unfold _gmx_selelem_mempool_release in H.
        mbind H x s Hx. apply sel_v_Ok in Hx as [(e & He & <-) <-].
        unfold sel_ptr in Hcl, Hy. rewrite He in Hcl. simpl in Hcl.
        destruct (vtype (v e)).
        -- apply ret_Ok in H as [_ <-]. rewrite He in Hy. done.
        -- mbind H l0 s1 Hd. mbind H t s2 Hf.
           unfold _gmx_selvalue_setstore in H. mbind H x0 s3 Hx0.
           apply set_sel_v_Ok in H as (e1 & He1 & ->). simpl in Hy.
           rewrite lookup_insert_eq in Hy. done.
        -- mbind H l0 s1 Hd. mbind H t s2 Hf.
           unfold _gmx_selvalue_setstore in H. mbind H x0 s3 Hx0.
           apply set_sel_v_Ok in H as (e1 & He1 & ->). simpl in Hy.
           rewrite lookup_insert_eq in Hy. done.
        -- mbind H l0 s1 Hd. mbind H t s2 Hf.
           unfold _gmx_selvalue_setstore in H. mbind H x0 s3 Hx0.
           apply set_sel_v_Ok in H as (e1 & He1 & ->). simpl in Hy.
           rewrite lookup_insert_eq in Hy. done.
        -- mbind H l0 s1 Hd. mbind H t s2 Hf.
           unfold _gmx_selvalue_setstore in H. mbind H x0 s3 Hx0.
           apply set_sel_v_Ok in H as (e1 & He1 & ->). simpl in Hy.
           rewrite lookup_insert_eq in Hy. done.
        -- mbind H g s1 Hg. apply sel_vgroup_Ok in Hg as [Hg <-].
           apply set_sel_vgroup_Ok in H as (l' & g1 & Hl' & Hh' & ->).
           simpl in Hy. rewrite He in Hy. done.
      * apply Hex. rewrite <- Hy. symmetry. apply sel_ptr_frame. by apply Hel.
  - by apply Hheap.
  - intros e He. destruct (Hc e He) as (e' & He' & Hn & _). eauto.
Qed.

Lemma private_set_value st g :
  private st -> private (with_store st l (SGroup g)) /\
                value_group (with_store st l (SGroup g)) sel = Some g.
Proof.
  intros (Hp & (g0 & Hh) & Hex). split.
  - split; [done|]. split; [|done]. exists g. simpl.
    by rewrite lookup_insert_eq.
  - by eapply value_group_with_store_eq.
Qed.

Lemma private_heap_value_group st st' :
  private st -> private st' ->
  heap st' !! l = heap st !! l ->
  value_group st' sel = value_group st sel.
Proof.
  intros (Hp & _) (Hp' & _) Hh. unfold value_group. rewrite Hp, Hp'. simpl.
  by rewrite Hh.
Qed.

End Boolean.

(** ** Frame lifecycle: first-touch initialisation of methods *)

(** A test against a single-bit flag reads that bit. *)
Lemma has_flag_pow2 f k :
  0 <= k -> has_flag f (2 ^ k) = Z.testbit f k.
Proof.
  intros Hk. unfold has_flag.
  assert (H : Z.land f (2 ^ k) = if Z.testbit f k then 2 ^ k else 0).
  { apply Z.bits_inj'. intros n Hn.
    rewrite Z.land_spec, Z.pow2_bits_eqb by lia.
    destruct (Z.eqb_spec k n) as [->|Hne].
    - rewrite andb_true_r. destruct (Z.testbit f n) eqn:E.
      + by rewrite Z.pow2_bits_true.
      + by rewrite Z.bits_0.
    - rewrite andb_false_r. destruct (Z.testbit f k).
      + rewrite Z.pow2_bits_false; [done|lia].
      + by rewrite Z.bits_0. }
  rewrite H. destruct (Z.testbit f k); [|done].
  assert (0 < 2 ^ k) by (apply Z.pow_pos_nonneg; lia).
  destruct (Z.eqb_spec (2 ^ k) 0); [lia|done].
Qed.

Lemma has_initframe f : has_flag f SEL_INITFRAME = Z.testbit f 10.
Proof. apply (has_flag_pow2 f 10). lia. Qed.

Lemma initframe_cleared f :
  has_flag (Z.land f (Z.lnot SEL_INITFRAME)) SEL_INITFRAME = false.
Proof.
  rewrite has_initframe, Z.land_spec, Z.lnot_spec by lia.
  change (Z.testbit SEL_INITFRAME 10) with true. simpl. apply andb_false_r.
Qed.

Lemma initframe_after_reset f :
  has_flag (Z.land f (Z.lnot (Z.lor SEL_INITFRAME SEL_EVALFRAME)))
           SEL_INITFRAME = false.
Proof.
  rewrite has_initframe, Z.land_spec, Z.lnot_spec by lia.
  change (Z.testbit (Z.lor SEL_INITFRAME SEL_EVALFRAME) 10) with true.
  simpl. apply andb_false_r.
Qed.

Lemma initframe_set f : has_flag (Z.lor f SEL_INITFRAME) SEL_INITFRAME = true.
Proof.
  rewrite has_initframe, Z.lor_spec.
  change (Z.testbit SEL_INITFRAME 10) with true. apply orb_true_r.
Qed.

Lemma initframe_evalframe f :
  has_flag (Z.lor f SEL_EVALFRAME) SEL_INITFRAME = has_flag f SEL_INITFRAME.
Proof.
  rewrite !has_initframe, Z.lor_spec.
  change (Z.testbit SEL_EVALFRAME 10) with false. apply orb_false_r.
Qed.

(** What the lifecycle looks at in an element: its place in the tree and
    its method, and whether its initialisation is pending. *)
Definition skel (e : t_selelem)
  : e_selelem_t * option selid * option selid *
    option (option gmx_ana_selmethod_t) :=
  (type e, child e, next e,
   match u e with U_expr x => Some (method x) | _ => None end).

Definition init_bit (e : t_selelem) : bool :=
  has_flag (flags e) SEL_INITFRAME.

Definition view (e : t_selelem) := (skel e, init_bit e).

(** 1 when the element has [SEL_INITFRAME] set, else 0. *)
Definition pending (st : evalstate) (sel : selid) : nat :=
  match elems st !! sel with
  | Some e => if init_bit e then 1 else 0
  | None => 0
  end.

(** The number of [init_frame] calls for [sel] in a record of calls. *)
Fixpoint init_frame_count (sel : selid) (tr : list callback) : nat :=
  match tr with
  | [] => 0
  | CallInitFrame s :: tr' =>
      ((if decide (s = sel) then 1 else 0) + init_frame_count sel tr')%nat
  | _ :: tr' => init_frame_count sel tr'
  end.

(** The update callback of [sel] occurs in a record of calls. *)
Definition is_update (sel : selid) (c : callback) : Prop :=
  match c with
  | CallUpdate s _ | CallPUpdate s => s = sel
  | CallInitFrame _ => False
  end.

Definition updated (sel : selid) (tr : list callback) : Prop :=
  exists c, c ∈ tr /\ is_update sel c.

Lemma init_frame_count_app sel tr1 tr2 :
  init_frame_count sel (tr1 ++ tr2)
  = (init_frame_count sel tr1 + init_frame_count sel tr2)%nat.
Proof.
  induction tr1 as [|c tr1 IH]; [done|]. simpl.
  destruct c; rewrite IH; lia.
Qed.

Lemma updated_app sel tr1 tr2 :
  updated sel (tr1 ++ tr2) <-> updated sel tr1 \/ updated sel tr2.
Proof.
  unfold updated. split.
  - intros (c & Hc & Hu). apply elem_of_app in Hc as [Hc|Hc]; eauto.
  - intros [(c & Hc & Hu)|(c & Hc & Hu)]; exists c;
      (split; [apply elem_of_app; eauto | done]).
Qed.

Lemma updated_nil sel : ~ updated sel [].
Proof. intros (c & Hc & _). by apply elem_of_nil in Hc. Qed.

(** A step that makes no plugin call and leaves every element's place,
    method and pending bit alone. *)
Definition silent {A} (m : M A) : Prop :=
  forall st a st', m st = Ok a st' ->
    calls st' = calls st /\
    forall sel, view <$> elems st' !! sel = view <$> elems st !! sel.

(** Between two states of one frame: the tree keeps its shape, and each
    [init_frame] call is paid for by a pending bit that was set before and
    is clear after; once the update callback of an element has run, its
    bit is clear. *)
Definition steady (st st' : evalstate) : Prop :=
  (forall sel, skel <$> elems st' !! sel = skel <$> elems st !! sel) /\
  exists tr,
    calls st' = calls st ++ tr /\
    forall sel,
      (init_frame_count sel tr + pending st' sel = pending st sel)%nat /\
      (updated sel tr -> pending st' sel = 0%nat).

Definition mono {A} (m : M A) : Prop :=
  forall st a st', m st = Ok a st' -> steady st st'.

Lemma steady_refl st : steady st st.
Proof.
  split; [done|]. exists []. split; [by rewrite app_nil_r|].
  intros sel. split; [done|]. intros H. by apply updated_nil in H.
Qed.

Lemma steady_trans st1 st2 st3 :
  steady st1 st2 -> steady st2 st3 -> steady st1 st3.
Proof.
  intros [Hs1 (tr1 & Hc1 & H1)] [Hs2 (tr2 & Hc2 & H2)]. split.
  - intros sel. by rewrite Hs2, Hs1.
  - exists (tr1 ++ tr2). split; [by rewrite Hc2, Hc1, app_assoc|].
    intros sel. destruct (H1 sel) as [Ha1 Hb1], (H2 sel) as [Ha2 Hb2].
    rewrite init_frame_count_app. split; [lia|].
    intros Hu. apply updated_app in Hu as [Hu|Hu]; [|auto].
    specialize (Hb1 Hu). lia.
Qed.

Lemma view_pending st st' sel :
  view <$> elems st' !! sel = view <$> elems st !! sel ->
  pending st' sel = pending st sel.
Proof.
  unfold pending. destruct (elems st' !! sel), (elems st !! sel);
    simpl; intros H; try done.
  apply (inj Some), (f_equal snd) in H. simpl in H. by rewrite H.
Qed.

Lemma view_skel st st' sel :
  view <$> elems st' !! sel = view <$> elems st !! sel ->
  skel <$> elems st' !! sel = skel <$> elems st !! sel.
Proof.
  destruct (elems st' !! sel), (elems st !! sel);
    simpl; intros H; try done.
  apply (inj Some), (f_equal fst) in H. simpl in H. by rewrite H.
Qed.

Lemma silent_mono {A} (m : M A) : silent m -> mono m.
Proof.
  intros Hm st a st' H. destruct (Hm _ _ _ H) as [Hc Hv]. split.
  - intros sel. by apply view_skel.
  - exists []. split; [by rewrite app_nil_r|]. intros sel.
    rewrite (view_pending _ _ _ (Hv sel)). split; [done|].
    intros Hu. by apply updated_nil in Hu.
Qed.

Lemma silent_ret {A} (a : A) : silent (ret a).
Proof. intros st b st' H. by apply ret_Ok in H as [_ <-]. Qed.

Lemma silent_throw {A} e : silent (@throw A e).
Proof. intros st b st' H. discriminate. Qed.

Lemma silent_bind {A B} (m : M A) (k : A -> M B) :
  silent m -> (forall a, silent (k a)) -> silent (bind m k).
Proof.
  intros Hm Hk st b st' H. mbind H a s H1.
  destruct (Hm _ _ _ H1) as [Hc1 Hv1], (Hk _ _ _ _ H) as [Hc2 Hv2].
  split; [congruence|]. intros sel. by rewrite Hv2, Hv1.
Qed.

Lemma mono_ret {A} (a : A) : mono (ret a).
Proof. apply silent_mono, silent_ret. Qed.

Lemma mono_bind {A B} (m : M A) (k : A -> M B) :
  mono m -> (forall a, mono (k a)) -> mono (bind m k).
Proof.
  intros Hm Hk st b st' H. mbind H a s H1.
  eapply steady_trans; [by eapply Hm | by eapply Hk].
Qed.

Lemma silent_deref {A} (p : option A) : silent (deref p).
Proof. destruct p; [apply silent_ret | apply silent_throw]. Qed.

Lemma silent_get_elem sel : silent (get_elem sel).
Proof. intros st e st' H. by apply get_elem_Ok in H as [_ <-]. Qed.

Lemma silent_load l : silent (load l).
Proof. intros st e st' H. by apply load_Ok in H as [_ <-]. Qed.

Lemma silent_store l s : silent (store l s).
Proof. intros st [] st' H. by apply store_Ok in H as ->. Qed.

Lemma silent_alloc s : silent (alloc s).
Proof. intros st l st' H. by apply alloc_Ok in H as [_ ->]. Qed.

Lemma silent_free l : silent (free l).
Proof. intros st [] st' H. by apply free_Ok in H as ->. Qed.

(** Replacing an element by one with the same view. *)
Lemma silent_put_same sel e e' st :
  elems st !! sel = Some e -> view e' = view e ->
  forall x, view <$> elems (with_elem st sel e') !! x
            = view <$> elems st !! x.
Proof.
  intros He Hv x. unfold with_elem; simpl.
  destruct (decide (sel = x)) as [<-|Hne].
  - rewrite lookup_insert_eq, He. simpl. by rewrite Hv.
  - by rewrite lookup_insert_ne.
Qed.

Lemma silent_set_sel_v sel x : silent (set_sel_v sel x).
Proof.
  intros st [] st' H. apply set_sel_v_Ok in H as (e & He & ->).
  split; [done|]. by apply (silent_put_same sel e).
Qed.

Lemma silent_set_sel_nr sel n : silent (set_sel_nr sel n).
Proof.
  intros st [] st' H. apply set_sel_nr_Ok in H as (e & He & ->).
  split; [done|]. by apply (silent_put_same sel e).
Qed.

Lemma silent_set_sel_cgrp sel g : silent (set_sel_cgrp sel g).
Proof.
  intros st [] st' H. apply set_sel_cgrp_Ok in H as (e & g0 & He & Hu & ->).
  split; [done|]. apply (silent_put_same sel e); [done|].
  unfold view, skel, init_bit; simpl. by rewrite Hu.
Qed.

Lemma silent_set_sel_mdata sel md : silent (set_sel_mdata sel md).
Proof.
  intros st [] st' H. unfold set_sel_mdata in H.
  mbind H x s Hx. apply sel_expr_Ok in Hx as [(e & He & Hu) <-].
  apply set_sel_expr_Ok in H as (e' & x0 & He' & Hu' & ->). simplify_eq.
  split; [done|]. apply (silent_put_same sel e); [done|].
  unfold view, skel, init_bit; simpl. by rewrite Hu.
Qed.

Lemma silent_set_sel_pos sel p : silent (set_sel_pos sel p).
Proof.
  intros st [] st' H. unfold set_sel_pos in H.
  mbind H x s Hx. apply sel_expr_Ok in Hx as [(e & He & Hu) <-].
  apply set_sel_expr_Ok in H as (e' & x0 & He' & Hu' & ->). simplify_eq.
  split; [done|]. apply (silent_put_same sel e); [done|].
  unfold view, skel, init_bit; simpl. by rewrite Hu.
Qed.

Ltac silent_step :=
  first [ apply silent_ret | apply silent_throw | apply silent_deref
        | apply silent_get_elem | apply silent_load | apply silent_store
        | apply silent_alloc | apply silent_free
        | apply silent_set_sel_v | apply silent_set_sel_nr
        | apply silent_set_sel_cgrp | apply silent_set_sel_mdata
        | apply silent_set_sel_pos
        | apply silent_bind; [|intros ?]
        | case_match ].

Ltac silent_auto := repeat silent_step.

Lemma silent_sel_child sel : silent (sel_child sel).
Proof. unfold sel_child. silent_auto. Qed.

Lemma silent_sel_v sel : silent (sel_v sel).
Proof. unfold sel_v. silent_auto. Qed.

Lemma silent_sel_flags sel : silent (sel_flags sel).
Proof. unfold sel_flags. silent_auto. Qed.

Lemma silent_sel_cgrp sel : silent (sel_cgrp sel).
Proof. unfold sel_cgrp. silent_auto. Qed.

Lemma silent_sel_expr sel : silent (sel_expr sel).
Proof. unfold sel_expr. silent_auto. Qed.

Lemma silent_sel_arith sel : silent (sel_arith sel).
Proof. unfold sel_arith. silent_auto. Qed.

Lemma silent_sel_vgroup sel : silent (sel_vgroup sel).
Proof. unfold sel_vgroup. pose proof silent_sel_v. silent_auto; auto. Qed.

Lemma silent_set_sel_vgroup sel g : silent (set_sel_vgroup sel g).
Proof. unfold set_sel_vgroup. pose proof silent_sel_v. silent_auto; auto. Qed.

Lemma silent_sel_vpos sel : silent (sel_vpos sel).
Proof. unfold sel_vpos. pose proof silent_sel_v. silent_auto; auto. Qed.

Lemma silent_vec_get sel k : silent (vec_get sel k).
Proof. unfold vec_get. pose proof silent_sel_v. silent_auto; auto. Qed.

Lemma silent_vec_set sel k x : silent (vec_set sel k x).
Proof. unfold vec_set. pose proof silent_sel_v. silent_auto; auto. Qed.

Lemma silent_index_read g i : silent (index_read g i).
Proof. apply silent_deref. Qed.

Lemma silent_real_get sel i : silent (real_get sel i).
Proof. unfold real_get. pose proof silent_vec_get. silent_auto; auto. Qed.

Create HintDb silent discriminated.
#[local] Hint Resolve silent_ret silent_throw silent_deref silent_get_elem
  silent_load silent_store silent_alloc silent_free silent_set_sel_v
  silent_set_sel_nr silent_set_sel_cgrp silent_set_sel_mdata
  silent_set_sel_pos silent_sel_child silent_sel_v silent_sel_flags
  silent_sel_cgrp silent_sel_expr silent_sel_arith silent_sel_vgroup
  silent_set_sel_vgroup silent_sel_vpos silent_vec_get silent_vec_set
  silent_index_read silent_real_get : silent.

Ltac silent_go :=
  repeat first [ solve [eauto with silent nocore]
               | apply silent_bind; [|intros ?]
               | case_match ].

Lemma silent_setstore sel p : silent (_gmx_selvalue_setstore sel p).
Proof. unfold _gmx_selvalue_setstore. silent_go. Qed.

Lemma silent_setstore_alloc sel p na :
  silent (_gmx_selvalue_setstore_alloc sel p na).
Proof. unfold _gmx_selvalue_setstore_alloc. silent_go. Qed.

#[local] Hint Resolve silent_setstore silent_setstore_alloc : silent.

Lemma silent_reserve sel n : silent (_gmx_selelem_mempool_reserve sel n).
Proof. unfold _gmx_selelem_mempool_reserve. silent_go. Qed.

Lemma silent_release sel : silent (_gmx_selelem_mempool_release sel).
Proof. unfold _gmx_selelem_mempool_release. silent_go. Qed.

Lemma silent_assigner_assign sel vs : silent (assigner_assign sel vs).
Proof. unfold assigner_assign. silent_go. Qed.

Lemma silent_assigner_restore sel old : silent (assigner_restore sel old).
Proof. unfold assigner_restore. silent_go. Qed.

Lemma silent_store_param_nr sel : silent (store_param_nr sel).
Proof.
  intros st [] st' H. unfold store_param_nr in H.
  mbind H e s He. apply get_elem_Ok in He as [He <-].
  destruct (u e) as [| | | |[q|]] eqn:Hu; try discriminate.
  - apply put_elem_Ok in H as ->. split; [done|].
    apply (silent_put_same sel e); [done|].
    unfold view, skel, init_bit; simpl. by rewrite Hu.
  - by apply ret_Ok in H as [_ <-].
Qed.

Lemma silent_write_out sel out : silent (write_out sel out).
Proof. unfold write_out. silent_go. Qed.

Lemma silent_pos_copy sel expr : silent (gmx_ana_pos_copy sel expr).
Proof. unfold gmx_ana_pos_copy. silent_go. Qed.

#[local] Hint Resolve silent_reserve silent_release silent_assigner_assign
  silent_assigner_restore silent_store_param_nr silent_write_out
  silent_pos_copy : silent.

Lemma silent_vec_memcpy n : forall sel expr i, silent (vec_memcpy n sel expr i).
Proof. induction n; intros; simpl; silent_go. Qed.

Lemma silent_subexprref_skip fuel :
  forall sel x j, silent (subexprref_skip fuel sel x j).
Proof. induction fuel; intros; simpl; silent_go. Qed.

#[local] Hint Resolve silent_vec_memcpy silent_subexprref_skip : silent.

Lemma silent_subexprref_extract n :
  forall sel expr g i j, silent (subexprref_extract n sel expr g i j).
Proof. induction n; intros; simpl; silent_go. Qed.

Lemma silent_subexpr_merge_values n :
  forall sel gmiss i j k, silent (subexpr_merge_values n sel gmiss i j k).
Proof. induction n; intros; simpl; silent_go. Qed.

Lemma silent_arith_loop n :
  forall sel lft rgt neg r0 i i1 i2,
    silent (arith_loop n sel lft rgt neg r0 i i1 i2).
Proof. induction n; intros; simpl; unfold real_set; silent_go. Qed.

#[local] Hint Resolve silent_subexprref_extract silent_subexpr_merge_values
  silent_arith_loop : silent.

(** Setting [SEL_EVALFRAME] on a parameter leaves the pending bit. *)
Lemma silent_mark_evaluated c ce st :
  elems st !! c = Some ce ->
  forall a st', set_sel_flags c (Z.lor (flags ce) SEL_EVALFRAME) st = Ok a st' ->
    calls st' = calls st /\
    forall sel, view <$> elems st' !! sel = view <$> elems st !! sel.
Proof.
  intros He [] st' H. apply set_sel_flags_Ok in H as (e & He' & ->).
  simplify_eq. split; [done|]. apply (silent_put_same c ce); [done|].
  unfold view, skel, init_bit; simpl. by rewrite initframe_evalframe.
Qed.

(** A step whose only plugin calls are update calls of [sel]. *)
Definition calls_only (sel : selid) {A} (m : M A) : Prop :=
  forall st a st', m st = Ok a st' ->
    (forall x, view <$> elems st' !! x = view <$> elems st !! x) /\
    exists tr, calls st' = calls st ++ tr /\
               Forall (is_update sel) tr.

Lemma calls_only_silent sel {A} (m : M A) : silent m -> calls_only sel m.
Proof.
  intros Hm st a st' H. destruct (Hm _ _ _ H) as [Hc Hv].
  split; [done|]. exists []. by rewrite app_nil_r.
Qed.

Lemma calls_only_bind sel {A B} (m : M A) (k : A -> M B) :
  calls_only sel m -> (forall a, calls_only sel (k a)) ->
  calls_only sel (bind m k).
Proof.
  intros Hm Hk st b st' H. mbind H a s H1.
  destruct (Hm _ _ _ H1) as [Hv1 (tr1 & Hc1 & Hf1)].
  destruct (Hk _ _ _ _ H) as [Hv2 (tr2 & Hc2 & Hf2)].
  split; [intros x; by rewrite Hv2, Hv1|].
  exists (tr1 ++ tr2). split; [by rewrite Hc2, Hc1, app_assoc|].
  by apply Forall_app.
Qed.

Lemma calls_only_emit sel c : is_update sel c -> calls_only sel (emit c).
Proof.
  intros Hc st [] st' H. unfold emit in H. simplify_eq. simpl.
  split; [done|]. exists [c]. split; [done|]. by constructor.
Qed.

Lemma init_frame_count_updates sel x tr :
  Forall (is_update sel) tr -> init_frame_count x tr = 0%nat.
Proof.
  induction 1 as [|c tr Hc _ IH]; [done|]. destruct c; simpl in *; done.
Qed.

Lemma calls_only_steady sel {A} (m : M A) st a st' :
  calls_only sel m -> m st = Ok a st' -> pending st sel = 0%nat ->
  steady st st'.
Proof.
  intros Hm H Hp. destruct (Hm _ _ _ H) as [Hv (tr & Hc & Hf)]. split.
  - intros x. by apply view_skel.
  - exists tr. split; [done|]. intros x.
    rewrite (init_frame_count_updates sel x tr Hf).
    rewrite (view_pending _ _ _ (Hv x)). split; [done|].
    intros (c & Hin & Hu). rewrite Forall_forall in Hf.
    specialize (Hf c Hin). destruct c; simpl in *; try done; by subst.
Qed.

Ltac calls_only_go :=
  repeat first [ solve [apply calls_only_silent; eauto with silent nocore]
               | solve [apply calls_only_emit; done]
               | apply calls_only_bind; [|intros ?]
               | case_match ].

Lemma steady_of_views st st' :
  calls st' = calls st ->
  (forall sel, view <$> elems st' !! sel = view <$> elems st !! sel) ->
  steady st st'.
Proof.
  intros Hc Hv. split.
  - intros sel. by apply view_skel.
  - exists []. split; [by rewrite app_nil_r|]. intros sel.
    rewrite (view_pending _ _ _ (Hv sel)). split; [done|].
    intros Hu. by apply updated_nil in Hu.
Qed.

Section Steady.
Variable ev : selid -> option gmx_ana_index_t -> M unit.
Variable data : gmx_sel_evaluate_t.
Hypothesis Hev : forall c g, mono (ev c g).

Ltac mono_go :=
  repeat first [ solve [apply Hev]
               | assumption
               | solve [eauto 2 with nocore]
               | solve [apply silent_mono; eauto with silent nocore]
               | apply mono_bind; [|intros ?]
               | case_match ].

Lemma mono_reserver {A} c n (body : M A) :
  mono body -> mono (MempoolSelelemReserver c n body).
Proof using Type. intros Hb. unfold MempoolSelelemReserver. mono_go. Qed.

Lemma mono_assigner {A} c vs (body : M A) :
  mono body -> mono (SelelemTemporaryValueAssigner c vs body).
Proof using Type. intros Hb. unfold SelelemTemporaryValueAssigner. mono_go. Qed.

Lemma mono_children_from fuel :
  forall c g, mono (evaluate_children_from ev fuel c g).
Proof using Hev.
  induction fuel as [|fuel IH]; intros [c|] g; simpl; mono_go.
Qed.

Lemma mono_children fuel sel g :
  mono (_gmx_sel_evaluate_children ev fuel sel g).
Proof using Hev.
  unfold _gmx_sel_evaluate_children. pose proof (mono_children_from fuel).
  mono_go.
Qed.

Lemma mono_root sel g : mono (_gmx_sel_evaluate_root ev sel g).
Proof using Hev. unfold _gmx_sel_evaluate_root. mono_go. Qed.

Lemma mono_static sel g : mono (_gmx_sel_evaluate_static sel g).
Proof using Type. unfold _gmx_sel_evaluate_static. mono_go. Qed.

Lemma mono_subexpr_simple sel g :
  mono (_gmx_sel_evaluate_subexpr_simple ev sel g).
Proof using Hev. unfold _gmx_sel_evaluate_subexpr_simple. mono_go. Qed.

Lemma mono_subexpr_staticeval sel g :
  mono (_gmx_sel_evaluate_subexpr_staticeval ev sel g).
Proof using Hev. unfold _gmx_sel_evaluate_subexpr_staticeval. mono_go. Qed.

Lemma mono_subexpr sel g : mono (_gmx_sel_evaluate_subexpr ev sel g).
Proof using Hev.
  unfold _gmx_sel_evaluate_subexpr.
  repeat first [ solve [apply Hev]
               | solve [apply silent_mono; eauto with silent nocore]
               | apply mono_assigner
               | apply mono_reserver
               | apply mono_bind; [|intros ?]
               | case_match ].
Qed.

Lemma mono_subexprref_simple sel g :
  mono (_gmx_sel_evaluate_subexprref_simple ev sel g).
Proof using Hev. unfold _gmx_sel_evaluate_subexprref_simple. mono_go. Qed.

Lemma mono_subexprref sel g : mono (_gmx_sel_evaluate_subexprref ev sel g).
Proof using Hev. unfold _gmx_sel_evaluate_subexprref. mono_go. Qed.

Lemma mono_method_params_from fuel :
  forall c g, mono (method_params_from ev fuel c g).
Proof using Hev.
  induction fuel as [|fuel IH]; intros [c|] g; simpl; try solve [mono_go].
  intros st a st' H.
  mbind H ce s Hce. apply get_elem_Ok in Hce as [Hce <-].
  mbind H t s1 Hstep. mbind H ce' s2 Hce'.
  apply get_elem_Ok in Hce' as [Hce' <-].
  eapply steady_trans; [|by eapply IH].
  destruct (evaluate ce); [|apply ret_Ok in Hstep as [_ <-]; apply steady_refl].
  destruct (has_flag (flags ce) SEL_EVALFRAME);
    [apply ret_Ok in Hstep as [_ <-]; apply steady_refl|].
  destruct (has_flag (flags ce) SEL_ATOMVAL); [by eapply Hev|].
  mbind Hstep t' s3 Hset.
  destruct (silent_mark_evaluated c ce st Hce _ _ Hset) as [Hc Hv].
  eapply steady_trans; [by apply steady_of_views | by eapply Hev].
Qed.

Lemma mono_method_params fuel sel g :
  mono (_gmx_sel_evaluate_method_params ev fuel sel g).
Proof using Hev.
  unfold _gmx_sel_evaluate_method_params.
  pose proof (mono_method_params_from fuel). mono_go.
Qed.

(** First-touch initialisation pays for its call with the pending bit and
    leaves the bit clear. *)
Lemma method_init_frame_steady sel st st' :
  method_init_frame data sel st = Ok tt st' ->
  steady st st' /\ pending st' sel = 0%nat.
Proof using Type.
  unfold method_init_frame. intros H.
  mbind H f s Hf. apply sel_flags_Ok in Hf as [Hf <-].
  unfold elem_flags in Hf.
  destruct (elems st !! sel) as [e|] eqn:He; [|done]. simpl in Hf.
  simplify_eq.
  destruct (has_flag (flags e) SEL_INITFRAME) eqn:Hbit.
  - mbind H t s1 Hset. destruct t.
    apply set_sel_flags_Ok in Hset as (e' & He' & ->). simplify_eq.
    set (st1 := with_elem st sel
                  (set_flags e (Z.land (flags e) (Z.lnot SEL_INITFRAME)))) in *.
    mbind H xp s2 Hx. apply sel_expr_Ok in Hx as [_ <-].
    mbind H m s3 Hm. apply deref_Ok in Hm as [_ <-].
    mbind H cb s4 Hcb. apply deref_Ok in Hcb as [_ <-].
    mbind H t s5 Hemit. destruct t. unfold emit in Hemit. simplify_eq.
    destruct (silent_set_sel_mdata _ _ _ _ _ H) as [Hc Hv0]. simpl in Hc.
    assert (Hv : forall y, view <$> elems st' !! y = view <$> elems st1 !! y)
      by exact Hv0.
    clear Hv0 H.
    assert (Hp1 : pending st1 sel = 0%nat).
    { unfold pending, st1, with_elem; simpl. rewrite lookup_insert_eq.
      unfold init_bit; simpl. by rewrite initframe_cleared. }
    assert (Hp' : forall x, pending st' x = pending st1 x).
    { intros x. by apply view_pending. }
    split; [|by rewrite Hp'].
    split.
    + intros x. rewrite (view_skel _ _ _ (Hv x)). simpl.
      unfold st1, with_elem; simpl.
      destruct (decide (sel = x)) as [<-|Hne].
      * rewrite lookup_insert_eq, He. done.
      * by rewrite lookup_insert_ne.
    + exists [CallInitFrame sel]. split; [done|]. intros x. rewrite Hp'.
      split.
      * simpl. destruct (decide (sel = x)) as [<-|Hne].
        -- rewrite Hp1. unfold pending. rewrite He. unfold init_bit.
           by rewrite Hbit.
        -- unfold pending, st1, with_elem; simpl.
           by rewrite lookup_insert_ne.
      * intros (c & Hin & Hu). apply list_elem_of_singleton in Hin as ->.
        done.
  - apply ret_Ok in H as [_ <-]. split; [apply steady_refl|].
    unfold pending. rewrite He. unfold init_bit. by rewrite Hbit.
Qed.

Lemma mono_method fuel sel g :
  mono (_gmx_sel_evaluate_method ev data fuel sel g).
Proof using Hev.
  intros st a st' H. unfold _gmx_sel_evaluate_method in H.
  mbind H t s1 Hpar. mbind H t' s2 Hinit. destruct t'.
  apply method_init_frame_steady in Hinit as [Hinit Hp].
  eapply steady_trans; [by eapply mono_method_params|].
  eapply steady_trans; [exact Hinit|].
  eapply (calls_only_steady sel); [|exact H|exact Hp].
  clear. calls_only_go.
Qed.

Lemma mono_modifier fuel sel g :
  mono (_gmx_sel_evaluate_modifier ev data fuel sel g).
Proof using Hev.
  intros st a st' H. unfold _gmx_sel_evaluate_modifier in H.
  mbind H t s1 Hpar. mbind H t' s2 Hinit. destruct t'.
  apply method_init_frame_steady in Hinit as [Hinit Hp].
  eapply steady_trans; [by eapply mono_method_params|].
  eapply steady_trans; [exact Hinit|].
  eapply (calls_only_steady sel); [|exact H|exact Hp].
  clear. calls_only_go.
Qed.

Lemma mono_not sel g : mono (_gmx_sel_evaluate_not ev sel g).
Proof using Hev.
  unfold _gmx_sel_evaluate_not, MempoolSelelemReserver. mono_go.
Qed.

Lemma mono_and_loop fuel : forall sel c, mono (and_loop ev fuel sel c).
Proof using Hev.
  induction fuel as [|fuel IH]; intros sel [c|]; simpl;
    unfold MempoolSelelemReserver; mono_go.
Qed.

Lemma mono_and fuel sel g : mono (_gmx_sel_evaluate_and ev fuel sel g).
Proof using Hev.
  unfold _gmx_sel_evaluate_and, MempoolSelelemReserver.
  pose proof (mono_and_loop fuel). mono_go.
Qed.

Lemma mono_or_loop fuel : forall sel c tmp, mono (or_loop ev fuel sel c tmp).
Proof using Hev.
  induction fuel as [|fuel IH]; intros sel [c|] tmp; simpl;
    unfold MempoolSelelemReserver; mono_go.
Qed.

Lemma mono_or fuel sel g : mono (_gmx_sel_evaluate_or ev fuel sel g).
Proof using Hev.
  unfold _gmx_sel_evaluate_or, MempoolSelelemReserver.
  pose proof (mono_or_loop fuel). mono_go.
Qed.

Lemma mono_arithmetic fuel sel g :
  mono (_gmx_sel_evaluate_arithmetic ev fuel sel g).
Proof using Hev.
  unfold _gmx_sel_evaluate_arithmetic, arith_guards.
  pose proof (mono_children fuel). mono_go.
Qed.

End Steady.

(** Every call through an evaluation pointer is steady. *)
Lemma mono_sel_evaluate data fuel :
  forall sel g, mono (sel_evaluate data fuel sel g).
Proof.
  induction fuel as [|fuel IH]; intros sel g; simpl.
  - apply silent_mono, silent_throw.
  - apply mono_bind; [apply silent_mono, silent_get_elem|]. intros e.
    destruct (evaluate e) as [[]|];
      eauto using silent_mono, silent_throw, mono_root, mono_static,
        mono_subexpr_simple, mono_subexpr_staticeval, mono_subexpr,
        mono_subexprref_simple, mono_subexprref, mono_method, mono_modifier,
        mono_not, mono_and, mono_or, mono_arithmetic.
Qed.

(** *** The lifecycle walk *)

(** The element is a method expression whose method has [init_frame]. *)
Definition declares (e : t_selelem) : bool :=
  match type e, u e with
  | SEL_EXPRESSION, U_expr x =>
      match method x with
      | Some m => if init_frame m is Some _ then true else false
      | None => false
      end
  | _, _ => false
  end.

(** The elements [init_frame_eval] reaches from [r]: the siblings from [r]
    on and, except below references, their children. *)
Inductive walk_visits (st : evalstate) : option selid -> selid -> Prop :=
| walk_here s e :
    elems st !! s = Some e -> walk_visits st (Some s) s
| walk_child s e x :
    elems st !! s = Some e -> type e <> SEL_SUBEXPRREF ->
    walk_visits st (child e) x -> walk_visits st (Some s) x
| walk_next s e x :
    elems st !! s = Some e ->
    walk_visits st (next e) x -> walk_visits st (Some s) x.

Lemma declares_skel e e' : skel e' = skel e -> declares e' = declares e.
Proof.
  unfold skel, declares. intros H. injection H as Ht Hc Hn Hm.
  rewrite Ht. destruct (type e); try done.
  destruct (u e), (u e'); try done. injection Hm as Hm. by rewrite Hm.
Qed.

Lemma decl_skel st st' x :
  skel <$> elems st' !! x = skel <$> elems st !! x ->
  declares <$> elems st' !! x = declares <$> elems st !! x.
Proof.
  destruct (elems st' !! x), (elems st !! x); simpl; intros H; try done.
  apply (inj Some) in H. f_equal. by apply declares_skel.
Qed.

Lemma walk_visits_skel st st' r x :
  (forall y, skel <$> elems st' !! y = skel <$> elems st !! y) ->
  walk_visits st r x -> walk_visits st' r x.
Proof.
  intros Hs. induction 1 as [s e He|s e x He Ht _ IH|s e x He _ IH];
    specialize (Hs s) as Hss; rewrite He in Hss;
    destruct (elems st' !! s) as [e'|] eqn:He'; try done;
    simpl in Hss; apply (inj Some) in Hss; injection Hss as Ht' Hc' Hn' _.
  - by eapply walk_here.
  - eapply walk_child; eauto; [congruence|]. by rewrite Hc'.
  - eapply walk_next; eauto. by rewrite Hn'.
Qed.

Lemma pending_bit st x :
  pending st x = match init_bit <$> elems st !! x with
                 | Some true => 1%nat
                 | _ => 0%nat
                 end.
Proof. unfold pending. by destruct (elems st !! x). Qed.

Lemma pending_le_1 st x : (pending st x <= 1)%nat.
Proof. unfold pending. destruct (elems st !! x); [case_match|]; lia. Qed.

(** The flag phase of one step of the walk on element [s]. *)
Lemma walk_flag_phase s e st s2 :
  elems st !! s = Some e ->
  (exec set_sel_flags s (Z.land (flags e)
          (Z.lnot (Z.lor SEL_INITFRAME SEL_EVALFRAME)));
   (if decide (type e = SEL_EXPRESSION) then
      do x <- sel_expr s;
      match method x with
      | Some m =>
          if init_frame m is Some _
          then set_sel_flags s
                 (Z.lor (Z.land (flags e)
                    (Z.lnot (Z.lor SEL_INITFRAME SEL_EVALFRAME)))
                    SEL_INITFRAME)
          else ret tt
      | None => ret tt
      end
    else ret tt)) st = Ok tt s2 ->
  calls s2 = calls st /\
  (forall x, skel <$> elems s2 !! x = skel <$> elems st !! x) /\
  (forall x, x <> s -> elems s2 !! x = elems st !! x) /\
  init_bit <$> elems s2 !! s = Some (declares e).
Proof.
  intros He H. mbind H t s1 Hset. destruct t.
  apply set_sel_flags_Ok in Hset as (e0 & He0 & ->). simplify_eq.
  set (f := Z.land (flags e) (Z.lnot (Z.lor SEL_INITFRAME SEL_EVALFRAME)))
    in *.
  set (st1 := with_elem st s (set_flags e f)) in *.
  assert (H1 : elems st1 !! s = Some (set_flags e f)).
  { unfold st1, with_elem; simpl. by rewrite lookup_insert_eq. }
  assert (Hskel1 : forall x, skel <$> elems st1 !! x = skel <$> elems st !! x).
  { intros x. unfold st1, with_elem; simpl.
    destruct (decide (s = x)) as [<-|Hne].
    - rewrite lookup_insert_eq, He. done.
    - by rewrite lookup_insert_ne. }
  assert (Hother1 : forall x, x <> s -> elems st1 !! x = elems st !! x).
  { intros x Hx. unfold st1, with_elem; simpl. by rewrite lookup_insert_ne. }
  assert (Hdone : s2 = st1 -> declares e = false ->
    calls s2 = calls st /\
    (forall x, skel <$> elems s2 !! x = skel <$> elems st !! x) /\
    (forall x, x <> s -> elems s2 !! x = elems st !! x) /\
    init_bit <$> elems s2 !! s = Some (declares e)).
  { intros -> Hd. repeat split; try done. rewrite H1, Hd. simpl.
    unfold init_bit; simpl. unfold f. by rewrite initframe_after_reset. }
  unfold declares in *.
  destruct (decide (type e = SEL_EXPRESSION)) as [Hty|Hty].
  - rewrite Hty in *. mbind H x s3 Hx.
    apply sel_expr_Ok in Hx as [(e1 & He1 & Hu1) <-].
    rewrite H1 in He1. simplify_eq. simpl in Hu1. rewrite Hu1 in *.
    destruct (method x) as [m|]; [|apply ret_Ok in H as [_ <-]; by apply Hdone].
    destruct (init_frame m) as [cb|];
      [|apply ret_Ok in H as [_ <-]; by apply Hdone].
    apply set_sel_flags_Ok in H as (e2 & He2 & ->).
    rewrite H1 in He2. simplify_eq. split; [done|]. split; [|split].
    + intros y. unfold with_elem; simpl.
      destruct (decide (s = y)) as [<-|Hne].
      * rewrite lookup_insert_eq, He. done.
      * rewrite lookup_insert_ne by done. rewrite Hother1; done.
    + intros y Hy. unfold with_elem; simpl.
      rewrite lookup_insert_ne by done. by apply Hother1.
    + unfold with_elem; simpl. rewrite lookup_insert_eq. simpl.
      unfold init_bit; simpl. by rewrite initframe_set.
  - apply ret_Ok in H as [_ <-]. apply Hdone; [done|].
    destruct (type e); done.
Qed.

Lemma init_frame_eval_spec fuel : forall r st st',
  init_frame_eval fuel r st = Ok tt st' ->
  calls st' = calls st /\
  (forall x, skel <$> elems st' !! x = skel <$> elems st !! x) /\
  (forall x, init_bit <$> elems st' !! x = init_bit <$> elems st !! x \/
             init_bit <$> elems st' !! x = declares <$> elems st !! x) /\
  (forall x, walk_visits st r x ->
             init_bit <$> elems st' !! x = declares <$> elems st !! x).
Proof.
  induction fuel as [|fuel IH]; intros [s|] st st' H; simpl in H;
    try discriminate.
  - apply ret_Ok in H as [_ <-]. repeat split; auto. inversion 1.
  - mbind H e s0 He. apply get_elem_Ok in He as [He <-].
    rewrite <- bind_assoc in H. mbind H t s2 Hflag. destruct t.
    apply (walk_flag_phase s e st s2 He) in Hflag
      as (Hc2 & Hsk2 & Hoth2 & Hbit2).
    mbind H t s3 Hchild. destruct t.
    assert (Hch : calls s3 = calls s2 /\
      (forall x, skel <$> elems s3 !! x = skel <$> elems s2 !! x) /\
      (forall x, init_bit <$> elems s3 !! x = init_bit <$> elems s2 !! x \/
         init_bit <$> elems s3 !! x = declares <$> elems s2 !! x) /\
      (forall x, type e <> SEL_SUBEXPRREF -> walk_visits s2 (child e) x ->
         init_bit <$> elems s3 !! x = declares <$> elems s2 !! x)).
    { destruct (child e) as [c|] eqn:Hce.
      - destruct (decide (type e = SEL_SUBEXPRREF)) as [Hty|Hty].
        + apply ret_Ok in Hchild as [_ <-]. repeat split; auto. done.
        + apply IH in Hchild as (? & ? & ? & ?). repeat split; auto.
      - apply ret_Ok in Hchild as [_ <-]. repeat split; auto.
        intros x _ Hw. inversion Hw. }
    destruct Hch as (Hc3 & Hsk3 & Hor3 & Hvis3).
    apply IH in H as (Hc4 & Hsk4 & Hor4 & Hvis4).
    assert (Hsk32 : forall x, skel <$> elems s3 !! x = skel <$> elems st !! x)
      by (intros x; by rewrite Hsk3, Hsk2).
    assert (Hd2 : forall x,
      declares <$> elems s2 !! x = declares <$> elems st !! x)
      by (intros x; by apply decl_skel).
    assert (Hd3 : forall x,
      declares <$> elems s3 !! x = declares <$> elems st !! x)
      by (intros x; by apply decl_skel).
    assert (Hkeep : forall x,
      init_bit <$> elems s2 !! x = declares <$> elems st !! x ->
      init_bit <$> elems st' !! x = declares <$> elems st !! x).
    { intros x Hx. destruct (Hor4 x) as [->| ->]; [|by rewrite Hd3].
      destruct (Hor3 x) as [->| ->]; [done|by rewrite Hd2]. }
    assert (Hkeep3 : forall x,
      init_bit <$> elems s3 !! x = declares <$> elems st !! x ->
      init_bit <$> elems st' !! x = declares <$> elems st !! x).
    { intros x Hx. destruct (Hor4 x) as [->| ->]; [done|by rewrite Hd3]. }
    split; [congruence|]. split; [intros x; by rewrite Hsk4, Hsk32|].
    split.
    + intros x. destruct (decide (x = s)) as [->|Hne].
      * right. apply Hkeep. by rewrite Hbit2, He.
      * destruct (Hor4 x) as [->| ->]; [|right; by rewrite Hd3].
        destruct (Hor3 x) as [->| ->]; [|right; by rewrite Hd2].
        left. by rewrite Hoth2.
    + intros x Hw. inversion Hw as [s' e' He'|s' e' x' He' Hty Hw'|s' e' x' He' Hw'];
        subst; rewrite He in He'; simplify_eq.
      * apply Hkeep. by rewrite Hbit2, He.
      * apply Hkeep3. rewrite Hvis3; [by rewrite Hd2|done|].
        by eapply walk_visits_skel.
      * rewrite Hvis4; [by rewrite Hd3|]. by eapply walk_visits_skel.
  - apply ret_Ok in H as [_ <-]. repeat split; auto. inversion 1.
Qed.

(** *** One frame, then a trajectory *)

Lemma mono_evaluate_roots data fuel :
  forall r, mono (evaluate_roots data fuel r).
Proof.
  induction fuel as [|fuel IH]; intros [s|]; simpl;
    try (apply silent_mono; eauto with silent nocore; fail).
  pose proof (mono_sel_evaluate data fuel).
  repeat first [ assumption
               | solve [eauto 2 with nocore]
               | solve [apply silent_mono; eauto with silent nocore]
               | apply mono_bind; [|intros ?]
               | case_match ].
Qed.

(** One call of [SelectionEvaluator::evaluate]: the shape of the tree is
    kept; [init_frame] of an element is called at most once, and exactly
    once when the walk reaches the element, its method has the callback and
    its update callback runs in the frame. *)
Lemma evaluate_one_frame fuel sc frame box st st' :
  SelectionEvaluator_evaluate fuel sc frame box st = Ok tt st' ->
  (forall x, skel <$> elems st' !! x = skel <$> elems st !! x) /\
  exists tr,
    calls st' = calls st ++ tr /\
    forall sel,
      (init_frame_count sel tr <= 1)%nat /\
      (walk_visits st (root sc) sel ->
       declares <$> elems st !! sel = Some true ->
       updated sel tr -> init_frame_count sel tr = 1%nat).
Proof.
  unfold SelectionEvaluator_evaluate. intros H.
  mbind H t sw Hwalk. destruct t.
  apply init_frame_eval_spec in Hwalk as (Hcw & Hskw & _ & Hvis).
  apply mono_evaluate_roots in H as [Hsk (tr & Hc & Htr)].
  split; [intros x; by rewrite Hsk, Hskw|].
  exists tr. split; [congruence|]. intros sel.
  destruct (Htr sel) as [Hcount Hupd].
  pose proof (pending_le_1 sw sel). split; [lia|].
  intros Hw Hd Hu. specialize (Hupd Hu).
  assert (pending sw sel = 1%nat); [|lia].
  rewrite pending_bit, (Hvis sel Hw), Hd. done.
Qed.

(** C6 (as the code has it): over a trajectory, each frame contributes a
    block of plugin calls in which [init_frame] of a given element occurs
    at most once, and exactly once if the lifecycle walk reaches the
    element, its method declares [init_frame] and its update callback runs
    in that frame (however many times). Hence at most [n] calls over [n]
    frames, and exactly [n] when the element is evaluated in every frame. *)
Theorem init_frame_once_per_evaluated_frame
    (fuel : nat) (sc : gmx_ana_selcollection_t)
    (frames : list (t_trxframe * option t_pbc))
    (st st' : evalstate) (sel : selid) :
  evaluate_frames fuel sc frames st = Ok tt st' ->
  exists trs : list (list callback),
    length trs = length frames /\
    calls st' = calls st ++ concat trs /\
    Forall (fun tr => (init_frame_count sel tr <= 1)%nat) trs /\
    (init_frame_count sel (concat trs) <= length frames)%nat /\
    (walk_visits st (root sc) sel ->
     declares <$> elems st !! sel = Some true ->
     Forall (fun tr => updated sel tr -> init_frame_count sel tr = 1%nat) trs
     /\ (Forall (updated sel) trs ->
         init_frame_count sel (concat trs) = length frames)).
Proof.
  revert st. induction frames as [|[frame box] frames IH]; intros st H.
  - apply ret_Ok in H as [_ <-]. exists []. simpl.
    rewrite app_nil_r. repeat split; auto.
  - simpl in H. mbind H t s1 Hframe. destruct t.
    apply evaluate_one_frame in Hframe as [Hsk (tr & Hc & Htr)].
    apply IH in H as (trs & Hlen & Hcs & Hall & Hle & Hex).
    destruct (Htr sel) as [Hone Hexact].
    exists (tr :: trs). simpl. split; [by rewrite Hlen|].
    split; [by rewrite Hcs, Hc, app_assoc|].
    split; [by constructor|].
    rewrite init_frame_count_app. split; [lia|].
    intros Hw Hd.
    destruct Hex as [Hex1 Hex2].
    { by eapply walk_visits_skel. }
    { by rewrite (decl_skel st s1 sel (Hsk sel)). }
    split.
    + constructor; [by apply Hexact | done].
    + intros Hupd. inversion Hupd as [|? ? Hu1 Hu2]; subst.
      rewrite (Hexact Hw Hd Hu1), (Hex2 Hu2). done.
Qed.

(** ** Frame properties of the evaluation steps

    [keeps R m]: a successful run of [m] creates or deletes no selection
    element and leaves every element related by [R] to what it was. [R] is
    a preorder that says what may change. *)

Section Keeps.
Context (R : relation t_selelem) (R_refl : Reflexive R)
  (R_trans : Transitive R).

(** The elements of two states are the same ones and related by [R]. *)
Definition related (st st' : evalstate) : Prop :=
  forall x, option_Forall2 R (elems st !! x) (elems st' !! x).

Definition keeps {A} (m : M A) : Prop :=
  forall st a st', m st = Ok a st' -> related st st'.

Lemma related_refl st : related st st.
Proof using R_refl.
  intros x. destruct (elems st !! x); constructor. reflexivity.
Qed.

Lemma related_trans st1 st2 st3 :
  related st1 st2 -> related st2 st3 -> related st1 st3.
Proof using R_trans.
  intros H1 H2 x. specialize (H1 x). specialize (H2 x).
  destruct H1 as [e1 e2 H1|]; inversion H2; subst; constructor.
  by transitivity e2.
Qed.

Lemma related_same_elems st st' :
  elems st' = elems st -> related st st'.
Proof using R_refl. intros H x. rewrite H. apply related_refl. Qed.

Lemma related_lookup st st' x e :
  related st st' -> elems st !! x = Some e ->
  exists e', elems st' !! x = Some e' /\ R e e'.
Proof using Type.
  intros H He. specialize (H x). rewrite He in H.
  inversion H as [e1 e' HR|]; subst. eauto.
Qed.

(** Replacing an element by a related one. *)
Lemma related_put sel e e' st :
  elems st !! sel = Some e -> R e e' -> related st (with_elem st sel e').
Proof using R_refl.
  intros He Hp x. unfold with_elem; simpl.
  destruct (decide (sel = x)) as [<-|Hne].
  - rewrite lookup_insert_eq, He. by constructor.
  - rewrite lookup_insert_ne by done. apply related_refl.
Qed.

Lemma keeps_ret {A} (a : A) : keeps (ret a).
Proof using R_refl.
  intros st b st' H. apply ret_Ok in H as [_ <-]. apply related_refl.
Qed.

Lemma keeps_throw {A} e : keeps (A := A) (throw e).
Proof using Type. intros st b st' H. discriminate. Qed.

Lemma keeps_bind {A C} (m : M A) (k : A -> M C) :
  keeps m -> (forall a, keeps (k a)) -> keeps (bind m k).
Proof using R_trans.
  intros Hm Hk st b st' H. mbind H a s H1.
  eapply related_trans; [by eapply Hm | by eapply Hk].
Qed.

(** A step that leaves the elements alone. *)
Lemma keeps_elems {A} (m : M A) :
  (forall st a st', m st = Ok a st' -> elems st' = elems st) -> keeps m.
Proof using R_refl.
  intros Hm st a st' H. apply related_same_elems. by eapply Hm.
Qed.

Lemma keeps_deref {A} (p : option A) : keeps (deref p).
Proof using R_refl.
  destruct p; [apply keeps_ret | apply keeps_throw].
Qed.

Lemma keeps_get_elem sel : keeps (get_elem sel).
Proof using R_refl.
  apply keeps_elems. intros st e st' H. by apply get_elem_Ok in H as [_ <-].
Qed.

Lemma keeps_load l : keeps (load l).
Proof using R_refl.
  apply keeps_elems. intros st e st' H. by apply load_Ok in H as [_ <-].
Qed.

Lemma keeps_store l s : keeps (store l s).
Proof using R_refl.
  apply keeps_elems. intros st [] st' H. by apply store_Ok in H as ->.
Qed.

Lemma keeps_alloc s : keeps (alloc s).
Proof using R_refl.
  apply keeps_elems. intros st l st' H. by apply alloc_Ok in H as [_ ->].
Qed.

Lemma keeps_free l : keeps (free l).
Proof using R_refl.
  apply keeps_elems. intros st [] st' H. by apply free_Ok in H as ->.
Qed.

Lemma keeps_emit c : keeps (emit c).
Proof using R_refl.
  apply keeps_elems. intros st [] st' H. unfold emit in H. by simplify_eq.
Qed.

Ltac keeps_step :=
  first [ apply keeps_ret | apply keeps_throw | apply keeps_deref
        | apply keeps_get_elem | apply keeps_load | apply keeps_store
        | apply keeps_alloc | apply keeps_free | apply keeps_emit
        | assumption
        | apply keeps_bind; [|intros ?]
        | case_match ].

Ltac keeps_auto := repeat first [ solve [auto 1] | keeps_step ].

Lemma keeps_sel_child sel : keeps (sel_child sel).
Proof using R_refl R_trans. unfold sel_child. keeps_auto. Qed.

Lemma keeps_sel_v sel : keeps (sel_v sel).
Proof using R_refl R_trans. unfold sel_v. keeps_auto. Qed.

Lemma keeps_sel_flags sel : keeps (sel_flags sel).
Proof using R_refl R_trans. unfold sel_flags. keeps_auto. Qed.

Lemma keeps_sel_cgrp sel : keeps (sel_cgrp sel).
Proof using R_refl R_trans. unfold sel_cgrp. keeps_auto. Qed.

Lemma keeps_sel_expr sel : keeps (sel_expr sel).
Proof using R_refl R_trans. unfold sel_expr. keeps_auto. Qed.

Lemma keeps_sel_arith sel : keeps (sel_arith sel).
Proof using R_refl R_trans. unfold sel_arith. keeps_auto. Qed.

Lemma keeps_sel_vgroup sel : keeps (sel_vgroup sel).
Proof using R_refl R_trans.
  unfold sel_vgroup. pose proof keeps_sel_v. keeps_auto.
Qed.

Lemma keeps_set_sel_vgroup sel g : keeps (set_sel_vgroup sel g).
Proof using R_refl R_trans.
  unfold set_sel_vgroup. pose proof keeps_sel_v. keeps_auto.
Qed.

Lemma keeps_sel_vpos sel : keeps (sel_vpos sel).
Proof using R_refl R_trans.
  unfold sel_vpos. pose proof keeps_sel_v. keeps_auto.
Qed.

Lemma keeps_vec_get sel k : keeps (vec_get sel k).
Proof using R_refl R_trans.
  unfold vec_get. pose proof keeps_sel_v. keeps_auto.
Qed.

Lemma keeps_vec_set sel k x : keeps (vec_set sel k x).
Proof using R_refl R_trans.
  unfold vec_set. pose proof keeps_sel_v. keeps_auto.
Qed.

Lemma keeps_index_read g i : keeps (index_read g i).
Proof using R_refl. apply keeps_deref. Qed.

Lemma keeps_real_get sel i : keeps (real_get sel i).
Proof using R_refl R_trans.
  unfold real_get. pose proof keeps_vec_get. keeps_auto.
Qed.

(** The loops that move values between arrays only write value stores. *)
Lemma keeps_subexpr_merge_values n :
  forall sel gmiss i j k, keeps (subexpr_merge_values n sel gmiss i j k).
Proof using R_refl R_trans.
  pose proof keeps_sel_cgrp. pose proof keeps_sel_child.
  pose proof keeps_vec_get. pose proof keeps_vec_set.
  pose proof keeps_index_read.
  induction n as [|n IH]; intros sel gmiss i j k; simpl; keeps_auto.
Qed.

Lemma keeps_vec_memcpy n : forall sel expr i, keeps (vec_memcpy n sel expr i).
Proof using R_refl R_trans.
  pose proof keeps_vec_get. pose proof keeps_vec_set.
  induction n as [|n IH]; intros sel expr i; simpl; keeps_auto.
Qed.

Lemma keeps_subexprref_skip fuel :
  forall sel x j, keeps (subexprref_skip fuel sel x j).
Proof using R_refl R_trans.
  pose proof keeps_sel_cgrp. pose proof keeps_sel_child.
  pose proof keeps_index_read.
  induction fuel as [|fuel IH]; intros sel x j; simpl; keeps_auto.
Qed.

Lemma keeps_subexprref_extract n :
  forall sel expr g i j, keeps (subexprref_extract n sel expr g i j).
Proof using R_refl R_trans.
  pose proof keeps_sel_cgrp. pose proof keeps_sel_child.
  pose proof keeps_vec_get. pose proof keeps_vec_set.
  pose proof keeps_index_read. pose proof keeps_subexprref_skip.
  induction n as [|n IH]; intros sel expr g i j; simpl; keeps_auto.
Qed.

Lemma keeps_arith_loop n :
  forall sel left right neg r0 i i1 i2,
    keeps (arith_loop n sel left right neg r0 i i1 i2).
Proof using R_refl R_trans.
  pose proof keeps_real_get. pose proof keeps_sel_arith.
  pose proof keeps_sel_flags. pose proof keeps_vec_set.
  induction n as [|n IH]; intros sel left right neg r0 i i1 i2; simpl;
    unfold real_set; keeps_auto.
Qed.

Lemma keeps_pos_copy sel expr : keeps (gmx_ana_pos_copy sel expr).
Proof using R_refl R_trans.
  unfold gmx_ana_pos_copy. pose proof keeps_sel_v. keeps_auto.
Qed.

(** *** Steps that rewrite the value record

    The count [nr] and the pointer and capacity of the value are rewritten
    by the guards and by every evaluation function. *)
Section Value.
Hypothesis R_nr : forall e n, R e (set_v e (set_nr (v e) n)).
Hypothesis R_store : forall e p na, R e (set_v e (set_store (v e) p na)).

Lemma keeps_set_sel_nr sel n : keeps (set_sel_nr sel n).
Proof using R_refl R_nr.
  intros st [] st' H. apply set_sel_nr_Ok in H as (e & He & ->).
  by apply (related_put sel e).
Qed.

Lemma keeps_setstore_alloc sel p na :
  keeps (_gmx_selvalue_setstore_alloc sel p na).
Proof using R_refl R_store.
  intros st [] st' H. unfold _gmx_selvalue_setstore_alloc in H.
  mbind H y s Hy. apply sel_v_Ok in Hy as [(e & He & <-) <-].
  apply set_sel_v_Ok in H as (e' & He' & ->). simplify_eq.
  by apply (related_put sel e).
Qed.

Lemma keeps_setstore sel p : keeps (_gmx_selvalue_setstore sel p).
Proof using R_refl R_store.
  intros st [] st' H. unfold _gmx_selvalue_setstore in H.
  mbind H y s Hy. apply sel_v_Ok in Hy as [(e & He & <-) <-].
  apply set_sel_v_Ok in H as (e' & He' & ->). simplify_eq.
  by apply (related_put sel e).
Qed.

Lemma keeps_reserve sel n : keeps (_gmx_selelem_mempool_reserve sel n).
Proof using R_refl R_trans R_store.
  intros st [] st' H. unfold _gmx_selelem_mempool_reserve in H.
  mbind H y s Hy. apply sel_v_Ok in Hy as [(e & He & <-) <-].
  assert (Hfresh : forall s0,
    (do l <- alloc s0; set_sel_v sel (set_store (v e) (Some l) (nalloc (v e))))
      st = Ok tt st' -> related st st').
  { intros s0 H0. mbind H0 l s1 Hl. apply alloc_Ok in Hl as [_ ->].
    apply set_sel_v_Ok in H0 as (e' & He' & ->). simpl in He'. simplify_eq.
    eapply related_trans;
      [|by apply (related_put sel e _ (with_store st l s0))].
    by apply related_same_elems. }
  destruct (vtype (v e)); eauto.
  - apply ret_Ok in H as [_ <-]. apply related_refl.
  - mbind H g s1 Hg. apply sel_vgroup_Ok in Hg as [_ <-].
    apply set_sel_vgroup_Ok in H as (l & g0 & _ & _ & ->).
    by apply related_same_elems.
Qed.

Lemma keeps_release sel : keeps (_gmx_selelem_mempool_release sel).
Proof using R_refl R_trans R_store.
  intros st [] st' H. unfold _gmx_selelem_mempool_release in H.
  mbind H y s Hy. apply sel_v_Ok in Hy as [(e & He & <-) <-].
  assert (Hfree :
    (do l <- deref (ptr (v e)); exec free l; _gmx_selvalue_setstore sel None)
      st = Ok tt st' -> related st st').
  { intros H0. mbind H0 l s1 Hd. apply deref_Ok in Hd as [_ <-].
    mbind H0 t s2 Hf. destruct t. apply free_Ok in Hf as ->.
    eapply related_trans; [|by eapply keeps_setstore].
    by apply related_same_elems. }
  destruct (vtype (v e)); eauto.
  - apply ret_Ok in H as [_ <-]. apply related_refl.
  - mbind H g s1 Hg. apply sel_vgroup_Ok in Hg as [_ <-].
    apply set_sel_vgroup_Ok in H as (l & g0 & _ & _ & ->).
    by apply related_same_elems.
Qed.

Lemma keeps_assigner_assign sel vs : keeps (assigner_assign sel vs).
Proof using R_refl R_trans R_store.
  unfold assigner_assign. pose proof keeps_sel_v. pose proof keeps_setstore.
  keeps_auto.
Qed.

Lemma keeps_assigner_restore sel old : keeps (assigner_restore sel old).
Proof using R_refl R_store. apply keeps_setstore_alloc. Qed.

Lemma keeps_write_out sel out : keeps (write_out sel out).
Proof using R_refl R_trans R_nr.
  unfold write_out. pose proof keeps_sel_v. pose proof keeps_set_sel_nr.
  keeps_auto.
Qed.

(** *** The evaluation functions

    Besides the value record, the evaluation functions rewrite the two
    lifecycle flags, the cached group, the method data and positions, and
    the value count kept in a parameter. *)
Section Updates.
Hypothesis R_evalframe :
  forall e, R e (set_flags e (Z.lor (flags e) SEL_EVALFRAME)).
Hypothesis R_initframe :
  forall e, R e (set_flags e (Z.land (flags e) (Z.lnot SEL_INITFRAME))).
Hypothesis R_cgrp :
  forall e g0 g, u e = U_cgrp g0 -> R e (set_u e (U_cgrp g)).
Hypothesis R_expr :
  forall e x md p, u e = U_expr x ->
    R e (set_u e (U_expr {| method := method x; mdata := md;
                            pc := pc x; pos := p |})).
Hypothesis R_param :
  forall e p0 p, u e = U_param (Some p0) -> R e (set_u e (U_param (Some p))).

Lemma keeps_set_sel_cgrp sel g : keeps (set_sel_cgrp sel g).
Proof using R_refl R_cgrp.
  intros st [] st' H. apply set_sel_cgrp_Ok in H as (e & g0 & He & Hu & ->).
  apply (related_put sel e); [done|]. by eapply R_cgrp.
Qed.

Lemma keeps_set_sel_mdata sel md : keeps (set_sel_mdata sel md).
Proof using R_refl R_expr.
  intros st [] st' H. unfold set_sel_mdata in H.
  mbind H y s Hy. apply sel_expr_Ok in Hy as [(e & He & Hu) <-].
  apply set_sel_expr_Ok in H as (e' & x0 & He' & Hu' & ->). simplify_eq.
  apply (related_put sel e); [done|].
  destruct y as [m md0 c p]. by apply (R_expr e _ md p Hu).
Qed.

Lemma keeps_set_sel_pos sel p : keeps (set_sel_pos sel p).
Proof using R_refl R_expr.
  intros st [] st' H. unfold set_sel_pos in H.
  mbind H y s Hy. apply sel_expr_Ok in Hy as [(e & He & Hu) <-].
  apply set_sel_expr_Ok in H as (e' & x0 & He' & Hu' & ->). simplify_eq.
  apply (related_put sel e); [done|].
  destruct y as [m md0 c p0]. by apply (R_expr e _ md0 p Hu).
Qed.

Lemma keeps_store_param_nr sel : keeps (store_param_nr sel).
Proof using R_refl R_param.
  intros st [] st' H. unfold store_param_nr in H.
  mbind H e s He. apply get_elem_Ok in He as [He <-].
  destruct (u e) as [| | | |[p|]] eqn:Hu; try discriminate.
  - apply put_elem_Ok in H as ->. apply (related_put sel e); [done|].
    by eapply R_param.
  - apply ret_Ok in H as [_ <-]. apply related_refl.
Qed.

Section Functions.
Variable ev : selid -> option gmx_ana_index_t -> M unit.
Variable data : gmx_sel_evaluate_t.
Hypothesis Hev : forall c g, keeps (ev c g).

Ltac keeps_go :=
  repeat first [ solve [apply Hev]
               | solve [eauto 2 using keeps_sel_child, keeps_sel_v,
                          keeps_sel_flags, keeps_sel_cgrp, keeps_sel_expr,
                          keeps_sel_arith, keeps_sel_vgroup,
                          keeps_set_sel_vgroup, keeps_sel_vpos, keeps_vec_get,
                          keeps_vec_set, keeps_index_read, keeps_real_get,
                          keeps_subexpr_merge_values, keeps_vec_memcpy,
                          keeps_subexprref_extract, keeps_arith_loop,
                          keeps_pos_copy, keeps_set_sel_nr,
                          keeps_setstore_alloc, keeps_setstore, keeps_reserve,
                          keeps_release, keeps_assigner_assign,
                          keeps_assigner_restore,
                          keeps_set_sel_cgrp, keeps_set_sel_mdata,
                          keeps_set_sel_pos, keeps_store_param_nr,
                          keeps_write_out with nocore]
               | keeps_step ].

Lemma keeps_children_from fuel :
  forall c g, keeps (evaluate_children_from ev fuel c g).
Proof using R_refl R_trans Hev.
  induction fuel as [|fuel IH]; intros [c|] g; simpl; keeps_go.
Qed.

Lemma keeps_children fuel sel g :
  keeps (_gmx_sel_evaluate_children ev fuel sel g).
Proof using R_refl R_trans Hev.
  unfold _gmx_sel_evaluate_children. pose proof (keeps_children_from fuel).
  keeps_go.
Qed.

Lemma keeps_root sel g : keeps (_gmx_sel_evaluate_root ev sel g).
Proof using R_refl R_trans Hev. unfold _gmx_sel_evaluate_root. keeps_go. Qed.

Lemma keeps_static sel g : keeps (_gmx_sel_evaluate_static sel g).
Proof using R_refl R_trans. unfold _gmx_sel_evaluate_static. keeps_go. Qed.

Lemma keeps_subexpr_simple sel g :
  keeps (_gmx_sel_evaluate_subexpr_simple ev sel g).
Proof using R_refl R_trans Hev R_nr.
  unfold _gmx_sel_evaluate_subexpr_simple. keeps_go.
Qed.

Lemma keeps_subexpr_staticeval sel g :
  keeps (_gmx_sel_evaluate_subexpr_staticeval ev sel g).
Proof using R_refl R_trans Hev R_nr R_cgrp.
  unfold _gmx_sel_evaluate_subexpr_staticeval. keeps_go.
Qed.

Lemma keeps_subexpr sel g : keeps (_gmx_sel_evaluate_subexpr ev sel g).
Proof using R_refl R_trans Hev R_store R_cgrp.
  unfold _gmx_sel_evaluate_subexpr, SelelemTemporaryValueAssigner,
    MempoolSelelemReserver. keeps_go.
Qed.

Lemma keeps_subexprref_simple sel g :
  keeps (_gmx_sel_evaluate_subexprref_simple ev sel g).
Proof using R_refl R_trans Hev R_nr R_store R_param.
  unfold _gmx_sel_evaluate_subexprref_simple. keeps_go.
Qed.

Lemma keeps_subexprref sel g : keeps (_gmx_sel_evaluate_subexprref ev sel g).
Proof using R_refl R_trans Hev R_nr R_param.
  unfold _gmx_sel_evaluate_subexprref. keeps_go.
Qed.

(** Marking a parameter as evaluated for the frame. *)
Lemma keeps_mark_evaluated c ce st st' :
  elems st !! c = Some ce ->
  set_sel_flags c (Z.lor (flags ce) SEL_EVALFRAME) st = Ok tt st' ->
  related st st'.
Proof using R_refl R_evalframe.
  intros Hc H. apply set_sel_flags_Ok in H as (e & He & ->). simplify_eq.
  by apply (related_put c ce).
Qed.

Lemma keeps_method_params_from fuel :
  forall c g, keeps (method_params_from ev fuel c g).
Proof using R_refl R_trans Hev R_evalframe.
  induction fuel as [|fuel IH]; intros [c|] g; simpl; try by keeps_go.
  intros st [] st' H. mbind H ce s He. apply get_elem_Ok in He as [He <-].
  mbind H t s1 H1. destruct t.
  assert (related st s1) as Hs1.
  { destruct (evaluate ce); [|apply ret_Ok in H1 as [_ <-];
                               apply related_refl].
    destruct (has_flag (flags ce) SEL_EVALFRAME);
      [apply ret_Ok in H1 as [_ <-]; apply related_refl|].
    destruct (has_flag (flags ce) SEL_ATOMVAL); [by eapply Hev|].
    mbind H1 t s2 Hm. destruct t.
    eapply related_trans; [by eapply keeps_mark_evaluated | by eapply Hev]. }
  mbind H ce' s2 He'. apply get_elem_Ok in He' as [_ <-].
  eapply related_trans; [exact Hs1 | by eapply IH].
Qed.

Lemma keeps_method_params fuel sel g :
  keeps (_gmx_sel_evaluate_method_params ev fuel sel g).
Proof using R_refl R_trans Hev R_evalframe.
  unfold _gmx_sel_evaluate_method_params.
  pose proof (keeps_method_params_from fuel). keeps_go.
Qed.

Lemma keeps_method_init_frame sel : keeps (method_init_frame data sel).
Proof using R_refl R_trans R_initframe R_expr.
  intros st [] st' H. unfold method_init_frame in H.
  mbind H f s Hf. apply sel_flags_Ok in Hf as [Hf <-].
  destruct (has_flag f SEL_INITFRAME);
    [|apply ret_Ok in H as [_ <-]; apply related_refl].
  mbind H t s1 Hset. destruct t.
  apply set_sel_flags_Ok in Hset as (e & He & ->).
  unfold elem_flags in Hf. rewrite He in Hf. simpl in Hf. simplify_eq.
  eapply related_trans;
    [apply (related_put sel e); [done|apply R_initframe]|].
  assert (Hrest : keeps (do x <- sel_expr sel; do m <- deref (method x);
                         do cb <- deref (init_frame m);
                         exec emit (CallInitFrame sel);
                         set_sel_mdata sel
                           (cb (top data) (fr data) (pbc data) (mdata x))))
    by keeps_go.
  exact (Hrest _ _ _ H).
Qed.

Lemma keeps_method fuel sel g :
  keeps (_gmx_sel_evaluate_method ev data fuel sel g).
Proof using R_refl R_trans Hev R_nr R_evalframe R_initframe R_expr.
  unfold _gmx_sel_evaluate_method.
  pose proof (keeps_method_params fuel). pose proof keeps_method_init_frame.
  keeps_go.
Qed.

Lemma keeps_modifier fuel sel g :
  keeps (_gmx_sel_evaluate_modifier ev data fuel sel g).
Proof using R_refl R_trans Hev R_nr R_evalframe R_initframe R_expr.
  unfold _gmx_sel_evaluate_modifier.
  pose proof (keeps_method_params fuel). pose proof keeps_method_init_frame.
  keeps_go.
Qed.

Lemma keeps_not sel g : keeps (_gmx_sel_evaluate_not ev sel g).
Proof using R_refl R_trans Hev R_store.
  unfold _gmx_sel_evaluate_not, MempoolSelelemReserver. keeps_go.
Qed.

Lemma keeps_and_loop fuel : forall sel c, keeps (and_loop ev fuel sel c).
Proof using R_refl R_trans Hev R_store.
  induction fuel as [|fuel IH]; intros sel [c|]; simpl;
    unfold MempoolSelelemReserver; keeps_go.
Qed.

Lemma keeps_and fuel sel g : keeps (_gmx_sel_evaluate_and ev fuel sel g).
Proof using R_refl R_trans Hev R_store.
  unfold _gmx_sel_evaluate_and, MempoolSelelemReserver.
  pose proof (keeps_and_loop fuel). keeps_go.
Qed.

Lemma keeps_or_loop fuel : forall sel c tmp, keeps (or_loop ev fuel sel c tmp).
Proof using R_refl R_trans Hev R_store.
  induction fuel as [|fuel IH]; intros sel [c|] tmp; simpl;
    unfold MempoolSelelemReserver; keeps_go.
Qed.

Lemma keeps_or fuel sel g : keeps (_gmx_sel_evaluate_or ev fuel sel g).
Proof using R_refl R_trans Hev R_store.
  unfold _gmx_sel_evaluate_or, MempoolSelelemReserver.
  pose proof (keeps_or_loop fuel). keeps_go.
Qed.

Lemma keeps_arithmetic fuel sel g :
  keeps (_gmx_sel_evaluate_arithmetic ev fuel sel g).
Proof using R_refl R_trans Hev R_nr R_store.
  unfold _gmx_sel_evaluate_arithmetic, arith_guards.
  pose proof (keeps_children fuel). keeps_go.
Qed.

End Functions.

(** The dispatch through [sel->evaluate]. *)
Lemma keeps_sel_evaluate data fuel :
  forall sel g, keeps (sel_evaluate data fuel sel g).
Proof using All.
  induction fuel as [|fuel IH]; intros sel g; simpl; [apply keeps_throw|].
  apply keeps_bind; [apply keeps_get_elem|]. intros e.
  destruct (evaluate e) as [[]|]; try apply keeps_throw;
    eauto using keeps_root, keeps_static, keeps_subexpr_simple,
      keeps_subexpr_staticeval, keeps_subexpr, keeps_subexprref_simple,
      keeps_subexprref, keeps_method, keeps_modifier, keeps_not, keeps_and,
      keeps_or, keeps_arithmetic.
Qed.

(** The loop over the roots empties the caches of subexpressions in
    place; the lifecycle walk rewrites the two lifecycle flags. *)
Section Frames.
Hypothesis R_reset :
  forall e, R e (set_flags e (Z.land (flags e)
                   (Z.lnot (Z.lor SEL_INITFRAME SEL_EVALFRAME)))).
Hypothesis R_declare :
  forall e, R e (set_flags e (Z.lor (flags e) SEL_INITFRAME)).

Lemma keeps_init_frame_eval fuel : forall r, keeps (init_frame_eval fuel r).
Proof using R_refl R_trans R_reset R_declare.
  induction fuel as [|fuel IH]; intros [s|]; simpl;
    try apply keeps_ret; try apply keeps_throw.
  intros st [] st' H. mbind H e s0 He. apply get_elem_Ok in He as [He <-].
  mbind H t s1 Hset. destruct t.
  apply set_sel_flags_Ok in Hset as (e' & He' & ->).
  assert (e' = e) as -> by congruence. clear He'.
  eapply related_trans; [apply (related_put s e); [done|apply R_reset]|].
  set (f := Z.land (flags e) (Z.lnot (Z.lor SEL_INITFRAME SEL_EVALFRAME)))
    in *.
  set (st1 := with_elem st s (set_flags e f)) in *.
  assert (H1 : elems st1 !! s = Some (set_flags e f)).
  { unfold st1, with_elem; simpl. by rewrite lookup_insert_eq. }
  mbind H t s2 Hdecl. destruct t.
  assert (related st1 s2) as H12.
  { destruct (decide (type e = SEL_EXPRESSION));
      [|apply ret_Ok in Hdecl as [_ <-]; apply related_refl].
    mbind Hdecl x s3 Hx. apply sel_expr_Ok in Hx as [_ <-].
    destruct (method x) as [m|];
      [|apply ret_Ok in Hdecl as [_ <-]; apply related_refl].
    destruct (init_frame m);
      [|apply ret_Ok in Hdecl as [_ <-]; apply related_refl].
    apply set_sel_flags_Ok in Hdecl as (e1 & He1 & ->).
    rewrite H1 in He1. simplify_eq.
    apply (related_put s (set_flags e f)); [done|]. apply R_declare. }
  eapply related_trans; [exact H12|].
  mbind H t s3 Hch. destruct t.
  eapply related_trans; [|by eapply IH].
  destruct (child e); [|apply ret_Ok in Hch as [_ <-]; apply related_refl].
  destruct (decide (type e = SEL_SUBEXPRREF));
    [apply ret_Ok in Hch as [_ <-]; apply related_refl|by eapply IH].
Qed.

Lemma keeps_evaluate_roots data fuel :
  forall r, keeps (evaluate_roots data fuel r).
Proof using R_refl R_trans R_nr R_store R_evalframe R_initframe R_cgrp R_expr
  R_param.
  pose proof (keeps_sel_evaluate data). pose proof keeps_sel_cgrp.
  pose proof keeps_set_sel_cgrp. pose proof keeps_sel_vgroup.
  pose proof keeps_set_sel_vgroup.
  induction fuel as [|fuel IH]; intros [s|]; simpl; keeps_auto.
Qed.

Lemma keeps_evaluate fuel sc frame box :
  keeps (SelectionEvaluator_evaluate fuel sc frame box).
Proof using All.
  unfold SelectionEvaluator_evaluate. apply keeps_bind.
  - apply keeps_init_frame_eval.
  - intros _. apply keeps_evaluate_roots.
Qed.

Lemma keeps_evaluate_frames fuel sc frames :
  keeps (evaluate_frames fuel sc frames).
Proof using All.
  induction frames as [|[frame box] frames IH]; simpl; [apply keeps_ret|].
  apply keeps_bind; [apply keeps_evaluate|]. intros _. exact IH.
Qed.

End Frames.
End Updates.
End Value.
End Keeps.

(** Relations that keep a projection of the element. *)
Definition same {B} (proj : t_selelem -> B) : relation t_selelem :=
  fun e e' => proj e' = proj e.

Lemma same_refl {B} (proj : t_selelem -> B) : Reflexive (same proj).
Proof. by intros e. Qed.

Lemma same_trans {B} (proj : t_selelem -> B) : Transitive (same proj).
Proof. unfold same. intros e1 e2 e3 H1 H2. congruence. Qed.

Lemma related_same {B} (proj : t_selelem -> B) st st' x :
  related (same proj) st st' ->
  proj <$> elems st' !! x = proj <$> elems st !! x.
Proof.
  intros H. specialize (H x). destruct H as [e e' H|]; [|done].
  simpl. by rewrite H.
Qed.

(** ** The cache of a general subexpression across calls *)

(** Strictly increasing lists, merged and filtered. *)
Lemma Sorted_lt_le (l : list Z) : Sorted Z.lt l -> Sorted Z.le l.
Proof.
  induction 1 as [|x l Hs IH Hhd]; constructor; [done|].
  destruct Hhd; constructor. lia.
Qed.

Lemma Sorted_lt_NoDup (l : list Z) : Sorted Z.lt l -> NoDup l.
Proof.
  intros H. apply Sorted_StronglySorted in H; [|intros x y z; lia].
  induction H as [|x l Hs IH Hall]; constructor; [|done].
  intros Hin. rewrite Forall_forall in Hall. specialize (Hall x Hin). lia.
Qed.

Lemma Sorted_le_NoDup_lt (l : list Z) :
  Sorted Z.le l -> NoDup l -> Sorted Z.lt l.
Proof.
  intros H Hnd. apply Sorted_StronglySorted in H; [|intros x y z; lia].
  apply StronglySorted_Sorted.
  induction H as [|x l Hs IH Hall]; constructor.
  - apply IH. by inversion Hnd.
  - inversion Hnd as [|? ? Hx Hl]; subst.
    rewrite Forall_forall in *. intros y Hy.
    assert (y <> x) by (intros ->; done).
    specialize (Hall y Hy). lia.
Qed.

Lemma Sorted_lt_merge (a b : list Z) :
  Sorted Z.lt a -> Sorted Z.lt b -> (forall x, x ∈ a -> x ∉ b) ->
  Sorted Z.lt (list_merge Z.le a b).
Proof.
  intros Ha Hb Hdis. apply Sorted_le_NoDup_lt.
  - apply (Sorted_list_merge Z.le); by apply Sorted_lt_le.
  - rewrite (merge_Permutation Z.le a b). apply NoDup_app.
    split; [by apply Sorted_lt_NoDup|]. split; [done|].
    by apply Sorted_lt_NoDup.
Qed.

Lemma Sorted_lt_filter (P : Z -> Prop) `{!forall x, Decision (P x)}
    (l : list Z) :
  Sorted Z.lt l -> Sorted Z.lt (filter P l).
Proof.
  intros Hl. apply Sorted_StronglySorted in Hl; [|intros x y z; lia].
  apply StronglySorted_Sorted.
  induction Hl as [|x l Hs IH Hall]; [constructor|].
  rewrite filter_cons. destruct (decide (P x)); [|done].
  constructor; [done|]. rewrite Forall_forall in *.
  intros y Hy. apply list_elem_of_filter in Hy as [_ Hy]. auto.
Qed.

Lemma Sorted_lt_take (n : nat) (l : list Z) :
  Sorted Z.lt l -> Sorted Z.lt (take n l).
Proof.
  intros Hl. revert n. induction Hl as [|x l Hs IH Hhd]; intros [|n];
    simpl; try constructor; [apply IH|].
  destruct Hhd; destruct n; simpl; constructor. done.
Qed.

Lemma index_wf_group_of nm l : Sorted Z.lt l -> index_wf (group_of nm l).
Proof. intros H. split; [reflexivity|exact H]. Qed.

Lemma atomset_empty g : isize g <= 0 -> atomset g = ∅.
Proof. intros H. unfold atomset. by rewrite atoms_nil_of_isize. Qed.

Lemma atomset_recorded g nm :
  atomset (set_name (gmx_ana_index_copy g) nm) = atomset g.
Proof.
  unfold set_name, gmx_ana_index_copy, atomset, atoms at 1; simpl.
  by rewrite Nat2Z.id, firstn_all.
Qed.

(** A step that keeps the payload [u] of every element keeps every cached
    group. *)
Lemma cached_group_of_u st st' sel :
  u <$> elems st' !! sel = u <$> elems st !! sel ->
  cached_group st' sel = cached_group st sel.
Proof.
  unfold cached_group.
  destruct (elems st' !! sel), (elems st !! sel); simpl; intros H;
    simplify_eq; try done. by rewrite H.
Qed.

Lemma keeps_u_cached {A} (m : M A) st a st' sel :
  keeps (same u) m -> m st = Ok a st' ->
  cached_group st' sel = cached_group st sel.
Proof.
  intros Hk H. apply cached_group_of_u, related_same. by eapply Hk.
Qed.

Lemma reserve_cached c n st st' sel :
  _gmx_selelem_mempool_reserve c n st = Ok tt st' ->
  cached_group st' sel = cached_group st sel.
Proof.
  apply keeps_u_cached, keeps_reserve;
    [apply same_refl | apply same_trans | done].
Qed.

Lemma release_cached c st st' sel :
  _gmx_selelem_mempool_release c st = Ok tt st' ->
  cached_group st' sel = cached_group st sel.
Proof.
  apply keeps_u_cached, keeps_release;
    [apply same_refl | apply same_trans | done].
Qed.

Lemma merge_values_cached n sel' gmiss i j k st st' sel :
  subexpr_merge_values n sel' gmiss i j k st = Ok tt st' ->
  cached_group st' sel = cached_group st sel.
Proof.
  apply keeps_u_cached, keeps_subexpr_merge_values;
    [apply same_refl | apply same_trans].
Qed.

(** The cached group of an element whose payload is one. *)
Definition cached (e : t_selelem) : option gmx_ana_index_t :=
  match u e with U_cgrp g => Some g | _ => None end.

Lemma cached_group_related st st' sel :
  related (same cached) st st' -> cached_group st' sel = cached_group st sel.
Proof.
  intros H. specialize (H sel). unfold cached_group.
  destruct H as [e e' H|]; [|done]. simpl.
  unfold same, cached in H. destruct (u e), (u e'); by simplify_eq.
Qed.

(** Evaluating a method expression rewrites no cached group, provided the
    evaluation of its parameters does not. *)
Lemma method_keeps_cached_groups
    (ev : selid -> option gmx_ana_index_t -> M unit)
    (data : gmx_sel_evaluate_t) (fuel : nat) (sel : selid)
    (g : option gmx_ana_index_t) :
  (forall c h, keeps (same cached) (ev c h)) ->
  keeps (same cached) (_gmx_sel_evaluate_method ev data fuel sel g).
Proof.
  intros Hev.
  apply (keeps_method (same cached) (same_refl _) (same_trans _));
    try done.
  intros e x md p Hu. unfold same, cached. simpl. by rewrite Hu.
Qed.

Lemma cached_group_heap st h c sel :
  cached_group {| elems := elems st; heap := h; calls := c |} sel
  = cached_group st sel.
Proof. reflexivity. Qed.

(** A call of [_gmx_sel_evaluate_subexpr] whose cached group is not empty:
    either nothing is missing and the call returns at once, or the child is
    evaluated over the missing atoms, with as many values reserved, and the
    cached group takes them in. *)
Lemma subexpr_later_call
    (ev : selid -> option gmx_ana_index_t -> M unit)
    (sel : selid) (g cgrp : gmx_ana_index_t) (st st' : evalstate) :
  (forall c h s s', ev c h s = Ok tt s' ->
                    cached_group s' sel = cached_group s sel) ->
  cached_group st sel = Some cgrp ->
  isize cgrp <> 0 ->
  _gmx_sel_evaluate_subexpr ev sel (Some g) st = Ok tt st' ->
  let gmiss := group_of None (filter (λ x, x ∉ atoms cgrp) (atoms g)) in
  (atoms gmiss = [] /\ st' = st) \/
  (atoms gmiss <> [] /\
   exists c st1 st2,
     sel_child sel st = Ok c st /\
     _gmx_selelem_mempool_reserve c (isize gmiss) st = Ok tt st1 /\
     ev c (Some gmiss) st1 = Ok tt st2 /\
     cached_group st' sel
     = Some (group_of (name cgrp)
               (list_merge Z.le (atoms cgrp) (atoms gmiss)))).
Proof.
  intros Hev Hc Hne H gmiss. unfold _gmx_sel_evaluate_subexpr in H.
  erewrite bind_eq in H by (apply sel_cgrp_Ok; eauto).
  apply Z.eqb_neq in Hne. rewrite Hne in H. cbv beta iota in H.
  rewrite bind_assoc in H. change (deref (Some g)) with (ret g) in H.
  rewrite bind_ret, bind_ret in H.
  change (gmx_ana_index_difference _ g cgrp) with gmiss in H.
  destruct (0 <? isize gmiss) eqn:Hsz.
  - right. apply Z.ltb_lt in Hsz. split.
    { unfold gmiss in *. rewrite atoms_group_of.
      rewrite isize_group_of in Hsz. intros Hnil. rewrite Hnil in Hsz.
      simpl in Hsz. lia. }
    mbind H c s0 Hch. pose proof Hch as Hch'.
    apply sel_child_Ok in Hch' as [_ <-].
    unfold MempoolSelelemReserver in H.
    mbind H t st1 Hres. destruct t.
    mbind H r s2 Hbody. destruct r.
    mbind Hbody t st2 Hrun. destruct t.
    mbind Hbody x s3 Hx. apply sel_v_Ok in Hx as [_ <-].
    mbind Hbody t s4 Hmerge. destruct t.
    mbind Hbody cgrp' s5 Hc'. apply sel_cgrp_Ok in Hc' as [Hc' <-].
    apply set_sel_cgrp_Ok in Hbody as (e & g0 & He & Hu & ->).
    mbind H t s6 Hrel. destruct t. apply ret_Ok in H as [_ <-].
    assert (Hc2 : cached_group st2 sel = Some cgrp).
    { by rewrite (Hev _ _ _ _ Hrun), (reserve_cached _ _ _ _ _ Hres). }
    assert (Hc4 : cached_group s4 sel = Some cgrp).
    { rewrite <- Hc2. destruct (decide (vtype x = GROUP_VALUE)).
      - mbind Hmerge cg s7 Hcg. apply sel_vgroup_Ok in Hcg as [_ <-].
        mbind Hmerge sg s8 Hsg. apply sel_vgroup_Ok in Hsg as [_ <-].
        by apply set_sel_vgroup_Ok in Hmerge as (l & g1 & _ & _ & ->).
      - mbind Hmerge cg s7 Hcg. apply sel_cgrp_Ok in Hcg as [_ <-].
        destruct (vtype x); try discriminate;
          by apply (merge_values_cached _ _ _ _ _ _ _ _ sel) in Hmerge. }
    rewrite Hc4 in Hc'. simplify_eq.
    exists c, st1, st2. repeat split; try done.
    rewrite (release_cached _ _ _ _ Hrel), cached_group_set_cgrp. done.
  - left. apply ret_Ok in H as [_ <-]. split; [|done].
    apply Z.ltb_ge in Hsz. unfold gmiss in *.
    rewrite atoms_group_of. rewrite isize_group_of in Hsz.
    destruct (filter _ _); [done|]. simpl in Hsz. lia.
Qed.

(** The first call of a frame (empty cached group): the child is evaluated
    over the whole group while its value pointer is redirected, and the
    group is recorded under the cached group's own name. *)
Lemma subexpr_first_call_steps
    (ev : selid -> option gmx_ana_index_t -> M unit)
    (sel : selid) (g : option gmx_ana_index_t) (cgrp : gmx_ana_index_t)
    (st st' : evalstate) :
  cached_group st sel = Some cgrp ->
  isize cgrp = 0 ->
  _gmx_sel_evaluate_subexpr ev sel g st = Ok tt st' ->
  exists c old st1 st2 st3 g' cgrp1 e,
    sel_child sel st = Ok c st /\
    assigner_assign c sel st = Ok old st1 /\
    ev c g st1 = Ok tt st2 /\
    assigner_restore c old st2 = Ok tt st3 /\
    g = Some g' /\
    cached_group st3 sel = Some cgrp1 /\
    elems st3 !! sel = Some e /\
    elems st'
    = <[sel := set_u e (U_cgrp (set_name (gmx_ana_index_copy g')
                                         (name cgrp1)))]> (elems st3) /\
    heap st' = heap st3 /\ calls st' = calls st3.
Proof.
  intros Hc Hz H. unfold _gmx_sel_evaluate_subexpr in H.
  erewrite bind_eq in H by (apply sel_cgrp_Ok; eauto).
  rewrite Hz in H. cbv beta iota in H. change (0 =? 0) with true in H.
  cbv beta iota in H.
  mbind H gmiss s1 H1.
  mbind H1 c s2 Hch. pose proof Hch as Hch'.
  apply sel_child_Ok in Hch' as [_ <-].
  mbind H1 t s3 Has. destruct t.
  unfold SelelemTemporaryValueAssigner in Has.
  mbind Has old st1 Ha. mbind Has t st2 Hr. destruct t.
  mbind Has t st3 Hre. destruct t. apply ret_Ok in Has as [_ <-].
  mbind H1 cgrp1 s7 Hc1. apply sel_cgrp_Ok in Hc1 as [Hc1 <-].
  mbind H1 g' s8 Hg. apply deref_Ok in Hg as [-> <-].
  mbind H1 t s9 Hs1. destruct t.
  apply set_sel_cgrp_Ok in Hs1 as (e & g1 & He & Hu1 & ->).
  mbind H1 cgrp2 s10 Hc2. apply sel_cgrp_Ok in Hc2 as [Hc2 <-].
  rewrite cached_group_set_cgrp in Hc2. simplify_eq.
  mbind H1 t s11 Hs2. destruct t.
  apply set_sel_cgrp_Ok in Hs2 as (e2 & g2 & He2 & Hu2 & ->).
  apply ret_Ok in H1 as [<- <-]. simpl in H. apply ret_Ok in H as [_ <-].
  simpl in He2. rewrite lookup_insert_eq in He2. simplify_eq.
  exists c, old, st1, st2, st3, g', cgrp1, e.
  repeat split; try done. simpl. by rewrite insert_insert_eq.
Qed.

(** One call, first or later, adds the atoms of the group to the cached
    group, keeps its name, and keeps it a sorted group. *)
Lemma subexpr_call_union
    (ev : selid -> option gmx_ana_index_t -> M unit)
    (sel : selid) (g cgrp : gmx_ana_index_t) (st st' : evalstate) :
  (forall c h s s', ev c h s = Ok tt s' ->
                    cached_group s' sel = cached_group s sel) ->
  cached_group st sel = Some cgrp ->
  isize cgrp = 0 \/ index_wf cgrp ->
  index_wf g ->
  _gmx_sel_evaluate_subexpr ev sel (Some g) st = Ok tt st' ->
  exists cgrp',
    cached_group st' sel = Some cgrp' /\
    name cgrp' = name cgrp /\
    atomset cgrp' = atomset cgrp ∪ atomset g /\
    index_wf cgrp'.
Proof.
  intros Hev Hc Hwf Hg H.
  destruct (decide (isize cgrp = 0)) as [Hz|Hnz].
  - apply (subexpr_first_call_steps _ _ _ _ _ _ Hc Hz) in H
      as (c & old & st1 & st2 & st3 & g' & cgrp1 & e & _ & Ha & Hr & Hre
          & Hg' & Hc3 & He & Hel & _ & _).
    assert (g' = g) as -> by congruence. clear Hg'.
    assert (cgrp1 = cgrp) as ->.
    { rewrite (assigner_restore_cached _ _ _ _ _ Hre), (Hev _ _ _ _ Hr),
        (assigner_assign_cached _ _ _ _ _ _ Ha), Hc in Hc3. by simplify_eq. }
    eexists. split.
    { unfold cached_group. rewrite Hel, lookup_insert_eq. reflexivity. }
    split; [done|]. split.
    + rewrite (atomset_empty cgrp), (left_id_L ∅ (∪)) by lia.
      apply atomset_recorded.
    + unfold set_name, gmx_ana_index_copy; simpl. split; simpl.
      * done.
      * rewrite (atoms_wf g Hg). apply Hg.
  - destruct Hwf as [?|Hwf]; [done|].
    apply (subexpr_later_call _ _ _ _ _ _ Hev Hc Hnz) in H
      as [[Hnil ->]|(Hmiss & c & st1 & st2 & _ & _ & _ & Hc')].
    + exists cgrp. split; [done|]. split; [done|]. split; [|done].
      rewrite atoms_group_of in Hnil.
      apply set_eq. intros x. unfold atomset.
      rewrite elem_of_union, !elem_of_list_to_set. split; [tauto|].
      intros [?|Hx]; [done|].
      destruct (decide (x ∈ atoms cgrp)) as [?|Hn]; [done|].
      assert (Hin : x ∈ filter (λ x, x ∉ atoms cgrp) (atoms g))
        by (by apply list_elem_of_filter).
      rewrite Hnil in Hin. by apply elem_of_nil in Hin.
    + eexists. split; [exact Hc'|]. split; [done|].
      rewrite atoms_group_of. split.
      * rewrite atomset_group_of. apply set_eq. intros x. unfold atomset.
        rewrite elem_of_union, !elem_of_list_to_set.
        rewrite (merge_Permutation Z.le), elem_of_app, list_elem_of_filter.
        destruct (decide (x ∈ atoms cgrp)); tauto.
      * apply index_wf_group_of, Sorted_lt_merge.
        -- rewrite (atoms_wf _ Hwf). apply Hwf.
        -- apply Sorted_lt_filter. rewrite (atoms_wf _ Hg). apply Hg.
        -- intros x Hx Hf. by apply list_elem_of_filter in Hf as [Hf _].
Qed.

(** The calls made on one general subexpression within a frame. *)
Fixpoint subexpr_calls (ev : selid -> option gmx_ana_index_t -> M unit)
    (sel : selid) (gs : list gmx_ana_index_t) : M unit :=
  match gs with
  | [] => ret tt
  | g :: gs' =>
      exec _gmx_sel_evaluate_subexpr ev sel (Some g);
      subexpr_calls ev sel gs'
  end.

(** After a general subexpression has been evaluated over the groups
    [g1, ..., gk], its cached group holds the union of their atoms besides
    what it held before (nothing at the start of a frame, where its size is
    0), under its own name, and it is a sorted group again. The child
    evaluation is assumed not to touch the element's cached group. *)
Theorem subexpr_calls_accumulate_union
    (ev : selid -> option gmx_ana_index_t -> M unit)
    (sel : selid) (gs : list gmx_ana_index_t) (cgrp : gmx_ana_index_t)
    (st st' : evalstate) :
  (forall c h s s', ev c h s = Ok tt s' ->
                    cached_group s' sel = cached_group s sel) ->
  cached_group st sel = Some cgrp ->
  isize cgrp = 0 \/ index_wf cgrp ->
  Forall index_wf gs ->
  subexpr_calls ev sel gs st = Ok tt st' ->
  exists cgrp',
    cached_group st' sel = Some cgrp' /\
    name cgrp' = name cgrp /\
    atomset cgrp' = atomset cgrp ∪ ⋃ (atomset <$> gs) /\
    (isize cgrp' = 0 \/ index_wf cgrp').
Proof.
  intros Hev. revert cgrp st.
  induction gs as [|g gs IH]; intros cgrp st Hc Hwf Hgs H.
  - apply ret_Ok in H as [_ <-]. exists cgrp. repeat split; try done.
    simpl. by rewrite (right_id_L ∅ (∪)).
  - simpl in H. mbind H t s1 H1. destruct t.
    inversion Hgs as [|? ? Hg Hgs']; subst.
    destruct (subexpr_call_union _ _ _ _ _ _ Hev Hc Hwf Hg H1)
      as (cgrp1 & Hc1 & Hn1 & Hs1 & Hwf1).
    destruct (IH cgrp1 s1 Hc1 (or_intror Hwf1) Hgs' H)
      as (cgrp' & Hc' & Hn' & Hs' & Hwf').
    exists cgrp'. split; [done|]. split; [congruence|]. split; [|done].
    rewrite Hs', Hs1, fmap_cons, union_list_cons. by rewrite (assoc_L (∪)).
Qed.

(** A later call of a frame (the cached group is not empty) evaluates the
    child over exactly the atoms of the group that the cached group lacks,
    with that many values reserved on it, and the cached group becomes the
    sorted merge of the two; when nothing is missing the child is not
    evaluated and the state stays as it is. *)
Theorem subexpr_evaluates_missing_part_only
    (ev : selid -> option gmx_ana_index_t -> M unit)
    (sel : selid) (g cgrp : gmx_ana_index_t) (st st' : evalstate) :
  (forall c h s s', ev c h s = Ok tt s' ->
                    cached_group s' sel = cached_group s sel) ->
  cached_group st sel = Some cgrp ->
  isize cgrp <> 0 -> index_wf cgrp -> index_wf g ->
  _gmx_sel_evaluate_subexpr ev sel (Some g) st = Ok tt st' ->
  let missing := filter (λ x, x ∉ atoms cgrp) (atoms g) in
  (missing = [] /\ st' = st) \/
  (missing <> [] /\
   exists c st1 st2 cgrp',
     sel_child sel st = Ok c st /\
     _gmx_selelem_mempool_reserve c (Z.of_nat (length missing)) st
       = Ok tt st1 /\
     ev c (Some (group_of None missing)) st1 = Ok tt st2 /\
     cached_group st' sel = Some cgrp' /\
     atoms cgrp' = list_merge Z.le (atoms cgrp) missing /\
     Sorted Z.lt (atoms cgrp') /\
     forall x, x ∈ atoms cgrp' <-> x ∈ atoms cgrp \/ x ∈ atoms g).
Proof.
  intros Hev Hc Hnz Hwf Hg H missing.
  apply (subexpr_later_call _ _ _ _ _ _ Hev Hc Hnz) in H
    as [[Hnil ->]|(Hmiss & c & st1 & st2 & Hch & Hres & Hrun & Hc')];
    rewrite atoms_group_of in *; [by left|right].
  split; [done|]. eexists c, st1, st2, _.
  split; [done|]. split; [exact Hres|]. split; [exact Hrun|].
  split; [exact Hc'|]. rewrite atoms_group_of. split; [done|]. split.
  - apply Sorted_lt_merge.
    + rewrite (atoms_wf _ Hwf). apply Hwf.
    + apply Sorted_lt_filter. rewrite (atoms_wf _ Hg). apply Hg.
    + intros x Hx Hf. by apply list_elem_of_filter in Hf as [Hf _].
  - intros x. rewrite (merge_Permutation Z.le), elem_of_app.
    unfold missing. rewrite list_elem_of_filter.
    destruct (decide (x ∈ atoms cgrp)); tauto.
Qed.

(** ** The temporary value assignment around the first evaluation *)

Lemma assigner_assign_Ok c vs old st st1 :
  assigner_assign c vs st = Ok old st1 <->
  exists ec es,
    elems st !! c = Some ec /\ elems st !! vs = Some es /\
    vtype (v ec) = vtype (v es) /\
    old = (ptr (v ec), nalloc (v ec)) /\
    st1 = with_elem st c
            (set_v ec (set_store (v ec) (ptr (v es))
                         (if ptr (v es) is Some _ then -1 else 0))).
Proof.
  unfold assigner_assign, _gmx_selvalue_setstore. split.
  - intros H. mbind H x s Hx. apply sel_v_Ok in Hx as [(ec & Hec & <-) <-].
    mbind H xs s Hxs. apply sel_v_Ok in Hxs as [(es & Hes & <-) <-].
    destruct (decide (vtype (v ec) = vtype (v es))) as [Hty|]; [|done].
    mbind H t s Hset. destruct t.
    mbind Hset x s2 Hx. apply sel_v_Ok in Hx as [(e' & He' & <-) <-].
    apply set_sel_v_Ok in Hset as (e2 & He2 & ->).
    apply ret_Ok in H as [<- <-]. simplify_eq.
    exists ec, es. repeat split; eauto.
  - intros (ec & es & Hec & Hes & Hty & -> & ->).
    erewrite bind_eq by (apply sel_v_Ok; eauto).
    erewrite bind_eq by (apply sel_v_Ok; eauto).
    destruct (decide (vtype (v ec) = vtype (v es))); [|done].
    erewrite bind_eq; [reflexivity|].
    erewrite bind_eq by (apply sel_v_Ok; eauto).
    apply set_sel_v_Ok. eauto.
Qed.

Lemma assigner_restore_Ok c old st st' :
  assigner_restore c old st = Ok tt st' <->
  exists e, elems st !! c = Some e /\
            st' = with_elem st c (set_v e (set_store (v e) old.1 old.2)).
Proof.
  unfold assigner_restore, _gmx_selvalue_setstore_alloc. split.
  - intros H. mbind H x s Hx. apply sel_v_Ok in Hx as [(e & He & <-) <-].
    apply set_sel_v_Ok in H as (e2 & He2 & ->). simplify_eq. eauto.
  - intros (e & He & ->). erewrite bind_eq by (apply sel_v_Ok; eauto).
    apply set_sel_v_Ok. eauto.
Qed.

(** On the first call of a frame, a general subexpression evaluates its
    child while the child's value pointer is redirected to the
    subexpression's own store (the two have the same value type), and puts
    the child's pointer and capacity back afterwards, whatever the child
    evaluation did to them. *)
Theorem subexpr_first_call_redirects_child_store
    (ev : selid -> option gmx_ana_index_t -> M unit)
    (sel : selid) (g : option gmx_ana_index_t) (cgrp : gmx_ana_index_t)
    (st st' : evalstate) :
  cached_group st sel = Some cgrp ->
  isize cgrp = 0 ->
  _gmx_sel_evaluate_subexpr ev sel g st = Ok tt st' ->
  exists c ec es st1 st2 ec',
    sel_child sel st = Ok c st /\
    elems st !! c = Some ec /\ elems st !! sel = Some es /\
    vtype (v ec) = vtype (v es) /\
    sel_ptr st1 c = sel_ptr st sel /\
    (forall x, x <> c -> elems st1 !! x = elems st !! x) /\
    heap st1 = heap st /\ calls st1 = calls st /\
    ev c g st1 = Ok tt st2 /\
    elems st' !! c = Some ec' /\
    ptr (v ec') = ptr (v ec) /\ nalloc (v ec') = nalloc (v ec).
Proof.
  intros Hc Hz H.
  apply (subexpr_first_call_steps _ _ _ _ _ _ Hc Hz) in H
    as (c & old & st1 & st2 & st3 & g' & cgrp1 & e & Hch & Ha & Hr & Hre
        & Hg' & Hc3 & He & Hel & _ & _).
  apply assigner_assign_Ok in Ha as (ec & es & Hec & Hes & Hty & -> & ->).
  apply assigner_restore_Ok in Hre as (e2 & He2 & ->).
  assert (Hc' : exists ec', elems st' !! c = Some ec' /\
            ptr (v ec') = ptr (v ec) /\ nalloc (v ec') = nalloc (v ec)).
  { rewrite Hel. simpl in *. destruct (decide (sel = c)) as [->|Hne].
    - rewrite lookup_insert_eq in He. simplify_eq.
      rewrite lookup_insert_eq. eauto.
    - rewrite lookup_insert_ne, lookup_insert_eq by done. eauto. }
  destruct Hc' as (ec' & Hec' & Hp & Hn).
  match type of Hr with
  | ev _ _ ?s = _ => exists c, ec, es, s, st2, ec'
  end.
  split; [done|]. split; [done|].
  split; [done|]. split; [done|]. split.
  { unfold sel_ptr; simpl. rewrite lookup_insert_eq, Hes. done. }
  split. { intros x Hx. simpl. by rewrite lookup_insert_ne. }
  repeat split; done.
Qed.

(** The redirection is guarded: a child whose value type differs from the
    subexpression's is not evaluated, the first call of a frame stops with
    the assertion of the temporary value assigner. *)
Theorem subexpr_first_call_checks_child_type
    (ev : selid -> option gmx_ana_index_t -> M unit)
    (sel c : selid) (g : option gmx_ana_index_t) (cgrp : gmx_ana_index_t)
    (es ec : t_selelem) (st : evalstate) :
  elems st !! sel = Some es -> u es = U_cgrp cgrp -> isize cgrp = 0 ->
  child es = Some c -> elems st !! c = Some ec ->
  vtype (v ec) <> vtype (v es) ->
  _gmx_sel_evaluate_subexpr ev sel g st
  = Throw (AssertionFailed "Mismatching selection value types").
Proof.
  intros Hes Hu Hz Hch Hec Hty. unfold _gmx_sel_evaluate_subexpr.
  erewrite bind_eq by (apply sel_cgrp_Ok; split; [|done];
                       unfold cached_group; by rewrite Hes; simpl; rewrite Hu).
  rewrite Hz. cbv beta iota. change (0 =? 0) with true. cbv beta iota.
  apply bind_Throw.
  erewrite bind_eq by (apply sel_child_Ok; eauto).
  apply bind_Throw. unfold SelelemTemporaryValueAssigner.
  apply bind_Throw. unfold assigner_assign.
  erewrite bind_eq by (apply sel_v_Ok; eauto).
  erewrite bind_eq by (apply sel_v_Ok; eauto).
  destruct (decide (vtype (v ec) = vtype (v es))); done.
Qed.

(** ** A subexpression with a static evaluation group *)

(** [_gmx_sel_evaluate_subexpr_staticeval] evaluates its child once per
    frame: after a first call over a group that is not empty, a second
    call, over whatever group and with whatever child behaviour, returns at
    once and changes nothing. The first child evaluation is assumed not to
    touch the element's cached group. *)
Theorem subexpr_staticeval_evaluates_once
    (ev ev' : selid -> option gmx_ana_index_t -> M unit)
    (sel : selid) (g : gmx_ana_index_t) (g2 : option gmx_ana_index_t)
    (cgrp : gmx_ana_index_t) (st st1 : evalstate) :
  (forall c h s s', ev c h s = Ok tt s' ->
                    cached_group s' sel = cached_group s sel) ->
  cached_group st sel = Some cgrp ->
  isize cgrp = 0 -> isize g <> 0 ->
  _gmx_sel_evaluate_subexpr_staticeval ev sel (Some g) st = Ok tt st1 ->
  cached_group st1 sel = Some (gmx_ana_index_set (isize g) (index g)
                                 (name cgrp)) /\
  _gmx_sel_evaluate_subexpr_staticeval ev' sel g2 st1 = Ok tt st1.
Proof.
  intros Hev Hc Hz Hnz H.
  unfold _gmx_sel_evaluate_subexpr_staticeval in H.
  erewrite bind_eq in H by (apply sel_cgrp_Ok; eauto).
  rewrite Hz in H. change (0 =? 0) with true in H. cbv beta iota in H.
  mbind H c s1 Hch. apply sel_child_Ok in Hch as [_ <-].
  mbind H t s2 Hr. destruct t.
  mbind H cv s3 Hcv. apply sel_v_Ok in Hcv as [_ <-].
  mbind H t s4 Hnr. destruct t.
  apply set_sel_nr_Ok in Hnr as (e & He & ->).
  mbind H g' s5 Hg. apply ret_Ok in Hg as [<- <-].
  mbind H cgrp' s6 Hc'. apply sel_cgrp_Ok in Hc' as [Hc' <-].
  rewrite (cached_group_with_elem_set_v _ _ _ _ _ He), (Hev _ _ _ _ Hr),
    Hc in Hc'. simplify_eq.
  apply set_sel_cgrp_Ok in H as (e2 & g2' & He2 & Hu2 & ->).
  assert (Hc1 : cached_group
            (with_elem (with_elem s2 sel (set_v e (set_nr (v e) (nr cv)))) sel
               (set_u e2 (U_cgrp (gmx_ana_index_set (isize g) (index g)
                                    (name cgrp'))))) sel
          = Some (gmx_ana_index_set (isize g) (index g) (name cgrp')))
    by apply cached_group_set_cgrp.
  split; [exact Hc1|].
  unfold _gmx_sel_evaluate_subexpr_staticeval.
  erewrite bind_eq by (apply sel_cgrp_Ok; eauto).
  simpl. apply Z.eqb_neq in Hnz. by rewrite Hnz.
Qed.

(** ** Merging group values into a general subexpression *)

(** On a later call with atoms missing from the cache, a general
    subexpression reserves storage on its child and evaluates the child
    over the missing atoms; when it is group-valued, it ends with the
    sorted merge of the group the child computed and the value group it
    had, under the name of the latter (the two elements having separate
    value stores). The states [st1] and [st2] are those the reservation
    and the child evaluation return. *)
Theorem subexpr_merges_group_values
    (ev : selid -> option gmx_ana_index_t -> M unit)
    (sel : selid) (g cgrp : gmx_ana_index_t) (st st' : evalstate) :
  cached_group st sel = Some cgrp ->
  isize cgrp <> 0 ->
  filter (λ x, x ∉ atoms cgrp) (atoms g) <> [] ->
  _gmx_sel_evaluate_subexpr ev sel (Some g) st = Ok tt st' ->
  exists c st1 st2 e2,
    sel_child sel st = Ok c st /\
    _gmx_selelem_mempool_reserve c
      (Z.of_nat (length (filter (λ x, x ∉ atoms cgrp) (atoms g)))) st
      = Ok tt st1 /\
    ev c (Some (group_of None (filter (λ x, x ∉ atoms cgrp) (atoms g)))) st1
      = Ok tt st2 /\
    elems st2 !! sel = Some e2 /\
    (vtype (v e2) = GROUP_VALUE ->
     exists sg cg,
       value_group st2 sel = Some sg /\ value_group st2 c = Some cg /\
       (sel_ptr st2 sel <> sel_ptr st2 c ->
        exists vg, value_group st' sel = Some vg /\
                   name vg = name sg /\
                   atoms vg = list_merge Z.le (atoms cg) (atoms sg) /\
                   atomset vg = atomset cg ∪ atomset sg)).
Proof.
  intros Hc Hne Hmiss H. unfold _gmx_sel_evaluate_subexpr in H.
  erewrite bind_eq in H by (apply sel_cgrp_Ok; eauto).
  apply Z.eqb_neq in Hne. rewrite Hne in H. cbv beta iota in H.
  rewrite bind_assoc in H. change (deref (Some g)) with (ret g) in H.
  rewrite bind_ret, bind_ret in H.
  set (gmiss := gmx_ana_index_difference _ g cgrp) in H.
  assert (Hsz : (0 <? isize gmiss) = true).
  { apply Z.ltb_lt. unfold gmiss, gmx_ana_index_difference.
    rewrite isize_group_of. destruct (filter _ _); [done|]. simpl. lia. }
  rewrite Hsz in H.
  mbind H c s0 Hch. pose proof Hch as Hch'.
  apply sel_child_Ok in Hch' as [_ <-].
  unfold MempoolSelelemReserver in H.
  mbind H t st1 Hres. destruct t.
  mbind H r s2 Hbody. destruct r.
  mbind Hbody t st2 Hrun. destruct t.
  mbind Hbody x s3 Hx. apply sel_v_Ok in Hx as [(e2 & He2 & <-) <-].
  mbind Hbody t s4 Hmerge. destruct t.
  mbind Hbody cgrp' s5 Hc'. apply sel_cgrp_Ok in Hc' as [Hc' <-].
  apply set_sel_cgrp_Ok in Hbody as (e & g0 & He & Hu & ->).
  mbind H t s6 Hrel. destruct t. apply ret_Ok in H as [_ <-].
  exists c, st1, st2, e2. split; [done|]. split; [exact Hres|].
  split; [exact Hrun|].
  split; [done|]. intros Hty.
  destruct (decide (vtype (v e2) = GROUP_VALUE)); [|done].
  mbind Hmerge cg s7 Hcg. apply sel_vgroup_Ok in Hcg as [Hcg <-].
  mbind Hmerge sg s8 Hsg. apply sel_vgroup_Ok in Hsg as [Hsg <-].
  apply set_sel_vgroup_Ok in Hmerge as (l & g1 & Hl & Hh & ->).
  exists sg, cg. split; [done|]. split; [done|]. intros Hptr.
  eexists. split; [|split; [|split]].
  - rewrite (release_value_group _ _ _ _ Hrel).
    + unfold value_group, sel_ptr in *; simpl in *.
      destruct (decide (sel = sel)); [|done].
      rewrite lookup_insert_eq. simpl.
      rewrite He in Hl. simpl in Hl. rewrite Hl. simpl.
      rewrite lookup_insert_eq. reflexivity.
    + unfold sel_ptr in *; simpl in *. rewrite lookup_insert_eq. simpl.
      rewrite He in Hptr, Hl. simpl in *.
      destruct (decide (sel = c)) as [->|Hsc]; [by rewrite He in Hptr|].
      by rewrite lookup_insert_ne.
  - reflexivity.
  - unfold gmx_ana_index_merge. by rewrite atoms_group_of.
  - apply atomset_merge.
Qed.

(** ** What evaluation never changes *)

(** The kind of payload an element carries, with the parts of it that
    evaluation only reads. *)
Inductive payload_kind :=
  K_cgrp
| K_expr (m : option gmx_ana_selmethod_t) (c : option gmx_ana_poscalc_t)
| K_boolt (b : e_boolean_t)
| K_arith (a : e_arithmetic_t)
| K_param (present : bool).

Definition payload (x : selelem_u) : payload_kind :=
  match x with
  | U_cgrp _ => K_cgrp
  | U_expr x => K_expr (method x) (pc x)
  | U_boolt b => K_boolt b
  | U_arith a => K_arith a
  | U_param p => K_param (if p is Some _ then true else false)
  end.

(** The flags other than the two lifecycle flags. *)
Definition static_flags (e : t_selelem) : Z :=
  Z.land (flags e) (Z.lnot (Z.lor SEL_INITFRAME SEL_EVALFRAME)).

(** The shape of an element: its kind, its place in the tree, its
    evaluation function, whether it takes its values from the pool, its
    value type, its flags apart from the lifecycle flags, and the kind of
    its payload. *)
Definition shape (e : t_selelem) :=
  (type e, child e, next e, evaluate e, mempool e, vtype (v e),
   static_flags e, payload (u e)).

Lemma lifecycle_bits n :
  0 <= n ->
  Z.testbit (Z.lor SEL_INITFRAME SEL_EVALFRAME) n
  = (n =? 10) || (n =? 11).
Proof.
  intros Hn. rewrite Z.lor_spec.
  change SEL_INITFRAME with (2 ^ 10). change SEL_EVALFRAME with (2 ^ 11).
  rewrite !Z.pow2_bits_eqb by lia.
  by rewrite (Z.eqb_sym 10 n), (Z.eqb_sym 11 n).
Qed.

Lemma land_mask_eq f f' :
  (forall n, 0 <= n -> n <> 10 -> n <> 11 ->
             Z.testbit f' n = Z.testbit f n) ->
  Z.land f' (Z.lnot (Z.lor SEL_INITFRAME SEL_EVALFRAME))
  = Z.land f (Z.lnot (Z.lor SEL_INITFRAME SEL_EVALFRAME)).
Proof.
  intros H. apply Z.bits_inj'. intros n Hn.
  rewrite !Z.land_spec, Z.lnot_spec, lifecycle_bits by done.
  destruct (Z.eqb_spec n 10) as [->|H10]; [by rewrite !andb_false_r|].
  destruct (Z.eqb_spec n 11) as [->|H11]; [by rewrite !andb_false_r|].
  by rewrite H.
Qed.

Lemma static_flags_evalframe e :
  static_flags (set_flags e (Z.lor (flags e) SEL_EVALFRAME)) = static_flags e.
Proof.
  apply land_mask_eq. intros n Hn H10 H11. simpl. rewrite Z.lor_spec.
  change SEL_EVALFRAME with (2 ^ 11). rewrite Z.pow2_bits_false by lia.
  apply orb_false_r.
Qed.

Lemma static_flags_declare e :
  static_flags (set_flags e (Z.lor (flags e) SEL_INITFRAME)) = static_flags e.
Proof.
  apply land_mask_eq. intros n Hn H10 H11. simpl. rewrite Z.lor_spec.
  change SEL_INITFRAME with (2 ^ 10). rewrite Z.pow2_bits_false by lia.
  apply orb_false_r.
Qed.

Lemma static_flags_initframe e :
  static_flags (set_flags e (Z.land (flags e) (Z.lnot SEL_INITFRAME)))
  = static_flags e.
Proof.
  apply land_mask_eq. intros n Hn H10 H11. simpl.
  rewrite Z.land_spec, Z.lnot_spec by done.
  change SEL_INITFRAME with (2 ^ 10). rewrite Z.pow2_bits_false by lia.
  apply andb_true_r.
Qed.

Lemma static_flags_reset e :
  static_flags (set_flags e (Z.land (flags e)
                  (Z.lnot (Z.lor SEL_INITFRAME SEL_EVALFRAME))))
  = static_flags e.
Proof.
  apply land_mask_eq. intros n Hn H10 H11. simpl.
  rewrite Z.land_spec, Z.lnot_spec, lifecycle_bits by done.
  destruct (Z.eqb_spec n 10); [done|]. destruct (Z.eqb_spec n 11); [done|].
  apply andb_true_r.
Qed.

(** Every step of the evaluator keeps the shape of every element. *)
Lemma shape_nr e n : same shape e (set_v e (set_nr (v e) n)).
Proof. reflexivity. Qed.

Lemma shape_store e p na : same shape e (set_v e (set_store (v e) p na)).
Proof. reflexivity. Qed.

Lemma shape_evalframe e :
  same shape e (set_flags e (Z.lor (flags e) SEL_EVALFRAME)).
Proof. unfold same, shape. by rewrite static_flags_evalframe. Qed.

Lemma shape_initframe e :
  same shape e (set_flags e (Z.land (flags e) (Z.lnot SEL_INITFRAME))).
Proof. unfold same, shape. by rewrite static_flags_initframe. Qed.

Lemma shape_reset e :
  same shape e (set_flags e (Z.land (flags e)
                  (Z.lnot (Z.lor SEL_INITFRAME SEL_EVALFRAME)))).
Proof. unfold same, shape. by rewrite static_flags_reset. Qed.

Lemma shape_declare e :
  same shape e (set_flags e (Z.lor (flags e) SEL_INITFRAME)).
Proof. unfold same, shape. by rewrite static_flags_declare. Qed.

Lemma shape_cgrp e g0 g :
  u e = U_cgrp g0 -> same shape e (set_u e (U_cgrp g)).
Proof. unfold same, shape. simpl. by intros ->. Qed.

Lemma shape_expr e x md p :
  u e = U_expr x ->
  same shape e (set_u e (U_expr {| method := method x; mdata := md;
                                   pc := pc x; pos := p |})).
Proof. unfold same, shape. simpl. by intros ->. Qed.

Lemma shape_param e p0 p :
  u e = U_param (Some p0) -> same shape e (set_u e (U_param (Some p))).
Proof. unfold same, shape. simpl. by intros ->. Qed.

Lemma shape_sel_evaluate data fuel sel g :
  keeps (same shape) (sel_evaluate data fuel sel g).
Proof.
  exact (keeps_sel_evaluate (same shape) (same_refl _) (same_trans _)
           shape_nr shape_store shape_evalframe shape_initframe shape_cgrp
           shape_expr shape_param data fuel sel g).
Qed.

(** Evaluating any number of frames creates and deletes no selection
    element and leaves the shape of every element as it was: the kind, the
    child and sibling links, the evaluation function, the pool flag, the
    value type, the flags other than [SEL_INITFRAME] and [SEL_EVALFRAME],
    and the method and position calculation of an expression. *)
Theorem evaluation_keeps_tree_shape (fuel : nat)
    (sc : gmx_ana_selcollection_t)
    (frames : list (t_trxframe * option t_pbc)) (st st' : evalstate) :
  evaluate_frames fuel sc frames st = Ok tt st' ->
  forall x, shape <$> elems st' !! x = shape <$> elems st !! x.
Proof.
  intros H x. apply related_same.
  exact (keeps_evaluate_frames (same shape) (same_refl _) (same_trans _)
           shape_nr shape_store shape_evalframe shape_initframe shape_cgrp
           shape_expr shape_param shape_reset shape_declare fuel sc frames
           _ _ _ H).
Qed.

(** ** Modifiers *)

(** A modifier whose child is not position-valued never evaluates: once
    its parameters are evaluated and its frame initialisation is done, it
    stops with "not implemented". *)
Theorem modifier_requires_position_child (data : gmx_sel_evaluate_t)
    (fuel : nat) (sel c : selid) (g : option gmx_ana_index_t)
    (e ec : t_selelem) (st : evalstate) :
  elems st !! sel = Some e -> evaluate e = Some EVAL_modifier ->
  child e = Some c -> elems st !! c = Some ec ->
  vtype (v ec) <> POS_VALUE ->
  (forall st', sel_evaluate data (S fuel) sel g st <> Ok tt st') /\
  (forall st1 st2,
     _gmx_sel_evaluate_method_params (sel_evaluate data fuel) fuel sel g st
       = Ok tt st1 ->
     method_init_frame data sel st1 = Ok tt st2 ->
     sel_evaluate data (S fuel) sel g st
     = Throw (NotImplementedError
                "Non-position valued modifiers not implemented")).
Proof.
  intros He Hev Hch Hec Hty.
  assert (Hstep : forall st1 st2,
    _gmx_sel_evaluate_method_params (sel_evaluate data fuel) fuel sel g st
      = Ok tt st1 ->
    method_init_frame data sel st1 = Ok tt st2 ->
    (do e <- get_elem sel;
     match child e with
     | None => throw (AssertionFailed
                 "Modifier element with a value must have a child")
     | Some c =>
         do cv <- sel_v c;
         if decide (vtype cv = POS_VALUE) then
           do x <- sel_expr sel;
           do m <- deref (method x);
           do cb <- deref (pupdate m);
           do p <- sel_vpos c;
           exec emit (CallPUpdate sel);
           let '(out, md) := cb (top data) (fr data) (pbc data) p (mdata x) in
           exec write_out sel out;
           set_sel_mdata sel md
         else throw (NotImplementedError
                "Non-position valued modifiers not implemented")
     end) st2
    = Throw (NotImplementedError
               "Non-position valued modifiers not implemented")).
  { intros st1 st2 H1 H2.
    assert (Hsh : forall x, shape <$> elems st2 !! x = shape <$> elems st !! x).
    { intros x. apply related_same.
      eapply (related_trans (same shape) (same_trans shape)).
      - exact (keeps_method_params (same shape) (same_refl _) (same_trans _)
                 shape_evalframe _ (shape_sel_evaluate data fuel) fuel sel g
                 _ _ _ H1).
      - exact (keeps_method_init_frame (same shape) (same_refl _)
                 (same_trans _) shape_initframe shape_expr data sel
                 _ _ _ H2). }
    pose proof (Hsh sel) as Hs. rewrite He in Hs.
    destruct (elems st2 !! sel) as [e2|] eqn:He2; [|done].
    pose proof (Hsh c) as Hsc. rewrite Hec in Hsc.
    destruct (elems st2 !! c) as [ec2|] eqn:Hec2; [|done].
    simpl in Hs, Hsc. apply (inj Some) in Hs, Hsc.
    unfold shape in Hs, Hsc. simplify_eq.
    erewrite bind_eq by (apply get_elem_Ok; eauto).
    replace (child e2) with (Some c) by congruence.
    erewrite bind_eq by (apply sel_v_Ok; eauto).
    destruct (decide (vtype (v ec2) = POS_VALUE)); [congruence|done]. }
  assert (Hrun : sel_evaluate data (S fuel) sel g st
                 = _gmx_sel_evaluate_modifier (sel_evaluate data fuel) data
                     fuel sel g st).
  { simpl. erewrite bind_eq by (apply get_elem_Ok; eauto). by rewrite Hev. }
  split.
  - intros st' H. rewrite Hrun in H. unfold _gmx_sel_evaluate_modifier in H.
    mbind H t st1 H1. destruct t. mbind H t st2 H2. destruct t.
    by rewrite (Hstep st1 st2 H1 H2) in H.
  - intros st1 st2 H1 H2. rewrite Hrun. unfold _gmx_sel_evaluate_modifier.
    rewrite (bind_eq _ _ _ _ _ H1), (bind_eq _ _ _ _ _ H2).
    exact (Hstep st1 st2 H1 H2).
Qed.

(** ** Method parameters are evaluated once per frame *)

(** Within a frame an element keeps its shape and, once set, its
    [SEL_EVALFRAME] flag. *)
Definition frame_order : relation t_selelem :=
  fun e e' =>
    shape e' = shape e /\
    (has_flag (flags e) SEL_EVALFRAME = true ->
     has_flag (flags e') SEL_EVALFRAME = true).

Lemma frame_order_refl : Reflexive frame_order.
Proof. by intros e. Qed.

Lemma frame_order_trans : Transitive frame_order.
Proof.
  intros e1 e2 e3 [Hs1 Hf1] [Hs2 Hf2]. split; [congruence|auto].
Qed.

Lemma has_evalframe f : has_flag f SEL_EVALFRAME = Z.testbit f 11.
Proof. apply (has_flag_pow2 f 11). lia. Qed.

Lemma has_atomval f : has_flag f SEL_ATOMVAL = Z.testbit f 2.
Proof. apply (has_flag_pow2 f 2). lia. Qed.

Lemma frame_order_nr e n : frame_order e (set_v e (set_nr (v e) n)).
Proof. by split. Qed.

Lemma frame_order_store e p na :
  frame_order e (set_v e (set_store (v e) p na)).
Proof. by split. Qed.

Lemma frame_order_evalframe e :
  frame_order e (set_flags e (Z.lor (flags e) SEL_EVALFRAME)).
Proof.
  split; [apply shape_evalframe|]. intros _. simpl.
  rewrite has_evalframe, Z.lor_spec.
  change (Z.testbit SEL_EVALFRAME 11) with true. apply orb_true_r.
Qed.

Lemma frame_order_initframe e :
  frame_order e (set_flags e (Z.land (flags e) (Z.lnot SEL_INITFRAME))).
Proof.
  split; [apply shape_initframe|]. simpl.
  rewrite !has_evalframe, Z.land_spec, Z.lnot_spec by lia.
  change (Z.testbit SEL_INITFRAME 11) with false. simpl.
  by rewrite andb_true_r.
Qed.

Lemma frame_order_cgrp e g0 g :
  u e = U_cgrp g0 -> frame_order e (set_u e (U_cgrp g)).
Proof. intros H. split; [by eapply shape_cgrp|done]. Qed.

Lemma frame_order_expr e x md p :
  u e = U_expr x ->
  frame_order e (set_u e (U_expr {| method := method x; mdata := md;
                                    pc := pc x; pos := p |})).
Proof. intros H. split; [by eapply shape_expr|done]. Qed.

Lemma frame_order_param e p0 p :
  u e = U_param (Some p0) -> frame_order e (set_u e (U_param (Some p))).
Proof. intros H. split; [by eapply shape_param|done]. Qed.

Lemma frame_order_sel_evaluate data fuel sel g :
  keeps frame_order (sel_evaluate data fuel sel g).
Proof.
  exact (keeps_sel_evaluate frame_order frame_order_refl frame_order_trans
           frame_order_nr frame_order_store frame_order_evalframe
           frame_order_initframe frame_order_cgrp frame_order_expr
           frame_order_param data fuel sel g).
Qed.

(** The sibling list that starts at [first]. *)
Inductive siblings (st : evalstate) : option selid -> list selid -> Prop :=
| siblings_nil : siblings st None []
| siblings_cons c e cs :
    elems st !! c = Some e -> siblings st (next e) cs ->
    siblings st (Some c) (c :: cs).

(** A parameter that the evaluation of its method skips: it has no
    evaluation function or is marked as evaluated for this frame. *)
Definition settled (st : evalstate) (c : selid) : Prop :=
  exists e, elems st !! c = Some e /\
            (evaluate e = None \/ has_flag (flags e) SEL_EVALFRAME = true).

(** A parameter whose value does not depend on the atoms evaluated. *)
Definition frame_valued (st : evalstate) (c : selid) : Prop :=
  exists e, elems st !! c = Some e /\
            (evaluate e = None \/ has_flag (flags e) SEL_ATOMVAL = false).

Lemma shape_atomval e e' :
  shape e' = shape e ->
  has_flag (flags e') SEL_ATOMVAL = has_flag (flags e) SEL_ATOMVAL.
Proof.
  unfold shape. intros H. injection H as _ _ _ _ _ _ Hf _.
  apply (f_equal (fun f => Z.testbit f 2)) in Hf.
  unfold static_flags in Hf.
  rewrite !Z.land_spec, !Z.lnot_spec, !lifecycle_bits in Hf by lia.
  simpl in Hf. rewrite !andb_true_r in Hf. by rewrite !has_atomval.
Qed.

Lemma siblings_related st st' first cs :
  related frame_order st st' -> siblings st first cs ->
  siblings st' first cs.
Proof.
  intros Hr. induction 1 as [|c e cs He _ IH]; [constructor|].
  destruct (related_lookup _ _ _ _ _ Hr He) as (e' & He' & Hs & _).
  econstructor; [done|]. unfold shape in Hs.
  replace (next e') with (next e) by congruence. done.
Qed.

Lemma settled_related st st' c :
  related frame_order st st' -> settled st c -> settled st' c.
Proof.
  intros Hr (e & He & Hc).
  destruct (related_lookup _ _ _ _ _ Hr He) as (e' & He' & Hs & Hf).
  exists e'. split; [done|]. destruct Hc as [Hc|Hc]; [left|right; auto].
  unfold shape in Hs. congruence.
Qed.

Lemma frame_valued_related st st' c :
  related frame_order st st' -> frame_valued st c -> frame_valued st' c.
Proof.
  intros Hr (e & He & Hc).
  destruct (related_lookup _ _ _ _ _ Hr He) as (e' & He' & Hs & Hf).
  exists e'. split; [done|]. destruct Hc as [Hc|Hc]; [left|right].
  - unfold shape in Hs. congruence.
  - by rewrite (shape_atomval _ _ Hs).
Qed.

(** Settled parameters are skipped, whatever their evaluation would do. *)
Lemma method_params_settled ev g st first cs :
  siblings st first cs -> Forall (settled st) cs ->
  forall fuel, (length cs <= fuel)%nat ->
    method_params_from ev fuel first g st = Ok tt st.
Proof.
  induction 1 as [|c e cs He _ IH]; intros Hall fuel Hfuel.
  - by destruct fuel.
  - destruct fuel as [|fuel]; simpl in Hfuel; [lia|]. simpl.
    inversion Hall as [|? ? (e' & He' & Hc) Hrest]; subst.
    assert (e' = e) as -> by congruence.
    erewrite bind_eq by (apply get_elem_Ok; eauto).
    assert (Hskip :
      (if evaluate e is Some _ then
         if has_flag (flags e) SEL_EVALFRAME then ret tt
         else if has_flag (flags e) SEL_ATOMVAL then ev c g
              else (exec set_sel_flags c (Z.lor (flags e) SEL_EVALFRAME);
                    ev c None)
       else ret tt) st = Ok tt st).
    { destruct Hc as [->| ->]; [done|]. by destruct (evaluate e). }
    erewrite bind_eq by exact Hskip.
    erewrite bind_eq by (apply get_elem_Ok; eauto).
    apply IH; [done|lia].
Qed.

(** A successful pass over the parameters settles those that are
    frame-valued; the others are evaluated and stay as they are. *)
Lemma method_params_settles ev g :
  (forall c h, keeps frame_order (ev c h)) ->
  forall fuel first cs st st',
    siblings st first cs ->
    method_params_from ev fuel first g st = Ok tt st' ->
    related frame_order st st' /\
    Forall (fun c => frame_valued st c -> settled st' c) cs.
Proof.
  intros Hev. induction fuel as [|fuel IH]; intros first cs st st' Hsib H.
  - destruct Hsib; [|discriminate]. apply ret_Ok in H as [_ <-].
    split; [apply (related_refl _ frame_order_refl)|constructor].
  - destruct Hsib as [|c e cs He Hsib].
    { apply ret_Ok in H as [_ <-].
      split; [apply (related_refl _ frame_order_refl)|constructor]. }
    simpl in H. mbind H ce s He0. apply get_elem_Ok in He0 as [He0 <-].
    assert (ce = e) as -> by congruence. clear He0.
    mbind H t s1 H1. destruct t.
    assert (Hs1 : related frame_order st s1 /\
                  (frame_valued st c -> settled s1 c)).
    { destruct (evaluate e) as [f|] eqn:Hevf.
      - destruct (has_flag (flags e) SEL_EVALFRAME) eqn:Hef.
        + apply ret_Ok in H1 as [_ <-].
          split; [apply (related_refl _ frame_order_refl)|].
          intros _. exists e. auto.
        + destruct (has_flag (flags e) SEL_ATOMVAL) eqn:Hav.
          * split; [by eapply Hev|].
            intros (e' & He' & [Hn|Hf]); simplify_eq; congruence.
          * mbind H1 t s2 Hm. destruct t.
            pose proof Hm as Hm'.
            apply set_sel_flags_Ok in Hm' as (e0 & He0 & ->).
            assert (e0 = e) as -> by congruence. clear He0.
            assert (Hr2 : related frame_order
                      (with_elem st c
                         (set_flags e (Z.lor (flags e) SEL_EVALFRAME))) s1)
              by (by eapply Hev).
            split.
            -- eapply (related_trans _ frame_order_trans); [|exact Hr2].
               apply (related_put _ frame_order_refl c e); [done|].
               apply frame_order_evalframe.
            -- intros _. apply (settled_related _ _ _ Hr2).
               eexists. split; [apply lookup_insert_eq|]. right.
               simpl. rewrite has_evalframe, Z.lor_spec.
               change (Z.testbit SEL_EVALFRAME 11) with true.
               apply orb_true_r.
      - apply ret_Ok in H1 as [_ <-].
        split; [apply (related_refl _ frame_order_refl)|].
        intros _. exists e. auto. }
    destruct Hs1 as [Hr1 Hset1].
    mbind H ce' s2 He2. apply get_elem_Ok in He2 as [He2 <-].
    destruct (related_lookup _ _ _ _ _ Hr1 He) as (e1 & He1 & Hsh & _).
    assert (e1 = ce') as -> by congruence. clear He1.
    assert (Hn : next ce' = next e) by (unfold shape in Hsh; congruence).
    rewrite Hn in H.
    apply IH with (cs := cs) in H as [Hr2 Hall2];
      [|by eapply siblings_related].
    split; [by eapply (related_trans _ frame_order_trans)|].
    constructor.
    + intros Hfv. eapply settled_related; [exact Hr2|]. by apply Hset1.
    + eapply Forall_impl; [exact Hall2|]. intros x Hx Hfv. apply Hx.
      by eapply frame_valued_related.
Qed.

(** The parameters of a method are evaluated once per frame unless their
    value depends on the atoms: after the parameters have been evaluated
    in a frame, every parameter that is frame-valued (it has no evaluation
    function, or no [SEL_ATOMVAL]) is settled (it has no evaluation
    function, or is marked with [SEL_EVALFRAME]). When all the parameters
    are frame-valued, evaluating them again in the same frame, for
    whatever group and whatever their evaluation would do, evaluates none
    of them and changes nothing. *)
Theorem method_params_evaluated_once_per_frame
    (data : gmx_sel_evaluate_t) (fuel fuel' : nat) (sel : selid)
    (g g' : option gmx_ana_index_t)
    (ev' : selid -> option gmx_ana_index_t -> M unit)
    (e : t_selelem) (cs : list selid) (st st1 : evalstate) :
  elems st !! sel = Some e ->
  siblings st (child e) cs ->
  _gmx_sel_evaluate_method_params (sel_evaluate data fuel) fuel sel g st
    = Ok tt st1 ->
  Forall (fun c => frame_valued st c -> settled st1 c) cs /\
  (Forall (frame_valued st) cs -> (length cs <= fuel')%nat ->
   _gmx_sel_evaluate_method_params ev' fuel' sel g' st1 = Ok tt st1).
Proof.
  intros He Hsib H. unfold _gmx_sel_evaluate_method_params in H.
  mbind H e0 s He0. apply get_elem_Ok in He0 as [He0 <-].
  assert (e0 = e) as -> by congruence. clear He0.
  apply (method_params_settles _ _ (frame_order_sel_evaluate data fuel)
           _ _ _ _ _ Hsib) in H as [Hr Hset].
  split; [done|]. intros Hall Hfuel. unfold _gmx_sel_evaluate_method_params.
  destruct (related_lookup _ _ _ _ _ Hr He) as (e1 & He1 & Hsh & _).
  erewrite bind_eq by (apply get_elem_Ok; eauto).
  replace (child e1) with (child e) by (unfold shape in Hsh; congruence).
  assert (Hs : Forall (settled st1) cs).
  { rewrite Forall_forall in Hset, Hall |- *. intros c Hc.
    by apply Hset, Hall. }
  apply (method_params_settled _ _ _ _ cs); [|done|done].
  by eapply siblings_related.
Qed.

(** ** References to subexpressions *)

(** What the closing block of both reference evaluators leaves in the
    parameter. *)
Lemma store_param_nr_Ok sel st st' :
  store_param_nr sel st = Ok tt st' ->
  heap st' = heap st /\ calls st' = calls st /\
  (forall x, x <> sel -> elems st' !! x = elems st !! x) /\
  exists e e', elems st !! sel = Some e /\ elems st' !! sel = Some e' /\
    v e' = v e /\
    forall p, u e' = U_param (Some p) ->
      val_nr p = nr (v e') /\ forall n, nvalptr p = Some n -> n = nr (v e').
Proof.
  unfold store_param_nr. intros H.
  mbind H e s He. apply get_elem_Ok in He as [He <-].
  destruct (u e) as [| | | |[p0|]] eqn:Hu; try discriminate.
  - apply put_elem_Ok in H as ->. repeat split; try done.
    + intros x Hx. simpl. by rewrite lookup_insert_ne.
    + eexists e, _. split; [done|]. split; [apply lookup_insert_eq|].
      split; [done|]. simpl. intros p Hp. simplify_eq. simpl.
      split; [done|]. intros n Hn. destruct (nvalptr p0); by simplify_eq.
  - apply ret_Ok in H as [_ <-]. repeat split; try done.
    exists e, e. repeat split; try done; rewrite Hu in *; done.
Qed.

Lemma store_param_nr_value_group sel st st' x :
  store_param_nr sel st = Ok tt st' ->
  value_group st' x = value_group st x.
Proof.
  intros H. apply store_param_nr_Ok in H
    as (Hh & _ & Hoth & e & e' & He & He' & Hv & _).
  apply value_group_frame; [|intros l _; by rewrite Hh].
  unfold sel_ptr. destruct (decide (x = sel)) as [->|Hne].
  - rewrite He, He'. simpl. by rewrite Hv.
  - by rewrite Hoth.
Qed.

(** A group-valued reference evaluated over a group [g] evaluates the
    subexpression over [g] and ends with the atoms of the subexpression's
    value group that are in [g] (the subexpression being the child the
    reference has once that evaluation is done). *)
Theorem subexprref_group_value_is_intersection
    (ev : selid -> option gmx_ana_index_t -> M unit)
    (sel : selid) (g : gmx_ana_index_t) (st st' : evalstate) :
  _gmx_sel_evaluate_subexprref ev sel (Some g) st = Ok tt st' ->
  exists c st1 e1 expr,
    sel_child sel st = Ok c st /\
    ev c (Some g) st = Ok tt st1 /\
    elems st1 !! sel = Some e1 /\ child e1 = Some expr /\
    (vtype (v e1) = GROUP_VALUE ->
     exists eg vg,
       value_group st1 expr = Some eg /\
       value_group st' sel = Some vg /\
       atoms vg = filter (λ x, x ∈ atoms g) (atoms eg) /\
       atomset vg = atomset eg ∩ atomset g).
Proof.
  unfold _gmx_sel_evaluate_subexprref. intros H.
  mbind H t st1 H1. destruct t.
  mbind H1 c s0 Hch. pose proof Hch as Hch'.
  apply sel_child_Ok in Hch' as [_ <-].
  mbind H expr s1 Hch2. apply sel_child_Ok in Hch2 as [(e1 & He1 & Hc1) <-].
  mbind H x s2 Hx. apply sel_v_Ok in Hx as [(e1' & He1' & <-) <-].
  assert (e1' = e1) as -> by congruence. clear He1'.
  mbind H t s3 Hval. destruct t.
  exists c, st1, e1, expr. split; [done|]. split; [done|]. split; [done|].
  split; [done|]. intros Hty. rewrite Hty in Hval.
  mbind Hval vg0 s4 Hvg. apply sel_vgroup_Ok in Hvg as [Hvg <-].
  mbind Hval eg s5 Heg. apply sel_vgroup_Ok in Heg as [Heg <-].
  apply set_sel_vgroup_Ok in Hval as (l & g0 & Hl & Hh & ->).
  eexists eg, _. split; [done|]. split.
  { rewrite (store_param_nr_value_group _ _ _ _ H).
    by eapply value_group_with_store_eq. }
  split.
  - unfold gmx_ana_index_intersection. by rewrite atoms_group_of.
  - apply atomset_intersection.
Qed.

(** The copy loop of a reference evaluated without a group. *)
Lemma vec_memcpy_spec sel expr (orig : Z -> option scalar) :
  forall n i st,
    has_vec st sel ->
    (forall j, i <= j < i + Z.of_nat n ->
       value_cell st expr j = orig j /\ is_Some (orig j)) ->
    exists st',
      vec_memcpy n sel expr i st = Ok tt st' /\
      elems st' = elems st /\ calls st' = calls st /\
      has_vec st' sel /\
      (forall j, i <= j < i + Z.of_nat n -> value_cell st' sel j = orig j) /\
      (forall j, j < i -> value_cell st' sel j = value_cell st sel j).
Proof.
  induction n as [|n IH]; intros i st Hvec Hsrc.
  - exists st. repeat split; try done. intros; lia.
  - simpl. destruct (Hsrc i) as [Hi [y Hy]]; [lia|].
    erewrite bind_eq by (apply vec_get_Ok; split; [|done]; rewrite Hi; exact Hy).
    destruct (vec_set_has_vec sel i y st Hvec) as (s1 & Hset & Hvec1).
    erewrite bind_eq by exact Hset.
    destruct (IH (i + 1) s1 Hvec1) as (st' & Hrun & Hel & Hcl & Hv' & Hnew
                                        & Hold).
    { intros j Hj. destruct (Hsrc j) as [Hj1 Hj2]; [lia|]. split; [|done].
      rewrite <- Hj1. apply (vec_set_value_cell_other _ _ _ _ _ _ _ Hset).
      lia. }
    apply vec_set_elems in Hset as Hset'. destruct Hset' as [Hel1 Hcl1].
    exists st'. split; [done|]. split; [congruence|]. split; [congruence|].
    split; [done|]. split.
    + intros j Hj. destruct (decide (j = i)) as [->|Hne].
      * rewrite Hold by lia. rewrite (vec_set_value_cell_same _ _ _ _ _ Hset).
        congruence.
      * apply Hnew. lia.
    + intros j Hj. rewrite Hold by lia.
      apply (vec_set_value_cell_other _ _ _ _ _ _ _ Hset). lia.
Qed.

(** An array-valued reference evaluated without a group ([g] is NULL)
    does not evaluate the subexpression: it takes over its value count and
    copies that many values, and records the count in its parameter. This
    holds whatever the evaluation of the subexpression would do. *)
Theorem subexprref_null_group_copies_values
    (ev : selid -> option gmx_ana_index_t -> M unit)
    (sel expr : selid) (e ee : t_selelem) (p : option gmx_ana_selparam_t)
    (st : evalstate) :
  elems st !! sel = Some e -> child e = Some expr ->
  elems st !! expr = Some ee ->
  vtype (v e) = INT_VALUE \/ vtype (v e) = REAL_VALUE \/
    vtype (v e) = STR_VALUE ->
  u e = U_param p ->
  has_vec st sel ->
  (forall j, 0 <= j < nr (v ee) -> is_Some (value_cell st expr j)) ->
  exists st',
    _gmx_sel_evaluate_subexprref ev sel None st = Ok tt st' /\
    calls st' = calls st /\
    value_nr st' sel = Some (nr (v ee)) /\
    (forall j, 0 <= j < nr (v ee) ->
       value_cell st' sel j = value_cell st expr j) /\
    (forall p0 e', p = Some p0 -> elems st' !! sel = Some e' ->
       u e' = U_param (Some {| val_nr := nr (v ee);
                               nvalptr := if nvalptr p0 is Some _
                                          then Some (nr (v ee)) else None |})).
Proof.
  intros He Hch Hee Hty Hu Hvec Hcells.
  unfold _gmx_sel_evaluate_subexprref.
  rewrite bind_ret.
  erewrite bind_eq by (apply sel_child_Ok; eauto).
  erewrite bind_eq by (apply sel_v_Ok; eauto).
  set (st1 := with_elem st sel (set_v e (set_nr (v e) (nr (v ee))))).
  assert (Hnr : set_sel_nr sel (nr (v ee)) st = Ok tt st1)
    by (apply set_sel_nr_Ok; eauto).
  assert (Hptr : forall x, sel_ptr st1 x = sel_ptr st x).
  { intros x. unfold sel_ptr, st1, with_elem; simpl.
    destruct (decide (sel = x)) as [<-|Hne].
    - by rewrite lookup_insert_eq, He.
    - by rewrite lookup_insert_ne. }
  assert (Hcell : forall x j, value_cell st1 x j = value_cell st x j).
  { intros x j. apply value_cell_frame; [apply Hptr|done]. }
  assert (Hvec1 : has_vec st1 sel).
  { destruct Hvec as (l & cells & Hl & Hh). exists l, cells.
    by rewrite Hptr. }
  destruct (vec_memcpy_spec sel expr (value_cell st expr)
              (Z.to_nat (nr (v ee))) 0 st1 Hvec1)
    as (s2 & Hcopy & Hel2 & Hcl2 & Hvec2 & Hnew & _).
  { intros j Hj. split; [apply Hcell|]. apply Hcells. lia. }
  assert (Hbody :
    (do xe <- sel_v expr;
     exec set_sel_nr sel (nr xe);
     vec_memcpy (Z.to_nat (nr xe)) sel expr 0) st = Ok tt s2).
  { erewrite bind_eq by (apply sel_v_Ok; eauto).
    erewrite bind_eq by exact Hnr. exact Hcopy. }
  assert (Hval :
    match vtype (v e) with
    | INT_VALUE | REAL_VALUE | STR_VALUE =>
        do xe <- sel_v expr;
        exec set_sel_nr sel (nr xe);
        vec_memcpy (Z.to_nat (nr xe)) sel expr 0
    | POS_VALUE => gmx_ana_pos_copy sel expr
    | GROUP_VALUE =>
        do vg <- sel_vgroup sel;
        do eg <- sel_vgroup expr;
        set_sel_vgroup sel (gmx_ana_index_copy eg)
    | NO_VALUE =>
        throw (InternalError "Invalid subexpression reference type")
    end st = Ok tt s2).
  { destruct Hty as [->|[->| ->]]; exact Hbody. }
  erewrite bind_eq by exact Hval.
  assert (He2 : elems s2 !! sel = Some (set_v e (set_nr (v e) (nr (v ee))))).
  { rewrite Hel2. unfold st1, with_elem; simpl. apply lookup_insert_eq. }
  assert (Hfin : exists st',
    store_param_nr sel s2 = Ok tt st' /\
    heap st' = heap s2 /\ calls st' = calls s2 /\
    (forall x, sel_ptr st' x = sel_ptr s2 x) /\
    value_nr st' sel = Some (nr (v ee)) /\
    (forall p0 e', p = Some p0 -> elems st' !! sel = Some e' ->
       u e' = U_param (Some {| val_nr := nr (v ee);
                               nvalptr := if nvalptr p0 is Some _
                                          then Some (nr (v ee)) else None |}))).
  { unfold store_param_nr.
    erewrite bind_eq by (apply get_elem_Ok; eauto). simpl. rewrite Hu.
    destruct p as [p0|].
    - eexists. split; [reflexivity|]. split; [done|]. split; [done|]. split.
      { intros x. unfold sel_ptr; simpl.
        destruct (decide (sel = x)) as [<-|Hne].
        - by rewrite lookup_insert_eq, He2.
        - by rewrite lookup_insert_ne. }
      split.
      { unfold value_nr; simpl. by rewrite lookup_insert_eq. }
      intros p1 e' Hp He'. simpl in He'. rewrite lookup_insert_eq in He'.
      simplify_eq. simpl. by destruct (nvalptr p1).
    - exists s2. split; [done|]. split; [done|]. split; [done|].
      split; [done|]. split; [|done].
      unfold value_nr. by rewrite He2. }
  destruct Hfin as (st' & Hstore & Hh' & Hc' & Hp' & Hnr' & Hpar).
  exists st'. split; [exact Hstore|]. split.
  { rewrite Hc', Hcl2. done. }
  split; [done|]. split; [|done].
  intros j Hj. rewrite <- (Hnew j) by lia.
  apply value_cell_frame; [apply Hp'|]. intros l _. by rewrite Hh'.
Qed.

(** Both reference evaluators close by recording the number of values in
    the parameter the reference feeds, when it has one: [val.nr] and, when
    set, the target of [nvalptr] equal the reference's value count. *)
Theorem subexprref_records_value_count
    (ev : selid -> option gmx_ana_index_t -> M unit)
    (sel : selid) (g : option gmx_ana_index_t) (st st' : evalstate) :
  _gmx_sel_evaluate_subexprref ev sel g st = Ok tt st' \/
  _gmx_sel_evaluate_subexprref_simple ev sel g st = Ok tt st' ->
  exists e', elems st' !! sel = Some e' /\
    forall p, u e' = U_param (Some p) ->
      val_nr p = nr (v e') /\ forall n, nvalptr p = Some n -> n = nr (v e').
Proof.
  intros [H|H].
  - unfold _gmx_sel_evaluate_subexprref in H.
    mbind H t s1 H1. mbind H expr s2 H2. mbind H x s3 H3. mbind H t' s4 H4.
    apply store_param_nr_Ok in H as (_ & _ & _ & e & e' & _ & He' & _ & Hp).
    eauto.
  - unfold _gmx_sel_evaluate_subexprref_simple in H.
    mbind H t s1 H1. mbind H c s2 H2. mbind H cv s3 H3. mbind H t' s4 H4.
    apply store_param_nr_Ok in H as (_ & _ & _ & e & e' & _ & He' & _ & Hp).
    eauto.
Qed.

(** ** Arithmetic on operands with one value per atom *)

(** Both operands advance: iteration [m] combines [left[m]] with
    [right[m]]. The operands may share the element's array, since cell
    [m] is read before it is written. *)
Lemma arith_loop_pointwise sel left right op (stc : evalstate) :
  (exists e, elems stc !! sel = Some e /\ u e = U_arith op) ->
  (exists lf, elem_flags stc left = Some lf /\
              has_flag lf SEL_SINGLEVAL = false) ->
  (exists rf, elem_flags stc right = Some rf /\
              has_flag rf SEL_SINGLEVAL = false) ->
  forall n r0 i st st',
    arith_loop n sel left (Some right) false r0 i i i st = Ok tt st' ->
    elems st = elems stc ->
    (forall m, i <= m -> value_cell st left m = value_cell stc left m) ->
    (forall m, i <= m -> value_cell st right m = value_cell stc right m) ->
    (forall m, m < i -> value_cell st' sel m = value_cell st sel m) /\
    (forall m lv rv, i <= m < i + Z.of_nat n ->
       value_cell stc left m = Some (RealV lv) ->
       value_cell stc right m = Some (RealV rv) ->
       value_cell st' sel m = Some (RealV (arith_apply op lv rv))).
Proof.
  intros (e & He & Hu) (lf & Hlf & Hls) (rf & Hrf & Hrs).
  induction n as [|n IH]; intros r0 i st st' H Hel Hleft Hright.
  - apply ret_Ok in H as [_ <-]. split; [done|]. intros; lia.
  - simpl in H.
    mbind H lval s1 Hl. apply real_get_Ok in Hl as [Hl <-].
    mbind H rval s2 Hr. simpl in Hr. rewrite bind_ret in Hr.
    apply real_get_Ok in Hr as [Hr <-].
    mbind H op' s3 Hop. apply sel_arith_Ok in Hop as [(e' & He' & Hu') <-].
    rewrite Hel, He in He'. simplify_eq. rewrite Hu in Hu'. simplify_eq.
    mbind H t s4 Hset. destruct t. unfold real_set in Hset.
    destruct (vec_set_elems _ _ _ _ _ Hset) as [Hel4 _].
    mbind H lf' s5 Hlf'. apply sel_flags_Ok in Hlf' as [Hlf' <-].
    unfold elem_flags in Hlf', Hlf. rewrite Hel4, Hel, Hlf in Hlf'.
    simplify_eq. rewrite Hls in H.
    mbind H i2' s6 Hi2. simpl in Hi2. rewrite bind_ret in Hi2.
    mbind Hi2 rf' s7 Hrf'. apply sel_flags_Ok in Hrf' as [Hrf' <-].
    unfold elem_flags in Hrf', Hrf. rewrite Hel4, Hel, Hrf in Hrf'.
    simplify_eq. rewrite Hrs in Hi2. apply ret_Ok in Hi2 as [<- <-].
    destruct (IH rval (i + 1) s4 st' H) as [Hlo Hhi].
    + congruence.
    + intros m Hm.
      rewrite (vec_set_value_cell_other _ _ _ _ _ _ _ Hset) by lia.
      apply Hleft. lia.
    + intros m Hm.
      rewrite (vec_set_value_cell_other _ _ _ _ _ _ _ Hset) by lia.
      apply Hright. lia.
    + split.
      * intros m Hm. rewrite Hlo by lia.
        apply (vec_set_value_cell_other _ _ _ _ _ _ _ Hset). lia.
      * intros m lv rv Hm Hlv Hrv. destruct (decide (m = i)) as [->|Hne].
        -- rewrite Hlo by lia.
           rewrite (vec_set_value_cell_same _ _ _ _ _ Hset).
           rewrite Hleft in Hl by lia. rewrite Hright in Hr by lia.
           rewrite Hlv in Hl. rewrite Hrv in Hr. by simplify_eq.
        -- apply (Hhi m lv rv); [lia|done|done].
Qed.

(** Negation reads the left operand only. *)
Lemma arith_loop_negation sel left right (stc : evalstate) :
  (exists e, elems stc !! sel = Some e /\ u e = U_arith ARITH_NEG) ->
  (exists lf, elem_flags stc left = Some lf /\
              has_flag lf SEL_SINGLEVAL = false) ->
  forall n r0 i i2 st st',
    arith_loop n sel left right true r0 i i i2 st = Ok tt st' ->
    elems st = elems stc ->
    (forall m, i <= m -> value_cell st left m = value_cell stc left m) ->
    (forall m, m < i -> value_cell st' sel m = value_cell st sel m) /\
    (forall m lv, i <= m < i + Z.of_nat n ->
       value_cell stc left m = Some (RealV lv) ->
       value_cell st' sel m = Some (RealV (real_neg lv))).
Proof.
  intros (e & He & Hu) (lf & Hlf & Hls).
  induction n as [|n IH]; intros r0 i i2 st st' H Hel Hleft.
  - apply ret_Ok in H as [_ <-]. split; [done|]. intros; lia.
  - simpl in H.
    mbind H lval s1 Hl. apply real_get_Ok in Hl as [Hl <-].
    rewrite bind_ret in H.
    mbind H op' s3 Hop. apply sel_arith_Ok in Hop as [(e' & He' & Hu') <-].
    rewrite Hel, He in He'. simplify_eq. rewrite Hu in Hu'. simplify_eq.
    mbind H t s4 Hset. destruct t. unfold real_set in Hset.
    destruct (vec_set_elems _ _ _ _ _ Hset) as [Hel4 _].
    mbind H lf' s5 Hlf'. apply sel_flags_Ok in Hlf' as [Hlf' <-].
    unfold elem_flags in Hlf', Hlf. rewrite Hel4, Hel, Hlf in Hlf'.
    simplify_eq. rewrite Hls in H. rewrite bind_ret in H.
    destruct (IH r0 (i + 1) i2 s4 st' H) as [Hlo Hhi].
    + congruence.
    + intros m Hm.
      rewrite (vec_set_value_cell_other _ _ _ _ _ _ _ Hset) by lia.
      apply Hleft. lia.
    + split.
      * intros m Hm. rewrite Hlo by lia.
        apply (vec_set_value_cell_other _ _ _ _ _ _ _ Hset). lia.
      * intros m lv Hm Hlv. destruct (decide (m = i)) as [->|Hne].
        -- rewrite Hlo by lia.
           rewrite (vec_set_value_cell_same _ _ _ _ _ Hset).
           rewrite Hleft in Hl by lia. rewrite Hlv in Hl. by simplify_eq.
        -- apply (Hhi m lv); [lia|done].
Qed.

(** When neither operand is single-valued, the element's value [i] is
    [op(left[i], right[i])] for every [i] below the count. The operand
    values are those in the state [st_c] the evaluation of the children
    returns; that state is fixed by the run, the guards being armed on the
    start state and the children evaluated next. This includes an operand
    that comes from the pool and is evaluated in place in the element's
    own array. *)
Theorem arithmetic_elementwise
    (ev : selid -> option gmx_ana_index_t -> M unit) (fuel : nat)
    (sel : selid) (g : gmx_ana_index_t) (st st' : evalstate) :
  _gmx_sel_evaluate_arithmetic ev fuel sel (Some g) st = Ok tt st' ->
  exists left le guards st_a st_c f n op,
    sel_child sel st = Ok left st /\
    elems st !! left = Some le /\
    arith_guards sel left le (Some g) st = Ok guards st_a /\
    _gmx_sel_evaluate_children ev fuel sel (Some g) st_a = Ok tt st_c /\
    elem_flags st_c sel = Some f /\
    n = (if has_flag f SEL_SINGLEVAL then 1 else isize g) /\
    sel_arith sel st_c = Ok op st_c /\
    forall right lf rf,
      next le = Some right -> left <> sel -> right <> sel ->
      op <> ARITH_NEG ->
      elem_flags st_c left = Some lf -> has_flag lf SEL_SINGLEVAL = false ->
      elem_flags st_c right = Some rf -> has_flag rf SEL_SINGLEVAL = false ->
      (mempool le = true -> sel_ptr st_c sel <> sel_ptr st_c right) ->
      forall i lv rv, 0 <= i < n ->
        value_cell st_c left i = Some (RealV lv) ->
        value_cell st_c right i = Some (RealV rv) ->
        value_cell st' sel i = Some (RealV (arith_apply op lv rv)).
Proof.
  intros H. apply arithmetic_run in H
    as (lft & le & guards & st_a & st_c & e & n & op & s_l & s_r & Hleft
        & Hle & Hguards & Hg1 & Hg2 & Hch & He & Hn & Hu & Hloop & Hrel
        & Hres).
  exists lft, le, guards, st_a, st_c, (flags e), n, op.
  split; [done|]. split; [done|]. split; [done|]. split; [done|]. split.
  { unfold elem_flags. by rewrite He. }
  split; [done|]. split.
  { apply sel_arith_Ok. eauto. }
  intros rgt lf rf Hright Hlsel Hrsel Hneg Hlf Hls Hrf Hrs Hptr i lv rv Hi
    Hlv Hrv.
  set (st_n := with_elem st_c sel (set_v e (set_nr (v e) n))) in *.
  pose proof (arith_loop_elems _ _ _ _ _ _ _ _ _ _ _ Hloop) as Hel_l.
  rewrite (arithmetic_guards_keep_cells guards sel s_l s_r st' i Hrel Hres).
  - rewrite Hright in Hloop.
    replace (bool_decide (op = ARITH_NEG)) with false in Hloop
      by (symmetry; by apply bool_decide_eq_false).
    edestruct (arith_loop_pointwise sel lft rgt op st_n) as [_ Hres'];
      [| | |exact Hloop| | | |].
    + exists (set_v e (set_nr (v e) n)). split; [|exact Hu].
      unfold st_n, with_elem; simpl. by rewrite lookup_insert_eq.
    + exists lf. unfold st_n. by rewrite elem_flags_set_nr.
    + exists rf. unfold st_n. by rewrite elem_flags_set_nr.
    + done.
    + done.
    + done.
    + apply (Hres' i lv rv); [lia| |]; unfold st_n;
        by rewrite value_cell_set_nr.
  - intros r Hr. destruct (Hg1 r Hr) as [Hpool Hnext].
    assert (r = rgt) as -> by congruence. split; [done|].
    unfold sel_ptr in *. rewrite Hel_l. fold (sel_ptr st_n sel).
    fold (sel_ptr st_n rgt). unfold st_n. rewrite !sel_ptr_set_nr by done.
    by apply Hptr.
  - intros s old Hs. destruct (Hg2 s old Hs) as [->|Hnext]; [done|].
    congruence.
Qed.

(** Negation has no right operand to read: with a left operand that is
    not single-valued, the element's value [i] is [-left[i]] for every [i]
    below the count, whether or not the element has a second child. The
    operand values and the operator are those in the state [st_c] the
    evaluation of the children returns, which is fixed by the run. *)
Theorem arithmetic_negation
    (ev : selid -> option gmx_ana_index_t -> M unit) (fuel : nat)
    (sel : selid) (g : gmx_ana_index_t) (st st' : evalstate) :
  _gmx_sel_evaluate_arithmetic ev fuel sel (Some g) st = Ok tt st' ->
  exists left le guards st_a st_c f n,
    sel_child sel st = Ok left st /\
    elems st !! left = Some le /\
    arith_guards sel left le (Some g) st = Ok guards st_a /\
    _gmx_sel_evaluate_children ev fuel sel (Some g) st_a = Ok tt st_c /\
    elem_flags st_c sel = Some f /\
    n = (if has_flag f SEL_SINGLEVAL then 1 else isize g) /\
    forall lf,
      sel_arith sel st_c = Ok ARITH_NEG st_c ->
      left <> sel -> next le <> Some sel ->
      elem_flags st_c left = Some lf -> has_flag lf SEL_SINGLEVAL = false ->
      (forall r, mempool le = true -> next le = Some r ->
                 sel_ptr st_c sel <> sel_ptr st_c r) ->
      forall i lv, 0 <= i < n ->
        value_cell st_c left i = Some (RealV lv) ->
        value_cell st' sel i = Some (RealV (real_neg lv)).
Proof.
  intros H. apply arithmetic_run in H
    as (lft & le & guards & st_a & st_c & e & n & op & s_l & s_r & Hleft
        & Hle & Hguards & Hg1 & Hg2 & Hch & He & Hn & Hu & Hloop & Hrel
        & Hres).
  exists lft, le, guards, st_a, st_c, (flags e), n.
  split; [done|]. split; [done|]. split; [done|]. split; [done|]. split.
  { unfold elem_flags. by rewrite He. }
  split; [done|].
  intros lf Hop Hlsel Hrsel Hlf Hls Hptr i lv Hi Hlv.
  apply sel_arith_Ok in Hop as [(e' & He' & Hu') _].
  assert (e' = e) as -> by congruence. clear He'.
  assert (op = ARITH_NEG) as -> by congruence.
  set (st_n := with_elem st_c sel (set_v e (set_nr (v e) n))) in *.
  pose proof (arith_loop_elems _ _ _ _ _ _ _ _ _ _ _ Hloop) as Hel_l.
  rewrite (arithmetic_guards_keep_cells guards sel s_l s_r st' i Hrel Hres).
  - rewrite bool_decide_eq_true_2 in Hloop by done.
    edestruct (arith_loop_negation sel lft (next le) st_n) as [_ Hres'];
      [| |exact Hloop| | |].
    + exists (set_v e (set_nr (v e) n)). split; [|exact Hu].
      unfold st_n, with_elem; simpl. by rewrite lookup_insert_eq.
    + exists lf. unfold st_n. by rewrite elem_flags_set_nr.
    + done.
    + done.
    + apply (Hres' i lv); [lia|]. unfold st_n. by rewrite value_cell_set_nr.
  - intros r Hr. destruct (Hg1 r Hr) as [Hpool Hnext].
    split; [congruence|].
    unfold sel_ptr in *. rewrite Hel_l. fold (sel_ptr st_n sel).
    fold (sel_ptr st_n r). unfold st_n. rewrite !sel_ptr_set_nr by done.
    by apply Hptr.
  - intros s old Hs. destruct (Hg2 s old Hs) as [->|Hnext]; [done|].
    congruence.
Qed.

(** ** The lifecycle walk and the flags *)

Lemma evalframe_after_reset f :
  has_flag (Z.land f (Z.lnot (Z.lor SEL_INITFRAME SEL_EVALFRAME)))
           SEL_EVALFRAME = false.
Proof.
  rewrite has_evalframe, Z.land_spec, Z.lnot_spec, lifecycle_bits by lia.
  simpl. apply andb_false_r.
Qed.

Lemma evalframe_declare f :
  has_flag (Z.lor f SEL_INITFRAME) SEL_EVALFRAME = has_flag f SEL_EVALFRAME.
Proof.
  rewrite !has_evalframe, Z.lor_spec.
  change (Z.testbit SEL_INITFRAME 11) with false. apply orb_false_r.
Qed.

(** The walk writes flags only. *)
Lemma init_frame_eval_heap fuel : forall r st st',
  init_frame_eval fuel r st = Ok tt st' -> heap st' = heap st.
Proof.
  induction fuel as [|fuel IH]; intros [s|] st st' H; simpl in H;
    try discriminate; try by apply ret_Ok in H as [_ <-].
  mbind H e s0 He. apply get_elem_Ok in He as [He <-].
  mbind H t s1 Hset. destruct t.
  apply set_sel_flags_Ok in Hset as (e0 & He0 & ->).
  mbind H t s2 Hdecl. destruct t.
  assert (H2 : heap s2 = heap st).
  { destruct (decide (type e = SEL_EXPRESSION));
      [|by apply ret_Ok in Hdecl as [_ <-]].
    mbind Hdecl y s3 Hy. apply sel_expr_Ok in Hy as [_ <-].
    destruct (method y) as [m|]; [|by apply ret_Ok in Hdecl as [_ <-]].
    destruct (init_frame m); [|by apply ret_Ok in Hdecl as [_ <-]].
    by apply set_sel_flags_Ok in Hdecl as (ex & Hex & ->). }
  mbind H t s3 Hchild. destruct t.
  assert (H3 : heap s3 = heap s2).
  { destruct (child e); [|by apply ret_Ok in Hchild as [_ <-]].
    destruct (decide (type e = SEL_SUBEXPRREF));
      [by apply ret_Ok in Hchild as [_ <-]|by eapply IH]. }
  apply IH in H. congruence.
Qed.

(** What the walk makes of an element: the two lifecycle flags are
    cleared, and [SEL_INITFRAME] is set again when the element is a method
    expression whose method has an [init_frame] callback. Nothing else of
    the element changes. *)
Definition walked (e : t_selelem) : t_selelem :=
  let f := Z.land (flags e) (Z.lnot (Z.lor SEL_INITFRAME SEL_EVALFRAME)) in
  set_flags e (if declares e then Z.lor f SEL_INITFRAME else f).

Lemma walked_flags e :
  has_flag (flags (walked e)) SEL_EVALFRAME = false /\
  has_flag (flags (walked e)) SEL_INITFRAME = declares e /\
  static_flags (walked e) = static_flags e.
Proof.
  unfold walked. simpl. destruct (declares e); split; try split.
  - rewrite evalframe_declare. apply evalframe_after_reset.
  - apply initframe_set.
  - transitivity (static_flags (set_flags e (Z.land (flags e)
                    (Z.lnot (Z.lor SEL_INITFRAME SEL_EVALFRAME))))).
    + exact (static_flags_declare (set_flags e _)).
    + apply static_flags_reset.
  - apply evalframe_after_reset.
  - apply initframe_after_reset.
  - apply static_flags_reset.
Qed.

Lemma walked_idemp e : walked (walked e) = walked e.
Proof.
  unfold walked at 1. destruct (walked_flags e) as (_ & _ & Hs).
  unfold static_flags in Hs. rewrite Hs.
  change (declares (walked e)) with (declares e). reflexivity.
Qed.

Lemma walked_skel e : skel (walked e) = skel e.
Proof. reflexivity. Qed.

(** Every element is as it was or as the walk makes it. *)
Definition same_or_walked (st st' : evalstate) : Prop :=
  forall x, elems st' !! x = elems st !! x \/
            elems st' !! x = walked <$> elems st !! x.

Lemma same_or_walked_refl st : same_or_walked st st.
Proof. intros x. by left. Qed.

Lemma walked_absorb st a b x :
  elems a !! x = walked <$> elems st !! x -> same_or_walked a b ->
  elems b !! x = walked <$> elems st !! x.
Proof.
  intros Ha Hab. destruct (Hab x) as [->| ->]; [done|]. rewrite Ha.
  destruct (elems st !! x); [|done]. simpl. by rewrite walked_idemp.
Qed.

Lemma walked_after st a x :
  elems a !! x = elems st !! x \/ elems a !! x = walked <$> elems st !! x ->
  walked <$> elems a !! x = walked <$> elems st !! x.
Proof.
  intros [->| ->]; [done|]. destruct (elems st !! x); [|done]. simpl.
  by rewrite walked_idemp.
Qed.

Lemma same_or_walked_trans st1 st2 st3 :
  same_or_walked st1 st2 -> same_or_walked st2 st3 -> same_or_walked st1 st3.
Proof.
  intros H12 H23 x. destruct (H12 x) as [H|H].
  - destruct (H23 x) as [->| ->]; rewrite H; auto.
  - right. by eapply walked_absorb.
Qed.

Lemma same_or_walked_skel st st' :
  same_or_walked st st' ->
  forall y, skel <$> elems st' !! y = skel <$> elems st !! y.
Proof.
  intros H y. destruct (H y) as [->| ->]; [done|].
  by destruct (elems st !! y).
Qed.

(** The flag phase of one step of the walk, exactly. *)
Lemma walk_flag_phase_exact s e st s2 :
  elems st !! s = Some e ->
  (exec set_sel_flags s (Z.land (flags e)
          (Z.lnot (Z.lor SEL_INITFRAME SEL_EVALFRAME)));
   (if decide (type e = SEL_EXPRESSION) then
      do x <- sel_expr s;
      match method x with
      | Some m =>
          if init_frame m is Some _
          then set_sel_flags s
                 (Z.lor (Z.land (flags e)
                    (Z.lnot (Z.lor SEL_INITFRAME SEL_EVALFRAME)))
                    SEL_INITFRAME)
          else ret tt
      | None => ret tt
      end
    else ret tt)) st = Ok tt s2 ->
  elems s2 !! s = Some (walked e) /\
  (forall x, x <> s -> elems s2 !! x = elems st !! x).
Proof.
  intros He H. mbind H t s1 Hset. destruct t.
  apply set_sel_flags_Ok in Hset as (e0 & He0 & ->). simplify_eq.
  set (f := Z.land (flags e) (Z.lnot (Z.lor SEL_INITFRAME SEL_EVALFRAME)))
    in *.
  set (st1 := with_elem st s (set_flags e f)) in *.
  assert (H1 : elems st1 !! s = Some (set_flags e f)).
  { unfold st1, with_elem; simpl. by rewrite lookup_insert_eq. }
  assert (Hother1 : forall x, x <> s -> elems st1 !! x = elems st !! x).
  { intros x Hx. unfold st1, with_elem; simpl. by rewrite lookup_insert_ne. }
  assert (Hdone : s2 = st1 -> declares e = false ->
    elems s2 !! s = Some (walked e) /\
    (forall x, x <> s -> elems s2 !! x = elems st !! x)).
  { intros -> Hd. split; [|done]. rewrite H1. unfold walked.
    by rewrite Hd. }
  destruct (decide (type e = SEL_EXPRESSION)) as [Hty|Hty].
  - mbind H x s3 Hx.
    apply sel_expr_Ok in Hx as [(e1 & He1 & Hu1) <-].
    rewrite H1 in He1. simplify_eq. simpl in Hu1.
    destruct (method x) as [m|] eqn:Hm;
      [|apply ret_Ok in H as [_ <-]; apply Hdone; [done|];
        unfold declares; by rewrite Hty, Hu1, Hm].
    destruct (init_frame m) as [cb|] eqn:Hi;
      [|apply ret_Ok in H as [_ <-]; apply Hdone; [done|];
        unfold declares; by rewrite Hty, Hu1, Hm, Hi].
    assert (Hd : declares e = true)
      by (unfold declares; by rewrite Hty, Hu1, Hm, Hi).
    apply set_sel_flags_Ok in H as (e2 & He2 & ->).
    rewrite H1 in He2. simplify_eq. split.
    + unfold with_elem; simpl. rewrite lookup_insert_eq.
      unfold walked. by rewrite Hd.
    + intros y Hy. unfold with_elem; simpl.
      rewrite lookup_insert_ne by done. by apply Hother1.
  - apply ret_Ok in H as [_ <-]. apply Hdone; [done|].
    unfold declares. destruct (type e); done.
Qed.

(** The walk, element by element: what it reaches is [walked], what it
    does not reach is as before. *)
Lemma init_frame_eval_exact fuel : forall r st st',
  init_frame_eval fuel r st = Ok tt st' ->
  same_or_walked st st' /\
  (forall x, walk_visits st r x ->
             elems st' !! x = walked <$> elems st !! x) /\
  (forall x, ~ walk_visits st r x -> elems st' !! x = elems st !! x).
Proof.
  induction fuel as [|fuel IH]; intros [s|] st st' H; simpl in H;
    try discriminate.
  - apply ret_Ok in H as [_ <-].
    split; [apply same_or_walked_refl|]. split; [inversion 1|done].
  - mbind H e s0 He. apply get_elem_Ok in He as [He <-].
    rewrite <- bind_assoc in H. mbind H t s2 Hflag. destruct t.
    apply (walk_flag_phase_exact s e st s2 He) in Hflag as [Hs2 Hoth2].
    assert (H02 : same_or_walked st s2).
    { intros x. destruct (decide (x = s)) as [->|Hne].
      - right. by rewrite Hs2, He.
      - left. by apply Hoth2. }
    mbind H t s3 Hchild. destruct t.
    assert (Hch : same_or_walked s2 s3 /\
      (forall x, type e <> SEL_SUBEXPRREF -> walk_visits s2 (child e) x ->
         elems s3 !! x = walked <$> elems s2 !! x) /\
      (forall x, (type e <> SEL_SUBEXPRREF -> ~ walk_visits s2 (child e) x) ->
         elems s3 !! x = elems s2 !! x)).
    { destruct (child e) as [c|] eqn:Hce.
      - destruct (decide (type e = SEL_SUBEXPRREF)) as [Hty|Hty].
        + apply ret_Ok in Hchild as [_ <-].
          split; [apply same_or_walked_refl|]. split; [done|done].
        + apply IH in Hchild as (? & ? & Hc). split; [done|].
          split; [auto|]. intros x Hx. apply Hc. auto.
      - apply ret_Ok in Hchild as [_ <-].
        split; [apply same_or_walked_refl|]. split; [|done].
        intros x _ Hw. inversion Hw. }
    destruct Hch as (H23 & Hvis3 & Hnot3).
    apply IH in H as (H34 & Hvis4 & Hnot4).
    pose proof (same_or_walked_trans _ _ _ H02 H23) as H03.
    split; [by eapply same_or_walked_trans|]. split.
    + intros x Hw.
      inversion Hw as [s' e' He'|s' e' x' He' Hty Hwc|s' e' x' He' Hwn];
        subst; rewrite He in He'; simplify_eq.
      * apply (walked_absorb st s3); [|done].
        apply (walked_absorb st s2); [by rewrite Hs2, He|done].
      * apply (walked_absorb st s3); [|done].
        rewrite Hvis3; [by apply walked_after|done|].
        eapply walk_visits_skel; [|exact Hwc].
        by apply same_or_walked_skel.
      * rewrite Hvis4; [by apply walked_after|].
        eapply walk_visits_skel; [|exact Hwn].
        by apply same_or_walked_skel.
    + intros x Hn.
      assert (Hxs : x <> s) by (intros ->; apply Hn; by eapply walk_here).
      assert (Hn2 : type e <> SEL_SUBEXPRREF ->
                    ~ walk_visits s2 (child e) x).
      { intros Hty Hw. apply Hn. eapply walk_child; [done|done|].
        eapply walk_visits_skel; [|exact Hw]. intros y. symmetry.
        by apply same_or_walked_skel. }
      assert (Hn3 : ~ walk_visits s3 (next e) x).
      { intros Hw. apply Hn. eapply walk_next; [done|].
        eapply walk_visits_skel; [|exact Hw]. intros y. symmetry.
        by apply same_or_walked_skel. }
      rewrite (Hnot4 x Hn3), (Hnot3 x Hn2). by apply Hoth2.
  - apply ret_Ok in H as [_ <-].
    split; [apply same_or_walked_refl|]. split; [inversion 1|done].
Qed.

(** The lifecycle walk at the start of a frame replaces every element it
    reaches by [walked] of it: [SEL_EVALFRAME] is clear, [SEL_INITFRAME]
    is set exactly when the element is a method expression whose method
    has an [init_frame] callback, the other flags and every other field
    are as before. The elements it does not reach, the value stores and
    the record of callbacks are left as they were. *)
Theorem lifecycle_walk_resets_flags (fuel : nat) (r : option selid)
    (st st' : evalstate) :
  init_frame_eval fuel r st = Ok tt st' ->
  calls st' = calls st /\ heap st' = heap st /\
  (forall x, walk_visits st r x ->
     exists e, elems st !! x = Some e /\ elems st' !! x = Some (walked e) /\
       has_flag (flags (walked e)) SEL_EVALFRAME = false /\
       has_flag (flags (walked e)) SEL_INITFRAME = declares e /\
       static_flags (walked e) = static_flags e) /\
  (forall x, ~ walk_visits st r x -> elems st' !! x = elems st !! x).
Proof.
  intros H.
  pose proof (init_frame_eval_spec _ _ _ _ H) as (Hc & _).
  pose proof (init_frame_eval_exact _ _ _ _ H) as (_ & Hvis & Hnot).
  split; [done|]. split; [by eapply init_frame_eval_heap|].
  split; [|exact Hnot].
  intros x Hw. specialize (Hvis x Hw).
  assert (Hx : is_Some (elems st !! x)).
  { clear -Hw. induction Hw; eauto. }
  destruct Hx as [e He]. exists e. rewrite Hvis, He.
  split; [done|]. split; [done|]. apply walked_flags.
Qed.

(** ** A reference to a subexpression that has no other reference *)

(** [_gmx_sel_evaluate_subexprref_simple] over a group points the value of
    the subexpression and of the subexpression's child at the reference's
    own store before it evaluates the subexpression, so that the values are
    computed in place; nothing else changes before that evaluation.
    Afterwards the reference takes over the subexpression's value count.
    Without a group the subexpression is not evaluated at all. *)
Theorem subexprref_simple_shares_store
    (ev : selid -> option gmx_ana_index_t -> M unit)
    (sel : selid) (g : gmx_ana_index_t) (st st' : evalstate) :
  _gmx_sel_evaluate_subexprref_simple ev sel (Some g) st = Ok tt st' ->
  (exists c cc st1 st2 c2 e2,
     sel_child sel st = Ok c st /\ sel_child c st = Ok cc st /\
     sel_ptr st1 c = sel_ptr st sel /\ sel_ptr st1 cc = sel_ptr st sel /\
     (forall x, x <> c -> x <> cc -> elems st1 !! x = elems st !! x) /\
     heap st1 = heap st /\ calls st1 = calls st /\
     ev c (Some g) st1 = Ok tt st2 /\
     sel_child sel st2 = Ok c2 st2 /\ elems st2 !! c2 = Some e2 /\
     value_nr st' sel = Some (nr (v e2)) /\
     heap st' = heap st2 /\ calls st' = calls st2) /\
  forall ev', _gmx_sel_evaluate_subexprref_simple ev' sel None st
              = _gmx_sel_evaluate_subexprref_simple ev sel None st.
Proof.
  intros H. split; [|done].
  unfold _gmx_sel_evaluate_subexprref_simple in H.
  mbind H t st2 H1. destruct t.
  mbind H1 x s0 Hx. apply sel_v_Ok in Hx as [(e & He & <-) <-].
  mbind H1 c s1 Hc. pose proof Hc as Hc'. apply sel_child_Ok in Hc' as [_ <-].
  mbind H1 t sA HA. destruct t.
  unfold _gmx_selvalue_setstore in HA.
  mbind HA y s2 Hy. apply sel_v_Ok in Hy as [(ec & Hec & <-) <-].
  apply set_sel_v_Ok in HA as (ec' & Hec' & ->).
  assert (ec' = ec) as -> by congruence. clear Hec'.
  set (vc := set_store (v ec) (ptr (v e))
               (if ptr (v e) is Some _ then -1 else 0)) in *.
  mbind H1 cc s3 Hcc. apply sel_child_Ok in Hcc as [(ec1 & Hec1 & Hch1) <-].
  simpl in Hec1. rewrite lookup_insert_eq in Hec1.
  apply (inj Some) in Hec1. subst ec1. simpl in Hch1.
  mbind H1 ccv s4 Hccv. apply sel_v_Ok in Hccv as [(ecc & Hecc & <-) <-].
  mbind H1 t sB HB. destruct t.
  unfold _gmx_selvalue_setstore_alloc in HB.
  mbind HB z s5 Hz. apply sel_v_Ok in Hz as [(ecc' & Hecc' & <-) <-].
  assert (ecc' = ecc) as -> by congruence. clear Hecc'.
  apply set_sel_v_Ok in HB as (ecc' & Hecc' & ->).
  assert (ecc' = ecc) as -> by congruence. clear Hecc'.
  mbind H c2 s6 Hc2. pose proof Hc2 as Hc2'.
  apply sel_child_Ok in Hc2' as [_ <-].
  mbind H cv s7 Hcv. apply sel_v_Ok in Hcv as [(e2 & He2 & <-) <-].
  mbind H t s8 Hnr. destruct t.
  apply set_sel_nr_Ok in Hnr as (es & Hes & ->).
  apply store_param_nr_Ok in H
    as (Hh & Hcl & _ & e3 & e3' & He3 & He3' & Hv3 & _).
  simpl in He3. rewrite lookup_insert_eq in He3.
  apply (inj Some) in He3. subst e3.
  eexists c, cc, _, st2, c2, e2.
  split; [done|]. split; [apply sel_child_Ok; eauto|].
  split; [|split; [|split; [|split; [|split; [|split; [exact H1|]]]]]].
  - unfold sel_ptr. simpl. rewrite He. simpl.
    destruct (decide (cc = c)) as [->|Hne].
    + by rewrite lookup_insert_eq.
    + rewrite lookup_insert_ne, lookup_insert_eq by done. done.
  - unfold sel_ptr. simpl. rewrite He, lookup_insert_eq. done.
  - intros y Hy1 Hy2. simpl. by rewrite !lookup_insert_ne.
  - done.
  - done.
  - split; [done|]. split; [done|]. split.
    + unfold value_nr. rewrite He3'. simpl. by rewrite Hv3.
    + split; [by rewrite Hh|by rewrite Hcl].
Qed.

(** ** Names of the evaluation functions *)

(** What is passed as [sel_evalfunc evalfunc]: a null pointer, one of the
    evaluation functions of this file, or some other function. *)
Inductive evalfunc_ptr :=
  Fnull
| Fknown (f : sel_evalfunc)
| Fother (addr : Z).

Definition evalfunc_name (f : sel_evalfunc) : string :=
  match f with
  | EVAL_root => "root"
  | EVAL_static => "static"
  | EVAL_subexpr_simple => "subexpr_simple"
  | EVAL_subexpr_staticeval => "subexpr_staticeval"
  | EVAL_subexpr => "subexpr"
  | EVAL_subexprref_simple => "ref_simple"
  | EVAL_subexprref => "ref"
  | EVAL_method => "method"
  | EVAL_modifier => "mod"
  | EVAL_not => "not"
  | EVAL_and => "and"
  | EVAL_or => "or"
  | EVAL_arithmetic => "arithmetic"
  end.

(** [_gmx_sel_print_evalfunc_name]: [fp] is what the stream holds, the
    result what it holds afterwards; [print_pointer] renders ["%p"]. *)
Definition _gmx_sel_print_evalfunc_name (print_pointer : Z -> string)
    (fp : string) (evalfunc : evalfunc_ptr) : string :=
  match evalfunc with
  | Fnull => fp +:+ "none"
  | Fknown f => fp +:+ evalfunc_name f
  | Fother addr => fp +:+ print_pointer addr
  end.

Lemma string_app_inv_head (s a b : string) : s +:+ a = s +:+ b -> a = b.
Proof.
  induction s as [|c s IH]; simpl; [done|]. intros H. apply IH.
  by injection H.
Qed.

(** The printed name tells the evaluation functions apart, and apart from
    a null pointer: whatever the stream held, printing two of them leaves
    the same text only if they are the same. *)
Theorem evalfunc_names_are_distinct (print_pointer : Z -> string)
    (fp : string) (x y : evalfunc_ptr) :
  (forall a, x <> Fother a) -> (forall a, y <> Fother a) ->
  _gmx_sel_print_evalfunc_name print_pointer fp x
  = _gmx_sel_print_evalfunc_name print_pointer fp y ->
  x = y.
Proof.
  intros Hx Hy H.
  destruct x as [|f|a]; [| |by destruct (Hx a)];
    (destruct y as [|f'|a']; [| |by destruct (Hy a')]);
    apply string_app_inv_head in H; try done.
  - by destruct f'.
  - by destruct f.
  - destruct f, f'; done.
Qed.

(** ** The callbacks of one method evaluation *)

Lemma silent_calls_bit {A} (m : M A) st a st' sel :
  silent m -> m st = Ok a st' ->
  calls st' = calls st /\
  init_bit <$> elems st' !! sel = init_bit <$> elems st !! sel.
Proof.
  intros Hs H. destruct (Hs _ _ _ H) as [Hc Hv]. split; [done|].
  specialize (Hv sel).
  destruct (elems st' !! sel), (elems st !! sel); simpl in *; try done.
  apply (inj Some), (f_equal snd) in Hv. simpl in Hv. by rewrite Hv.
Qed.

(** A method evaluation first evaluates the parameters, then, if the
    element's [SEL_INITFRAME] flag is set, clears it and calls
    [init_frame], and last calls the update callback: [pupdate] when the
    element has a position calculation, [update] with the group
    otherwise. It ends with [SEL_INITFRAME] clear. *)
Theorem method_callbacks_in_order
    (ev : selid -> option gmx_ana_index_t -> M unit)
    (data : gmx_sel_evaluate_t) (fuel : nat) (sel : selid)
    (g : option gmx_ana_index_t) (st st' : evalstate) :
  _gmx_sel_evaluate_method ev data fuel sel g st = Ok tt st' ->
  exists st1 e1 x e',
    _gmx_sel_evaluate_method_params ev fuel sel g st = Ok tt st1 /\
    elems st1 !! sel = Some e1 /\ u e1 = U_expr x /\
    calls st'
    = calls st1
      ++ (if has_flag (flags e1) SEL_INITFRAME then [CallInitFrame sel]
          else [])
      ++ [if pc x is Some _ then CallPUpdate sel else CallUpdate sel g] /\
    elems st' !! sel = Some e' /\
    has_flag (flags e') SEL_INITFRAME = false.
Proof.
  unfold _gmx_sel_evaluate_method. intros H.
  mbind H t st1 Hpar. destruct t.
  mbind H t st2 Hinit. destruct t.
  assert (Hi : exists e1 x e2,
    elems st1 !! sel = Some e1 /\ u e1 = U_expr x /\
    elems st2 !! sel = Some e2 /\
    has_flag (flags e2) SEL_INITFRAME = false /\
    (exists md, u e2 = U_expr {| method := method x; mdata := md;
                                 pc := pc x; pos := pos x |}) /\
    calls st2 = calls st1
                ++ (if has_flag (flags e1) SEL_INITFRAME
                    then [CallInitFrame sel] else [])).
  { unfold method_init_frame in Hinit.
    mbind Hinit f s1 Hf. apply sel_flags_Ok in Hf as [Hf <-].
    unfold elem_flags in Hf.
    destruct (elems st1 !! sel) as [e1|] eqn:He1; [|done].
    simpl in Hf. apply (inj Some) in Hf. subst f.
    destruct (has_flag (flags e1) SEL_INITFRAME) eqn:Hbit.
    - mbind Hinit t s2 Hset. destruct t.
      apply set_sel_flags_Ok in Hset as (e0 & He0 & ->).
      assert (e0 = e1) as -> by congruence. clear He0.
      mbind Hinit y s3 Hy. apply sel_expr_Ok in Hy as [(e3 & He3 & Hu3) <-].
      simpl in He3. rewrite lookup_insert_eq in He3.
      apply (inj Some) in He3. subst e3. simpl in Hu3.
      mbind Hinit m s4 Hm. apply deref_Ok in Hm as [Hm <-].
      mbind Hinit cb s5 Hcb. apply deref_Ok in Hcb as [Hcb <-].
      mbind Hinit t s6 Hemit. destruct t. unfold emit in Hemit.
      injection Hemit as <-.
      unfold set_sel_mdata in Hinit.
      mbind Hinit z s7 Hz. apply sel_expr_Ok in Hz as [(e4 & He4 & Hu4) <-].
      simpl in He4. rewrite lookup_insert_eq in He4.
      apply (inj Some) in He4. subst e4. simpl in Hu4.
      assert (z = y) as -> by congruence.
      apply set_sel_expr_Ok in Hinit as (e5 & x5 & He5 & Hu5 & ->).
      simpl in He5. rewrite lookup_insert_eq in He5.
      apply (inj Some) in He5. subst e5.
      eexists e1, y, _. split; [done|].
      split; [first [exact Hu3 | exact Hu4]|].
      split; [simpl; apply lookup_insert_eq|]. simpl.
      split; [apply initframe_cleared|]. split; [eauto|]. by rewrite Hbit.
    - apply ret_Ok in Hinit as [_ <-].
      destruct (u e1) as [|x| | |] eqn:Hu1.
      2: { exists e1, x, e1. split; [done|]. split; [done|]. split; [done|].
           split; [done|]. split; [|by rewrite Hbit, app_nil_r].
           exists (mdata x). by destruct x. }
      all: mbind H x s0 Hx; apply sel_expr_Ok in Hx as [(e2 & He2 & Hu2) _];
        congruence. }
  destruct Hi as (e1 & x & e2 & He1 & Hu1 & He2 & Hbit2 & (md & Hu2) & Hc2).
  mbind H x2 s0 Hx. apply sel_expr_Ok in Hx as [(e2' & He2' & Hu2') <-].
  assert (e2' = e2) as -> by congruence. clear He2'.
  assert (x2 = {| method := method x; mdata := md; pc := pc x;
                  pos := pos x |}) as -> by congruence.
  simpl in H.
  assert (Hfin : calls st' = calls st2
                 ++ [if pc x is Some _ then CallPUpdate sel
                     else CallUpdate sel g] /\
                 init_bit <$> elems st' !! sel = Some false).
  { destruct (pc x) as [calc|].
    - mbind H t s1 Hpos. destruct t.
      destruct (silent_calls_bit _ _ _ _ sel (silent_set_sel_pos _ _) Hpos)
        as [Hc1 Hb1].
      mbind H m s2 Hm. apply deref_Ok in Hm as [_ <-].
      mbind H cb s3 Hcb. apply deref_Ok in Hcb as [_ <-].
      mbind H t s4 Hemit. destruct t. unfold emit in Hemit.
      injection Hemit as <-.
      destruct (cb _ _ _ _ _) as [out md'].
      mbind H t s5 Hw. destruct t.
      destruct (silent_calls_bit _ _ _ _ sel (silent_write_out _ _) Hw)
        as [Hc5 Hb5].
      destruct (silent_calls_bit _ _ _ _ sel (silent_set_sel_mdata _ _) H)
        as [Hc' Hb']. simpl in *.
      split; [congruence|]. rewrite Hb', Hb5, Hb1, He2. simpl.
      unfold init_bit. by rewrite Hbit2.
    - mbind H m s2 Hm. apply deref_Ok in Hm as [_ <-].
      mbind H cb s3 Hcb. apply deref_Ok in Hcb as [_ <-].
      mbind H t s4 Hemit. destruct t. unfold emit in Hemit.
      injection Hemit as <-.
      destruct (cb _ _ _ _ _) as [out md'].
      mbind H t s5 Hw. destruct t.
      destruct (silent_calls_bit _ _ _ _ sel (silent_write_out _ _) Hw)
        as [Hc5 Hb5].
      destruct (silent_calls_bit _ _ _ _ sel (silent_set_sel_mdata _ _) H)
        as [Hc' Hb']. simpl in *.
      split; [congruence|]. rewrite Hb', Hb5, He2. simpl.
      unfold init_bit. by rewrite Hbit2. }
  destruct Hfin as [Hc' Hb'].
  destruct (elems st' !! sel) as [e'|] eqn:He'; [|done].
  simpl in Hb'. apply (inj Some) in Hb'.
  exists st1, e1, x, e'. split; [done|]. split; [done|]. split; [done|].
  split; [by rewrite Hc', Hc2, app_assoc|]. split; [done|]. exact Hb'.
Qed.

(** ** Evaluation below an element stays below it

    [D] is a set of elements closed under the child and sibling links (a
    part of the tree with everything below it) and [l] a value store that
    no element of [D] points to. Evaluating elements of [D] rewrites
    elements of [D] only, never makes one of them point to [l], and never
    writes to [l]. *)

Section Confined.
Context (D : gset selid) (l : loc).

(** An element of [D]: its value does not live in [l], and its child and
    its sibling are in [D]. *)
Definition tame (e : t_selelem) : Prop :=
  ptr (v e) <> Some l /\
  (forall c, child e = Some c -> c ∈ D) /\
  (forall n, next e = Some n -> n ∈ D).

(** The elements of [D] are tame and the store [l] exists. *)
Definition apart (st : evalstate) : Prop :=
  (forall x e, x ∈ D -> elems st !! x = Some e -> tame e) /\
  is_Some (heap st !! l).

(** The store [l] and the elements outside [D] are as they were. *)
Definition untouched (st st' : evalstate) : Prop :=
  heap st' !! l = heap st !! l /\
  forall x, x ∉ D -> elems st' !! x = elems st !! x.

(** A successful run of [m] from a state where [D] is apart from [l]
    ends in such a state, touches neither [l] nor an element outside [D],
    and returns a result that satisfies [Q]. *)
Definition confined {A} (Q : A -> Prop) (m : M A) : Prop :=
  forall st a st', apart st -> m st = Ok a st' ->
    apart st' /\ untouched st st' /\ Q a.

Lemma untouched_refl st : untouched st st.
Proof. by split. Qed.

Lemma untouched_trans st1 st2 st3 :
  untouched st1 st2 -> untouched st2 st3 -> untouched st1 st3.
Proof.
  intros [Hh1 He1] [Hh2 He2]. split; [congruence|].
  intros x Hx. by rewrite He2, He1.
Qed.

Lemma confined_ret {A} (Q : A -> Prop) a : Q a -> confined Q (ret a).
Proof.
  intros HQ st b st' Ha H. apply ret_Ok in H as [<- <-].
  split; [done|]. split; [apply untouched_refl|done].
Qed.

Lemma confined_throw {A} (Q : A -> Prop) e : confined Q (throw e).
Proof. intros st b st' _ H. discriminate. Qed.

Lemma confined_bind {A B} (Q1 : A -> Prop) (Q2 : B -> Prop)
    (m : M A) (k : A -> M B) :
  confined Q1 m -> (forall a, Q1 a -> confined Q2 (k a)) ->
  confined Q2 (bind m k).
Proof.
  intros Hm Hk st b st' Ha H. mbind H a s H1.
  destruct (Hm _ _ _ Ha H1) as (Ha1 & Hu1 & HQ).
  destruct (Hk a HQ _ _ _ Ha1 H) as (Ha2 & Hu2 & HQ2).
  split; [done|]. split; [by eapply untouched_trans|done].
Qed.

Lemma confined_weaken {A} (Q Q' : A -> Prop) (m : M A) :
  confined Q m -> (forall a, Q a -> Q' a) -> confined Q' m.
Proof.
  intros Hm HQ st a st' Ha H. destruct (Hm _ _ _ Ha H) as (? & ? & ?).
  auto.
Qed.

(** A step that reads only. *)
Lemma confined_read {A} (Q : A -> Prop) (m : M A) :
  (forall st a st', apart st -> m st = Ok a st' -> st' = st /\ Q a) ->
  confined Q m.
Proof.
  intros Hm st a st' Ha H. destruct (Hm _ _ _ Ha H) as [-> HQ].
  split; [done|]. split; [apply untouched_refl|done].
Qed.

Lemma confined_deref {A} (p : option A) :
  confined (fun a => p = Some a) (deref p).
Proof.
  apply confined_read. intros st a st' _ H.
  by apply deref_Ok in H as [-> ->].
Qed.

Lemma confined_get_elem y :
  y ∈ D -> confined tame (get_elem y).
Proof.
  intros Hy. apply confined_read. intros st e st' [Ht _] H.
  apply get_elem_Ok in H as [He <-]. split; [done|]. by eapply Ht.
Qed.

Lemma confined_load l0 : confined (fun _ => True) (load l0).
Proof.
  apply confined_read. intros st s st' _ H.
  by apply load_Ok in H as [_ <-].
Qed.

Lemma confined_put_elem y e :
  y ∈ D -> tame e -> confined (fun _ => True) (put_elem y e).
Proof.
  intros Hy He st [] st' [Ht Hl] H. apply put_elem_Ok in H as ->.
  split; [|split; [split|]]; try done.
  - split; [|done]. intros x e0 Hx. unfold with_elem; simpl.
    destruct (decide (y = x)) as [<-|Hne].
    + rewrite lookup_insert_eq. by intros [= <-].
    + rewrite lookup_insert_ne by done. by apply Ht.
  - intros x Hx. unfold with_elem; simpl. rewrite lookup_insert_ne; [done|].
    by intros ->.
Qed.

Lemma confined_store l0 s :
  l0 <> l -> confined (fun _ => True) (store l0 s).
Proof.
  intros Hne st [] st' [Ht Hl] H. apply store_Ok in H as ->.
  unfold with_store. split; [|split; [split|]]; try done; simpl.
  - split; [done|]. simpl. by rewrite lookup_insert_ne.
  - by rewrite lookup_insert_ne.
Qed.

Lemma confined_alloc s : confined (fun l0 => l0 <> l) (alloc s).
Proof.
  intros st l0 st' [Ht Hl] H. apply alloc_Ok in H as [-> ->].
  assert (Hne : fresh (dom (heap st)) <> l).
  { intros Heq. pose proof (fresh_loc_unused (heap st)) as Hf.
    rewrite Heq in Hf. rewrite Hf in Hl. by destruct Hl. }
  unfold with_store. split; [|split; [split|]]; try done; simpl.
  - split; [done|]. simpl. by rewrite lookup_insert_ne.
  - by rewrite lookup_insert_ne.
Qed.

Lemma confined_free l0 : l0 <> l -> confined (fun _ => True) (free l0).
Proof.
  intros Hne st [] st' [Ht Hl] H. apply free_Ok in H as ->.
  split; [|split; [split|]]; try done; simpl.
  - split; [done|]. simpl. by rewrite lookup_delete_ne.
  - by rewrite lookup_delete_ne.
Qed.

Lemma confined_emit c : confined (fun _ => True) (emit c).
Proof.
  intros st [] st' Ha H. unfold emit in H. simplify_eq.
  split; [exact Ha|]. split; [by split|done].
Qed.

(** Side conditions: membership in [D], stores other than [l], tame
    elements. *)
Ltac conf_side :=
  try solve [ assumption | exact I | congruence
            | intros; subst; simpl in *; unfold tame in *; simpl in *;
              intuition (eauto || congruence) ].

Ltac conf_prim :=
  first [ apply confined_throw
        | apply confined_deref
        | apply confined_load
        | apply confined_alloc
        | apply confined_emit
        | apply confined_get_elem; conf_side; fail
        | apply confined_put_elem; conf_side; fail
        | apply confined_store; conf_side; fail
        | apply confined_free; conf_side; fail ].

(** [conf_leaf tac]: close a goal [confined Q m] for a step [m] that [tac]
    knows, whatever [Q] is asked. *)
Ltac conf_leaf tac :=
  first [ solve [apply confined_ret; conf_side]
        | solve [tac]
        | solve [eapply confined_weaken; [tac | conf_side]] ].

Ltac conf_with tac :=
  repeat (cbv beta in *;
          lazymatch goal with
          | |- confined _ (bind _ _) =>
              first [ eapply confined_bind; [conf_leaf tac | intros ? ?]
                    | eapply (confined_bind (fun c : selid => c ∈ D));
                      [solve [conf_with tac] | intros ? ?]
                    | eapply (confined_bind (fun _ => True));
                      [|intros ? _] ]
          | |- confined _ (match ?x with _ => _ end) => destruct x eqn:?
          | |- confined _ (let '(_, _) := ?x in _) => destruct x eqn:?
          | |- confined _ _ => conf_leaf tac
          end).

Ltac conf_auto := conf_with conf_prim.

Lemma confined_sel_child y :
  y ∈ D -> confined (fun c => c ∈ D) (sel_child y).
Proof. intros Hy. unfold sel_child. conf_auto. Qed.

Lemma confined_sel_v y :
  y ∈ D -> confined (fun x => ptr x <> Some l) (sel_v y).
Proof. intros Hy. unfold sel_v. conf_auto. Qed.

Lemma confined_sel_flags y :
  y ∈ D -> confined (fun _ => True) (sel_flags y).
Proof. intros Hy. unfold sel_flags. conf_auto. Qed.

Lemma confined_sel_cgrp y :
  y ∈ D -> confined (fun _ => True) (sel_cgrp y).
Proof. intros Hy. unfold sel_cgrp. conf_auto. Qed.

Lemma confined_sel_expr y :
  y ∈ D -> confined (fun _ => True) (sel_expr y).
Proof. intros Hy. unfold sel_expr. conf_auto. Qed.

Lemma confined_sel_arith y :
  y ∈ D -> confined (fun _ => True) (sel_arith y).
Proof. intros Hy. unfold sel_arith. conf_auto. Qed.

Lemma confined_set_sel_v y x :
  y ∈ D -> ptr x <> Some l -> confined (fun _ => True) (set_sel_v y x).
Proof. intros Hy Hx. unfold set_sel_v. conf_auto. Qed.

Lemma confined_set_sel_nr y n :
  y ∈ D -> confined (fun _ => True) (set_sel_nr y n).
Proof. intros Hy. unfold set_sel_nr. conf_auto. Qed.

Lemma confined_set_sel_flags y f :
  y ∈ D -> confined (fun _ => True) (set_sel_flags y f).
Proof. intros Hy. unfold set_sel_flags. conf_auto. Qed.

Lemma confined_set_sel_cgrp y g :
  y ∈ D -> confined (fun _ => True) (set_sel_cgrp y g).
Proof. intros Hy. unfold set_sel_cgrp. conf_auto. Qed.

Lemma confined_set_sel_expr y x :
  y ∈ D -> confined (fun _ => True) (set_sel_expr y x).
Proof. intros Hy. unfold set_sel_expr. conf_auto. Qed.

Ltac conf_field :=
  first [ conf_prim
        | apply confined_sel_child; conf_side; fail
        | apply confined_sel_v; conf_side; fail
        | apply confined_sel_flags; conf_side; fail
        | apply confined_sel_cgrp; conf_side; fail
        | apply confined_sel_expr; conf_side; fail
        | apply confined_sel_arith; conf_side; fail
        | apply confined_set_sel_v; conf_side; fail
        | apply confined_set_sel_nr; conf_side; fail
        | apply confined_set_sel_flags; conf_side; fail
        | apply confined_set_sel_cgrp; conf_side; fail
        | apply confined_set_sel_expr; conf_side; fail ].

(** Reads and writes through the value pointer of an element of [D]. *)
Lemma confined_sel_vgroup y :
  y ∈ D -> confined (fun _ => True) (sel_vgroup y).
Proof. intros Hy. unfold sel_vgroup. conf_with conf_field. Qed.

Lemma confined_set_sel_vgroup y g :
  y ∈ D -> confined (fun _ => True) (set_sel_vgroup y g).
Proof. intros Hy. unfold set_sel_vgroup. conf_with conf_field. Qed.

Lemma confined_sel_vpos y :
  y ∈ D -> confined (fun _ => True) (sel_vpos y).
Proof. intros Hy. unfold sel_vpos. conf_with conf_field. Qed.

Lemma confined_vec_get y k :
  y ∈ D -> confined (fun _ => True) (vec_get y k).
Proof. intros Hy. unfold vec_get. conf_with conf_field. Qed.

Lemma confined_vec_set y k x :
  y ∈ D -> confined (fun _ => True) (vec_set y k x).
Proof. intros Hy. unfold vec_set. conf_with conf_field. Qed.

Lemma confined_index_read g i : confined (fun _ => True) (index_read g i).
Proof. unfold index_read. conf_with conf_field. Qed.

Lemma confined_real_get y i :
  y ∈ D -> confined (fun _ => True) (real_get y i).
Proof.
  intros Hy. unfold real_get. pose proof (confined_vec_get y i Hy).
  conf_with ltac:(first [eassumption | conf_field]).
Qed.

Lemma confined_pos_copy y x :
  y ∈ D -> x ∈ D -> confined (fun _ => True) (gmx_ana_pos_copy y x).
Proof. intros Hy Hx. unfold gmx_ana_pos_copy. conf_with conf_field. Qed.

Lemma confined_write_out y out :
  y ∈ D -> confined (fun _ => True) (write_out y out).
Proof. intros Hy. unfold write_out. conf_with conf_field. Qed.

(** The guards: a redirected pointer is the pointer of an element of
    [D], a reserved store is fresh. *)
Lemma confined_setstore y p :
  y ∈ D -> p <> Some l ->
  confined (fun _ => True) (_gmx_selvalue_setstore y p).
Proof. intros Hy Hp. unfold _gmx_selvalue_setstore. conf_with conf_field. Qed.

Lemma confined_setstore_alloc y p na :
  y ∈ D -> p <> Some l ->
  confined (fun _ => True) (_gmx_selvalue_setstore_alloc y p na).
Proof.
  intros Hy Hp. unfold _gmx_selvalue_setstore_alloc. conf_with conf_field.
Qed.

Lemma confined_reserve y n :
  y ∈ D -> confined (fun _ => True) (_gmx_selelem_mempool_reserve y n).
Proof.
  intros Hy. unfold _gmx_selelem_mempool_reserve.
  pose proof (confined_sel_vgroup y Hy).
  pose proof (fun g => confined_set_sel_vgroup y g Hy).
  conf_with ltac:(first [eassumption | solve [eauto 1] | conf_field]).
Qed.

Lemma confined_release y :
  y ∈ D -> confined (fun _ => True) (_gmx_selelem_mempool_release y).
Proof.
  intros Hy. unfold _gmx_selelem_mempool_release.
  pose proof (confined_sel_vgroup y Hy).
  pose proof (fun g => confined_set_sel_vgroup y g Hy).
  pose proof (confined_setstore y None Hy).
  conf_with ltac:(first [eassumption | solve [eauto 2] | conf_field]).
Qed.

Lemma confined_assigner_assign y src :
  y ∈ D -> src ∈ D ->
  confined (fun old => fst old <> Some l) (assigner_assign y src).
Proof.
  intros Hy Hs. unfold assigner_assign.
  pose proof (fun p => confined_setstore y p Hy).
  conf_with ltac:(first [solve [eauto 2] | conf_field]).
Qed.

Lemma confined_assigner_restore y old :
  y ∈ D -> fst old <> Some l ->
  confined (fun _ => True) (assigner_restore y old).
Proof. intros Hy Ho. by apply confined_setstore_alloc. Qed.

Lemma confined_store_param_nr y :
  y ∈ D -> confined (fun _ => True) (store_param_nr y).
Proof. intros Hy. unfold store_param_nr. conf_with conf_field. Qed.

Lemma confined_set_sel_mdata y md :
  y ∈ D -> confined (fun _ => True) (set_sel_mdata y md).
Proof. intros Hy. unfold set_sel_mdata. conf_with conf_field. Qed.

Lemma confined_set_sel_pos y p :
  y ∈ D -> confined (fun _ => True) (set_sel_pos y p).
Proof. intros Hy. unfold set_sel_pos. conf_with conf_field. Qed.

Ltac conf_known :=
  first [ conf_field
        | apply confined_sel_vgroup; conf_side; fail
        | apply confined_set_sel_vgroup; conf_side; fail
        | apply confined_sel_vpos; conf_side; fail
        | apply confined_vec_get; conf_side; fail
        | apply confined_vec_set; conf_side; fail
        | apply confined_index_read
        | apply confined_real_get; conf_side; fail
        | apply confined_pos_copy; conf_side; fail
        | apply confined_write_out; conf_side; fail
        | apply confined_setstore; conf_side; fail
        | apply confined_setstore_alloc; conf_side; fail
        | apply confined_reserve; conf_side; fail
        | apply confined_release; conf_side; fail
        | apply confined_assigner_assign; conf_side; fail
        | apply confined_assigner_restore; conf_side; fail
        | apply confined_store_param_nr; conf_side; fail
        | apply confined_set_sel_mdata; conf_side; fail
        | apply confined_set_sel_pos; conf_side; fail ].

Ltac conf_go :=
  conf_with ltac:(first [eassumption | conf_known | solve [eauto 2]]).

Ltac conf_rec IH :=
  conf_with ltac:(first [ eassumption | solve [apply IH; conf_side]
                        | conf_known | solve [eauto 2] ]).

(** The loops that move values between arrays. *)
Lemma confined_subexpr_merge_values n :
  forall y gmiss i j k, y ∈ D ->
    confined (fun _ => True) (subexpr_merge_values n y gmiss i j k).
Proof.
  induction n as [|n IH]; intros y gmiss i j k Hy; simpl; conf_rec IH.
Qed.

Lemma confined_vec_memcpy n :
  forall y x i, y ∈ D -> x ∈ D ->
    confined (fun _ => True) (vec_memcpy n y x i).
Proof.
  induction n as [|n IH]; intros y x i Hy Hx; simpl; conf_rec IH.
Qed.

Lemma confined_subexprref_skip fuel :
  forall y x j, y ∈ D ->
    confined (fun _ => True) (subexprref_skip fuel y x j).
Proof.
  induction fuel as [|fuel IH]; intros y x j Hy; simpl; conf_rec IH.
Qed.

Lemma confined_subexprref_extract n :
  forall y x g i j, y ∈ D -> x ∈ D ->
    confined (fun _ => True) (subexprref_extract n y x g i j).
Proof.
  induction n as [|n IH]; intros y x g i j Hy Hx; simpl.
  - conf_go.
  - pose proof (fun f x0 j0 => confined_subexprref_skip f y x0 j0 Hy)
      as Hskip.
    conf_rec IH.
Qed.

Lemma confined_arith_loop n :
  forall y left right neg r0 i i1 i2,
    y ∈ D -> left ∈ D -> (forall r, right = Some r -> r ∈ D) ->
    confined (fun _ => True) (arith_loop n y left right neg r0 i i1 i2).
Proof.
  induction n as [|n IH]; intros y left right neg r0 i i1 i2 Hy Hl Hr;
    simpl; unfold real_set; conf_rec IH.
Qed.

(** *** The evaluation functions *)

Section Functions.
Variable ev : selid -> option gmx_ana_index_t -> M unit.
Variable data : gmx_sel_evaluate_t.
Hypothesis Hev : forall c g, c ∈ D -> confined (fun _ => True) (ev c g).

Ltac conf_ev :=
  conf_with ltac:(first [ eassumption | solve [apply Hev; conf_side]
                        | conf_known | solve [eauto 2] ]).

Ltac conf_ev_rec IH :=
  conf_with ltac:(first [ eassumption | solve [apply Hev; conf_side]
                        | solve [apply IH; conf_side]
                        | conf_known | solve [eauto 2] ]).

Lemma confined_children_from fuel :
  forall c g, (forall x, c = Some x -> x ∈ D) ->
    confined (fun _ => True) (evaluate_children_from ev fuel c g).
Proof using Hev.
  induction fuel as [|fuel IH]; intros [c|] g Hc; simpl;
    try specialize (Hc c eq_refl); conf_ev_rec IH.
Qed.

Lemma confined_children fuel y g :
  y ∈ D -> confined (fun _ => True) (_gmx_sel_evaluate_children ev fuel y g).
Proof using Hev.
  intros Hy. unfold _gmx_sel_evaluate_children.
  pose proof (confined_children_from fuel) as Hc.
  conf_with ltac:(first [ solve [apply Hc; conf_side] | conf_known ]).
Qed.

Lemma confined_root y g :
  y ∈ D -> confined (fun _ => True) (_gmx_sel_evaluate_root ev y g).
Proof using Hev. intros Hy. unfold _gmx_sel_evaluate_root. conf_ev. Qed.

Lemma confined_static y g :
  y ∈ D -> confined (fun _ => True) (_gmx_sel_evaluate_static y g).
Proof. intros Hy. unfold _gmx_sel_evaluate_static. conf_go. Qed.

Lemma confined_subexpr_simple y g :
  y ∈ D -> confined (fun _ => True) (_gmx_sel_evaluate_subexpr_simple ev y g).
Proof using Hev.
  intros Hy. unfold _gmx_sel_evaluate_subexpr_simple. conf_ev.
Qed.

Lemma confined_subexpr_staticeval y g :
  y ∈ D ->
  confined (fun _ => True) (_gmx_sel_evaluate_subexpr_staticeval ev y g).
Proof using Hev.
  intros Hy. unfold _gmx_sel_evaluate_subexpr_staticeval. conf_ev.
Qed.

Lemma confined_subexpr y g :
  y ∈ D -> confined (fun _ => True) (_gmx_sel_evaluate_subexpr ev y g).
Proof using Hev.
  intros Hy.
  unfold _gmx_sel_evaluate_subexpr, SelelemTemporaryValueAssigner,
    MempoolSelelemReserver.
  pose proof (fun n gm i j k =>
                confined_subexpr_merge_values n y gm i j k Hy).
  conf_ev.
Qed.

Lemma confined_subexprref_simple y g :
  y ∈ D ->
  confined (fun _ => True) (_gmx_sel_evaluate_subexprref_simple ev y g).
Proof using Hev.
  intros Hy. unfold _gmx_sel_evaluate_subexprref_simple. conf_ev.
Qed.

Lemma confined_subexprref y g :
  y ∈ D -> confined (fun _ => True) (_gmx_sel_evaluate_subexprref ev y g).
Proof using Hev.
  intros Hy. unfold _gmx_sel_evaluate_subexprref.
  pose proof confined_vec_memcpy. pose proof confined_subexprref_extract.
  conf_ev.
Qed.

Lemma confined_method_params_from fuel :
  forall c g, (forall x, c = Some x -> x ∈ D) ->
    confined (fun _ => True) (method_params_from ev fuel c g).
Proof using Hev.
  induction fuel as [|fuel IH]; intros [c|] g Hc; simpl;
    try specialize (Hc c eq_refl); conf_ev_rec IH.
Qed.

Lemma confined_method_params fuel y g :
  y ∈ D ->
  confined (fun _ => True) (_gmx_sel_evaluate_method_params ev fuel y g).
Proof using Hev.
  intros Hy. unfold _gmx_sel_evaluate_method_params.
  pose proof (confined_method_params_from fuel) as Hc.
  conf_with ltac:(first [ solve [apply Hc; conf_side] | conf_known ]).
Qed.

Lemma confined_method_init_frame y :
  y ∈ D -> confined (fun _ => True) (method_init_frame data y).
Proof. intros Hy. unfold method_init_frame. conf_go. Qed.

Lemma confined_method fuel y g :
  y ∈ D -> confined (fun _ => True) (_gmx_sel_evaluate_method ev data fuel y g).
Proof using Hev.
  intros Hy. unfold _gmx_sel_evaluate_method.
  pose proof (confined_method_params fuel y g Hy).
  pose proof (confined_method_init_frame y Hy).
  conf_ev.
Qed.

Lemma confined_modifier fuel y g :
  y ∈ D ->
  confined (fun _ => True) (_gmx_sel_evaluate_modifier ev data fuel y g).
Proof using Hev.
  intros Hy. unfold _gmx_sel_evaluate_modifier.
  pose proof (confined_method_params fuel y g Hy).
  pose proof (confined_method_init_frame y Hy).
  conf_ev.
Qed.

Lemma confined_not y g :
  y ∈ D -> confined (fun _ => True) (_gmx_sel_evaluate_not ev y g).
Proof using Hev.
  intros Hy. unfold _gmx_sel_evaluate_not, MempoolSelelemReserver. conf_ev.
Qed.

Lemma confined_and_loop fuel :
  forall y c, y ∈ D -> (forall x, c = Some x -> x ∈ D) ->
    confined (fun _ => True) (and_loop ev fuel y c).
Proof using Hev.
  induction fuel as [|fuel IH]; intros y [c|] Hy Hc; simpl;
    try specialize (Hc c eq_refl); unfold MempoolSelelemReserver;
    conf_ev_rec IH.
Qed.

Lemma confined_and fuel y g :
  y ∈ D -> confined (fun _ => True) (_gmx_sel_evaluate_and ev fuel y g).
Proof using Hev.
  intros Hy. unfold _gmx_sel_evaluate_and, MempoolSelelemReserver.
  pose proof (confined_and_loop fuel y) as Hloop.
  conf_with ltac:(first [ eassumption | solve [apply Hev; conf_side]
                        | solve [apply Hloop; conf_side]
                        | conf_known ]).
Qed.

Lemma confined_or_loop fuel :
  forall y c tmp, y ∈ D -> (forall x, c = Some x -> x ∈ D) ->
    confined (fun _ => True) (or_loop ev fuel y c tmp).
Proof using Hev.
  induction fuel as [|fuel IH]; intros y [c|] tmp Hy Hc; simpl;
    try specialize (Hc c eq_refl); unfold MempoolSelelemReserver;
    conf_ev_rec IH.
Qed.

Lemma confined_or fuel y g :
  y ∈ D -> confined (fun _ => True) (_gmx_sel_evaluate_or ev fuel y g).
Proof using Hev.
  intros Hy. unfold _gmx_sel_evaluate_or, MempoolSelelemReserver.
  pose proof (confined_or_loop fuel y) as Hloop.
  conf_with ltac:(first [ eassumption | solve [apply Hev; conf_side]
                        | solve [apply Hloop; conf_side]
                        | conf_known ]).
Qed.

(** The guards of an arithmetic element are armed on operands in [D],
    and keep pointers other than [l]. *)
Definition tame_guards
    (guards : option (selid * (option loc * Z)) * option selid) : Prop :=
  (forall s old, fst guards = Some (s, old) -> s ∈ D /\ fst old <> Some l) /\
  (forall r, snd guards = Some r -> r ∈ D).

Lemma confined_arith_guards y left le g :
  y ∈ D -> left ∈ D -> tame le ->
  confined tame_guards (arith_guards y left le g).
Proof.
  intros Hy Hl Hle. unfold arith_guards.
  destruct (mempool le).
  - eapply confined_bind; [by apply confined_assigner_assign|].
    intros old Hold.
    eapply (confined_bind (fun res => forall r, res = Some r -> r ∈ D)).
    + destruct (next le) as [r|] eqn:Hr; [|by apply confined_ret].
      assert (r ∈ D) by (by apply Hle).
      eapply confined_bind; [apply confined_deref|]. intros g' _.
      eapply confined_bind; [by apply confined_reserve|]. intros _ _.
      apply confined_ret. by intros ? [= <-].
    + intros res Hres. apply confined_ret. split; simpl.
      * by intros ? ? [= <- <-].
      * done.
  - destruct (next le) as [r|] eqn:Hr.
    + assert (r ∈ D) by (by apply Hle).
      eapply confined_bind; [by apply confined_get_elem|]. intros re Hre.
      destruct (mempool re).
      * eapply confined_bind; [by apply confined_assigner_assign|].
        intros old Hold. apply confined_ret. split; simpl.
        -- by intros ? ? [= <- <-].
        -- done.
      * apply confined_ret. by split.
    + apply confined_ret. by split.
Qed.

Lemma confined_arithmetic fuel y g :
  y ∈ D -> confined (fun _ => True) (_gmx_sel_evaluate_arithmetic ev fuel y g).
Proof using Hev.
  intros Hy. unfold _gmx_sel_evaluate_arithmetic.
  pose proof (confined_children fuel y g Hy).
  eapply confined_bind; [by apply confined_sel_child|]. intros left Hl.
  eapply confined_bind; [by apply confined_get_elem|]. intros le Hle.
  eapply confined_bind; [by apply confined_arith_guards|].
  intros [a b] [Ha Hb]. simpl in *.
  pose proof (confined_arith_loop) as Hloop.
  conf_with ltac:(first [ eassumption
                        | solve [apply Hloop; conf_side]
                        | solve [apply confined_release; eauto]
                        | solve [edestruct Ha as [? ?]; [reflexivity|];
                                 by apply confined_assigner_restore]
                        | conf_known ]).
Qed.

End Functions.

(** Every call through an evaluation pointer of an element of [D]. *)
Lemma confined_sel_evaluate data fuel :
  forall y g, y ∈ D -> confined (fun _ => True) (sel_evaluate data fuel y g).
Proof.
  induction fuel as [|fuel IH]; intros y g Hy; simpl;
    [apply confined_throw|].
  eapply confined_bind; [by apply confined_get_elem|]. intros e He.
  destruct (evaluate e) as [[]|]; try apply confined_throw;
    eauto using confined_root, confined_static, confined_subexpr_simple,
      confined_subexpr_staticeval, confined_subexpr,
      confined_subexprref_simple, confined_subexprref, confined_method,
      confined_modifier, confined_not, confined_and, confined_or,
      confined_arithmetic.
Qed.

End Confined.

(** ** Boolean AND and OR: the children, one by one *)

(** One child evaluation made by a Boolean element: the child, the group
    it was evaluated over, the state in which its evaluation function was
    called, the state the call returned, and the value group of the child
    in that state. *)
Record child_eval := {
  ce_child : selid;
  ce_input : gmx_ana_index_t;
  ce_before : evalstate;
  ce_after : evalstate;
  ce_value : gmx_ana_index_t
}.

(** The child evaluation [step] was made from the state [s]: storage for
    [|ce_input|] values was reserved on the child, which gave
    [ce_before]; the child was evaluated over [ce_input] there, which gave
    [ce_after]; and [ce_value] is the value group of the child then. *)
Definition ran (ev : selid -> option gmx_ana_index_t -> M unit)
    (s : evalstate) (step : child_eval) : Prop :=
  _gmx_selelem_mempool_reserve (ce_child step) (isize (ce_input step)) s
    = Ok tt (ce_before step) /\
  ev (ce_child step) (Some (ce_input step)) (ce_before step)
    = Ok tt (ce_after step) /\
  value_group (ce_after step) (ce_child step) = Some (ce_value step).

(** Following the sibling links of [st] from [c] leads through the
    elements [cs], in this order, to [cend]. *)
Fixpoint follows (st : evalstate) (c : option selid) (cs : list selid)
    (cend : option selid) : Prop :=
  match cs with
  | [] => cend = c
  | x :: rest =>
      c = Some x /\
      exists e, elems st !! x = Some e /\ follows st (next e) rest cend
  end.

(** [D] holds the children of [sel] and everything below them, and does
    not hold [sel]: the element is not among its own descendants. *)
Definition below (st : evalstate) (sel : selid) (D : gset selid) : Prop :=
  (sel ∉ D) /\
  (forall e c, elems st !! sel = Some e -> child e = Some c -> c ∈ D) /\
  (forall x e, x ∈ D -> elems st !! x = Some e ->
     (forall c, child e = Some c -> c ∈ D) /\
     (forall n, next e = Some n -> n ∈ D)).

Section BoolSteps.
Variable ev : selid -> option gmx_ana_index_t -> M unit.
Variables (D : gset selid) (sel : selid) (l : loc) (st0 : evalstate).
Hypothesis Hconf :
  forall c g, c ∈ D -> confined D l (fun _ => True) (ev c g).
Hypothesis Hshape : forall c g, keeps (same shape) (ev c g).
Hypothesis HselD : sel ∉ D.

(** What holds between the child evaluations: the element's value store
    is its own, no element below points to it, and the tree has the shape
    it had in [st0]. *)
Definition bool_inv (s : evalstate) : Prop :=
  private sel l s /\ apart D l s /\ related (same shape) st0 s.

Lemma bool_inv_start :
  private sel l st0 -> below st0 sel D -> bool_inv st0.
Proof using HselD.
  intros Hp (_ & _ & Hcl). split; [done|]. split.
  - destruct Hp as (Hptr & (g0 & Hh) & Hex). split; [|by rewrite Hh].
    intros x e Hx He. split; [|by eapply Hcl].
    intros Hl. assert (x = sel) as ->; [|done].
    apply Hex. unfold sel_ptr. by rewrite He.
  - apply (related_refl _ (same_refl shape)).
Qed.

Lemma bool_inv_step s s' :
  bool_inv s -> apart D l s' -> untouched D l s s' ->
  related (same shape) s s' ->
  bool_inv s' /\ value_group s' sel = value_group s sel.
Proof using HselD.
  intros (Hp & Ha & Hr) Ha' [Hh He] Hr'.
  assert (Hp' : private sel l s').
  { destruct Hp as (Hptr & (g0 & Hg0) & Hex). split; [|split].
    - unfold sel_ptr in *. by rewrite He.
    - exists g0. by rewrite Hh.
    - intros c Hc. destruct (decide (c ∈ D)) as [Hin|Hout].
      + exfalso. unfold sel_ptr in Hc.
        destruct (elems s' !! c) as [e|] eqn:Hce; [|done]. simpl in Hc.
        destruct Ha' as [Ht _]. by destruct (Ht c e Hin Hce) as [Hne _].
      + apply Hex. unfold sel_ptr in *. by rewrite <- He. }
  split.
  - split; [done|]. split; [done|].
    by eapply (related_trans _ (same_trans shape)).
  - by apply (private_heap_value_group sel l).
Qed.

Lemma bool_inv_reserve c n s s1 :
  bool_inv s -> c ∈ D ->
  _gmx_selelem_mempool_reserve c n s = Ok tt s1 ->
  bool_inv s1 /\ value_group s1 sel = value_group s sel.
Proof using HselD.
  intros Hi Hc H. pose proof Hi as (_ & Ha & _).
  destruct (confined_reserve D l c n Hc _ _ _ Ha H) as (Ha1 & Hu & _).
  apply bool_inv_step; [done|done|done|].
  exact (keeps_reserve (same shape) (same_refl _) (same_trans _) shape_store
           c n _ _ _ H).
Qed.

Lemma bool_inv_release c s s1 :
  bool_inv s -> c ∈ D ->
  _gmx_selelem_mempool_release c s = Ok tt s1 ->
  bool_inv s1 /\ value_group s1 sel = value_group s sel.
Proof using HselD.
  intros Hi Hc H. pose proof Hi as (_ & Ha & _).
  destruct (confined_release D l c Hc _ _ _ Ha H) as (Ha1 & Hu & _).
  apply bool_inv_step; [done|done|done|].
  exact (keeps_release (same shape) (same_refl _) (same_trans _) shape_store
           c _ _ _ H).
Qed.

Lemma bool_inv_ev c g s s1 :
  bool_inv s -> c ∈ D -> ev c g s = Ok tt s1 ->
  bool_inv s1 /\ value_group s1 sel = value_group s sel.
Proof using Hconf Hshape HselD.
  intros Hi Hc H. pose proof Hi as (_ & Ha & _).
  destruct (Hconf c g Hc _ _ _ Ha H) as (Ha1 & Hu & _).
  apply bool_inv_step; [done|done|done|]. by eapply Hshape.
Qed.

(** Writing the element's own value group. *)
Lemma bool_inv_set_value g s s' :
  bool_inv s -> set_sel_vgroup sel g s = Ok tt s' ->
  bool_inv s' /\ value_group s' sel = Some g.
Proof using Type.
  intros (Hp & Ha & Hr) H.
  apply set_sel_vgroup_Ok in H as (l' & g1 & Hl' & Hh' & ->).
  assert (l' = l) as -> by (destruct Hp as (Hp & _); congruence).
  destruct (private_set_value sel l s g Hp) as [Hp' Hvg]. split; [|done].
  split; [done|]. split.
  - destruct Ha as [Ht Hl]. split; [exact Ht|]. simpl.
    rewrite lookup_insert_eq. eauto.
  - eapply (related_trans _ (same_trans shape)); [exact Hr|].
    by apply (related_same_elems _ (same_refl shape)).
Qed.

(** The sibling link of a child is the one it had at the start. *)
Lemma bool_inv_next c s e :
  bool_inv s -> c ∈ D -> elems s !! c = Some e ->
  (forall n, next e = Some n -> n ∈ D) /\
  exists e0, elems st0 !! c = Some e0 /\ next e0 = next e.
Proof using Type.
  intros (_ & [Ht _] & Hr) Hc He. split; [by eapply Ht|].
  specialize (Hr c). rewrite He in Hr.
  destruct (elems st0 !! c) as [e0|]; [|by inversion Hr].
  exists e0. split; [done|].
  assert (Hs : shape e = shape e0) by (by inversion Hr).
  unfold shape in Hs. congruence.
Qed.

(** A child evaluated under a pool reservation. *)
Lemma reserved_child_eval {A} c n gin (body : M A) s r s' :
  bool_inv s -> c ∈ D ->
  MempoolSelelemReserver c n (exec ev c gin; body) s = Ok r s' ->
  exists s1 s2 s3,
    _gmx_selelem_mempool_reserve c n s = Ok tt s1 /\
    ev c gin s1 = Ok tt s2 /\
    bool_inv s2 /\
    value_group s2 sel = value_group s sel /\
    body s2 = Ok r s3 /\
    _gmx_selelem_mempool_release c s3 = Ok tt s'.
Proof using Hconf Hshape HselD.
  intros Hi Hc H. unfold MempoolSelelemReserver in H.
  mbind H t s1 Hres. destruct t. mbind H r' s3 Hbody.
  mbind H t st'' Hrel. destruct t. apply ret_Ok in H as [<- <-].
  mbind Hbody t s2 Hrun. destruct t.
  destruct (bool_inv_reserve _ _ _ _ Hi Hc Hres) as [Hi1 Hv1].
  destruct (bool_inv_ev _ _ _ _ Hi1 Hc Hrun) as [Hi2 Hv2].
  exists s1, s2, s3. split; [done|]. split; [done|]. split; [done|].
  split; [congruence|]. split; done.
Qed.

End BoolSteps.

(** ** Boolean AND *)

(** The iterations of the loop of [_gmx_sel_evaluate_and] that lead from
    the state [s] to the state [s']: every child is evaluated over the
    value group the element has at that point, which is not empty; then
    the element's value group becomes its intersection with the value
    group of the child, and the storage of the child is released. *)
Fixpoint and_steps (ev : selid -> option gmx_ana_index_t -> M unit)
    (sel : selid) (s : evalstate) (steps : list child_eval)
    (s' : evalstate) : Prop :=
  match steps with
  | [] => s' = s
  | step :: rest =>
      value_group s sel = Some (ce_input step) /\
      0 < isize (ce_input step) /\
      ran ev s step /\
      exists s1,
        (exec set_sel_vgroup sel
                (gmx_ana_index_intersection (ce_input step) (ce_input step)
                   (ce_value step));
         _gmx_selelem_mempool_release (ce_child step)) (ce_after step)
          = Ok tt s1 /\
        and_steps ev sel s1 rest s'
  end.

Section BooleanAnd.
Variable ev : selid -> option gmx_ana_index_t -> M unit.
Variables (D : gset selid) (sel : selid) (l : loc) (st0 : evalstate).
Hypothesis Hconf :
  forall c g, c ∈ D -> confined D l (fun _ => True) (ev c g).
Hypothesis Hshape : forall c g, keeps (same shape) (ev c g).
Hypothesis HselD : sel ∉ D.

(** What is known of a run of the loop. *)
Definition and_loop_post (c : option selid) (s s' : evalstate) : Prop :=
  exists vg0 steps cend vg,
    value_group s sel = Some vg0 /\
    value_group s' sel = Some vg /\
    bool_inv D sel l st0 s' /\
    follows st0 c (ce_child <$> steps) cend /\
    (cend = None \/ isize vg <= 0) /\
    and_steps ev sel s steps s' /\
    (forall k step, steps !! k = Some step ->
       atoms (ce_input step)
       = inter_all (atoms vg0) (ce_value <$> take k steps) /\
       (isize vg0 = Z.of_nat (length (atoms vg0)) ->
        atoms (ce_input step) <> [])) /\
    atoms vg = inter_all (atoms vg0) (ce_value <$> steps) /\
    (steps <> [] -> isize vg = Z.of_nat (length (atoms vg))) /\
    (steps = [] -> s' = s).

Lemma and_no_steps (c : option selid) vg0 s :
  value_group s sel = Some vg0 -> bool_inv D sel l st0 s ->
  c = None \/ isize vg0 <= 0 ->
  and_loop_post c s s.
Proof using Type.
  intros Hvg Hi Hstop. exists vg0, [], c, vg0.
  split; [done|]. split; [done|]. split; [done|]. split; [done|].
  split; [done|]. split; [done|]. split.
  - intros k step Hk. by rewrite lookup_nil in Hk.
  - split; [done|]. split; done.
Qed.

Lemma and_loop_spec fuel : forall c s s',
  bool_inv D sel l st0 s -> (forall x, c = Some x -> x ∈ D) ->
  and_loop ev fuel sel c s = Ok tt s' ->
  and_loop_post c s s'.
Proof using Hconf Hshape HselD.
  induction fuel as [|fuel IH]; intros c s s' Hi Hc H.
  - pose proof Hi as (Hpriv & _).
    destruct (private_value_group sel l s Hpriv) as [vg0 Hvg0].
    destruct c as [c|]; simpl in H.
    + erewrite bind_eq in H by (apply sel_vgroup_Ok; eauto).
      destruct (0 <? isize vg0) eqn:Hpos; [discriminate|].
      apply ret_Ok in H as [_ <-].
      apply (and_no_steps _ vg0); [done|done|].
      right. apply Z.ltb_ge in Hpos. lia.
    + apply ret_Ok in H as [_ <-].
      apply (and_no_steps _ vg0); [done|done|]. by left.
  - pose proof Hi as (Hpriv & _).
    destruct (private_value_group sel l s Hpriv) as [vg0 Hvg0].
    destruct c as [c|]; simpl in H.
    + specialize (Hc c eq_refl).
      erewrite bind_eq in H by (apply sel_vgroup_Ok; eauto).
      destruct (0 <? isize vg0) eqn:Hpos.
      * mbind H t s4 Hstep. destruct t.
        apply (reserved_child_eval ev D sel l st0 Hconf Hshape HselD)
          in Hstep
          as (s1 & s2 & s3 & Hres & Hrun & Hi2 & Hvg2 & Hbody & Hrel);
          [|done|done].
        mbind Hbody vg' s5 Hvg'. apply sel_vgroup_Ok in Hvg' as [Hvg' <-].
        rewrite Hvg2, Hvg0 in Hvg'. apply (inj Some) in Hvg'. subst vg'.
        mbind Hbody cg s6 Hcg. apply sel_vgroup_Ok in Hcg as [Hcg <-].
        set (vg1 := gmx_ana_index_intersection vg0 vg0 cg) in *.
        destruct (bool_inv_set_value D sel l st0 vg1 _ _ Hi2 Hbody)
          as [Hi3 Hvg3].
        destruct (bool_inv_release D sel l st0 HselD c _ _ Hi3 Hc Hrel)
          as [Hi4 Hvg4]. rewrite Hvg3 in Hvg4.
        mbind H ce s7 Hce. apply get_elem_Ok in Hce as [Hce <-].
        destruct (bool_inv_next D sel l st0 c _ _ Hi4 Hc Hce)
          as [Hn (e0 & He0 & Hn0)].
        apply IH in H
          as (vg0' & steps & cend & vg & Hvg0' & Hvg & Hi' & Hturn & Hstop
              & Hsteps & Hins & Hfin & Hsize & Hsame); [|done|done].
        assert (vg0' = vg1) as -> by congruence.
        assert (Hat1 : atoms vg1 = filter (λ x, x ∈ atoms cg) (atoms vg0)).
        { unfold vg1, gmx_ana_index_intersection. by rewrite atoms_group_of. }
        set (step := {| ce_child := c; ce_input := vg0; ce_before := s1;
                        ce_after := s2; ce_value := cg |}).
        exists vg0, (step :: steps), cend, vg.
        split; [done|]. split; [done|]. split; [done|]. split.
        { simpl. split; [done|]. exists e0. split; [done|].
          by rewrite Hn0. }
        split; [done|]. split.
        { simpl. split; [done|]. split; [by apply Z.ltb_lt|].
          split; [by repeat split|]. exists s4. split; [|done].
          rewrite (bind_eq _ _ _ _ _ Hbody). exact Hrel. }
        split.
        { intros [|k] st1 Hk; simpl in Hk.
          - apply (inj Some) in Hk. subst st1. apply Z.ltb_lt in Hpos.
            split; [done|]. simpl. intros Hsz Hnil. rewrite Hnil in Hsz.
            simpl in Hsz. lia.
          - destruct (Hins k st1 Hk) as (Hin0 & Hne0). split.
            + rewrite Hin0. simpl. unfold inter_all. simpl. by rewrite Hat1.
            + intros _. apply Hne0. unfold vg1, gmx_ana_index_intersection.
              by rewrite atoms_group_of. }
        split.
        { rewrite Hfin. unfold inter_all. simpl. by rewrite Hat1. }
        split; [|done].
        intros _. destruct steps as [|s0 steps'].
        -- rewrite (Hsame eq_refl) in Hvg.
           assert (vg = vg1) as -> by congruence.
           unfold vg1, gmx_ana_index_intersection.
           by rewrite atoms_group_of.
        -- by apply Hsize.
      * apply ret_Ok in H as [_ <-].
        apply (and_no_steps _ vg0); [done|done|].
        right. apply Z.ltb_ge in Hpos. lia.
    + apply ret_Ok in H as [_ <-].
      apply (and_no_steps _ vg0); [done|done|]. by left.
Qed.

(** The whole evaluation, for children that stay below the element. *)
Lemma and_run_spec (fuel : nat) (g : gmx_ana_index_t) (st' : evalstate) :
  private sel l st0 -> below st0 sel D ->
  _gmx_sel_evaluate_and ev fuel sel (Some g) st0 = Ok tt st' ->
  exists first rest cend s1 vg,
    (exists c0 e0,
       sel_child sel st0 = Ok c0 st0 /\ elems st0 !! c0 = Some e0 /\
       (is_Some (evaluate e0) /\ ce_child first = c0 \/
        evaluate e0 = None /\ next e0 = Some (ce_child first))) /\
    follows st0 (Some (ce_child first)) (ce_child <$> first :: rest) cend /\
    ce_input first = g /\
    ran ev st0 first /\
    (exec set_sel_vgroup sel (gmx_ana_index_copy (ce_value first));
     _gmx_selelem_mempool_release (ce_child first)) (ce_after first)
      = Ok tt s1 /\
    and_steps ev sel s1 rest st' /\
    (forall k step, rest !! k = Some step ->
       atoms (ce_input step) <> [] /\
       atoms (ce_input step)
       = inter_all (atoms (ce_value first)) (ce_value <$> take k rest)) /\
    (cend = None \/ atoms vg = []) /\
    value_group st' sel = Some vg /\
    atoms vg = inter_all (atoms (ce_value first)) (ce_value <$> rest) /\
    (forall x, x ∈ atoms vg <->
               forall step, step ∈ first :: rest -> x ∈ atoms (ce_value step)).
Proof using Hconf Hshape HselD.
  intros Hpriv Hbelow H.
  pose proof (bool_inv_start D sel l st0 HselD Hpriv Hbelow) as Hi.
  destruct Hbelow as (_ & Hchild & Hclosed).
  unfold _gmx_sel_evaluate_and in H.
  mbind H c0 s0 Hc0. pose proof Hc0 as Hc0'.
  apply sel_child_Ok in Hc0' as [(es & Hes & Hch0) <-].
  assert (Hc0D : c0 ∈ D) by (by eapply Hchild).
  mbind H ce0 s1 Hce0. apply get_elem_Ok in Hce0 as [Hce0 <-].
  mbind H c s2 Hc.
  assert (s2 = st0 /\ c ∈ D /\
          (is_Some (evaluate ce0) /\ c = c0 \/
           evaluate ce0 = None /\ next ce0 = Some c)) as (-> & HcD & Hfirst).
  { destruct (evaluate ce0) as [f|].
    - apply ret_Ok in Hc as [<- <-]. split; [done|]. split; [done|].
      left. eauto.
    - apply deref_Ok in Hc as [Hc <-]. split; [done|].
      split; [by eapply Hclosed|]. by right. }
  mbind H g' s3 Hg. apply ret_Ok in Hg as [<- <-].
  mbind H t s4 Hstep. destruct t.
  apply (reserved_child_eval ev D sel l st0 Hconf Hshape HselD) in Hstep
    as (s5 & s6 & s7 & Hres & Hrun & Hi6 & Hvg6 & Hbody & Hrel);
    [|done|done].
  mbind Hbody cg s8 Hcg. apply sel_vgroup_Ok in Hcg as [Hcg <-].
  set (vg1 := gmx_ana_index_copy cg) in *.
  destruct (bool_inv_set_value D sel l st0 vg1 _ _ Hi6 Hbody) as [Hi7 Hvg7].
  destruct (bool_inv_release D sel l st0 HselD c _ _ Hi7 HcD Hrel)
    as [Hi4 Hvg4]. rewrite Hvg7 in Hvg4.
  mbind H ce s9 Hce. apply get_elem_Ok in Hce as [Hce <-].
  destruct (bool_inv_next D sel l st0 c _ _ Hi4 HcD Hce)
    as [Hn (e0 & He0 & Hn0)].
  apply and_loop_spec in H
    as (vg0' & steps & cend & vg & Hvg0' & Hvg & Hi' & Hturn & Hstop
        & Hsteps & Hins & Hfin & Hsize & Hsame); [|done|done].
  assert (vg0' = vg1) as -> by congruence.
  assert (Hat1 : atoms vg1 = atoms cg).
  { unfold vg1, gmx_ana_index_copy. by rewrite atoms_group_of. }
  assert (Hsz1 : isize vg1 = Z.of_nat (length (atoms vg1))).
  { unfold vg1, gmx_ana_index_copy. by rewrite atoms_group_of. }
  assert (Hszv : isize vg = Z.of_nat (length (atoms vg))).
  { destruct steps as [|s0 steps'].
    - rewrite (Hsame eq_refl) in Hvg. by assert (vg = vg1) as -> by congruence.
    - by apply Hsize. }
  set (first := {| ce_child := c; ce_input := g; ce_before := s5;
                   ce_after := s6; ce_value := cg |}).
  exists first, steps, cend, s4, vg. simpl.
  split; [exists c0, ce0; done|]. split.
  { split; [done|]. exists e0. split; [done|]. by rewrite Hn0. }
  split; [done|]. split; [by repeat split|]. split.
  { rewrite (bind_eq _ _ _ _ _ Hbody). exact Hrel. }
  split; [done|]. split.
  { intros k step Hk. destruct (Hins k step Hk) as (Hin & Hnon).
    split; [by apply Hnon|]. by rewrite Hin, Hat1. }
  split.
  { destruct Hstop as [->|Hz]; [by left|]. right.
    destruct (atoms vg); [done|]. simpl in Hszv. lia. }
  split; [done|]. split; [by rewrite Hfin, Hat1|].
  intros x. rewrite Hfin, Hat1, elem_of_inter_all. split.
  - intros [Hx Hall'] step Hs. apply elem_of_cons in Hs as [->|Hs]; [done|].
    apply Hall'. apply list_elem_of_fmap. eauto.
  - intros Hx. split; [apply (Hx first); by left|].
    intros o Ho. apply list_elem_of_fmap in Ho as (step & -> & Hs).
    apply Hx. by right.
Qed.

End BooleanAnd.

(** C2: an AND element is evaluated over [g], in a tree where its value
    group has a store of its own and the element is not among its own
    descendants ([D] holds its children and what is below them). Then the
    first child that has an evaluation function is evaluated over [g] and
    its value group is copied to the element; every further child, in the
    order of the sibling links, is evaluated over the value group the
    element has by then, the running intersection, which is not empty; the
    loop ends at the last sibling or as soon as the intersection is empty;
    and the element's value group is the intersection of the value groups
    of the children that were evaluated. The children are evaluated
    through their evaluation pointers, each in the state its predecessors
    left. *)
Theorem and_evaluates_running_intersection
    (data : gmx_sel_evaluate_t) (fuel : nat) (D : gset selid)
    (sel : selid) (l : loc) (g : gmx_ana_index_t) (st st' : evalstate) :
  let ev := sel_evaluate data fuel in
  private sel l st -> below st sel D ->
  _gmx_sel_evaluate_and ev fuel sel (Some g) st = Ok tt st' ->
  exists first rest cend s1 vg,
    (exists c0 e0,
       sel_child sel st = Ok c0 st /\ elems st !! c0 = Some e0 /\
       (is_Some (evaluate e0) /\ ce_child first = c0 \/
        evaluate e0 = None /\ next e0 = Some (ce_child first))) /\
    follows st (Some (ce_child first)) (ce_child <$> first :: rest) cend /\
    ce_input first = g /\
    ran ev st first /\
    (exec set_sel_vgroup sel (gmx_ana_index_copy (ce_value first));
     _gmx_selelem_mempool_release (ce_child first)) (ce_after first)
      = Ok tt s1 /\
    and_steps ev sel s1 rest st' /\
    (forall k step, rest !! k = Some step ->
       atoms (ce_input step) <> [] /\
       atoms (ce_input step)
       = inter_all (atoms (ce_value first)) (ce_value <$> take k rest)) /\
    (cend = None \/ atoms vg = []) /\
    value_group st' sel = Some vg /\
    atoms vg = inter_all (atoms (ce_value first)) (ce_value <$> rest) /\
    (forall x, x ∈ atoms vg <->
               forall step, step ∈ first :: rest -> x ∈ atoms (ce_value step)).
Proof.
  intros ev Hpriv Hbelow H.
  apply (and_run_spec ev D sel l st
           (fun c h Hc => confined_sel_evaluate D l data fuel c h Hc)
           (shape_sel_evaluate data fuel) (proj1 Hbelow) fuel g st'
           Hpriv Hbelow H).
Qed.

(** ** Boolean OR *)

(** The iterations of the loop of [_gmx_sel_evaluate_or] that lead from
    the state [s] to the state [s'], [tmp] being the part of the group
    that is not covered yet: every child is evaluated over [tmp], which is
    not empty; its storage is released; the part of [tmp] found in its
    value group is appended to the element's value group, and the rest is
    what the next child is evaluated over. *)
Fixpoint or_steps (ev : selid -> option gmx_ana_index_t -> M unit)
    (sel : selid) (s : evalstate) (tmp : gmx_ana_index_t)
    (steps : list child_eval) (s' : evalstate) : Prop :=
  match steps with
  | [] => s' = s
  | step :: rest =>
      ce_input step = set_name tmp None /\
      0 < isize tmp /\
      ran ev s step /\
      exists s1,
        (exec _gmx_selelem_mempool_release (ce_child step);
         do vg <- sel_vgroup sel;
         set_sel_vgroup sel
           (group_of (name vg)
              (atoms vg ++ filter (λ x, x ∈ atoms (ce_value step))
                             (atoms (ce_input step))))) (ce_after step)
          = Ok tt s1 /\
        or_steps ev sel s1
          (group_of None (filter (λ x, x ∉ atoms (ce_value step))
                            (atoms (ce_input step)))) rest s'
  end.

Section BooleanOr.
Variable ev : selid -> option gmx_ana_index_t -> M unit.
Variables (D : gset selid) (sel : selid) (l : loc) (st0 : evalstate).
Hypothesis Hconf :
  forall c g, c ∈ D -> confined D l (fun _ => True) (ev c g).
Hypothesis Hshape : forall c g, keeps (same shape) (ev c g).
Hypothesis HselD : sel ∉ D.

(** What is known of a run of the loop. *)
Definition or_loop_post (c : option selid) (tmp : gmx_ana_index_t)
    (s s' : evalstate) : Prop :=
  exists vg0 steps cend vg rem,
    value_group s sel = Some vg0 /\
    value_group s' sel = Some vg /\
    bool_inv D sel l st0 s' /\
    follows st0 c (ce_child <$> steps) cend /\
    (cend = None \/ isize rem <= 0) /\
    atoms rem = remainder (atoms tmp) (ce_value <$> steps) /\
    (isize tmp = Z.of_nat (length (atoms tmp)) ->
     isize rem = Z.of_nat (length (atoms rem))) /\
    or_steps ev sel s tmp steps s' /\
    (forall k step, steps !! k = Some step ->
       atoms (ce_input step)
       = remainder (atoms tmp) (ce_value <$> take k steps) /\
       (isize tmp = Z.of_nat (length (atoms tmp)) ->
        atoms (ce_input step) <> [])) /\
    atoms vg = atoms vg0 ++ gathered (atoms tmp) (ce_value <$> steps).

Lemma or_no_steps (c : option selid) tmp vg0 s :
  value_group s sel = Some vg0 -> bool_inv D sel l st0 s ->
  c = None \/ isize tmp <= 0 ->
  or_loop_post c tmp s s.
Proof using Type.
  intros Hvg Hi Hstop. exists vg0, [], c, vg0, tmp.
  split; [done|]. split; [done|]. split; [done|]. split; [done|].
  split; [done|]. split; [done|]. split; [done|]. split; [done|].
  split.
  - intros k step Hk. by rewrite lookup_nil in Hk.
  - simpl. by rewrite app_nil_r.
Qed.

Lemma or_loop_spec fuel : forall c tmp s s',
  bool_inv D sel l st0 s -> (forall x, c = Some x -> x ∈ D) ->
  or_loop ev fuel sel c tmp s = Ok tt s' ->
  or_loop_post c tmp s s'.
Proof using Hconf Hshape HselD.
  induction fuel as [|fuel IH]; intros c tmp s s' Hi Hc H.
  - pose proof Hi as (Hpriv & _).
    destruct (private_value_group sel l s Hpriv) as [vg0 Hvg0].
    destruct c as [c|]; simpl in H.
    + destruct (0 <? isize tmp) eqn:Hpos; [discriminate|].
      apply ret_Ok in H as [_ <-].
      apply (or_no_steps _ tmp vg0); [done|done|].
      right. apply Z.ltb_ge in Hpos. lia.
    + apply ret_Ok in H as [_ <-].
      apply (or_no_steps _ tmp vg0); [done|done|]. by left.
  - pose proof Hi as (Hpriv & _).
    destruct (private_value_group sel l s Hpriv) as [vg0 Hvg0].
    destruct c as [c|]; simpl in H.
    + specialize (Hc c eq_refl).
      destruct (0 <? isize tmp) eqn:Hpos.
      * mbind H parts s4 Hstep.
        apply (reserved_child_eval ev D sel l st0 Hconf Hshape HselD)
          in Hstep
          as (s1 & s2 & s3 & Hres & Hrun & Hi2 & Hvg2 & Hbody & Hrel);
          [|done|done].
        mbind Hbody cg s5 Hcg. apply sel_vgroup_Ok in Hcg as [Hcg <-].
        apply ret_Ok in Hbody as [<- <-].
        destruct (bool_inv_release D sel l st0 HselD c _ _ Hi2 Hc Hrel)
          as [Hi4 Hvg4].
        rewrite Hvg2, Hvg0 in Hvg4.
        simpl in H.
        mbind H vg s6 Hvg. pose proof Hvg as Hvg_run.
        apply sel_vgroup_Ok in Hvg as [Hvg <-].
        assert (vg = vg0) as -> by congruence.
        mbind H t s7 Hset. destruct t.
        set (tmp0 := set_name tmp None) in *.
        set (ins := filter (λ x, x ∈ atoms cg) (atoms tmp0)) in *.
        set (outs := filter (λ x, x ∉ atoms cg) (atoms tmp0)) in *.
        rewrite atoms_group_of in Hset.
        set (vg1 := group_of (name vg0) (atoms vg0 ++ ins)) in *.
        destruct (bool_inv_set_value D sel l st0 vg1 _ _ Hi4 Hset)
          as [Hi5 Hvg5].
        mbind H ce s8 Hce. apply get_elem_Ok in Hce as [Hce <-].
        destruct (bool_inv_next D sel l st0 c _ _ Hi5 Hc Hce)
          as [Hn (e0 & He0 & Hn0)].
        apply IH in H
          as (vg0' & steps & cend & vg & rem & Hvg0' & Hvg' & Hi' & Hturn
              & Hstop & Hrem & Hremsz & Hsteps & Hins & Hfin);
          [|done|done].
        assert (vg0' = vg1) as -> by congruence.
        assert (Hat0 : atoms tmp0 = atoms tmp) by done.
        set (tmp' := {| isize := Z.of_nat (length outs); index := outs;
                        name := None |}) in *.
        assert (Hat' : atoms tmp' = filter (λ x, x ∉ atoms cg) (atoms tmp)).
        { change (atoms tmp') with (atoms (group_of None outs)).
          rewrite atoms_group_of. unfold outs. by rewrite Hat0. }
        assert (Hsz' : isize tmp' = Z.of_nat (length (atoms tmp'))).
        { change (atoms tmp') with (atoms (group_of None outs)).
          by rewrite atoms_group_of. }
        set (step := {| ce_child := c; ce_input := tmp0; ce_before := s1;
                        ce_after := s2; ce_value := cg |}).
        exists vg0, (step :: steps), cend, vg, rem.
        split; [done|]. split; [done|]. split; [done|]. split.
        { simpl. split; [done|]. exists e0. split; [done|]. by rewrite Hn0. }
        split; [done|]. split.
        { rewrite Hrem, Hat'. reflexivity. }
        split; [intros _; by apply Hremsz|]. split.
        { simpl. split; [done|]. split; [by apply Z.ltb_lt|].
          split; [by repeat split|]. exists s7. split; [|exact Hsteps].
          rewrite (bind_eq _ _ _ _ _ Hrel), (bind_eq _ _ _ _ _ Hvg_run).
          exact Hset. }
        split.
        { intros [|k] st1 Hk; simpl in Hk.
          - apply (inj Some) in Hk. subst st1. apply Z.ltb_lt in Hpos.
            split; [done|]. simpl. intros Hsz Hnil.
            change (atoms tmp0) with (atoms tmp) in Hnil.
            rewrite Hnil in Hsz. simpl in Hsz. lia.
          - destruct (Hins k st1 Hk) as (Hin0 & Hne0). split.
            + rewrite Hin0, Hat'. reflexivity.
            + intros _. by apply Hne0. }
        rewrite Hfin. unfold vg1. rewrite !atoms_group_of, Hat', <- app_assoc.
        reflexivity.
      * apply ret_Ok in H as [_ <-].
        apply (or_no_steps _ tmp vg0); [done|done|].
        right. apply Z.ltb_ge in Hpos. lia.
    + apply ret_Ok in H as [_ <-].
      apply (or_no_steps _ tmp vg0); [done|done|]. by left.
Qed.

(** The whole evaluation, for children that stay below the element. *)
Lemma or_run_spec (fuel : nat) (g : gmx_ana_index_t) (st' : evalstate) :
  private sel l st0 -> below st0 sel D ->
  _gmx_sel_evaluate_or ev fuel sel (Some g) st0 = Ok tt st' ->
  exists first rest cend vg0 s1 s2 vgu vg,
    sel_child sel st0 = Ok (ce_child first) st0 /\
    ce_input first = g /\
    value_group st0 sel = Some vg0 /\
    (exists e0, elems st0 !! ce_child first = Some e0 /\
       (is_Some (evaluate e0) /\ ran ev st0 first /\
        (exec set_sel_vgroup sel
                (group_of (name vg0)
                   (filter (λ x, x ∈ atoms (ce_value first)) (atoms g)));
         _gmx_selelem_mempool_release (ce_child first)) (ce_after first)
          = Ok tt s1
        \/
        evaluate e0 = None /\
        value_group st0 (ce_child first) = Some (ce_value first) /\
        set_sel_vgroup sel
          (group_of (name vg0)
             (filter (λ x, x ∈ atoms (ce_value first)) (atoms g))) st0
          = Ok tt s1)) /\
    or_steps ev sel s1
      (group_of None (filter (λ x, x ∉ atoms (ce_value first)) (atoms g)))
      rest s2 /\
    value_group s2 sel = Some vgu /\
    set_sel_vgroup sel (gmx_ana_index_sort vgu) s2 = Ok tt st' /\
    follows st0 (Some (ce_child first)) (ce_child <$> first :: rest) cend /\
    (forall k step, rest !! k = Some step ->
       atoms (ce_input step) <> [] /\
       atoms (ce_input step)
       = remainder (atoms g) (ce_value <$> first :: take k rest)) /\
    (cend = None \/
     remainder (atoms g) (ce_value <$> first :: rest) = []) /\
    value_group st' sel = Some vg /\
    Sorted Z.le (atoms vg) /\
    (forall x, x ∈ atoms vg <->
               x ∈ atoms g /\
               exists step, step ∈ first :: rest /\ x ∈ atoms (ce_value step)).
Proof using Hconf Hshape HselD.
  intros Hpriv Hbelow H.
  pose proof (bool_inv_start D sel l st0 HselD Hpriv Hbelow) as Hi.
  destruct Hbelow as (_ & Hchild & Hclosed).
  destruct (private_value_group sel l st0 Hpriv) as [vg0 Hvg0].
  unfold _gmx_sel_evaluate_or in H.
  mbind H c s0 Hc. pose proof Hc as Hc'.
  apply sel_child_Ok in Hc' as [(es & Hes & Hch0) <-].
  assert (HcD : c ∈ D) by (by eapply Hchild).
  mbind H ce s1 Hce. apply get_elem_Ok in Hce as [Hce <-].
  mbind H tmp s4 Htmp.
  assert (Hfirst : exists cg sb sa,
    let first := {| ce_child := c; ce_input := g; ce_before := sb;
                    ce_after := sa; ce_value := cg |} in
    let ins := group_of (name vg0) (filter (λ x, x ∈ atoms cg) (atoms g)) in
    bool_inv D sel l st0 s4 /\
    value_group s4 sel = Some ins /\
    tmp = group_of None (filter (λ x, x ∉ atoms cg) (atoms g)) /\
    (is_Some (evaluate ce) /\ ran ev st0 first /\
     (exec set_sel_vgroup sel ins; _gmx_selelem_mempool_release c) sa
       = Ok tt s4
     \/
     evaluate ce = None /\ value_group st0 c = Some cg /\
     set_sel_vgroup sel ins st0 = Ok tt s4)).
  { destruct (evaluate ce) as [f|] eqn:Hevf.
    - mbind Htmp g' s2 Hg. apply ret_Ok in Hg as [<- <-].
      apply (reserved_child_eval ev D sel l st0 Hconf Hshape HselD) in Htmp
        as (s5 & s6 & s7 & Hres & Hrun & Hi6 & Hvg6 & Hbody & Hrel);
        [|done|done].
      mbind Hbody vg s8 Hvg. apply sel_vgroup_Ok in Hvg as [Hvg <-].
      rewrite Hvg6, Hvg0 in Hvg. apply (inj Some) in Hvg. subst vg.
      mbind Hbody cg s9 Hcg. apply sel_vgroup_Ok in Hcg as [Hcg <-].
      simpl in Hbody. mbind Hbody t s10 Hset. destruct t.
      apply ret_Ok in Hbody as [<- <-].
      destruct (bool_inv_set_value D sel l st0 _ _ _ Hi6 Hset)
        as [Hi7 Hvg7].
      destruct (bool_inv_release D sel l st0 HselD c _ _ Hi7 HcD Hrel)
        as [Hi4 Hvg4]. rewrite Hvg7 in Hvg4.
      exists cg, s5, s6. simpl. split; [done|]. split; [done|].
      split; [done|]. left. split; [eauto|]. split; [by repeat split|].
      rewrite (bind_eq _ _ _ _ _ Hset). exact Hrel.
    - mbind Htmp vg s7 Hvg. apply sel_vgroup_Ok in Hvg as [Hvg <-].
      rewrite Hvg0 in Hvg. apply (inj Some) in Hvg. subst vg.
      mbind Htmp g' s2 Hg. apply ret_Ok in Hg as [<- <-].
      mbind Htmp cg s8 Hcg. apply sel_vgroup_Ok in Hcg as [Hcg <-].
      simpl in Htmp. mbind Htmp t s9 Hset. destruct t.
      apply ret_Ok in Htmp as [<- <-].
      destruct (bool_inv_set_value D sel l st0 _ _ _ Hi Hset)
        as [Hi7 Hvg7].
      exists cg, st0, st0. simpl. split; [done|]. split; [done|].
      split; [done|]. right. done. }
  destruct Hfirst as (cg & sb & sa & Hi4 & Hvg4 & -> & Hfst).
  mbind H ce' s5 Hce'. apply get_elem_Ok in Hce' as [Hce' <-].
  destruct (bool_inv_next D sel l st0 c _ _ Hi4 HcD Hce')
    as [Hn (e0 & He0 & Hn0)].
  assert (e0 = ce) as -> by congruence.
  mbind H t s6 Hloop. destruct t.
  apply or_loop_spec in Hloop
    as (vg0' & steps & cend & vg & rem & Hvg0' & Hvg' & Hi' & Hturn
        & Hstop & Hrem & Hremsz & Hsteps & Hins & Hfin); [|done|done].
  rewrite Hvg4 in Hvg0'. apply (inj Some) in Hvg0'. subst vg0'.
  rewrite !atoms_group_of in *. rewrite isize_group_of in *.
  mbind H vg2 s7 Hvg2. apply sel_vgroup_Ok in Hvg2 as [Hvg2 <-].
  assert (vg2 = vg) as -> by congruence.
  destruct (bool_inv_set_value D sel l st0 _ _ _ Hi' H) as [Hi7 Hvg7].
  set (first := {| ce_child := c; ce_input := g; ce_before := sb;
                   ce_after := sa; ce_value := cg |}).
  exists first, steps, cend, vg0, s4, s6, vg, (gmx_ana_index_sort vg). simpl.
  split; [done|]. split; [done|]. split; [done|]. split.
  { exists ce. split; [done|]. exact Hfst. }
  split; [done|]. split; [done|]. split; [done|]. split.
  { split; [done|]. exists ce. split; [done|]. by rewrite Hn0. }
  split.
  { intros k step Hk. destruct (Hins k step Hk) as (Hin & Hnon).
    split; [by apply Hnon|]. rewrite Hin. reflexivity. }
  split.
  { destruct Hstop as [->|Hz]; [by left|]. right.
    specialize (Hremsz eq_refl).
    change (remainder (filter (λ x, x ∉ atoms cg) (atoms g))
              (ce_value <$> steps) = []).
    rewrite <- Hrem. destruct (atoms rem); [done|]. simpl in Hremsz. lia. }
  split; [done|].
  unfold gmx_ana_index_sort. rewrite atoms_group_of. split.
  { apply Sorted_merge_sort. apply _. }
  intros x. rewrite merge_sort_Permutation, Hfin.
  change (filter (λ x0, x0 ∈ atoms cg) (atoms g)
          ++ gathered (filter (λ x0, x0 ∉ atoms cg) (atoms g))
               (ce_value <$> steps))
    with (gathered (atoms g) (cg :: (ce_value <$> steps))).
  rewrite elem_of_gathered. split.
  - intros [Hx (o & Ho & Hxo)]. split; [done|].
    apply elem_of_cons in Ho as [->|Ho].
    + exists first. split; [by left|done].
    + apply list_elem_of_fmap in Ho as (step & -> & Hs).
      exists step. split; [by right|done].
  - intros [Hx (step & Hs & Hxs)]. split; [done|].
    apply elem_of_cons in Hs as [->|Hs].
    + exists cg. split; [by left|done].
    + exists (ce_value step). split; [|done]. right.
      apply list_elem_of_fmap. eauto.
Qed.

End BooleanOr.

(** C3: an OR element is evaluated over [g], in a tree where its value
    group has a store of its own and the element is not among its own
    descendants ([D] holds its children and what is below them). Then the
    first child is evaluated over [g] if it has an evaluation function and
    contributes the value group it has if not; every further child, in the
    order of the sibling links, is evaluated over what the earlier value
    groups left of [g], which is not empty; the loop ends at the last
    sibling or as soon as nothing is left; and the element's value group
    is sorted and holds exactly the atoms of [g] that are in the value
    group of one of these children. The children are evaluated through
    their evaluation pointers, each in the state its predecessors left. *)
Theorem or_evaluates_remainder
    (data : gmx_sel_evaluate_t) (fuel : nat) (D : gset selid)
    (sel : selid) (l : loc) (g : gmx_ana_index_t) (st st' : evalstate) :
  let ev := sel_evaluate data fuel in
  private sel l st -> below st sel D ->
  _gmx_sel_evaluate_or ev fuel sel (Some g) st = Ok tt st' ->
  exists first rest cend vg0 s1 s2 vgu vg,
    sel_child sel st = Ok (ce_child first) st /\
    ce_input first = g /\
    value_group st sel = Some vg0 /\
    (exists e0, elems st !! ce_child first = Some e0 /\
       (is_Some (evaluate e0) /\ ran ev st first /\
        (exec set_sel_vgroup sel
                (group_of (name vg0)
                   (filter (λ x, x ∈ atoms (ce_value first)) (atoms g)));
         _gmx_selelem_mempool_release (ce_child first)) (ce_after first)
          = Ok tt s1
        \/
        evaluate e0 = None /\
        value_group st (ce_child first) = Some (ce_value first) /\
        set_sel_vgroup sel
          (group_of (name vg0)
             (filter (λ x, x ∈ atoms (ce_value first)) (atoms g))) st
          = Ok tt s1)) /\
    or_steps ev sel s1
      (group_of None (filter (λ x, x ∉ atoms (ce_value first)) (atoms g)))
      rest s2 /\
    value_group s2 sel = Some vgu /\
    set_sel_vgroup sel (gmx_ana_index_sort vgu) s2 = Ok tt st' /\
    follows st (Some (ce_child first)) (ce_child <$> first :: rest) cend /\
    (forall k step, rest !! k = Some step ->
       atoms (ce_input step) <> [] /\
       atoms (ce_input step)
       = remainder (atoms g) (ce_value <$> first :: take k rest)) /\
    (cend = None \/
     remainder (atoms g) (ce_value <$> first :: rest) = []) /\
    value_group st' sel = Some vg /\
    Sorted Z.le (atoms vg) /\
    (forall x, x ∈ atoms vg <->
               x ∈ atoms g /\
               exists step, step ∈ first :: rest /\ x ∈ atoms (ce_value step)).
Proof.
  intros ev Hpriv Hbelow H.
  apply (or_run_spec ev D sel l st
           (fun c h Hc => confined_sel_evaluate D l data fuel c h Hc)
           (shape_sel_evaluate data fuel) (proj1 Hbelow) fuel g st'
           Hpriv Hbelow H).
Qed.

End Evaluator.

Arguments Ok {ext A} a st.
Arguments Throw {ext A} e.

(** * Concrete selections

    The externals are instantiated with integers for [real] and trivial
    frame, topology and position types; the element trees below are the
    scenarios the properties are exercised on. *)

#[local] Instance zext : externals := {|
  real := Z; real_zero := 0;
  real_plus := Z.add; real_minus := Z.sub; real_mult := Z.mul;
  real_div := Z.div; real_pow := Z.pow; real_neg := Z.opp;
  gmx_ana_pos_t := unit; t_topology := unit; t_trxframe := unit;
  t_pbc := unit; method_data := nat; gmx_ana_poscalc_t := unit;
  gmx_ana_poscalc_update := fun _ p _ _ _ => p;
  gmx_ana_pos_reserve := fun _ => tt
|}.

Definition mk_value (t : e_selvalue_t) (p : option loc)
  : gmx_ana_selvalue_t :=
  {| vtype := t; nr := 0; nalloc := 0; ptr := p |}.

Definition mk_elem (ty : e_selelem_t) (val : gmx_ana_selvalue_t)
    (fl : Z) (ch nx : option selid) (evf : option sel_evalfunc)
    (pool : bool) (payload : selelem_u) : t_selelem :=
  {| type := ty; v := val; flags := fl; child := ch; next := nx;
     evaluate := evf; mempool := pool; u := payload |}.

Definition empty_group (nm : option string) : gmx_ana_index_t :=
  {| isize := 0; index := []; name := nm |}.

Definition frame_data : gmx_sel_evaluate_t :=
  {| gall := group_of None (seqZ 0 10); top := tt; fr := tt; pbc := None |}.

(** The state a run ends in (the start state if it fails). *)
Definition final_state (o : outcome unit) (st : evalstate) : evalstate :=
  match o with Ok _ st' => st' | Throw _ => st end.

(** A method that maps atom [i] to the integer [10 * i]. *)
Definition times10 : gmx_ana_selmethod_t :=
  {| init_frame := None;
     update := Some (fun _ _ _ g md =>
       (OutVec (map (fun i => IntV (10 * i))
                    (match g with Some g' => atoms g' | None => [] end)),
        md));
     pupdate := None |}.

(** ** A general subexpression over [times10] *)

Definition subexpr_tree : evalstate :=
  {| elems := {[
       1%nat := mk_elem SEL_SUBEXPR (mk_value INT_VALUE (Some 10%nat)) 0
                  (Some 2%nat) None (Some EVAL_subexpr) false
                  (U_cgrp (empty_group (Some "cached"%string)));
       2%nat := mk_elem SEL_EXPRESSION (mk_value INT_VALUE None) 0
                  None None (Some EVAL_method) true
                  (U_expr {| method := Some times10; mdata := 0%nat;
                             pc := None; pos := tt |}) ]};
     heap := {[ 10%nat := SVec ∅ ]};
     calls := [] |}.

Definition call (fuel : nat) : selid -> option gmx_ana_index_t -> M unit :=
  sel_evaluate frame_data fuel.

Definition subexpr_after (gs : list (list Z)) : evalstate :=
  foldl (fun st l =>
           final_state (call 5 1%nat (Some (group_of (Some "passed"%string) l))
                          st) st)
        subexpr_tree gs.

Example subexpr_first_call :
  cached_group (subexpr_after [[0; 2; 4]]) 1%nat
    = Some (group_of (Some "cached"%string) [0; 2; 4]) /\
  map (value_cell (subexpr_after [[0; 2; 4]]) 1%nat) [0; 1; 2]
    = [Some (IntV 0); Some (IntV 20); Some (IntV 40)].
Proof. split; vm_compute; reflexivity. Qed.

(** Witness for C7: the second evaluation over [{0, 2, 4}] changes
    nothing. *)
Lemma subexpr_reevaluation_is_identity_witness :
  let st := subexpr_after [[0; 2; 4]] in
  let g := group_of (Some "passed"%string) [0; 2; 4] in
  let cgrp := group_of (Some "cached"%string) [0; 2; 4] in
  cached_group st 1%nat = Some cgrp /\
  isize cgrp <> 0 /\
  (forall x, x ∈ atoms g -> x ∈ atoms cgrp) /\
  _gmx_sel_evaluate_subexpr (call 4) 1%nat (Some g) st = Ok tt st.
Proof.
  intros st g cgrp.
  assert (H1 : cached_group st 1%nat = Some cgrp) by (vm_compute; reflexivity).
  assert (H2 : isize cgrp <> 0) by (vm_compute; discriminate).
  assert (H3 : forall x, x ∈ atoms g -> x ∈ atoms cgrp) by (intros x Hx; exact Hx).
  split; [exact H1|]. split; [exact H2|]. split; [exact H3|].
  exact (subexpr_reevaluation_is_identity (call 4) 1%nat g cgrp st H1 H2 H3).
Defined.

(** Witness for C9: a first call with a group named "passed" leaves the
    cached group named "cached", for both evaluation functions. *)
Lemma subexpr_cgrp_keeps_its_name_witness :
  let ev : selid -> option gmx_ana_index_t -> M unit := fun _ _ => ret tt in
  let g := group_of (Some "passed"%string) [0; 2; 4] in
  let cgrp := empty_group (Some "cached"%string) in
  let st' := final_state
               (_gmx_sel_evaluate_subexpr ev 1%nat (Some g) subexpr_tree)
               subexpr_tree in
  (forall c h s s', ev c h s = Ok tt s' ->
                    cached_group s' 1%nat = cached_group s 1%nat) /\
  cached_group subexpr_tree 1%nat = Some cgrp /\
  isize cgrp = 0 /\
  _gmx_sel_evaluate_subexpr ev 1%nat (Some g) subexpr_tree = Ok tt st' /\
  exists cgrp', cached_group st' 1%nat = Some cgrp' /\
                name cgrp' = Some "cached"%string /\
                atoms cgrp' = [0; 2; 4].
Proof.
  intros ev g cgrp st'.
  assert (H1 : forall c h s s', ev c h s = Ok tt s' ->
                 cached_group s' 1%nat = cached_group s 1%nat).
  { intros c h s s' H. unfold ev, ret in H. by inversion H. }
  assert (H2 : cached_group subexpr_tree 1%nat = Some cgrp)
    by (vm_compute; reflexivity).
  assert (H3 : isize cgrp = 0) by reflexivity.
  assert (H4 : _gmx_sel_evaluate_subexpr ev 1%nat (Some g) subexpr_tree
               = Ok tt st') by (vm_compute; reflexivity).
  split; [exact H1|]. split; [exact H2|]. split; [exact H3|].
  split; [exact H4|].
  exact (subexpr_cgrp_keeps_its_name ev 1%nat g cgrp subexpr_tree st'
           H1 H2 H3 (or_introl H4)).
Defined.

(** ** Boolean NOT over a constant group (scenario 1) *)

Definition not_tree : evalstate :=
  {| elems := {[
       1%nat := mk_elem SEL_BOOLEAN (mk_value GROUP_VALUE (Some 10%nat)) 0
                  (Some 2%nat) None (Some EVAL_not) false (U_boolt BOOL_NOT);
       2%nat := mk_elem SEL_CONST (mk_value GROUP_VALUE (Some 11%nat)) 0
                  None None (Some EVAL_static) true
                  (U_cgrp (group_of None [2; 4; 6])) ]};
     heap := {[ 10%nat := SGroup (empty_group None);
                11%nat := SGroup (empty_group None) ]};
     calls := [] |}.

(** Witness for C4: NOT of [{2, 4, 6}] over [{0..9}]. *)
Lemma not_evaluates_to_difference_witness :
  let g := group_of None (seqZ 0 10) in
  let st' := final_state
               (_gmx_sel_evaluate_not (call 4) 1%nat (Some g) not_tree)
               not_tree in
  _gmx_sel_evaluate_not (call 4) 1%nat (Some g) not_tree = Ok tt st' /\
  value_group st' 1%nat = Some (group_of None [0; 1; 3; 5; 7; 8; 9]) /\
  exists c st1 st2 cg,
    (exists e, elems not_tree !! 1%nat = Some e /\ child e = Some c) /\
    _gmx_selelem_mempool_reserve c (isize g) not_tree = Ok tt st1 /\
    call 4 c (Some g) st1 = Ok tt st2 /\
    value_group st2 c = Some cg /\
    (sel_ptr st2 1%nat <> sel_ptr st2 c ->
     exists vg, value_group st' 1%nat = Some vg /\
                atoms vg = filter (λ x, x ∉ atoms cg) (atoms g) /\
                atomset vg = atomset g ∖ atomset cg).
Proof.
  intros g st'.
  assert (H : _gmx_sel_evaluate_not (call 4) 1%nat (Some g) not_tree
              = Ok tt st') by (vm_compute; reflexivity).
  split; [exact H|]. split; [vm_compute; reflexivity|].
  exact (not_evaluates_to_difference (call 4) 1%nat g not_tree st' H).
Defined.

(** ** A position-valued general subexpression *)

Definition pos_method : gmx_ana_selmethod_t :=
  {| init_frame := None;
     update := Some (fun _ _ _ _ md => (OutPos tt, md));
     pupdate := None |}.

Definition pos_tree (cgrp : gmx_ana_index_t) : evalstate :=
  {| elems := {[
       1%nat := mk_elem SEL_SUBEXPR (mk_value POS_VALUE (Some 10%nat)) 0
                  (Some 2%nat) None (Some EVAL_subexpr) false (U_cgrp cgrp);
       2%nat := mk_elem SEL_EXPRESSION (mk_value POS_VALUE None) 0
                  None None (Some EVAL_method) true
                  (U_expr {| method := Some pos_method; mdata := 0%nat;
                             pc := None; pos := tt |}) ]};
     heap := {[ 10%nat := SPos tt ]};
     calls := [] |}.

(** Counterexample for C5 as stated: the first call of a frame on a
    position-valued general subexpression completes (the child is
    evaluated once, over the whole group) and nothing is signalled. *)
Lemma subexpr_pos_first_call_completes :
  let g := group_of None [1; 2] in
  let st := pos_tree (empty_group None) in
  (exists e, elems st !! 1%nat = Some e /\ vtype (v e) = POS_VALUE /\
             evaluate e = Some EVAL_subexpr) /\
  exists st',
    _gmx_sel_evaluate_subexpr (call 4) 1%nat (Some g) st = Ok tt st' /\
    calls st' = [CallUpdate 2%nat (Some g)] /\
    cached_group st' 1%nat = Some g.
Proof.
  intros g st. split.
  - eexists. split; [vm_compute; reflexivity|]. split; reflexivity.
  - eexists. split; [vm_compute; reflexivity|]. split; reflexivity.
Qed.

(** Witness for C5 as the code has it, with children that do nothing: a
    first call, a call over a covered group and a call with a missing
    atom. *)
Lemma subexpr_pos_not_implemented_only_on_merge_witness :
  let ev : selid -> option gmx_ana_index_t -> M unit := fun _ _ => ret tt in
  let st0 := pos_tree (empty_group None) in
  let st := pos_tree (group_of None [1; 2]) in
  (forall c h, quiet (ev c h)) /\
  (forall msg, _gmx_sel_evaluate_subexpr ev 1%nat
                 (Some (group_of None [1; 2])) st0
               <> Throw (NotImplementedError msg)) /\
  _gmx_sel_evaluate_subexpr ev 1%nat (Some (group_of None [1; 2])) st
    = Ok tt st /\
  _gmx_sel_evaluate_subexpr ev 1%nat (Some (group_of None [1; 2; 3])) st
    = Throw (NotImplementedError
               "position subexpressions not implemented properly").
Proof.
  intros ev st0 st.
  assert (Hq : forall c h, quiet (ev c h)) by (intros c h s msg; discriminate).
  split; [exact Hq|].
  pose proof (subexpr_pos_not_implemented_only_on_merge ev 1%nat
                (group_of None [1; 2]) (empty_group None) st0 Hq eq_refl)
    as (H1 & _ & _).
  pose proof (subexpr_pos_not_implemented_only_on_merge ev 1%nat
                (group_of None [1; 2]) (group_of None [1; 2]) st Hq eq_refl)
    as (_ & H2 & _).
  pose proof (subexpr_pos_not_implemented_only_on_merge ev 1%nat
                (group_of None [1; 2; 3]) (group_of None [1; 2]) st Hq eq_refl)
    as (_ & _ & H3).
  split; [exact (H1 eq_refl)|]. split.
  - apply H2; [discriminate|]. intros x Hx. exact Hx.
  - pose (st1 := final_state (_gmx_selelem_mempool_reserve 2%nat 1 st) st).
    eapply (H3 ltac:(discriminate) _ 2%nat st1 st1).
    + reflexivity.
    + discriminate.
    + reflexivity.
    + reflexivity.
    + reflexivity.
    + vm_compute. reflexivity.
    + reflexivity.
    + reflexivity.
Defined.

(** ** Arithmetic with a single-valued left operand (scenario 5) *)

Definition const_vec (vals : list Z) : gmap Z scalar :=
  list_to_map (zip (seqZ 0 (Z.of_nat (length vals))) (map (@RealV zext) vals)).

Definition arith_tree : evalstate :=
  {| elems := {[
       1%nat := mk_elem SEL_ARITHMETIC (mk_value REAL_VALUE (Some 10%nat)) 0
                  (Some 2%nat) None (Some EVAL_arithmetic) false
                  (U_arith ARITH_MULT);
       2%nat := mk_elem SEL_CONST (mk_value REAL_VALUE (Some 11%nat))
                  SEL_SINGLEVAL None (Some 3%nat) None false
                  (U_param None);
       3%nat := mk_elem SEL_CONST (mk_value REAL_VALUE (Some 12%nat))
                  SEL_ATOMVAL None None None false (U_param None) ]};
     heap := {[ 10%nat := SVec ∅;
                11%nat := SVec (const_vec [2]);
                12%nat := SVec (const_vec [1; 2; 3]) ]};
     calls := [] |}.

Definition arith_run (st : evalstate) : outcome unit :=
  _gmx_sel_evaluate_arithmetic (call 4) 4 1%nat
    (Some (group_of None [0; 1; 2])) st.

Example arith_broadcast_result :
  map (value_cell (final_state (arith_run arith_tree) arith_tree) 1%nat)
      [0; 1; 2]
  = [Some (RealV 2); Some (RealV 4); Some (RealV 6)].
Proof. vm_compute. reflexivity. Qed.

(** The broadcast on this tree, where the left operand keeps its own
    store. *)
Lemma arithmetic_count_and_broadcast_witness :
  let g := group_of None [0; 1; 2] in
  let st' := final_state (arith_run arith_tree) arith_tree in
  _gmx_sel_evaluate_arithmetic (call 4) 4 1%nat (Some g) arith_tree
    = Ok tt st' /\
  exists f n lft le guards st_a st_c op,
    elem_flags st' 1%nat = Some f /\
    n = (if has_flag f SEL_SINGLEVAL then 1 else isize g) /\
    value_nr st' 1%nat = Some n /\
    sel_child 1%nat arith_tree = Ok lft arith_tree /\
    elems arith_tree !! lft = Some le /\
    arith_guards 1%nat lft le (Some g) arith_tree = Ok guards st_a /\
    _gmx_sel_evaluate_children (call 4) 4 1%nat (Some g) st_a = Ok tt st_c /\
    sel_arith 1%nat st_c = Ok op st_c /\
    (mempool le = false ->
     forall rgt lf rf lv,
       next le = Some rgt -> rgt <> 1%nat -> op <> ARITH_NEG ->
       elem_flags st_c lft = Some lf -> has_flag lf SEL_SINGLEVAL = true ->
       elem_flags st_c rgt = Some rf -> has_flag rf SEL_SINGLEVAL = false ->
       sel_ptr st_c lft <> sel_ptr st_c 1%nat ->
       value_cell st_c lft 0 = Some (RealV lv) ->
       forall i rv, 0 <= i < n ->
         value_cell st_c rgt i = Some (RealV rv) ->
         value_cell st' 1%nat i = Some (RealV (arith_apply op lv rv))).
Proof.
  intros g st'.
  assert (H : _gmx_sel_evaluate_arithmetic (call 4) 4 1%nat (Some g)
                arith_tree = Ok tt st') by (vm_compute; reflexivity).
  split; [exact H|].
  exact (arithmetic_count_and_broadcast (call 4) 4 1%nat g arith_tree st' H).
Defined.

(** A single-valued left operand that comes from the pool: its value is
    produced by a method and lands in the element's own array. *)
Definition const_method (vals : list Z) : gmx_ana_selmethod_t :=
  {| init_frame := None;
     update := Some (fun _ _ _ _ md => (OutVec (map (@RealV zext) vals), md));
     pupdate := None |}.



(** ** A reference to a general subexpression *)

Definition ref_tree : evalstate :=
  {| elems :=
       <[3%nat := mk_elem SEL_SUBEXPRREF (mk_value INT_VALUE (Some 12%nat)) 0
                    (Some 1%nat) None (Some EVAL_subexprref) false
                    (U_param None)]> (elems subexpr_tree);
     heap := <[12%nat := SVec ∅]> (heap subexpr_tree);
     calls := [] |}.

(** The subexpression has been evaluated over [{0, 2, 4, 6}]. *)
Definition ref_ready : evalstate :=
  final_state (call 5 1%nat (Some (group_of None [0; 2; 4; 6])) ref_tree)
              ref_tree.

Example ref_extracts :
  let st' := final_state
               (_gmx_sel_evaluate_subexprref (call 4) 3%nat
                  (Some (group_of None [2; 6])) ref_ready) ref_ready in
  map (value_cell st' 3%nat) [0; 1] = [Some (IntV 20); Some (IntV 60)].
Proof. vm_compute. reflexivity. Qed.

(** Witness for C10: the reference is evaluated over [{2, 6}] while the
    target has values cached for [{0, 2, 4, 6}]. *)
Lemma subexprref_extracts_values_of_group_witness :
  let g := group_of None [2; 6] in
  let cgrp := group_of (Some "cached"%string) [0; 2; 4; 6] in
  call 4 1%nat (Some g) ref_ready = Ok tt ref_ready /\
  cached_group ref_ready 1%nat = Some cgrp /\
  index_wf g /\ index_wf cgrp /\
  (forall x, x ∈ atoms g -> x ∈ atoms cgrp) /\
  (forall j, 0 <= j < isize cgrp -> is_Some (value_cell ref_ready 1%nat j)) /\
  exists st',
    _gmx_sel_evaluate_subexprref (call 4) 3%nat (Some g) ref_ready
      = Ok tt st' /\
    value_nr st' 3%nat = Some (isize g) /\
    forall i x, index_at g i = Some x ->
      exists j, index_at cgrp j = Some x /\
                value_cell st' 3%nat i = value_cell ref_ready 1%nat j.
Proof.
  intros g cgrp.
  assert (Hev : call 4 1%nat (Some g) ref_ready = Ok tt ref_ready)
    by (vm_compute; reflexivity).
  assert (Hcg : cached_group ref_ready 1%nat = Some cgrp)
    by (vm_compute; reflexivity).
  assert (Hg : index_wf g) by (split; [reflexivity | repeat constructor]).
  assert (Hcgrp : index_wf cgrp)
    by (split; [reflexivity | repeat constructor]).
  assert (Hsub : forall x, x ∈ atoms g -> x ∈ atoms cgrp).
  { intros x Hx. apply (proj1 (Forall_forall (λ y, y ∈ atoms cgrp) (atoms g)));
      [|exact Hx]. repeat constructor. }
  assert (Hvals : forall j, 0 <= j < isize cgrp ->
                            is_Some (value_cell ref_ready 1%nat j)).
  { intros j Hj. change (isize cgrp) with 4 in Hj.
    assert (j = 0 \/ j = 1 \/ j = 2 \/ j = 3) as [-> | [-> | [-> | ->]]]
      by lia; vm_compute; eexists; reflexivity. }
  split; [exact Hev|]. split; [exact Hcg|]. split; [exact Hg|].
  split; [exact Hcgrp|]. split; [exact Hsub|]. split; [exact Hvals|].
  refine (subexprref_extracts_values_of_group (call 4) 3%nat 1%nat g cgrp
            ref_ready ref_ready _ _ None _ _ Hev _ _ _ _ _ Hcg Hg Hcgrp
            Hsub Hvals).
  - vm_compute. reflexivity.
  - reflexivity.
  - vm_compute. reflexivity.
  - reflexivity.
  - left. reflexivity.
  - reflexivity.
  - eexists _, _. split; vm_compute; reflexivity.
Defined.

(** ** The merge of a general subexpression (scenario 4) *)

(** C1: the values merged on a later call end up in the wrong places.
    After a first call over [{4}] (value 40) and a second call over
    [{2, 4}], the child is evaluated over the missing part [{2}] only and
    the cached group is [{2, 4}], but the stored values are 40, 20 instead
    of 20, 40: the loop reads the new value from the element's own array and
    the old one from the child's. In scenario 4 (first [{0, 2, 4}], then
    [{2, 4, 6}]) the same loop reads the child's array past the one value
    reserved for it. *)
Theorem subexpr_merge_misplaces_values :
  let g1 := group_of (Some "passed"%string) [4] in
  let g2 := group_of (Some "passed"%string) [2; 4] in
  let st1 := subexpr_after [[4]] in
  let st2 := subexpr_after [[4]; [2; 4]] in
  call 5 1%nat (Some g1) subexpr_tree = Ok tt st1 /\
  map (value_cell st1 1%nat) [0] = [Some (IntV 40)] /\
  call 5 1%nat (Some g2) st1 = Ok tt st2 /\
  calls st2 = [CallUpdate 2%nat (Some g1);
               CallUpdate 2%nat (Some (group_of None [2]))] /\
  cached_group st2 1%nat = Some (group_of (Some "cached"%string) [2; 4]) /\
  map (value_cell st2 1%nat) [0; 1] = [Some (IntV 40); Some (IntV 20)] /\
  call 5 1%nat (Some (group_of None [2; 4; 6])) (subexpr_after [[0; 2; 4]])
    = Throw InvalidMemoryAccess.
Proof. repeat split; vm_compute; reflexivity. Qed.

(** ** A method with [init_frame] behind three references (scenario 6) *)

Definition counting_method : gmx_ana_selmethod_t :=
  {| init_frame := Some (fun _ _ _ md => S md);
     update := Some (fun _ _ _ g md =>
       (OutGroup (match g with Some g' => atoms g' | None => [] end), md));
     pupdate := None |}.

Definition ref_elem (store : loc) : t_selelem :=
  mk_elem SEL_SUBEXPRREF (mk_value GROUP_VALUE (Some store)) 0
    (Some 2%nat) None (Some EVAL_subexprref) false (U_param None).

Definition root_elem (cgrp : gmx_ana_index_t) (ch : selid)
    (nx : option selid) : t_selelem :=
  mk_elem SEL_ROOT (mk_value NO_VALUE None) 0 (Some ch) nx
    (Some EVAL_root) false (U_cgrp cgrp).

Definition shared_tree : evalstate :=
  {| elems := {[
       1%nat := root_elem (empty_group None) 2%nat (Some 4%nat);
       2%nat := mk_elem SEL_SUBEXPR (mk_value GROUP_VALUE (Some 20%nat)) 0
                  (Some 3%nat) None (Some EVAL_subexpr) false
                  (U_cgrp (empty_group (Some "cached"%string)));
       3%nat := mk_elem SEL_EXPRESSION (mk_value GROUP_VALUE (Some 21%nat)) 0
                  None None (Some EVAL_method) true
                  (U_expr {| method := Some counting_method; mdata := 0%nat;
                             pc := None; pos := tt |});
       4%nat := root_elem (group_of None [0; 1]) 5%nat (Some 6%nat);
       5%nat := ref_elem 22%nat;
       6%nat := root_elem (group_of None [0; 1; 2; 3]) 7%nat (Some 8%nat);
       7%nat := ref_elem 23%nat;
       8%nat := root_elem (group_of None [0; 1; 2; 3; 4; 5]) 9%nat None;
       9%nat := ref_elem 24%nat ]};
     heap := {[ 20%nat := SGroup (empty_group None);
                21%nat := SGroup (empty_group None);
                22%nat := SGroup (empty_group None);
                23%nat := SGroup (empty_group None);
                24%nat := SGroup (empty_group None) ]};
     calls := [] |}.

Definition shared_collection : gmx_ana_selcollection_t :=
  {| root := Some 1%nat; sc_gall := group_of None (seqZ 0 10);
     sc_top := tt |}.

Definition two_frames : list (t_trxframe * option t_pbc) :=
  [(tt, None); (tt, None)].

Definition shared_after : evalstate :=
  final_state (evaluate_frames 10 shared_collection two_frames shared_tree)
              shared_tree.

Definition frame_calls : list callback :=
  [CallInitFrame 3%nat;
   CallUpdate 3%nat (Some (group_of None [0; 1]));
   CallUpdate 3%nat (Some (group_of None [2; 3]));
   CallUpdate 3%nat (Some (group_of None [4; 5]))].

Example shared_two_frames_calls :
  calls shared_after = frame_calls ++ frame_calls /\
  init_frame_count 3%nat (calls shared_after) = 2%nat.
Proof. split; vm_compute; reflexivity. Qed.

(** Witness for C6 as the code has it. *)
Lemma init_frame_once_per_evaluated_frame_witness :
  evaluate_frames 10 shared_collection two_frames shared_tree
    = Ok tt shared_after /\
  exists trs : list (list callback),
    length trs = length two_frames /\
    calls shared_after = calls shared_tree ++ concat trs /\
    Forall (fun tr => (init_frame_count 3%nat tr <= 1)%nat) trs /\
    (init_frame_count 3%nat (concat trs) <= length two_frames)%nat /\
    (walk_visits shared_tree (root shared_collection) 3%nat ->
     declares <$> elems shared_tree !! 3%nat = Some true ->
     Forall (fun tr => updated 3%nat tr -> init_frame_count 3%nat tr = 1%nat)
            trs
     /\ (Forall (updated 3%nat) trs ->
         init_frame_count 3%nat (concat trs) = length two_frames)).
Proof.
  assert (H : evaluate_frames 10 shared_collection two_frames shared_tree
              = Ok tt shared_after) by (vm_compute; reflexivity).
  split; [exact H|].
  exact (init_frame_once_per_evaluated_frame 10 shared_collection two_frames
           shared_tree shared_after 3%nat H).
Defined.

(** The walk does reach the method, which declares [init_frame]. *)
Example shared_method_is_walked :
  walk_visits shared_tree (root shared_collection) 3%nat /\
  declares <$> elems shared_tree !! 3%nat = Some true.
Proof.
  split; [|vm_compute; reflexivity].
  eapply walk_child; [vm_compute; reflexivity|discriminate|].
  eapply walk_child; [vm_compute; reflexivity|discriminate|].
  eapply walk_here. vm_compute. reflexivity.
Qed.

(** A root whose evaluation group is empty never evaluates its child. *)
Definition idle_tree : evalstate :=
  {| elems := {[
       1%nat := root_elem (empty_group None) 2%nat None;
       2%nat := mk_elem SEL_EXPRESSION (mk_value GROUP_VALUE (Some 20%nat)) 0
                  None None (Some EVAL_method) false
                  (U_expr {| method := Some counting_method; mdata := 0%nat;
                             pc := None; pos := tt |}) ]};
     heap := {[ 20%nat := SGroup (empty_group None) ]};
     calls := [] |}.

(** Counterexample for C6 as stated: the element declares [init_frame] and
    is reached by the walk, the frame is evaluated, and the callback is
    not invoked at all. *)
Lemma init_frame_not_called_when_never_evaluated :
  let sc := {| root := Some 1%nat; sc_gall := group_of None (seqZ 0 10);
               sc_top := tt |} in
  let st' := final_state (SelectionEvaluator_evaluate 10 sc tt None idle_tree)
                         idle_tree in
  SelectionEvaluator_evaluate 10 sc tt None idle_tree = Ok tt st' /\
  declares <$> elems idle_tree !! 2%nat = Some true /\
  walk_visits idle_tree (root sc) 2%nat /\
  elem_flags st' 2%nat = Some SEL_INITFRAME /\
  init_frame_count 2%nat (calls st') = 0%nat.
Proof.
  intros sc st'. split; [vm_compute; reflexivity|].
  split; [vm_compute; reflexivity|]. split.
  - eapply walk_child; [vm_compute; reflexivity|discriminate|].
    eapply walk_here. vm_compute. reflexivity.
  - split; vm_compute; reflexivity.
Qed.
(** ** Boolean AND and OR (scenarios 2 and 3) *)

(** A method that keeps the atoms of its group found in [keep]. *)
Definition keep_method (keep : list Z) : gmx_ana_selmethod_t :=
  {| init_frame := None;
     update := Some (fun _ _ _ g md =>
       (OutGroup (filter (λ x, x ∈ keep)
                         (match g with Some g' => atoms g' | None => [] end)),
        md));
     pupdate := None |}.

Definition group_store : storage := SGroup (empty_group None).

(** A Boolean element over two children; the children are constant groups
    ([methods = false]) or methods that record the group they are given. *)
Definition bool_tree (op : e_boolean_t) (evf : sel_evalfunc)
    (methods : bool) (a b : list Z) : evalstate :=
  let kid (keep : list Z) (store : loc) (nx : option selid) :=
    if methods then
      mk_elem SEL_EXPRESSION (mk_value GROUP_VALUE (Some store)) 0 None nx
        (Some EVAL_method) true
        (U_expr {| method := Some (keep_method keep); mdata := 0%nat;
                   pc := None; pos := tt |})
    else
      mk_elem SEL_CONST (mk_value GROUP_VALUE (Some store)) 0 None nx
        (Some EVAL_static) true (U_cgrp (group_of None keep)) in
  {| elems := {[
       1%nat := mk_elem SEL_BOOLEAN (mk_value GROUP_VALUE (Some 10%nat)) 0
                  (Some 2%nat) None (Some evf) false (U_boolt op);
       2%nat := kid a 11%nat (Some 3%nat);
       3%nat := kid b 12%nat None ]};
     heap := {[ 10%nat := group_store; 11%nat := group_store;
                12%nat := group_store ]};
     calls := [] |}.

Definition all_atoms : gmx_ana_index_t := group_of None (seqZ 0 10).

(** Scenario 2: the second child of AND sees the running intersection. *)
Example and_short_circuit_run :
  let st := bool_tree BOOL_AND EVAL_and true [0; 1; 2] [5; 6; 7] in
  let st' := final_state (call 5 1%nat (Some all_atoms) st) st in
  call 5 1%nat (Some all_atoms) st = Ok tt st' /\
  calls st' = [CallUpdate 2%nat (Some all_atoms);
               CallUpdate 3%nat (Some (group_of None [0; 1; 2]))] /\
  value_group st' 1%nat = Some (group_of None []).
Proof. repeat split; vm_compute; reflexivity. Qed.

(** Scenario 3: the second child of OR sees what the first left. *)
Example or_remainder_run :
  let st := bool_tree BOOL_OR EVAL_or true [0; 1] [1; 2; 3] in
  let st' := final_state (call 5 1%nat (Some all_atoms) st) st in
  call 5 1%nat (Some all_atoms) st = Ok tt st' /\
  calls st' = [CallUpdate 2%nat (Some all_atoms);
               CallUpdate 3%nat (Some (group_of None (seqZ 2 8)))] /\
  value_group st' 1%nat = Some (group_of None [0; 1; 2; 3]).
Proof. repeat split; vm_compute; reflexivity. Qed.

(** An OR whose first child has no evaluation function: its value group
    is used as it stands. *)
Example or_first_child_without_evaluator :
  let st0 := bool_tree BOOL_OR EVAL_or true [0; 1] [1; 2; 3] in
  let e2 := mk_elem SEL_CONST (mk_value GROUP_VALUE (Some 11%nat)) 0 None
              (Some 3%nat) None false (U_cgrp (group_of None [0; 1])) in
  let st := {| elems := <[2%nat := e2]> (elems st0);
               heap := <[11%nat := SGroup (group_of None [0; 1])]> (heap st0);
               calls := [] |} in
  let st' := final_state (call 5 1%nat (Some all_atoms) st) st in
  call 5 1%nat (Some all_atoms) st = Ok tt st' /\
  calls st' = [CallUpdate 3%nat (Some (group_of None (seqZ 2 8)))] /\
  value_group st' 1%nat = Some (group_of None [0; 1; 2; 3]).
Proof. repeat split; vm_compute; reflexivity. Qed.

(** *** Checking the shape of a concrete tree *)

(** No element other than [sel] points to the store [l]. *)
Definition private_ok (sel : selid) (l : loc) (st : evalstate) : bool :=
  bool_decide (sel_ptr st sel = Some l) &&
  (if heap st !! l is Some (SGroup _) then true else false) &&
  bool_decide (map_Forall (fun c e => ptr (v e) = Some l -> c = sel)
                          (elems st)).

Lemma private_ok_spec sel l st :
  private_ok sel l st = true -> private sel l st.
Proof.
  unfold private_ok. intros H.
  apply andb_prop in H as [H H3]. apply andb_prop in H as [H1 H2].
  apply bool_decide_eq_true in H1, H3.
  split; [done|]. split.
  - destruct (heap st !! l) as [[| g0 |]|]; try done. by exists g0.
  - intros c Hc. unfold sel_ptr in Hc.
    destruct (elems st !! c) as [e|] eqn:He; [|done]. simpl in Hc.
    by apply (H3 c e He).
Qed.

Definition in_opt (D : gset selid) (o : option selid) : bool :=
  match o with Some c => bool_decide (c ∈ D) | None => true end.

(** [D] is closed under the links, holds the children of [sel], and does
    not hold [sel]. *)
Definition below_ok (st : evalstate) (sel : selid) (D : gset selid) : bool :=
  bool_decide (sel ∉ D) &&
  (if elems st !! sel is Some e then in_opt D (child e) else true) &&
  forallb (fun x => if elems st !! x is Some e
                    then in_opt D (child e) && in_opt D (next e)
                    else true) (elements D).

Lemma in_opt_spec D o c : in_opt D o = true -> o = Some c -> c ∈ D.
Proof. intros H ->. by apply bool_decide_eq_true in H. Qed.

Lemma below_ok_spec st sel D : below_ok st sel D = true -> below st sel D.
Proof.
  unfold below_ok. intros H.
  apply andb_prop in H as [H H3]. apply andb_prop in H as [H1 H2].
  apply bool_decide_eq_true in H1. split; [done|]. split.
  - intros e c He Hc. rewrite He in H2. exact (in_opt_spec _ _ _ H2 Hc).
  - intros x e Hx He.
    assert (Hin : In x (elements D)).
    { apply list_elem_of_In. by apply elem_of_elements. }
    pose proof (proj1 (forallb_forall _ _) H3 x Hin) as Hxe.
    simpl in Hxe. rewrite He in Hxe. apply andb_prop in Hxe as [Hc Hn].
    split; intros y Hy; [exact (in_opt_spec _ _ _ Hc Hy)
                        |exact (in_opt_spec _ _ _ Hn Hy)].
Qed.

(** *** AND over a method, a nested OR and a constant group *)

Definition group_method (keep : list Z) (store : loc) (nx : option selid)
  : t_selelem :=
  mk_elem SEL_EXPRESSION (mk_value GROUP_VALUE (Some store)) 0 None nx
    (Some EVAL_method) true
    (U_expr {| method := Some (keep_method keep); mdata := 0%nat;
               pc := None; pos := tt |}).

Definition group_const (keep : list Z) (store : loc) (nx : option selid)
  : t_selelem :=
  mk_elem SEL_CONST (mk_value GROUP_VALUE (Some store)) 0 None nx
    (Some EVAL_static) true (U_cgrp (group_of None keep)).

Definition group_bool (op : e_boolean_t) (evf : sel_evalfunc) (store : loc)
    (ch nx : option selid) : t_selelem :=
  mk_elem SEL_BOOLEAN (mk_value GROUP_VALUE (Some store)) 0 ch nx
    (Some evf) false (U_boolt op).

Definition six_stores : gmap loc storage :=
  {[ 10%nat := group_store; 11%nat := group_store; 12%nat := group_store;
     13%nat := group_store; 14%nat := group_store; 15%nat := group_store ]}.

(** Element 1 is the AND of the method 2, the OR 3 (of the methods 5 and
    6) and the constant group 4. *)
Definition and_deep_tree : evalstate :=
  {| elems := {[
       1%nat := group_bool BOOL_AND EVAL_and 10%nat (Some 2%nat) None;
       2%nat := group_method [0; 1; 2; 3; 4] 11%nat (Some 3%nat);
       3%nat := group_bool BOOL_OR EVAL_or 12%nat (Some 5%nat) (Some 4%nat);
       4%nat := group_const [1; 2; 3; 9] 13%nat None;
       5%nat := group_method [1; 2] 14%nat (Some 6%nat);
       6%nat := group_method [3; 7] 15%nat None ]};
     heap := six_stores;
     calls := [] |}.

Definition descendants : gset selid :=
  list_to_set [2%nat; 3%nat; 4%nat; 5%nat; 6%nat].

Example and_deep_run :
  let st := and_deep_tree in
  let st' := final_state (call 6 1%nat (Some all_atoms) st) st in
  call 6 1%nat (Some all_atoms) st = Ok tt st' /\
  calls st' = [CallUpdate 2%nat (Some all_atoms);
               CallUpdate 5%nat (Some (group_of None [0; 1; 2; 3; 4]));
               CallUpdate 6%nat (Some (group_of None [0; 3; 4]))] /\
  value_group st' 1%nat = Some (group_of None [1; 2; 3]).
Proof. repeat split; vm_compute; reflexivity. Qed.

(** Witness for C2. *)
Lemma and_evaluates_running_intersection_witness :
  let ev := sel_evaluate frame_data 5 in
  let st := and_deep_tree in
  let st' := final_state (_gmx_sel_evaluate_and ev 5 1%nat (Some all_atoms) st)
                         st in
  private 1%nat 10%nat st /\
  below st 1%nat descendants /\
  _gmx_sel_evaluate_and ev 5 1%nat (Some all_atoms) st = Ok tt st' /\
  value_group st' 1%nat = Some (group_of None [1; 2; 3]) /\
  exists first rest cend s1 vg,
    (exists c0 e0,
       sel_child 1%nat st = Ok c0 st /\ elems st !! c0 = Some e0 /\
       (is_Some (evaluate e0) /\ ce_child first = c0 \/
        evaluate e0 = None /\ next e0 = Some (ce_child first))) /\
    follows st (Some (ce_child first)) (ce_child <$> first :: rest) cend /\
    ce_input first = all_atoms /\
    ran ev st first /\
    bind (set_sel_vgroup 1%nat (gmx_ana_index_copy (ce_value first)))
      (fun _ => _gmx_selelem_mempool_release (ce_child first))
      (ce_after first) = Ok tt s1 /\
    and_steps ev 1%nat s1 rest st' /\
    (forall k step, rest !! k = Some step ->
       atoms (ce_input step) <> [] /\
       atoms (ce_input step)
       = inter_all (atoms (ce_value first)) (ce_value <$> take k rest)) /\
    (cend = None \/ atoms vg = []) /\
    value_group st' 1%nat = Some vg /\
    atoms vg = inter_all (atoms (ce_value first)) (ce_value <$> rest) /\
    (forall x, x ∈ atoms vg <->
               forall step, step ∈ first :: rest -> x ∈ atoms (ce_value step)).
Proof.
  intros ev st st'.
  assert (H1 : private 1%nat 10%nat st)
    by (apply private_ok_spec; vm_compute; reflexivity).
  assert (H2 : below st 1%nat descendants)
    by (apply below_ok_spec; vm_compute; reflexivity).
  assert (H3 : _gmx_sel_evaluate_and ev 5 1%nat (Some all_atoms) st
               = Ok tt st') by (vm_compute; reflexivity).
  split; [exact H1|]. split; [exact H2|]. split; [exact H3|].
  split; [vm_compute; reflexivity|].
  exact (and_evaluates_running_intersection frame_data 5 descendants 1%nat
           10%nat all_atoms st st' H1 H2 H3).
Defined.

(** *** OR over a method, a nested AND and a constant group *)

(** Element 1 is the OR of the method 2, the AND 3 (of the methods 5 and
    6) and the constant group 4. *)
Definition or_deep_tree : evalstate :=
  {| elems := {[
       1%nat := group_bool BOOL_OR EVAL_or 10%nat (Some 2%nat) None;
       2%nat := group_method [0; 1] 11%nat (Some 3%nat);
       3%nat := group_bool BOOL_AND EVAL_and 12%nat (Some 5%nat)
                  (Some 4%nat);
       4%nat := group_const [3; 5] 13%nat None;
       5%nat := group_method [1; 2; 3; 4] 14%nat (Some 6%nat);
       6%nat := group_method [2; 3; 8] 15%nat None ]};
     heap := six_stores;
     calls := [] |}.

Example or_deep_run :
  let st := or_deep_tree in
  let st' := final_state (call 6 1%nat (Some all_atoms) st) st in
  call 6 1%nat (Some all_atoms) st = Ok tt st' /\
  calls st' = [CallUpdate 2%nat (Some all_atoms);
               CallUpdate 5%nat (Some (group_of None (seqZ 2 8)));
               CallUpdate 6%nat (Some (group_of None [2; 3; 4]))] /\
  value_group st' 1%nat = Some (group_of None [0; 1; 2; 3; 5]).
Proof. repeat split; vm_compute; reflexivity. Qed.

(** Witness for C3. *)
Lemma or_evaluates_remainder_witness :
  let ev := sel_evaluate frame_data 5 in
  let g := all_atoms in
  let st := or_deep_tree in
  let st' := final_state (_gmx_sel_evaluate_or ev 5 1%nat (Some g) st) st in
  private 1%nat 10%nat st /\
  below st 1%nat descendants /\
  _gmx_sel_evaluate_or ev 5 1%nat (Some g) st = Ok tt st' /\
  value_group st' 1%nat = Some (group_of None [0; 1; 2; 3; 5]) /\
  exists first rest cend vg0 s1 s2 vgu vg,
    sel_child 1%nat st = Ok (ce_child first) st /\
    ce_input first = g /\
    value_group st 1%nat = Some vg0 /\
    (exists e0, elems st !! ce_child first = Some e0 /\
       (is_Some (evaluate e0) /\ ran ev st first /\
        bind (set_sel_vgroup 1%nat
                (group_of (name vg0)
                   (filter (λ x, x ∈ atoms (ce_value first)) (atoms g))))
          (fun _ => _gmx_selelem_mempool_release (ce_child first))
          (ce_after first) = Ok tt s1
        \/
        evaluate e0 = None /\
        value_group st (ce_child first) = Some (ce_value first) /\
        set_sel_vgroup 1%nat
          (group_of (name vg0)
             (filter (λ x, x ∈ atoms (ce_value first)) (atoms g))) st
          = Ok tt s1)) /\
    or_steps ev 1%nat s1
      (group_of None (filter (λ x, x ∉ atoms (ce_value first)) (atoms g)))
      rest s2 /\
    value_group s2 1%nat = Some vgu /\
    set_sel_vgroup 1%nat (gmx_ana_index_sort vgu) s2 = Ok tt st' /\
    follows st (Some (ce_child first)) (ce_child <$> first :: rest) cend /\
    (forall k step, rest !! k = Some step ->
       atoms (ce_input step) <> [] /\
       atoms (ce_input step)
       = remainder (atoms g) (ce_value <$> first :: take k rest)) /\
    (cend = None \/
     remainder (atoms g) (ce_value <$> first :: rest) = []) /\
    value_group st' 1%nat = Some vg /\
    Sorted Z.le (atoms vg) /\
    (forall x, x ∈ atoms vg <->
               x ∈ atoms g /\
               exists step, step ∈ first :: rest /\ x ∈ atoms (ce_value step)).
Proof.
  intros ev g st st'.
  assert (H1 : private 1%nat 10%nat st)
    by (apply private_ok_spec; vm_compute; reflexivity).
  assert (H2 : below st 1%nat descendants)
    by (apply below_ok_spec; vm_compute; reflexivity).
  assert (H3 : _gmx_sel_evaluate_or ev 5 1%nat (Some g) st = Ok tt st')
    by (vm_compute; reflexivity).
  split; [exact H1|]. split; [exact H2|]. split; [exact H3|].
  split; [vm_compute; reflexivity|].
  exact (or_evaluates_remainder frame_data 5 descendants 1%nat 10%nat g st
           st' H1 H2 H3).
Defined.

(** * Further scenarios *)

(** The element [x] of a state. *)
Definition elem_at (st : evalstate) (x : selid) : t_selelem :=
  default (mk_elem SEL_CONST (mk_value NO_VALUE None) 0 None None None false
             (U_param None))
          (elems st !! x).

(** A child that is a method without parameters, evaluated by the method
    evaluator itself. *)
Definition leaf_method : selid -> option gmx_ana_index_t -> M unit :=
  _gmx_sel_evaluate_method (fun _ _ => throw InvalidMemoryAccess)
    frame_data 0.

Lemma leaf_method_keeps_cached sel c h s s' :
  leaf_method c h s = Ok tt s' -> cached_group s' sel = cached_group s sel.
Proof.
  intros H. apply cached_group_related.
  eapply method_keeps_cached_groups; [|exact H].
  intros c0 h0. apply keeps_throw.
Qed.

(** ** A general subexpression called several times *)

Definition named (l : list Z) : gmx_ana_index_t :=
  group_of (Some "passed"%string) l.

Example subexpr_three_calls :
  let st' := final_state
               (subexpr_calls leaf_method 1%nat
                  [named [4]; named [2; 4]; named [4]] subexpr_tree)
               subexpr_tree in
  cached_group st' 1%nat = Some (group_of (Some "cached"%string) [2; 4]) /\
  calls st' = [CallUpdate 2%nat (Some (named [4]));
               CallUpdate 2%nat (Some (group_of None [2]))].
Proof. split; vm_compute; reflexivity. Qed.

Lemma subexpr_calls_accumulate_union_witness :
  let gs := [named [4]; named [2; 4]; named [4]] in
  let cgrp := empty_group (Some "cached"%string) in
  let st' := final_state (subexpr_calls leaf_method 1%nat gs subexpr_tree)
                         subexpr_tree in
  (forall c h s s', leaf_method c h s = Ok tt s' ->
                    cached_group s' 1%nat = cached_group s 1%nat) /\
  cached_group subexpr_tree 1%nat = Some cgrp /\
  (isize cgrp = 0 \/ index_wf cgrp) /\
  Forall index_wf gs /\
  subexpr_calls leaf_method 1%nat gs subexpr_tree = Ok tt st' /\
  exists cgrp',
    cached_group st' 1%nat = Some cgrp' /\
    name cgrp' = name cgrp /\
    atomset cgrp' = atomset cgrp ∪ ⋃ (atomset <$> gs) /\
    (isize cgrp' = 0 \/ index_wf cgrp').
Proof.
  intros gs cgrp st'.
  assert (H1 : forall c h s s', leaf_method c h s = Ok tt s' ->
                 cached_group s' 1%nat = cached_group s 1%nat)
    by apply leaf_method_keeps_cached.
  assert (H2 : cached_group subexpr_tree 1%nat = Some cgrp)
    by (vm_compute; reflexivity).
  assert (H3 : isize cgrp = 0 \/ index_wf cgrp) by (left; reflexivity).
  assert (H4 : Forall index_wf gs)
    by (repeat constructor).
  assert (H5 : subexpr_calls leaf_method 1%nat gs subexpr_tree = Ok tt st')
    by (vm_compute; reflexivity).
  split; [exact H1|]. split; [exact H2|]. split; [exact H3|].
  split; [exact H4|]. split; [exact H5|].
  exact (subexpr_calls_accumulate_union leaf_method 1%nat gs cgrp
           subexpr_tree st' H1 H2 H3 H4 H5).
Defined.

Lemma subexpr_evaluates_missing_part_only_witness :
  let st := subexpr_after [[4]] in
  let g := named [2; 4] in
  let cgrp := group_of (Some "cached"%string) [4] in
  let st' := final_state
               (_gmx_sel_evaluate_subexpr leaf_method 1%nat (Some g) st) st in
  let missing := filter (λ x, x ∉ atoms cgrp) (atoms g) in
  (forall c h s s', leaf_method c h s = Ok tt s' ->
                    cached_group s' 1%nat = cached_group s 1%nat) /\
  cached_group st 1%nat = Some cgrp /\
  isize cgrp <> 0 /\ index_wf cgrp /\ index_wf g /\
  _gmx_sel_evaluate_subexpr leaf_method 1%nat (Some g) st = Ok tt st' /\
  ((missing = [] /\ st' = st) \/
   (missing <> [] /\
    exists c st1 st2 cgrp',
      sel_child 1%nat st = Ok c st /\
      _gmx_selelem_mempool_reserve c (Z.of_nat (length missing)) st
        = Ok tt st1 /\
      leaf_method c (Some (group_of None missing)) st1 = Ok tt st2 /\
      cached_group st' 1%nat = Some cgrp' /\
      atoms cgrp' = list_merge Z.le (atoms cgrp) missing /\
      Sorted Z.lt (atoms cgrp') /\
      forall x, x ∈ atoms cgrp' <-> x ∈ atoms cgrp \/ x ∈ atoms g)).
Proof.
  intros st g cgrp st' missing.
  assert (H1 : forall c h s s', leaf_method c h s = Ok tt s' ->
                 cached_group s' 1%nat = cached_group s 1%nat)
    by apply leaf_method_keeps_cached.
  assert (H2 : cached_group st 1%nat = Some cgrp)
    by (vm_compute; reflexivity).
  assert (H3 : isize cgrp <> 0) by discriminate.
  assert (H4 : index_wf cgrp) by (split; [reflexivity | repeat constructor]).
  assert (H5 : index_wf g) by (split; [reflexivity | repeat constructor]).
  assert (H6 : _gmx_sel_evaluate_subexpr leaf_method 1%nat (Some g) st
               = Ok tt st') by (vm_compute; reflexivity).
  split; [exact H1|]. split; [exact H2|]. split; [exact H3|].
  split; [exact H4|]. split; [exact H5|]. split; [exact H6|].
  exact (subexpr_evaluates_missing_part_only leaf_method 1%nat g cgrp st st'
           H1 H2 H3 H4 H5 H6).
Defined.

(** ** A group-valued general subexpression *)

Definition group_subexpr_tree : evalstate :=
  {| elems := {[
       1%nat := mk_elem SEL_SUBEXPR (mk_value GROUP_VALUE (Some 10%nat)) 0
                  (Some 2%nat) None (Some EVAL_subexpr) false
                  (U_cgrp (empty_group (Some "cached"%string)));
       2%nat := mk_elem SEL_EXPRESSION (mk_value GROUP_VALUE (Some 11%nat)) 0
                  None None (Some EVAL_method) true
                  (U_expr {| method := Some (keep_method [0; 2; 4; 6]);
                             mdata := 0%nat; pc := None; pos := tt |}) ]};
     heap := {[ 10%nat := group_store; 11%nat := group_store ]};
     calls := [] |}.

(** The subexpression has been evaluated over [{0, 1, 2}]. *)
Definition group_subexpr_ready : evalstate :=
  final_state
    (_gmx_sel_evaluate_subexpr leaf_method 1%nat
       (Some (group_of None [0; 1; 2])) group_subexpr_tree)
    group_subexpr_tree.

Example group_subexpr_second_call :
  let st' := final_state
               (_gmx_sel_evaluate_subexpr leaf_method 1%nat
                  (Some (group_of None [2; 3; 4])) group_subexpr_ready)
               group_subexpr_ready in
  value_group group_subexpr_ready 1%nat = Some (group_of None [0; 2]) /\
  value_group st' 1%nat = Some (group_of None [0; 2; 4]) /\
  cached_group st' 1%nat
    = Some (group_of (Some "cached"%string) [0; 1; 2; 3; 4]).
Proof. repeat split; vm_compute; reflexivity. Qed.

Lemma subexpr_merges_group_values_witness :
  let st := group_subexpr_ready in
  let g := group_of None [2; 3; 4] in
  let cgrp := group_of (Some "cached"%string) [0; 1; 2] in
  let st' := final_state
               (_gmx_sel_evaluate_subexpr (call 4) 1%nat (Some g) st) st in
  cached_group st 1%nat = Some cgrp /\
  isize cgrp <> 0 /\
  filter (λ x, x ∉ atoms cgrp) (atoms g) <> [] /\
  _gmx_sel_evaluate_subexpr (call 4) 1%nat (Some g) st = Ok tt st' /\
  value_group st' 1%nat = Some (group_of None [0; 2; 4]) /\
  exists c st1 st2 e2,
    sel_child 1%nat st = Ok c st /\
    _gmx_selelem_mempool_reserve c
      (Z.of_nat (length (filter (λ x, x ∉ atoms cgrp) (atoms g)))) st
      = Ok tt st1 /\
    call 4 c
      (Some (group_of None (filter (λ x, x ∉ atoms cgrp) (atoms g)))) st1
      = Ok tt st2 /\
    elems st2 !! 1%nat = Some e2 /\
    (vtype (v e2) = GROUP_VALUE ->
     exists sg cg,
       value_group st2 1%nat = Some sg /\ value_group st2 c = Some cg /\
       (sel_ptr st2 1%nat <> sel_ptr st2 c ->
        exists vg, value_group st' 1%nat = Some vg /\
                   name vg = name sg /\
                   atoms vg = list_merge Z.le (atoms cg) (atoms sg) /\
                   atomset vg = atomset cg ∪ atomset sg)).
Proof.
  intros st g cgrp st'.
  assert (H1 : cached_group st 1%nat = Some cgrp)
    by (vm_compute; reflexivity).
  assert (H2 : isize cgrp <> 0) by discriminate.
  assert (H3 : filter (λ x, x ∉ atoms cgrp) (atoms g) <> [])
    by (vm_compute; discriminate).
  assert (H4 : _gmx_sel_evaluate_subexpr (call 4) 1%nat (Some g) st
               = Ok tt st') by (vm_compute; reflexivity).
  split; [exact H1|]. split; [exact H2|]. split; [exact H3|].
  split; [exact H4|]. split; [vm_compute; reflexivity|].
  exact (subexpr_merges_group_values (call 4) 1%nat g cgrp st st'
           H1 H2 H3 H4).
Defined.

(** ** The first call of a frame *)

Lemma subexpr_first_call_redirects_child_store_witness :
  let g := Some (named [0; 2; 4]) in
  let cgrp := empty_group (Some "cached"%string) in
  let st := subexpr_tree in
  let st' := final_state (_gmx_sel_evaluate_subexpr (call 4) 1%nat g st) st in
  cached_group st 1%nat = Some cgrp /\
  isize cgrp = 0 /\
  _gmx_sel_evaluate_subexpr (call 4) 1%nat g st = Ok tt st' /\
  exists c ec es st1 st2 ec',
    sel_child 1%nat st = Ok c st /\
    elems st !! c = Some ec /\ elems st !! 1%nat = Some es /\
    vtype (v ec) = vtype (v es) /\
    sel_ptr st1 c = sel_ptr st 1%nat /\
    (forall x, x <> c -> elems st1 !! x = elems st !! x) /\
    heap st1 = heap st /\ calls st1 = calls st /\
    call 4 c g st1 = Ok tt st2 /\
    elems st' !! c = Some ec' /\
    ptr (v ec') = ptr (v ec) /\ nalloc (v ec') = nalloc (v ec).
Proof.
  intros g cgrp st st'.
  assert (H1 : cached_group st 1%nat = Some cgrp)
    by (vm_compute; reflexivity).
  assert (H2 : isize cgrp = 0) by reflexivity.
  assert (H3 : _gmx_sel_evaluate_subexpr (call 4) 1%nat g st = Ok tt st')
    by (vm_compute; reflexivity).
  split; [exact H1|]. split; [exact H2|]. split; [exact H3|].
  exact (subexpr_first_call_redirects_child_store (call 4) 1%nat g cgrp
           st st' H1 H2 H3).
Defined.

(** The child of the subexpression has another value type. *)
Definition mismatched_tree : evalstate :=
  {| elems :=
       <[2%nat := mk_elem SEL_EXPRESSION (mk_value REAL_VALUE None) 0
                    None None (Some EVAL_method) true
                    (U_expr {| method := Some times10; mdata := 0%nat;
                               pc := None; pos := tt |})]>
         (elems subexpr_tree);
     heap := heap subexpr_tree;
     calls := [] |}.

Lemma subexpr_first_call_checks_child_type_witness :
  let st := mismatched_tree in
  let es := elem_at st 1%nat in
  let ec := elem_at st 2%nat in
  let cgrp := empty_group (Some "cached"%string) in
  elems st !! 1%nat = Some es /\ u es = U_cgrp cgrp /\ isize cgrp = 0 /\
  child es = Some 2%nat /\ elems st !! 2%nat = Some ec /\
  vtype (v ec) <> vtype (v es) /\
  _gmx_sel_evaluate_subexpr (call 4) 1%nat (Some (named [0; 2; 4])) st
  = Throw (AssertionFailed "Mismatching selection value types").
Proof.
  intros st es ec cgrp.
  assert (H1 : elems st !! 1%nat = Some es) by (vm_compute; reflexivity).
  assert (H2 : u es = U_cgrp cgrp) by reflexivity.
  assert (H3 : isize cgrp = 0) by reflexivity.
  assert (H4 : child es = Some 2%nat) by reflexivity.
  assert (H5 : elems st !! 2%nat = Some ec) by (vm_compute; reflexivity).
  assert (H6 : vtype (v ec) <> vtype (v es)) by discriminate.
  split; [exact H1|]. split; [exact H2|]. split; [exact H3|].
  split; [exact H4|]. split; [exact H5|]. split; [exact H6|].
  exact (subexpr_first_call_checks_child_type (call 4) 1%nat 2%nat
           (Some (named [0; 2; 4])) cgrp es ec st H1 H2 H3 H4 H5 H6).
Defined.

(** ** A subexpression with a static evaluation group *)

Definition staticeval_tree : evalstate :=
  {| elems := {[
       1%nat := mk_elem SEL_SUBEXPR (mk_value INT_VALUE (Some 10%nat)) 0
                  (Some 2%nat) None (Some EVAL_subexpr_staticeval) false
                  (U_cgrp (empty_group (Some "cached"%string)));
       2%nat := mk_elem SEL_EXPRESSION (mk_value INT_VALUE (Some 10%nat)) 0
                  None None (Some EVAL_method) false
                  (U_expr {| method := Some times10; mdata := 0%nat;
                             pc := None; pos := tt |}) ]};
     heap := {[ 10%nat := SVec ∅ ]};
     calls := [] |}.

Lemma subexpr_staticeval_evaluates_once_witness :
  let ev' : selid -> option gmx_ana_index_t -> M unit :=
    fun _ _ => throw InvalidMemoryAccess in
  let g := named [0; 2; 4] in
  let cgrp := empty_group (Some "cached"%string) in
  let st := staticeval_tree in
  let st1 := final_state
               (_gmx_sel_evaluate_subexpr_staticeval leaf_method 1%nat
                  (Some g) st) st in
  (forall c h s s', leaf_method c h s = Ok tt s' ->
                    cached_group s' 1%nat = cached_group s 1%nat) /\
  cached_group st 1%nat = Some cgrp /\
  isize cgrp = 0 /\ isize g <> 0 /\
  _gmx_sel_evaluate_subexpr_staticeval leaf_method 1%nat (Some g) st
    = Ok tt st1 /\
  cached_group st1 1%nat
    = Some (gmx_ana_index_set (isize g) (index g) (name cgrp)) /\
  _gmx_sel_evaluate_subexpr_staticeval ev' 1%nat
    (Some (named [1; 3])) st1 = Ok tt st1.
Proof.
  intros ev' g cgrp st st1.
  assert (H1 : forall c h s s', leaf_method c h s = Ok tt s' ->
                 cached_group s' 1%nat = cached_group s 1%nat)
    by apply leaf_method_keeps_cached.
  assert (H2 : cached_group st 1%nat = Some cgrp)
    by (vm_compute; reflexivity).
  assert (H3 : isize cgrp = 0) by reflexivity.
  assert (H4 : isize g <> 0) by discriminate.
  assert (H5 : _gmx_sel_evaluate_subexpr_staticeval leaf_method 1%nat
                 (Some g) st = Ok tt st1) by (vm_compute; reflexivity).
  split; [exact H1|]. split; [exact H2|]. split; [exact H3|].
  split; [exact H4|]. split; [exact H5|].
  exact (subexpr_staticeval_evaluates_once leaf_method ev' 1%nat g
           (Some (named [1; 3])) cgrp st st1 H1 H2 H3 H4 H5).
Defined.

(** ** The shape of the tree over a trajectory *)

Lemma evaluation_keeps_tree_shape_witness :
  evaluate_frames 10 shared_collection two_frames shared_tree
    = Ok tt shared_after /\
  forall x, shape <$> elems shared_after !! x
            = shape <$> elems shared_tree !! x.
Proof.
  assert (H : evaluate_frames 10 shared_collection two_frames shared_tree
              = Ok tt shared_after) by (vm_compute; reflexivity).
  split; [exact H|].
  exact (evaluation_keeps_tree_shape 10 shared_collection two_frames
           shared_tree shared_after H).
Defined.

Lemma lifecycle_walk_resets_flags_witness :
  let st := shared_after in
  let st' := final_state (init_frame_eval 10 (Some 1%nat) st) st in
  init_frame_eval 10 (Some 1%nat) st = Ok tt st' /\
  elem_flags st 3%nat = Some 0 /\
  elem_flags st' 3%nat = Some SEL_INITFRAME /\
  calls st' = calls st /\ heap st' = heap st /\
  (forall x, walk_visits st (Some 1%nat) x ->
     exists e, elems st !! x = Some e /\ elems st' !! x = Some (walked e) /\
       has_flag (flags (walked e)) SEL_EVALFRAME = false /\
       has_flag (flags (walked e)) SEL_INITFRAME = declares e /\
       static_flags (walked e) = static_flags e) /\
  (forall x, ~ walk_visits st (Some 1%nat) x ->
             elems st' !! x = elems st !! x).
Proof.
  intros st st'.
  assert (H : init_frame_eval 10 (Some 1%nat) st = Ok tt st')
    by (vm_compute; reflexivity).
  split; [exact H|]. split; [vm_compute; reflexivity|].
  split; [vm_compute; reflexivity|].
  exact (lifecycle_walk_resets_flags 10 (Some 1%nat) st st' H).
Defined.

(** ** A modifier over a value that is not a position *)

Definition modifier_tree : evalstate :=
  {| elems := {[
       1%nat := mk_elem SEL_MODIFIER (mk_value POS_VALUE None) 0
                  (Some 2%nat) None (Some EVAL_modifier) false
                  (U_expr {| method := Some pos_method; mdata := 0%nat;
                             pc := None; pos := tt |});
       2%nat := mk_elem SEL_CONST (mk_value INT_VALUE (Some 10%nat)) 0
                  None None None false (U_param None) ]};
     heap := {[ 10%nat := SVec ∅ ]};
     calls := [] |}.

Lemma modifier_requires_position_child_witness :
  let st := modifier_tree in
  let e := elem_at st 1%nat in
  let ec := elem_at st 2%nat in
  let g := Some (group_of None [0; 1]) in
  elems st !! 1%nat = Some e /\ evaluate e = Some EVAL_modifier /\
  child e = Some 2%nat /\ elems st !! 2%nat = Some ec /\
  vtype (v ec) <> POS_VALUE /\
  (forall st', sel_evaluate frame_data 3 1%nat g st <> Ok tt st') /\
  sel_evaluate frame_data 3 1%nat g st
  = Throw (NotImplementedError
             "Non-position valued modifiers not implemented").
Proof.
  intros st e ec g.
  assert (H1 : elems st !! 1%nat = Some e) by (vm_compute; reflexivity).
  assert (H2 : evaluate e = Some EVAL_modifier) by reflexivity.
  assert (H3 : child e = Some 2%nat) by reflexivity.
  assert (H4 : elems st !! 2%nat = Some ec) by (vm_compute; reflexivity).
  assert (H5 : vtype (v ec) <> POS_VALUE) by discriminate.
  split; [exact H1|]. split; [exact H2|]. split; [exact H3|].
  split; [exact H4|]. split; [exact H5|].
  destruct (modifier_requires_position_child frame_data 2 1%nat 2%nat g
              e ec st H1 H2 H3 H4 H5) as [Hnever Herr].
  split; [exact Hnever|].
  apply (Herr st st); vm_compute; reflexivity.
Defined.

(** ** A method with parameters *)

Definition params_tree : evalstate :=
  {| elems := {[
       1%nat := mk_elem SEL_EXPRESSION (mk_value GROUP_VALUE (Some 20%nat)) 0
                  (Some 2%nat) None (Some EVAL_method) false
                  (U_expr {| method := Some counting_method; mdata := 0%nat;
                             pc := None; pos := tt |});
       2%nat := mk_elem SEL_EXPRESSION (mk_value GROUP_VALUE (Some 21%nat)) 0
                  None (Some 3%nat) (Some EVAL_method) false
                  (U_expr {| method := Some (keep_method [1; 3]);
                             mdata := 0%nat; pc := None; pos := tt |});
       3%nat := mk_elem SEL_CONST (mk_value INT_VALUE (Some 22%nat)) 0
                  None None None false (U_param None) ]};
     heap := {[ 20%nat := group_store; 21%nat := group_store;
                22%nat := SVec ∅ ]};
     calls := [] |}.

Lemma method_params_evaluated_once_per_frame_witness :
  let ev' : selid -> option gmx_ana_index_t -> M unit :=
    fun _ _ => throw InvalidMemoryAccess in
  let st := params_tree in
  let e := elem_at st 1%nat in
  let cs := [2%nat; 3%nat] in
  let g := Some (group_of None [0; 1]) in
  let st1 := final_state
               (_gmx_sel_evaluate_method_params (sel_evaluate frame_data 3) 3
                  1%nat g st) st in
  elems st !! 1%nat = Some e /\
  siblings st (child e) cs /\
  _gmx_sel_evaluate_method_params (sel_evaluate frame_data 3) 3 1%nat g st
    = Ok tt st1 /\
  calls st1 = [CallUpdate 2%nat None] /\
  Forall (frame_valued st) cs /\
  Forall (fun c => frame_valued st c -> settled st1 c) cs /\
  _gmx_sel_evaluate_method_params ev' 2 1%nat None st1 = Ok tt st1.
Proof.
  intros ev' st e cs g st1.
  assert (H1 : elems st !! 1%nat = Some e) by (vm_compute; reflexivity).
  assert (H2 : siblings st (child e) cs).
  { eapply (siblings_cons st 2%nat (elem_at st 2%nat));
      [vm_compute; reflexivity|].
    eapply (siblings_cons st 3%nat (elem_at st 3%nat));
      [vm_compute; reflexivity|].
    apply siblings_nil. }
  assert (H3 : Forall (frame_valued st) cs).
  { repeat constructor.
    - exists (elem_at st 2%nat). split; [vm_compute; reflexivity|].
      right. reflexivity.
    - exists (elem_at st 3%nat). split; [vm_compute; reflexivity|].
      left. reflexivity. }
  assert (H4 : _gmx_sel_evaluate_method_params (sel_evaluate frame_data 3) 3
                 1%nat g st = Ok tt st1) by (vm_compute; reflexivity).
  assert (H5 : (length cs <= 2)%nat) by (simpl; lia).
  split; [exact H1|]. split; [exact H2|]. split; [exact H4|].
  split; [vm_compute; reflexivity|]. split; [exact H3|].
  destruct (method_params_evaluated_once_per_frame frame_data 3 2 1%nat g
              None ev' e cs st st1 H1 H2 H4) as [Hset Hagain].
  split; [exact Hset|]. exact (Hagain H3 H5).
Defined.

Lemma method_callbacks_in_order_witness :
  let st := final_state (init_frame_eval 10 (Some 1%nat) params_tree)
                        params_tree in
  let g := Some (group_of None [0; 1]) in
  let st' := final_state
               (_gmx_sel_evaluate_method (sel_evaluate frame_data 3)
                  frame_data 3 1%nat g st) st in
  _gmx_sel_evaluate_method (sel_evaluate frame_data 3) frame_data 3 1%nat g st
    = Ok tt st' /\
  calls st' = [CallUpdate 2%nat None; CallInitFrame 1%nat;
               CallUpdate 1%nat g] /\
  exists st1 e1 x e',
    _gmx_sel_evaluate_method_params (sel_evaluate frame_data 3) 3 1%nat g st
      = Ok tt st1 /\
    elems st1 !! 1%nat = Some e1 /\ u e1 = U_expr x /\
    calls st'
    = calls st1
      ++ (if has_flag (flags e1) SEL_INITFRAME then [CallInitFrame 1%nat]
          else [])
      ++ [if pc x is Some _ then CallPUpdate 1%nat else CallUpdate 1%nat g] /\
    elems st' !! 1%nat = Some e' /\
    has_flag (flags e') SEL_INITFRAME = false.
Proof.
  intros st g st'.
  assert (H : _gmx_sel_evaluate_method (sel_evaluate frame_data 3) frame_data
                3 1%nat g st = Ok tt st') by (vm_compute; reflexivity).
  split; [exact H|]. split; [vm_compute; reflexivity|].
  exact (method_callbacks_in_order (sel_evaluate frame_data 3) frame_data 3
           1%nat g st st' H).
Defined.

(** ** References *)

(** A group-valued reference to a method that keeps the even atoms. *)
Definition ref_group_tree : evalstate :=
  {| elems := {[
       3%nat := mk_elem SEL_SUBEXPRREF (mk_value GROUP_VALUE (Some 12%nat)) 0
                  (Some 2%nat) None (Some EVAL_subexprref) false
                  (U_param (Some {| val_nr := 0; nvalptr := Some 0 |}));
       2%nat := mk_elem SEL_EXPRESSION (mk_value GROUP_VALUE (Some 11%nat)) 0
                  None None (Some EVAL_method) true
                  (U_expr {| method := Some (keep_method [0; 2; 4; 6]);
                             mdata := 0%nat; pc := None; pos := tt |}) ]};
     heap := {[ 11%nat := group_store; 12%nat := group_store ]};
     calls := [] |}.

Lemma subexprref_group_value_is_intersection_witness :
  let st := ref_group_tree in
  let g := group_of None [2; 3; 4] in
  let st' := final_state
               (_gmx_sel_evaluate_subexprref leaf_method 3%nat (Some g) st)
               st in
  _gmx_sel_evaluate_subexprref leaf_method 3%nat (Some g) st = Ok tt st' /\
  value_group st' 3%nat = Some (group_of None [2; 4]) /\
  exists c st1 e1 expr,
    sel_child 3%nat st = Ok c st /\
    leaf_method c (Some g) st = Ok tt st1 /\
    elems st1 !! 3%nat = Some e1 /\ child e1 = Some expr /\
    (vtype (v e1) = GROUP_VALUE ->
     exists eg vg,
       value_group st1 expr = Some eg /\
       value_group st' 3%nat = Some vg /\
       atoms vg = filter (λ x, x ∈ atoms g) (atoms eg) /\
       atomset vg = atomset eg ∩ atomset g).
Proof.
  intros st g st'.
  assert (H : _gmx_sel_evaluate_subexprref leaf_method 3%nat (Some g) st
              = Ok tt st') by (vm_compute; reflexivity).
  split; [exact H|]. split; [vm_compute; reflexivity|].
  exact (subexprref_group_value_is_intersection leaf_method 3%nat g st st' H).
Defined.

(** The reference of [ref_ready], feeding a parameter. *)
Definition ref_param_ready : evalstate :=
  {| elems :=
       <[3%nat := mk_elem SEL_SUBEXPRREF (mk_value INT_VALUE (Some 12%nat)) 0
                    (Some 1%nat) None (Some EVAL_subexprref) false
                    (U_param (Some {| val_nr := 0; nvalptr := Some 0 |}))]>
         (elems ref_ready);
     heap := heap ref_ready;
     calls := calls ref_ready |}.

(** A reference to a subexpression with a static evaluation group, which
    has been evaluated over [{0, 2, 4}]. *)
Definition ref_static_ready : evalstate :=
  let st :=
    {| elems :=
         <[3%nat := mk_elem SEL_SUBEXPRREF (mk_value INT_VALUE (Some 12%nat)) 0
                      (Some 1%nat) None (Some EVAL_subexprref) false
                      (U_param (Some {| val_nr := 0; nvalptr := Some 0 |}))]>
           (elems staticeval_tree);
       heap := <[12%nat := SVec ∅]> (heap staticeval_tree);
       calls := [] |} in
  final_state (call 5 1%nat (Some (named [0; 2; 4])) st) st.

Lemma subexprref_null_group_copies_values_witness :
  let ev : selid -> option gmx_ana_index_t -> M unit :=
    fun _ _ => throw InvalidMemoryAccess in
  let st := ref_static_ready in
  let e := elem_at st 3%nat in
  let ee := elem_at st 1%nat in
  let p := Some {| val_nr := 0; nvalptr := Some 0 |} in
  elems st !! 3%nat = Some e /\ child e = Some 1%nat /\
  elems st !! 1%nat = Some ee /\
  (vtype (v e) = INT_VALUE \/ vtype (v e) = REAL_VALUE \/
   vtype (v e) = STR_VALUE) /\
  u e = U_param p /\
  has_vec st 3%nat /\
  (forall j, 0 <= j < nr (v ee) -> is_Some (value_cell st 1%nat j)) /\
  nr (v ee) = 3 /\
  map (value_cell st 1%nat) [0; 1; 2]
    = [Some (IntV 0); Some (IntV 20); Some (IntV 40)] /\
  exists st',
    _gmx_sel_evaluate_subexprref ev 3%nat None st = Ok tt st' /\
    calls st' = calls st /\
    value_nr st' 3%nat = Some (nr (v ee)) /\
    (forall j, 0 <= j < nr (v ee) ->
       value_cell st' 3%nat j = value_cell st 1%nat j) /\
    (forall p0 e', p = Some p0 -> elems st' !! 3%nat = Some e' ->
       u e' = U_param (Some {| val_nr := nr (v ee);
                               nvalptr := if nvalptr p0 is Some _
                                          then Some (nr (v ee)) else None |})).
Proof.
  intros ev st e ee p.
  assert (H1 : elems st !! 3%nat = Some e) by (vm_compute; reflexivity).
  assert (H2 : child e = Some 1%nat) by reflexivity.
  assert (H3 : elems st !! 1%nat = Some ee) by (vm_compute; reflexivity).
  assert (H4 : vtype (v e) = INT_VALUE \/ vtype (v e) = REAL_VALUE \/
               vtype (v e) = STR_VALUE) by (left; reflexivity).
  assert (H5 : u e = U_param p) by (vm_compute; reflexivity).
  assert (H6 : has_vec st 3%nat).
  { eexists _, _. split; vm_compute; reflexivity. }
  assert (Hnr : nr (v ee) = 3) by (vm_compute; reflexivity).
  assert (H7 : forall j, 0 <= j < nr (v ee) ->
                         is_Some (value_cell st 1%nat j)).
  { intros j Hj. rewrite Hnr in Hj.
    assert (j = 0 \/ j = 1 \/ j = 2) as [-> | [-> | ->]]
      by lia; vm_compute; eexists; reflexivity. }
  split; [exact H1|]. split; [exact H2|]. split; [exact H3|].
  split; [exact H4|]. split; [exact H5|]. split; [exact H6|].
  split; [exact H7|]. split; [exact Hnr|].
  split; [vm_compute; reflexivity|].
  exact (subexprref_null_group_copies_values ev 3%nat 1%nat e ee p st
           H1 H2 H3 H4 H5 H6 H7).
Defined.

Lemma subexprref_records_value_count_witness :
  let st := ref_param_ready in
  let g := Some (group_of None [2; 6]) in
  let st' := final_state
               (_gmx_sel_evaluate_subexprref (call 4) 3%nat g st) st in
  _gmx_sel_evaluate_subexprref (call 4) 3%nat g st = Ok tt st' /\
  u (elem_at st' 3%nat) = U_param (Some {| val_nr := 2; nvalptr := Some 2 |}) /\
  exists e', elems st' !! 3%nat = Some e' /\
    forall p, u e' = U_param (Some p) ->
      val_nr p = nr (v e') /\ forall n, nvalptr p = Some n -> n = nr (v e').
Proof.
  intros st g st'.
  assert (H : _gmx_sel_evaluate_subexprref (call 4) 3%nat g st = Ok tt st')
    by (vm_compute; reflexivity).
  split; [exact H|]. split; [vm_compute; reflexivity|].
  exact (subexprref_records_value_count (call 4) 3%nat g st st'
           (or_introl H)).
Defined.

(** A reference to a subexpression used once: the method computes its
    values in the reference's own store. *)
Definition simple_ref_tree : evalstate :=
  {| elems := {[
       3%nat := mk_elem SEL_SUBEXPRREF (mk_value INT_VALUE (Some 12%nat)) 0
                  (Some 1%nat) None (Some EVAL_subexprref_simple) false
                  (U_param None);
       1%nat := mk_elem SEL_SUBEXPR (mk_value INT_VALUE None) 0
                  (Some 2%nat) None (Some EVAL_subexpr_simple) false
                  (U_cgrp (empty_group None));
       2%nat := mk_elem SEL_EXPRESSION (mk_value INT_VALUE None) 0
                  None None (Some EVAL_method) false
                  (U_expr {| method := Some times10; mdata := 0%nat;
                             pc := None; pos := tt |}) ]};
     heap := {[ 12%nat := SVec ∅ ]};
     calls := [] |}.

Lemma subexprref_simple_shares_store_witness :
  let st := simple_ref_tree in
  let g := group_of None [1; 3] in
  let st' := final_state (call 5 3%nat (Some g) st) st in
  _gmx_sel_evaluate_subexprref_simple (call 4) 3%nat (Some g) st = Ok tt st' /\
  map (value_cell st' 3%nat) [0; 1] = [Some (IntV 10); Some (IntV 30)] /\
  (exists c cc st1 st2 c2 e2,
     sel_child 3%nat st = Ok c st /\ sel_child c st = Ok cc st /\
     sel_ptr st1 c = sel_ptr st 3%nat /\ sel_ptr st1 cc = sel_ptr st 3%nat /\
     (forall x, x <> c -> x <> cc -> elems st1 !! x = elems st !! x) /\
     heap st1 = heap st /\ calls st1 = calls st /\
     call 4 c (Some g) st1 = Ok tt st2 /\
     sel_child 3%nat st2 = Ok c2 st2 /\ elems st2 !! c2 = Some e2 /\
     value_nr st' 3%nat = Some (nr (v e2)) /\
     heap st' = heap st2 /\ calls st' = calls st2) /\
  forall ev', _gmx_sel_evaluate_subexprref_simple ev' 3%nat None st
              = _gmx_sel_evaluate_subexprref_simple (call 4) 3%nat None st.
Proof.
  intros st g st'.
  assert (H : _gmx_sel_evaluate_subexprref_simple (call 4) 3%nat (Some g) st
              = Ok tt st') by (vm_compute; reflexivity).
  split; [exact H|]. split; [vm_compute; reflexivity|].
  exact (subexprref_simple_shares_store (call 4) 3%nat g st st' H).
Defined.

(** ** Arithmetic in place *)

(** Both operands come from the pool and have one value per atom; the
    left one is evaluated in the element's own array. *)
Definition arith_inplace_tree (op : e_arithmetic_t) (right : option selid)
  : evalstate :=
  {| elems := {[
       1%nat := mk_elem SEL_ARITHMETIC (mk_value REAL_VALUE (Some 10%nat)) 0
                  (Some 2%nat) None (Some EVAL_arithmetic) false
                  (U_arith op);
       2%nat := mk_elem SEL_EXPRESSION (mk_value REAL_VALUE None)
                  SEL_ATOMVAL None right (Some EVAL_method) true
                  (U_expr {| method := Some (const_method [2; 3; 4]);
                             mdata := 0%nat; pc := None; pos := tt |});
       3%nat := mk_elem SEL_EXPRESSION (mk_value REAL_VALUE None)
                  SEL_ATOMVAL None None (Some EVAL_method) true
                  (U_expr {| method := Some (const_method [3; 2; 5]);
                             mdata := 0%nat; pc := None; pos := tt |}) ]};
     heap := {[ 10%nat := SVec ∅ ]};
     calls := [] |}.

Example arith_inplace_result :
  map (value_cell (final_state
                     (arith_run (arith_inplace_tree ARITH_MULT (Some 3%nat)))
                     (arith_inplace_tree ARITH_MULT (Some 3%nat))) 1%nat)
      [0; 1; 2]
  = [Some (RealV 6); Some (RealV 6); Some (RealV 20)] /\
  map (value_cell (final_state
                     (arith_run (arith_inplace_tree ARITH_NEG None))
                     (arith_inplace_tree ARITH_NEG None)) 1%nat)
      [0; 1; 2]
  = [Some (RealV (-2)); Some (RealV (-3)); Some (RealV (-4))].
Proof. split; vm_compute; reflexivity. Qed.

Lemma arithmetic_elementwise_witness :
  let g := group_of None [0; 1; 2] in
  let st := arith_inplace_tree ARITH_MULT (Some 3%nat) in
  let st' := final_state (arith_run st) st in
  _gmx_sel_evaluate_arithmetic (call 4) 4 1%nat (Some g) st = Ok tt st' /\
  exists lft le guards st_a st_c f n op,
    sel_child 1%nat st = Ok lft st /\
    elems st !! lft = Some le /\
    arith_guards 1%nat lft le (Some g) st = Ok guards st_a /\
    _gmx_sel_evaluate_children (call 4) 4 1%nat (Some g) st_a = Ok tt st_c /\
    elem_flags st_c 1%nat = Some f /\
    n = (if has_flag f SEL_SINGLEVAL then 1 else isize g) /\
    sel_arith 1%nat st_c = Ok op st_c /\
    forall rgt lf rf,
      next le = Some rgt -> lft <> 1%nat -> rgt <> 1%nat ->
      op <> ARITH_NEG ->
      elem_flags st_c lft = Some lf -> has_flag lf SEL_SINGLEVAL = false ->
      elem_flags st_c rgt = Some rf -> has_flag rf SEL_SINGLEVAL = false ->
      (mempool le = true -> sel_ptr st_c 1%nat <> sel_ptr st_c rgt) ->
      forall i lv rv, 0 <= i < n ->
        value_cell st_c lft i = Some (RealV lv) ->
        value_cell st_c rgt i = Some (RealV rv) ->
        value_cell st' 1%nat i = Some (RealV (arith_apply op lv rv)).
Proof.
  intros g st st'.
  assert (H : _gmx_sel_evaluate_arithmetic (call 4) 4 1%nat (Some g) st
              = Ok tt st') by (vm_compute; reflexivity).
  split; [exact H|].
  exact (arithmetic_elementwise (call 4) 4 1%nat g st st' H).
Defined.

Lemma arithmetic_negation_witness :
  let g := group_of None [0; 1; 2] in
  let st := arith_inplace_tree ARITH_NEG None in
  let st' := final_state (arith_run st) st in
  _gmx_sel_evaluate_arithmetic (call 4) 4 1%nat (Some g) st = Ok tt st' /\
  exists lft le guards st_a st_c f n,
    sel_child 1%nat st = Ok lft st /\
    elems st !! lft = Some le /\
    arith_guards 1%nat lft le (Some g) st = Ok guards st_a /\
    _gmx_sel_evaluate_children (call 4) 4 1%nat (Some g) st_a = Ok tt st_c /\
    elem_flags st_c 1%nat = Some f /\
    n = (if has_flag f SEL_SINGLEVAL then 1 else isize g) /\
    forall lf,
      sel_arith 1%nat st_c = Ok ARITH_NEG st_c ->
      lft <> 1%nat -> next le <> Some 1%nat ->
      elem_flags st_c lft = Some lf -> has_flag lf SEL_SINGLEVAL = false ->
      (forall r, mempool le = true -> next le = Some r ->
                 sel_ptr st_c 1%nat <> sel_ptr st_c r) ->
      forall i lv, 0 <= i < n ->
        value_cell st_c lft i = Some (RealV lv) ->
        value_cell st' 1%nat i = Some (RealV (real_neg lv)).
Proof.
  intros g st st'.
  assert (H : _gmx_sel_evaluate_arithmetic (call 4) 4 1%nat (Some g) st
              = Ok tt st') by (vm_compute; reflexivity).
  split; [exact H|].
  exact (arithmetic_negation (call 4) 4 1%nat g st st' H).
Defined.

(** ** Names *)

Lemma evalfunc_names_are_distinct_witness :
  let pp : Z -> string := fun _ => "0x0"%string in
  let x := Fknown EVAL_subexpr in
  (forall a, x <> Fother a) /\
  _gmx_sel_print_evalfunc_name pp "eval: " x = "eval: subexpr"%string /\
  (_gmx_sel_print_evalfunc_name pp "eval: " x
   = _gmx_sel_print_evalfunc_name pp "eval: " x -> x = x).
Proof.
  intros pp x.
  assert (H : forall a, x <> Fother a) by (intros a; discriminate).
  split; [exact H|]. split; [reflexivity|].
  exact (evalfunc_names_are_distinct pp "eval: " x x H H).
Defined.
